(** * ISDF with lattice-translation symmetry (pyscf/pbc/df/isdf)

    A shallow embedding of the index-level code of [isdf_k.py],
    [isdf_linear_scaling_k.py] and [test/test_isdf_fast.py], and the
    properties of it that the specification states.

    Python integers are [Z]; [//] and [%] are [Z.div] and [Z.modulo] (both
    round towards minus infinity, as Python's do).  A NumPy matrix is a list
    of rows; its entries live in a type [F] with the arithmetic of a dtype
    (class [Numeric]); [float64] is the instance of IEEE binary64 numbers.
    Code that can raise returns [option] or a result with the exception. *)

From Stdlib Require Import ZArith Lia Floats.
From stdpp Require Import base option list gmap sorting.

Local Open Scope Z_scope.
#[local] Set Warnings "-inexact-float".

(** ** Part I: the embedding *)

(** *** Python and NumPy primitives *)

(** [range(n)] *)
Definition range (n : Z) : list Z := seqZ 0 n.

(** [for i in l: s = body(i, s)], where the body may raise. *)
Definition for_ {A S : Type} (l : list A) (body : A → S → option S) (s : S)
  : option S :=
  fold_left (λ acc i, acc ≫= body i) l (Some s).

(** A lattice-translation count vector [Ls], a mesh, or a point of either. *)
Definition triple : Type := Z * Z * Z.

(** [np.prod(Ls)] *)
Definition np_prod (Ls : triple) : Z :=
  let '(l0, l1, l2) := Ls in l0 * l1 * l2.

(** The cells of the lattice in the order of three nested loops
    [for ix in range(Ls[0]): for iy in range(Ls[1]): for iz in range(Ls[2])]. *)
Definition cells (Ls : triple) : list triple :=
  let '(l0, l1, l2) := Ls in
  ix ← range l0; iy ← range l1; iz ← range l2; [(ix, iy, iz)].

(** [ix * Ls[1] * Ls[2] + iy * Ls[2] + iz], the row-major index of a cell. *)
Definition ravel (Ls : triple) (p : triple) : Z :=
  let '(_, l1, l2) := Ls in
  let '(ix, iy, iz) := p in
  ix * l1 * l2 + iy * l2 + iz.

(** The translation difference [(a - b) % Ls] and sum [(a + b) % Ls] of two
    cells, component by component. *)
Definition cell_diff (Ls a b : triple) : triple :=
  let '(l0, l1, l2) := Ls in
  let '(ax, ay, az) := a in
  let '(bx, by_, bz) := b in
  ((ax - bx) mod l0, (ay - by_) mod l1, (az - bz) mod l2).

Definition cell_add (Ls a b : triple) : triple :=
  let '(l0, l1, l2) := Ls in
  let '(ax, ay, az) := a in
  let '(bx, by_, bz) := b in
  ((ax + bx) mod l0, (ay + by_) mod l1, (az + bz) mod l2).

(** The reflected and shifted cell [(Ls - a - s) % Ls]. *)
Definition cell_reflect (Ls s a : triple) : triple :=
  let '(l0, l1, l2) := Ls in
  let '(sx, sy, sz) := s in
  let '(ax, ay, az) := a in
  ((l0 - ax - sx) mod l0, (l1 - ay - sy) mod l1, (l2 - az - sz) mod l2).

(** The arithmetic of a NumPy dtype.  [norm] and [vdot] stand for
    [np.linalg.norm] and [np.dot] on vectors, whose order of summation NumPy
    does not fix. *)
Class Numeric (F : Type) := {
  f0 : F;
  fadd : F → F → F;
  fsub : F → F → F;
  fmul : F → F → F;
  fdiv : F → F → F;
  fleb : F → F → bool;
  fltb : F → F → bool;
  of_int : Z → F;
  norm : list F → F;
  vdot : list F → list F → F;
  (** [dtype == np.float64] and [np.iscomplexobj] *)
  dtype_float64 : bool;
  dtype_complex : bool
}.

(** IEEE binary64, the dtype [np.float64]. *)
Definition float_of_int (z : Z) : float :=
  if z <? 0 then PrimFloat.opp (PrimFloat.of_uint63 (Uint63.of_Z (- z)))
  else PrimFloat.of_uint63 (Uint63.of_Z z).

Definition float_sum (v : list float) : float :=
  fold_left PrimFloat.add v PrimFloat.zero.

#[export] Instance float64 : Numeric float := {
  f0 := PrimFloat.zero;
  fadd := PrimFloat.add;
  fsub := PrimFloat.sub;
  fmul := PrimFloat.mul;
  fdiv := PrimFloat.div;
  fleb := PrimFloat.leb;
  fltb := PrimFloat.ltb;
  of_int := float_of_int;
  norm := λ v, PrimFloat.sqrt (float_sum ((λ x, PrimFloat.mul x x) <$> v));
  vdot := λ a b, float_sum (zip_with PrimFloat.mul a b);
  dtype_float64 := true;
  dtype_complex := false
}.

(** *** Matrices *)

(** A 2-d array in C order: the list of its rows. *)
Abbreviation matrix F := (list (list F)).

Section Matrix.
Context {F : Type} `{Numeric F}.

(** [np.zeros((r, c))] *)
Definition zeros (r c : Z) : matrix F :=
  replicate (Z.to_nat r) (replicate (Z.to_nat c) f0).

(** [m.shape == (r, c)] *)
Definition has_shape (r c : Z) (m : matrix F) : Prop :=
  Z.of_nat (length m) = r ∧ Forall (λ row, Z.of_nat (length row) = c) m.

(** [m[i, j]] for [0 <= i], [0 <= j]; [None] is an IndexError. *)
Definition mat_get (m : matrix F) (i j : Z) : option F :=
  if decide (0 ≤ i ∧ 0 ≤ j) then m !! Z.to_nat i ≫= (.!! Z.to_nat j) else None.

(** [l[b:e]] for [0 <= b]: a slice is clipped to the list. *)
Definition slice {A : Type} (l : list A) (b e : Z) : list A :=
  take (Z.to_nat e - Z.to_nat b) (drop (Z.to_nat b) l).

(** [m[b0:b1, k0:k1]] *)
Definition block (m : matrix F) (b0 b1 k0 k1 : Z) : matrix F :=
  (λ row : list F, slice row k0 k1) <$> slice m b0 b1.

(** Two arrays have the same shape. *)
Definition same_shape (a b : matrix F) : Prop :=
  Forall2 (λ r s, length r = length s) a b.

#[export] Instance same_shape_dec a b : Decision (same_shape a b).
Proof. unfold same_shape. apply Forall2_dec. intros; apply _. Defined.

(** Rows [b0 ..] of [m] get their columns [k0 ..] overwritten by [blk]. *)
Definition set_block (m : matrix F) (b0 k0 : Z) (blk : matrix F) : matrix F :=
  imap (λ i row,
          match blk !! (i - Z.to_nat b0)%nat with
          | Some r =>
              if decide (Z.to_nat b0 ≤ i)%nat
              then list_inserts (Z.to_nat k0) r row else row
          | None => row
          end) m.

(** [m[b0:b1, k0:k1] = blk]; NumPy refuses a value of another shape
    ([None]: ValueError; it would broadcast a row or a column, which no
    caller in this file passes). *)
Definition assign_block (m : matrix F) (b0 b1 k0 k1 : Z) (blk : matrix F)
  : option (matrix F) :=
  if decide (same_shape blk (block m b0 b1 k0 k1))
  then Some (set_block m b0 k0 blk) else None.

(** [a += b], entry by entry; the shapes must agree. *)
Definition add_inplace (a b : matrix F) : option (matrix F) :=
  if decide (same_shape b a)
  then Some (zip_with (zip_with fadd) a b) else None.

(** [a /= n] for an integer [n]. *)
Definition div_inplace (a : matrix F) (n : Z) : matrix F :=
  (λ row : list F, (λ x : F, fdiv x (of_int n)) <$> row) <$> a.

(** [m[i, j]] where it exists. *)
Definition mat_at (m : matrix F) (i j : Z) : F := default f0 (mat_get m i j).

(** The primitive-cell block of [m] at the block indices [(R, C)], for
    blocks of [n] rows and columns:
    [m[R*n:(R+1)*n, C*n:(C+1)*n]]. *)
Definition prim_block (m : matrix F) (n R C : Z) : matrix F :=
  block m (R * n) ((R + 1) * n) (C * n) ((C + 1) * n).

End Matrix.

(** *** [_pack_JK] (isdf_k.py) *)

Section PackJK.
Context {F : Type} `{Numeric F}.

(** The body of the six nested loops: one block of [input_mat] is copied to
    the block (row, col) of [output]. *)
Definition _pack_JK_body (input_mat : matrix F) (Ls : triple) (nao_prim : Z)
    (row col : triple) (output : matrix F) : option (matrix F) :=
  let '(l0, l1, l2) := Ls in
  let '(ix_row, iy_row, iz_row) := row in
  let '(ix_col, iy_col, iz_col) := col in
  let loc_row := ix_row * l1 * l2 + iy_row * l2 + iz_row in
  let b_begin := loc_row * nao_prim in
  let b_end := (loc_row + 1) * nao_prim in
  let loc_col := ix_col * l1 * l2 + iy_col * l2 + iz_col in
  let k_begin := loc_col * nao_prim in
  let k_end := (loc_col + 1) * nao_prim in
  let ix := (ix_col - ix_row) mod l0 in
  let iy := (iy_col - iy_row) mod l1 in
  let iz := (iz_col - iz_row) mod l2 in
  let loc_col2 := ix * l1 * l2 + iy * l2 + iz in
  let k_begin2 := loc_col2 * nao_prim in
  let k_end2 := (loc_col2 + 1) * nao_prim in
  assign_block output b_begin b_end k_begin k_end
    (block input_mat 0 (Z.of_nat (length input_mat)) k_begin2 k_end2).

(** Three nested [for] loops over the cells of the lattice. *)
Definition for_cells {S : Type} (Ls : triple)
    (body : triple → S → option S) (s : S) : option S :=
  let '(l0, l1, l2) := Ls in
  for_ (range l0) (λ ix,
    for_ (range l1) (λ iy,
      for_ (range l2) (λ iz, body (ix, iy, iz)))) s.

(** [_pack_JK(input_mat, Ls, nao_prim, output=None)]; [None] is a failed
    [assert] or a NumPy error. *)
Definition _pack_JK (input_mat : matrix F) (Ls : triple) (nao_prim : Z)
  : option (matrix F) :=
  let ncell := np_prod Ls in
  if dtype_float64 && bool_decide (has_shape nao_prim (nao_prim * ncell) input_mat)
  then
    if decide (0 ≤ ncell * nao_prim) then
      let output := zeros (ncell * nao_prim) (ncell * nao_prim) in
      for_cells Ls (λ row,
        for_cells Ls (λ col,
          _pack_JK_body input_mat Ls nao_prim row col)) output
    else None
  else None.

(** What the loops of [_pack_JK] have established once the pairs [done]
    have been handled. *)
Definition _pack_JK_inv (input_mat : matrix F) (Ls : triple) (nao_prim : Z)
    (done : list (triple * triple)) (output : matrix F) : Prop :=
  has_shape (np_prod Ls * nao_prim) (np_prod Ls * nao_prim) output ∧
  ∀ row col a b, (row, col) ∈ done →
    0 ≤ a < nao_prim → 0 ≤ b < nao_prim →
    mat_get output (ravel Ls row * nao_prim + a) (ravel Ls col * nao_prim + b)
    = mat_get input_mat a (ravel Ls (cell_diff Ls col row) * nao_prim + b).

End PackJK.

(** *** [_symmetrize_dm] (isdf_k.py) *)

Section SymmetrizeDM.
Context {F : Type} `{Numeric F}.

(** The first inner loop nest: the block of [dm] at (row, shift + row) is
    added to [dm_symmized_buf]. *)
Definition _symmetrize_dm_sum (dm : matrix F) (Ls : triple) (nao_prim : Z)
    (shift row : triple) (dm_symmized_buf : matrix F) : option (matrix F) :=
  let '(l0, l1, l2) := Ls in
  let '(i, j, k) := shift in
  let '(i_row, j_row, k_row) := row in
  let loc_row := i_row * l1 * l2 + j_row * l2 + k_row in
  let loc_col :=
    ((i + i_row) mod l0) * l1 * l2 + ((j + j_row) mod l1) * l2
    + (k + k_row) mod l2 in
  let b_begin := loc_row * nao_prim in
  let b_end := (loc_row + 1) * nao_prim in
  let k_begin := loc_col * nao_prim in
  let k_end := (loc_col + 1) * nao_prim in
  add_inplace dm_symmized_buf (block dm b_begin b_end k_begin k_end).

(** The second inner loop nest: [dm_symmized_buf] is stored at the block
    (row, shift + row) of [dm_symm]. *)
Definition _symmetrize_dm_store (Ls : triple) (nao_prim : Z)
    (dm_symmized_buf : matrix F) (shift row : triple) (dm_symm : matrix F)
  : option (matrix F) :=
  let '(l0, l1, l2) := Ls in
  let '(i, j, k) := shift in
  let '(i_row, j_row, k_row) := row in
  let loc_row := i_row * l1 * l2 + j_row * l2 + k_row in
  let loc_col :=
    ((i + i_row) mod l0) * l1 * l2 + ((j + j_row) mod l1) * l2
    + (k + k_row) mod l2 in
  let b_begin := loc_row * nao_prim in
  let b_end := (loc_row + 1) * nao_prim in
  let k_begin := loc_col * nao_prim in
  let k_end := (loc_col + 1) * nao_prim in
  assign_block dm_symm b_begin b_end k_begin k_end dm_symmized_buf.

(** [_symmetrize_dm(dm, Ls)].  [ncell] is a NumPy integer, for which
    [nao // 0] is [0]. *)
Definition _symmetrize_dm (dm : matrix F) (Ls : triple) : option (matrix F) :=
  let ncell := np_prod Ls in
  let nao := Z.of_nat (length dm) in
  let nao_prim := nao / ncell in
  let dm_symm := zeros nao nao in
  for_cells Ls (λ shift dm_symm,
    let dm_symmized_buf := zeros nao_prim nao_prim in
    dm_symmized_buf ←
      for_cells Ls (_symmetrize_dm_sum dm Ls nao_prim shift) dm_symmized_buf;
    let dm_symmized_buf := div_inplace dm_symmized_buf ncell in
    for_cells Ls (_symmetrize_dm_store Ls nao_prim dm_symmized_buf shift)
      dm_symm) dm_symm.

(** The average over the lattice of the blocks of [dm] at the translation
    difference [d]: the sum over all block rows [r], in loop order, of the
    blocks at [(r, d + r)], divided by the number of cells. *)
Definition shift_average (dm : matrix F) (Ls : triple) (n : Z) (d : triple)
  : matrix F :=
  div_inplace
    (fold_left (zip_with (zip_with fadd))
       ((λ r, prim_block dm n (ravel Ls r) (ravel Ls (cell_add Ls d r)))
          <$> cells Ls)
       (zeros n n))
    (np_prod Ls).

(** [x] summed [n] times from zero, in the order of the loop, and divided
    by [n]: what a second pass of the average computes from [n] equal
    entries. *)
Definition average_of_copies (n : Z) (x : F) : F :=
  fdiv (fold_left fadd (replicate (Z.to_nat n) x) f0) (of_int n).

(** [dm] is invariant under the lattice translations: its block at
    (row, col) depends only on the translation difference. *)
Definition block_circulant (dm : matrix F) (Ls : triple) (n : Z) : Prop :=
  ∀ row col row' col',
    row ∈ cells Ls → col ∈ cells Ls → row' ∈ cells Ls → col' ∈ cells Ls →
    cell_diff Ls col row = cell_diff Ls col' row' →
    prim_block dm n (ravel Ls row) (ravel Ls col)
    = prim_block dm n (ravel Ls row') (ravel Ls col').

End SymmetrizeDM.

(** *** [_permutation] (inside [_construct_aux_basis_kSym], isdf_k.py) *)

(** A Python integer stored in an array of dtype [numpy.int32]: the low 32
    bits, read as a signed number. *)
Definition int32 (z : Z) : Z := (z + 2 ^ 31) mod 2 ^ 32 - 2 ^ 31.

(** The body of the three nested loops; the state is [(res, loc_now)].
    [None] is an IndexError. *)
Definition _permutation_body (nx ny nz shift_x shift_y shift_z : Z)
    (i : triple) (st : list Z * Z) : option (list Z * Z) :=
  let '(ix, iy, iz) := i in
  let '(res, loc_now) := st in
  let ix2 := (nx - ix - shift_x) mod nx in
  let iy2 := (ny - iy - shift_y) mod ny in
  let iz2 := (nz - iz - shift_z) mod nz in
  let loc := ix2 * ny * nz + iy2 * nz + iz2 in
  if decide (0 ≤ loc < Z.of_nat (length res))
  then Some (<[Z.to_nat loc := int32 loc_now]> res, loc_now + 1)
  else None.

(** [_permutation(nx, ny, nz, shift_x, shift_y, shift_z)]; [np.zeros]
    refuses a negative size. *)
Definition _permutation (nx ny nz shift_x shift_y shift_z : Z)
  : option (list Z) :=
  if decide (0 ≤ nx * ny * nz) then
    let res := replicate (Z.to_nat (nx * ny * nz)) 0 in
    let loc_now := 0 in
    st ← for_cells (nx, ny, nz)
           (_permutation_body nx ny nz shift_x shift_y shift_z) (res, loc_now);
    Some st.1
  else None.

(** *** [PBC_ISDF_Info_kSym.select_IP] (isdf_k.py) *)

(** The primitive-cell ravel index [pnt_prim_ravel_id] of a grid point of
    the supercell, as the loop over [IP_GlobalID] computes it.  The mesh is
    divisible by [Ls] (the constructor asserts it), so no modulus is zero. *)
Definition pnt_prim_ravel_id (mesh Ls : triple) (grid_id : Z) : Z :=
  let '(m0, m1, m2) := mesh in
  let '(l0, l1, l2) := Ls in
  let mesh_prim := (m0 / l0, m1 / l1, m2 / l2) in
  let '(mp0, mp1, mp2) := mesh_prim in
  let pnt_id := (grid_id / (m1 * m2), (grid_id / m2) mod m1, grid_id mod m2) in
  let '(p0, p1, p2) := pnt_id in
  let pnt_prim_id := (p0 mod mp0, p1 mod mp1, p2 mod mp2) in
  let '(q0, q1, q2) := pnt_prim_id in
  q0 * mp1 * mp2 + q1 * mp2 + q2.

(** The value that [select_IP] returns, from the grid points
    [IP_GlobalID] that [_select_IP_direct] selected: their primitive-cell
    indices, [list(set(...))], [.sort()], and
    [np.array(possible_grid_ID, dtype=np.int32)].  (The method also stores
    the orbitals at these points in [self].) *)
Definition select_IP (mesh Ls : triple) (IP_GlobalID : list Z) : list Z :=
  let possible_grid_ID := pnt_prim_ravel_id mesh Ls <$> IP_GlobalID in
  let possible_grid_ID := elements (list_to_set possible_grid_ID : gset Z) in
  let possible_grid_ID := merge_sort Z.le possible_grid_ID in
  int32 <$> possible_grid_ID.

(** The grid point of the supercell that is the image of the point [p] of
    the primitive cell in the box [b]. *)
Definition translation_image (mesh_prim Ls p b : triple) : Z :=
  let '(mp0, mp1, mp2) := mesh_prim in
  let '(l0, l1, l2) := Ls in
  let '(x, y, z) := p in
  let '(bx, by_, bz) := b in
  ravel (mp0 * l0, mp1 * l1, mp2 * l2)
    (x + bx * mp0, y + by_ * mp1, z + bz * mp2).

(** *** Exceptions and the calls a function makes *)

Inductive exn : Type :=
  | AssertionError
  | NotImplementedError
  | AttributeError
  | TypeError
  | ValueError
  | NameError.

(** The calls that a function makes to the steps outside it, in order. *)
Inductive event (F : Type) : Type :=
  | Call_super_init
  | Call_grids_coords
  | Call_extract_grid_primitive_cell
  | Call_eval_ao
  | Call_allocate_jk_buffer
  | Call_get_j_kSym (dm : matrix F)
  | Call_get_k_kSym (dm : matrix F).

Arguments Call_super_init {F}.
Arguments Call_grids_coords {F}.
Arguments Call_extract_grid_primitive_cell {F}.
Arguments Call_eval_ao {F}.
Arguments Call_allocate_jk_buffer {F}.
Arguments Call_get_j_kSym {F} dm.
Arguments Call_get_k_kSym {F} dm.

(** A run: the calls made so far, and the exception raised or the value. *)
Definition run (F A : Type) : Type := list (event F) * (exn + A).

Definition ret {F A : Type} (x : A) : run F A := ([], inr x).

Definition raise {F A : Type} (e : exn) : run F A := ([], inl e).

Definition call {F : Type} (ev : event F) : run F unit := ([ev], inr tt).

Definition bind {F A B : Type} (m : run F A) (k : A → run F B) : run F B :=
  match m with
  | (t, inl e) => (t, inl e)
  | (t, inr x) => let '(t', r) := k x in (t ++ t', r)
  end.

Arguments bind {F A B} m k : simpl never.

Declare Scope run_scope.
Delimit Scope run_scope with run.
Notation "x <- m ;; k" := (bind m (λ x, k))
  (at level 100, m at next level, right associativity) : run_scope.
Notation "m ;; k" := (bind m (λ _, k))
  (at level 100, right associativity) : run_scope.

(** [assert b] *)
Definition assert_ {F : Type} (b : bool) : run F unit :=
  if b then ret tt else raise AssertionError.

(** The value of a NumPy step, or the exception [e] it raises. *)
Definition or_raise {F A : Type} (e : exn) (o : option A) : run F A :=
  match o with Some x => ret x | None => raise e end.

(** The calls and the outcome of a run. *)
Definition calls {F A : Type} (m : run F A) : list (event F) := m.1.
Definition outcome {F A : Type} (m : run F A) : exn + A := m.2.

(** A J or K contraction. *)
Definition is_contraction {F : Type} (ev : event F) : bool :=
  match ev with
  | Call_get_j_kSym _ | Call_get_k_kSym _ => true
  | _ => false
  end.

(** *** The constructors (isdf_k.py, isdf_linear_scaling_k.py) *)

(** What the constructors meet outside these sources: the constructor of
    the parent class, which is not among them and does what it does with
    [mol], [aoR], [outcore] and [max_buf_memory] before it sets [self.mesh]
    and [self.coords] or raises; and the steps of the constructor's own
    body, each of which returns or raises. *)
Record init_env : Type := {
  super_init : exn + (triple * bool);   (** [(self.mesh, self.coords is None)] *)
  grids_coords : exn + unit;            (** [MultiGridFFTDF2(cell).grids.coords] *)
  extract_grid_primitive_cell : exn + unit;
  eval_ao : exn + unit
}.

(** [a % b] of NumPy integers, as the components of [self.mesh] and of
    [cell.mesh] are: a divisor 0 gives 0 (with a warning), as it does for
    [a // b]. *)
Definition np_mod (a b : Z) : Z := if b =? 0 then 0 else a mod b.

(** The test of the three assertions of the constructors,
    [self.mesh[i] % Ls[i] == 0] on every axis. *)
Definition divisible (mesh Ls : triple) : Prop :=
  let '(m0, m1, m2) := mesh in
  let '(l0, l1, l2) := Ls in
  np_mod m0 l0 = 0 ∧ np_mod m1 l1 = 0 ∧ np_mod m2 l2 = 0.

(** A call that returns or raises. *)
Definition step {F A : Type} (ev : event F) (r : exn + A) : run F A :=
  ([ev], r).

(** [PBC_ISDF_Info_kSym.__init__(self, mol, max_buf_memory, Ls, outcore,
    with_robust_fitting, aoR)]; the value is [self.mesh]. *)
Definition PBC_ISDF_Info_kSym_init {F : Type} (env : init_env) (Ls : triple)
    (outcore with_robust_fitting : bool) : run F triple :=
  (self <- step Call_super_init (super_init env);;
   let '(mesh, coords_is_None) := self in
   let '(m0, m1, m2) := mesh in
   let '(l0, l1, l2) := Ls in
   assert_ (negb with_robust_fitting);;
   assert_ (bool_decide (np_mod m0 l0 = 0));;
   assert_ (bool_decide (np_mod m1 l1 = 0));;
   assert_ (bool_decide (np_mod m2 l2 = 0));;
   (if coords_is_None then step Call_grids_coords (grids_coords env)
    else ret tt);;
   step Call_extract_grid_primitive_cell (extract_grid_primitive_cell env);;
   (if outcore then ret tt else step Call_eval_ao (eval_ao env));;
   ret mesh)%run.

(** The steps of [PBC_ISDF_Info_kSym.__init__] after its assertions. *)
Definition kSym_init_steps {F : Type} (env : init_env) (mesh : triple)
    (coords_is_None outcore : bool) : run F triple :=
  ((if coords_is_None then step Call_grids_coords (grids_coords env)
    else ret tt);;
   step Call_extract_grid_primitive_cell (extract_grid_primitive_cell env);;
   (if outcore then ret tt else step Call_eval_ao (eval_ao env));;
   ret mesh)%run.

(** [PBC_ISDF_Info_Quad_K.__init__(self, mol, with_robust_fitting, Ls,
    ...)]; [Ls] defaults to [None], which cannot be indexed.  After the
    assertions the constructor looks up [ISDF_K.build_primitive_cell], and
    the module isdf_k defines [build_supercell] but no
    [build_primitive_cell]: the lookup raises, before the call and before
    [self.nao_prim] is set. *)
Definition PBC_ISDF_Info_Quad_K_init {F : Type} (env : init_env)
    (Ls : option triple) : run F triple :=
  (self <- step Call_super_init (super_init env);;
   let '(mesh, _) := self in
   let '(m0, m1, m2) := mesh in
   Ls <- or_raise TypeError Ls;;
   let '(l0, l1, l2) := Ls in
   assert_ (bool_decide (np_mod m0 l0 = 0));;
   assert_ (bool_decide (np_mod m1 l1 = 0));;
   assert_ (bool_decide (np_mod m2 l2 = 0));;
   raise AttributeError)%run.

(** *** The ISDF object and its collaborators *)

(** The attributes of [mydf] that the J/K code reads.  [W] and [W0] exist
    once [_construct_W_incore] has run. *)
Module mydf.
Record t (F : Type) : Type := mk {
  Ls : triple;
  outcore : bool;
  with_robust_fitting : bool;
  jk_buffer : option (list F);
  cell_nao : Z;
  cell_mesh : triple;
  cell_vol : F;
  nIP_Prim : Z;
  nGridPrim : Z;
  aoRg_Prim : matrix F;
  W : option (matrix F);
  W0 : option (matrix F)
}.
Arguments mk {F}.
Arguments Ls {F}.
Arguments outcore {F}.
Arguments with_robust_fitting {F}.
Arguments jk_buffer {F}.
Arguments cell_nao {F}.
Arguments cell_mesh {F}.
Arguments cell_vol {F}.
Arguments nIP_Prim {F}.
Arguments nGridPrim {F}.
Arguments aoRg_Prim {F}.
Arguments W {F}.
Arguments W0 {F}.

Definition set_jk_buffer {F} (b : list F) (df : t F) : t F :=
  mk (Ls df) (outcore df) (with_robust_fitting df) (Some b) (cell_nao df)
     (cell_mesh df) (cell_vol df) (nIP_Prim df) (nGridPrim df) (aoRg_Prim df) (W df) (W0 df).

Definition set_W {F} (w : matrix F) (df : t F) : t F :=
  mk (Ls df) (outcore df) (with_robust_fitting df) (jk_buffer df) (cell_nao df)
     (cell_mesh df) (cell_vol df) (nIP_Prim df) (nGridPrim df) (aoRg_Prim df) (Some w) (W0 df).

Definition set_W0 {F} (w0 : matrix F) (df : t F) : t F :=
  mk (Ls df) (outcore df) (with_robust_fitting df) (jk_buffer df) (cell_nao df)
     (cell_mesh df) (cell_vol df) (nIP_Prim df) (nGridPrim df) (aoRg_Prim df) (W df) (Some w0).
End mydf.

(** The density-matrix argument: a matrix, or a 3-index array. *)
Inductive dm_arg (F : Type) : Type :=
  | Dm2 (dm : matrix F)
  | Dm3 (dms : list (matrix F)).
Arguments Dm2 {F} dm.
Arguments Dm3 {F} dms.

(** What the code meets outside its functions: the kernels of [pyscf.lib]
    and [libpbc], [gamma_point], and the global name [ngrids] of the module
    isdf_k. *)
Class Kernels (F : Type) := {
  (** [lib.ddot(a, b)], the matrix product *)
  ddot : matrix F → matrix F → matrix F;
  (** [lib.multiply_sum_isdf(a, b)], the column sums of [a * b] *)
  multiply_sum_isdf : matrix F → matrix F → list F;
  (** [lib.d_ij_j_ij(a, v)], the columns of [a] scaled by [v] *)
  d_ij_j_ij : matrix F → list F → matrix F;
  (** [lib.ddot_withbuffer(a, b, c=c, beta=1)]: [c] becomes [a b + c] *)
  ddot_withbuffer : matrix F → matrix F → matrix F → matrix F;
  (** the size of the scratch buffer that [_allocate_jk_buffer] computes
      from [nIP_Prim], [nGridPrim], [nao], [Ls] and the thread count *)
  jk_buffer_size : Z → Z → Z → triple → Z;
  (** the scratch buffer after [_construct_W_multiG] and
      [_iFFT_Matrix_Col_InPlace] of libpbc have run on it *)
  construct_W_kernels : mydf.t F → list F → list F;
  (** [_get_k_kSym], built on the transforms of libpbc *)
  _get_k_kSym : mydf.t F → matrix F → exn + matrix F;
  (** [gamma_point(kpt)] *)
  gamma_point : list F → bool;
  (** [abs(kpt - kpts_band).sum() > 1e-9] *)
  kpts_differ : list F → list F → bool;
  (** the global [ngrids] of the module isdf_k, which only the script under
      [if __name__ == "__main__"] assigns: [None] in the imported module *)
  global_ngrids : option Z
}.

(** *** Building W and contracting J (isdf_k.py) *)

Section Contraction.
Context {F : Type} `{Numeric F} `{Kernels F}.
Local Open Scope run_scope.

(** [np.ndarray((r, c), buffer=buf, offset=8 * offset)]: a view of [r * c]
    entries of the scratch buffer; NumPy refuses a buffer that is too
    small. *)
Definition np_view (buf : list F) (offset r c : Z) : option (matrix F) :=
  if decide (0 ≤ offset ∧ 0 ≤ r ∧ 0 ≤ c
             ∧ offset + r * c ≤ Z.of_nat (length buf))
  then Some (reshape (replicate (Z.to_nat r) (Z.to_nat c))
               (drop (Z.to_nat offset) buf))
  else None.

(** [m.T] *)
Definition transpose (m : matrix F) : matrix F :=
  foldr (zip_with cons) (replicate (length (hd [] m)) []) m.

(** [PBC_ISDF_Info_kSym._allocate_jk_buffer(self, dtype)]: nothing to do
    when the buffer exists; the sizes come from the attributes of the
    object, but for [size_ddot_buf = max(naux*naux+2, ngrids)*num_threads],
    which reads the name [ngrids]: the method has no such local, and the
    lookup of the global raises NameError unless the module runs as a
    script. *)
Definition _allocate_jk_buffer (df : mydf.t F) : run F (mydf.t F) :=
  match mydf.jk_buffer df with
  | Some _ => ret df
  | None =>
      if mydf.outcore df then raise NotImplementedError
      else
        _ <- or_raise NameError global_ngrids;;
        call Call_allocate_jk_buffer;;
        let size :=
          jk_buffer_size (mydf.nIP_Prim df) (mydf.nGridPrim df)
            (mydf.cell_nao df) (mydf.Ls df) in
        ret (mydf.set_jk_buffer (replicate (Z.to_nat size) f0) df)
  end.

(** The attribute [name] of [mydf], or AttributeError. *)
Definition attribute {A : Type} (o : option A) : run F A :=
  or_raise AttributeError o.

(** The loop of [_construct_W_incore] that sums the column blocks of [W]. *)
Definition _construct_W_incore_W0 (W : matrix F) (nIP_prim ncell : Z)
  : option (matrix F) :=
  for_ (range ncell) (λ i W0,
    let k_begin := i * nIP_prim in
    let k_end := (i + 1) * nIP_prim in
    add_inplace W0 (block W 0 (Z.of_nat (length W)) k_begin k_end))
    (zeros nIP_prim nIP_prim).

(** [_construct_W_incore(mydf)]: the kernels of libpbc leave W in the view
    [W_buf3] of the scratch buffer; it is copied to [W], and [W0] is
    summed from it. *)
Definition _construct_W_incore (df : mydf.t F) : run F (mydf.t F) :=
  df <- _allocate_jk_buffer df;;
  jk_buffer <- attribute (mydf.jk_buffer df);;
  let nIP_prim := mydf.nIP_Prim df in
  let nGrid_prim := mydf.nGridPrim df in
  let ncell := np_prod (mydf.Ls df) in
  let ncell_complex :=
    let '(l0, l1, l2) := mydf.Ls df in l0 * l1 * (l2 / 2 + 1) in
  let offset := 4 * nIP_prim * nGrid_prim + 2 * nIP_prim * nIP_prim in
  _ <- or_raise TypeError (np_view jk_buffer offset nIP_prim (nIP_prim * ncell));;
  _ <- or_raise TypeError
         (np_view jk_buffer (offset + 2 * (nIP_prim * nIP_prim * ncell_complex))
            nIP_prim (2 * (nIP_prim * ncell_complex)));;
  let jk_buffer := construct_W_kernels df jk_buffer in
  W_buf3 <- or_raise TypeError
              (np_view jk_buffer offset nIP_prim (nIP_prim * ncell));;
  let W := W_buf3 in
  let df := mydf.set_W W (mydf.set_jk_buffer jk_buffer df) in
  W0 <- or_raise ValueError (_construct_W_incore_W0 W nIP_prim ncell);;
  ret (mydf.set_W0 W0 df).

(** The part of [_get_j_kSym] after [bufferW] is known: the blocks of J
    are rebuilt from the orbitals at the interpolation points, scaled and
    packed. *)
Definition _get_j_kSym_expand (df : mydf.t F) (nao nao_prim : Z)
    (bufferW : list F) (buffer3 : matrix F) : run F (matrix F) :=
  let Ls := mydf.Ls df in
  let '(l0, l1, l2) := Ls in
  let aoRg_Prim := mydf.aoRg_Prim df in
  let ngrid := np_prod (mydf.cell_mesh df) in
  let vol := mydf.cell_vol df in
  buffer_J <- or_raise ValueError
    (for_cells Ls (λ q buffer_J,
       let '(ix_q, iy_q, iz_q) := q in
       let bufferJ_block :=
         fold_left (λ bufferJ_block i,
           let '(ix, iy, iz) := i in
           let ipx := (l0 - ix) mod l0 in
           let ipy := (l1 - iy) mod l1 in
           let ipz := (l2 - iz) mod l2 in
           let loc_p := ipx * l1 * l2 + ipy * l2 + ipz in
           let buffer_i :=
             slice aoRg_Prim (loc_p * nao_prim) ((loc_p + 1) * nao_prim) in
           let iqx := (ix_q - ix + l0) mod l0 in
           let iqy := (iy_q - iy + l1) mod l1 in
           let iqz := (iz_q - iz + l2) mod l2 in
           let loc_q := iqx * l1 * l2 + iqy * l2 + iqz in
           let buffer_j :=
             slice aoRg_Prim (loc_q * nao_prim) ((loc_q + 1) * nao_prim) in
           let tmp := d_ij_j_ij buffer_j bufferW in
           ddot_withbuffer buffer_i (transpose tmp) bufferJ_block)
           (cells Ls) (zeros nao_prim nao_prim) in
       let loc_q := ix_q * l1 * l2 + iy_q * l2 + iz_q in
       assign_block buffer_J 0 (Z.of_nat (length buffer_J))
         (loc_q * nao_prim) ((loc_q + 1) * nao_prim) bufferJ_block)
       buffer3);;
  let buffer_J :=
    (λ row : list F, (λ x : F, fmul x (fdiv (of_int ngrid) vol)) <$> row)
      <$> buffer_J in
  or_raise AssertionError (_pack_JK buffer_J Ls nao_prim).

(** [_get_j_kSym(mydf, dm)] *)
Definition _get_j_kSym (df : mydf.t F) (dm : dm_arg F) : run F (matrix F) :=
  df <- _allocate_jk_buffer df;;
  dm <- match dm with
        | Dm2 dm => ret dm
        | Dm3 dms =>
            assert_ (bool_decide (length dms = 1%nat));;
            or_raise AssertionError (head dms)
        end;;
  let nao := Z.of_nat (length dm) in
  assert_ (bool_decide (mydf.cell_nao df = nao));;
  W <- attribute (mydf.W df);;
  let aoRg_Prim := mydf.aoRg_Prim df in
  let ncell := np_prod (mydf.Ls df) in
  let nIP_prim := mydf.nIP_Prim df in
  let nao_prim := nao / ncell in
  assert_ dtype_float64;;
  buffer <- attribute (mydf.jk_buffer df);;
  let offset := nao * nIP_prim + nIP_prim in
  buffer3 <- or_raise TypeError (np_view buffer offset nao_prim nao);;
  let offset :=
    offset + nao_prim * nao + nIP_prim + nao_prim * nao_prim
    + 2 * (nao_prim * nIP_prim) in
  _ <- or_raise TypeError (np_view buffer offset nao_prim nIP_prim);;
  let tmp1 := ddot dm aoRg_Prim in
  let density_Rg := multiply_sum_isdf aoRg_Prim tmp1 in
  W_0 <- attribute (mydf.W0 df);;
  let bufferW := mjoin (ddot W_0 ((λ x, [x]) <$> density_Rg)) in
  _get_j_kSym_expand df nao nao_prim bufferW buffer3.

(** The density at the interpolation points as [_get_j_kSym] forms it from
    [dm]: [tmp1 = lib.ddot(dm, aoRg_Prim)] and
    [density_Rg = lib.multiply_sum_isdf(aoRg_Prim, tmp1)]. *)
Definition density_Rg (df : mydf.t F) (dm : matrix F) : list F :=
  multiply_sum_isdf (mydf.aoRg_Prim df) (ddot dm (mydf.aoRg_Prim df)).

(** [get_jk_dm_kSym(mydf, dm, hermi, kpt, kpts_band, with_j, with_k)].
    [mydf._allocate_jk_buffer(datatype=...)] names a parameter that the
    method of [PBC_ISDF_Info_kSym] does not have. *)
Definition get_jk_dm_kSym (df : mydf.t F) (dm : dm_arg F)
    (kpt : list F) (kpts_band : option (list F)) (with_j with_k : bool)
  : run F (matrix F * matrix F) :=
  dm <- match dm with
        | Dm2 dm => ret dm
        | Dm3 dms =>
            assert_ (bool_decide (length dms = 1%nat));;
            or_raise AssertionError (head dms)
        end;;
  assert_ (with_j && with_k);;
  (if mydf.jk_buffer df is None then raise TypeError else ret tt);;
  (match kpts_band with
   | Some kpts_band =>
       if kpts_differ kpt kpts_band then raise NotImplementedError
       else ret tt
   | None => ret tt
   end);;
  let j_real := gamma_point kpt in
  let k_real := gamma_point kpt && negb dtype_complex in
  assert_ j_real;;
  assert_ k_real;;
  dm <- or_raise ValueError (_symmetrize_dm dm (mydf.Ls df));;
  if mydf.outcore df && mydf.with_robust_fitting df
  then raise NotImplementedError
  else if mydf.with_robust_fitting df then raise NotImplementedError
  else
    call (Call_get_j_kSym dm);;
    vj1 <- _get_j_kSym df (Dm2 dm);;
    call (Call_get_k_kSym dm);;
    vk2 <- (([], _get_k_kSym df dm) : run F (matrix F));;
    ret (vj1, vk2).

End Contraction.

(** The matrix that a density-matrix argument stands for: the argument
    itself, or the only entry of a 3-index array of leading dimension 1. *)
Definition single_matrix {F : Type} (dm : dm_arg F) : option (matrix F) :=
  match dm with
  | Dm2 dm => Some dm
  | Dm3 [dm] => Some dm
  | Dm3 _ => None
  end.

(** *** [colpivot_qr] (test/test_isdf_fast.py) *)

Section ColPivotQR.
Context {F : Type} `{Numeric F}.

(** [np.isnan(x)]: a NaN is the only value that is not [<=] itself. *)
Definition isnan (x : F) : bool := negb (fleb x x).

(** The loop of [np.argmax]: [mp] is the largest entry so far and [ip] its
    index; an entry replaces it when [!(x <= mp)], and a NaN ends the
    search. *)
Fixpoint argmax_from (mp : F) (ip i : nat) (v : list F) : nat :=
  match v with
  | [] => ip
  | x :: v' =>
      if negb (fleb x mp)
      then if isnan x then i else argmax_from x i (S i) v'
      else argmax_from mp ip (S i) v'
  end.

(** [np.argmax(v)]; [None] is the ValueError for an empty sequence. *)
Definition argmax (v : list F) : option Z :=
  match v with
  | [] => None
  | x :: v' => Some (Z.of_nat (if isnan x then 0%nat else argmax_from x 0 1 v'))
  end.

(** [l[[j, p]] = l[[p, j]]] for [0 <= j], [0 <= p]; [None] is an
    IndexError. *)
Definition swap {A : Type} (j p : Z) (l : list A) : option (list A) :=
  a ← l !! Z.to_nat j;
  b ← l !! Z.to_nat p;
  Some (<[Z.to_nat p := a]> (<[Z.to_nat j := b]> l)).

(** [m[i, k0:] = v] for [0 <= i], [0 <= k0]; [None] is an IndexError or a
    ValueError (the shapes differ). *)
Definition set_row_from (m : matrix F) (i k0 : Z) (v : list F)
  : option (matrix F) :=
  row ← m !! Z.to_nat i;
  if decide (length (drop (Z.to_nat k0) row) = length v)
  then Some (<[Z.to_nat i := take (Z.to_nat k0) row ++ v]> m)
  else None.

(** [m[i, k] = x] for [0 <= i], [0 <= k]; [None] is an IndexError. *)
Definition set_entry (m : matrix F) (i k : Z) (x : F) : option (matrix F) :=
  row ← m !! Z.to_nat i;
  _ ← row !! Z.to_nat k;
  Some (<[Z.to_nat i := <[Z.to_nat k := x]> row]> m).

(** The working arrays of [colpivot_qr]. *)
Record qr_state : Type := {
  AA : matrix F;
  Q : matrix F;
  R : matrix F;
  pivot : list Z;
  npt_find : Z
}.

(** [np.argmax(np.linalg.norm(AA[j:, :], axis=1)) + j] *)
Definition pivot_position (AA : matrix F) (j : Z) : option Z :=
  (λ a, a + j) <$> argmax (norm <$> drop (Z.to_nat j) AA).

(** [AA[j + 1:, :] -= np.outer(r, q)], with [None] for shapes that differ. *)
Definition sub_outer (AA : matrix F) (j : Z) (r q : list F)
  : option (matrix F) :=
  let rest := drop (Z.to_nat (j + 1)) AA in
  if decide (length rest = length r
             ∧ Forall (λ row : list F, length row = length q) rest)
  then Some (take (Z.to_nat (j + 1)) AA
               ++ zip_with (λ (x : F) (row : list F),
                              zip_with (λ a y, fsub a (fmul x y)) row q)
                    r rest)
  else None.

(** One pass of the loop: [inl] when the pass ends in [break]. *)
Definition colpivot_qr_body (cutoff : F) (j : Z) (st : qr_state)
  : option (qr_state + qr_state) :=
  p ← pivot_position (AA st) j;
  AA1 ← swap j p (AA st);
  R1 ← mapM (swap j p) (R st);
  pivot1 ← swap j p (pivot st);
  AAj ← AA1 !! Z.to_nat j;
  R2 ← set_entry R1 j j (norm AAj);
  Rjj ← mat_get R2 j j;
  if fltb Rjj cutoff
  then Some (inl {| AA := AA1; Q := Q st; R := R2; pivot := pivot1;
                    npt_find := npt_find st |})
  else
    Q1 ← set_row_from (Q st) j 0 ((λ x, fdiv x Rjj) <$> AAj);
    Qj ← Q1 !! Z.to_nat j;
    R3 ← set_row_from R2 j (j + 1)
           ((λ row : list F, vdot row Qj) <$> drop (Z.to_nat (j + 1)) AA1);
    Rj ← R3 !! Z.to_nat j;
    AA2 ← sub_outer AA1 j (drop (Z.to_nat (j + 1)) Rj) Qj;
    Some (inr {| AA := AA2; Q := Q1; R := R3; pivot := pivot1;
                 npt_find := npt_find st + 1 |}).

(** [for j in js: ...], left early by [break]. *)
Fixpoint colpivot_qr_loop (cutoff : F) (js : list Z) (st : qr_state)
  : option qr_state :=
  match js with
  | [] => Some st
  | j :: js' =>
      match colpivot_qr_body cutoff j st with
      | None => None
      | Some (inl st') => Some st'
      | Some (inr st') => colpivot_qr_loop cutoff js' st'
      end
  end.

(** [colpivot_qr(A, max_rank, cutoff)] for [A] of shape [(m, n)]: the
    result is [(Q.T, R, pivot, npt_find)]. *)
Definition colpivot_qr (m n : Z) (A : matrix F) (max_rank : option Z)
    (cutoff : F) : option (matrix F * matrix F * list Z * Z) :=
  let max_rank := default (Z.min m n) max_rank in
  st ← colpivot_qr_loop cutoff (range (Z.min (Z.min m n) max_rank))
         {| AA := transpose A; Q := zeros m m; R := zeros m n;
            pivot := range n; npt_find := 0 |};
  Some (transpose (Q st), R st, pivot st, npt_find st).

(** The order [<=] is total and transitive on the entries of [v]. *)
Definition linear_on (v : list F) : bool :=
  forallb (λ x, forallb (λ y, fleb x y || fleb y x) v) v.

Definition transitive_on (v : list F) : bool :=
  forallb (λ x, forallb (λ y, forallb (λ z,
    implb (fleb x y && fleb y z) (fleb x z)) v) v) v.

(** The tie-break in the words of the specification, for the position [p]
    selected by pass [j]: the entries of [pivot] are the input positions of
    the rows of [AA], and no candidate whose norm is as large as the
    selected one comes from an earlier input position. *)
Definition input_order_tie_break (st : qr_state) (j p : Z) : Prop :=
  ∀ i row row' c c',
    j ≤ i →
    AA st !! Z.to_nat p = Some row → AA st !! Z.to_nat i = Some row' →
    fleb (norm row) (norm row') = true →
    pivot st !! Z.to_nat p = Some c → pivot st !! Z.to_nat i = Some c' →
    c ≤ c'.

(** The rows of [R] when pass [j] begins: the rows above [j] are zero left
    of the diagonal and hold a diagonal entry that is not below [cutoff];
    the rows from [j] on are zero. *)
Definition R_before_pass (cutoff : F) (j : Z) (R : matrix F) : Prop :=
  ∀ (i : nat) row, R !! i = Some row →
    (Z.of_nat i < j →
       (∀ k : nat, (k < i)%nat → row !! k = Some f0)
       ∧ ∃ x, row !! i = Some x ∧ fltb x cutoff = false)
    ∧ (j ≤ Z.of_nat i → Forall (λ x, x = f0) row).

(** The rows of the matrix [R] that is returned with [npt_find = npt] after
    at most [K] passes: [R] is upper triangular; its first [npt] diagonal
    entries are not below [cutoff]; the rows from [npt] on are zero outside
    the diagonal; and when fewer than [K] pivots were found, the diagonal
    entry [npt] is below [cutoff]. *)
Definition R_returned (cutoff : F) (npt K : Z) (R : matrix F) : Prop :=
  ∀ (i : nat) row, R !! i = Some row →
    (∀ k : nat, (k < i)%nat → (k < length row)%nat → row !! k = Some f0)
    ∧ (Z.of_nat i < npt → ∃ x, row !! i = Some x ∧ fltb x cutoff = false)
    ∧ (npt ≤ Z.of_nat i →
         ∀ k : nat, k ≠ i → (k < length row)%nat → row !! k = Some f0)
    ∧ (Z.of_nat i = npt → npt < K →
         ∃ x, row !! i = Some x ∧ fltb x cutoff = true).

(** [a - (a . q) q], entry by entry, as a pass computes it for a row [a] of
    [AA] below the pivot row: [R[j, i] = np.dot(AA[i, :], Q[j, :])] and
    [AA[i, :] -= R[j, i] * Q[j, :]]. *)
Definition eliminate (q a : list F) : list F :=
  zip_with (λ x y, fsub x (fmul (vdot a q) y)) a q.

(** The residual of the vector [a] after the eliminations against the rows
    [qs] of [Q], in their order. *)
Definition residual (qs : matrix F) (a : list F) : list F :=
  fold_left (λ a q, eliminate q a) qs a.

(** [a / np.linalg.norm(a)] *)
Definition normalized (a : list F) : list F := (λ x, fdiv x (norm a)) <$> a.

(** [A[:, c]], the row [c] of [A.T]. *)
Definition column (A : matrix F) (c : Z) : list F :=
  default [] (transpose A !! Z.to_nat c).

(** The working arrays with which pass [k] of the loop over [js] begins,
    counting the passes from 0; [None] when the loop has ended before. *)
Fixpoint colpivot_qr_pass (cutoff : F) (js : list Z) (st : qr_state)
    (k : nat) : option qr_state :=
  match js with
  | [] => None
  | j :: js' =>
      match k with
      | O => Some st
      | S k' =>
          match colpivot_qr_body cutoff j st with
          | Some (inr st') => colpivot_qr_pass cutoff js' st' k'
          | _ => None
          end
      end
  end.

(** The candidates of pass [j] in the words of the specification: the row
    [i] of [AA] belongs to the column [pivot[i]] of [A]; a row from [j] on,
    a remaining candidate, is the residual of its column after the
    eliminations against the [j] rows of [Q] found so far, and a row [k]
    above [j] is the residual that pass [k] selected, whose normalized
    vector is the row [k] of [Q]. *)
Definition residuals_at (A : matrix F) (j : nat) (st : qr_state) : Prop :=
  (∀ (i : nat) c, pivot st !! i = Some c →
     AA st !! i = Some (residual (take (i `min` j) (Q st)) (column A c)))
  ∧ (∀ (k : nat) r, (k < j)%nat → AA st !! k = Some r →
       Q st !! k = Some (normalized r)).

(** The shapes and the contents of [pivot] that the loop keeps. *)
Definition qr_inv (m n : Z) (st : qr_state) : Prop :=
  has_shape n m (AA st) ∧ has_shape m m (Q st) ∧ has_shape m n (R st)
  ∧ pivot st ≡ₚ range n.

End ColPivotQR.

(** *** Translation of grid points (isdf_linear_scaling_k.py) *)

(** [for i in range(Ls[0]): for j in range(Ls[1]): for k in range(Ls[2])]
    around a body that does not raise. *)
Definition loop_cells {S : Type} (Ls : triple) (body : triple → S → S)
    (s : S) : S :=
  let '(l0, l1, l2) := Ls in
  fold_left (λ s i,
    fold_left (λ s j,
      fold_left (λ s k, body (i, j, k) s) (range l2) s) (range l1) s)
    (range l0) s.

(** [shift = i * meshPrim[0] * mesh[1] * mesh[2] + j * meshPrim[1] * mesh[2]
    + k * meshPrim[2]] with [meshPrim = np.array(mesh) // np.array(kmesh)],
    the offset of the grid index between the primitive cell and the box
    [(i, j, k)]. *)
Definition box_shift (kmesh mesh box : triple) : Z :=
  let '(k0, k1, k2) := kmesh in
  let '(m0, m1, m2) := mesh in
  let meshPrim := (m0 / k0, m1 / k1, m2 / k2) in
  let '(mp0, mp1, mp2) := meshPrim in
  let '(i, j, k) := box in
  i * mp0 * m1 * m2 + j * mp1 * m2 + k * mp2.

(** [data + shift] for an int32 array [data] and a 64-bit scalar [shift]:
    NumPy 1 keeps the dtype int32 when the scalar fits it, and the sum
    wraps around; otherwise the sum is taken on 64 bits. *)
Definition add_scalar (shift : Z) (data : list Z) : list Z :=
  if decide (- 2 ^ 31 ≤ shift < 2 ^ 31)
  then (λ x, int32 (x + shift)) <$> data
  else (λ x, x + shift) <$> data.

(** [_expand_partition_prim(partition_prim, kmesh, mesh)], for the int32
    arrays that [build_partition_aoR] passes. *)
Definition _expand_partition_prim (partition_prim : list (list Z))
    (kmesh mesh : triple) : list (list Z) :=
  loop_cells kmesh (λ box partition,
    let shift := box_shift kmesh mesh box in
    fold_left (λ partition data, partition ++ [add_scalar shift data])
      partition_prim partition) [].

(** [_expand_primlist_2_superlist(primlist, kmesh, mesh)]: the sums are
    stored in an int32 array at the end. *)
Definition _expand_primlist_2_superlist (primlist : list Z)
    (kmesh mesh : triple) : list Z :=
  let superlist :=
    loop_cells kmesh (λ box superlist,
      let shift := box_shift kmesh mesh box in
      superlist ++ ((λ x, x + shift) <$> primlist)) [] in
  int32 <$> superlist.

(** The argument [input] of [_get_grid_ordering_k]: a list of arrays, or
    anything else. *)
Inductive ordering_input : Type :=
  | Ordering_list (input : list (list Z))
  | Ordering_other.

(** [_get_grid_ordering_k(input, kmesh, mesh)] *)
Definition _get_grid_ordering_k (input : ordering_input) (kmesh mesh : triple)
  : exn + list Z :=
  match input with
  | Ordering_list input =>
      let prim_ordering :=
        fold_left (λ prim_ordering data, prim_ordering ++ data) input [] in
      inr (_expand_primlist_2_superlist prim_ordering kmesh mesh)
  | Ordering_other => inl NotImplementedError
  end.

(** *** Translation of orbitals and atoms ([PBC_ISDF_Info_Quad_K],
    isdf_linear_scaling_k.py) *)

(** What the helper methods raise. *)
Inductive raised : Type :=
  | Raised_AssertionError
  | Raised_IndexError
  | Raised_ValueError
  | Raised_OverflowError
  | Raised_TypeError.

(** [l[i]] for a Python list: a negative index counts from the end;
    [None] is an IndexError. *)
Definition py_index {A : Type} (l : list A) (i : Z) : option A :=
  if decide (0 ≤ i) then l !! Z.to_nat i
  else if decide (- Z.of_nat (length l) ≤ i)
       then l !! Z.to_nat (Z.of_nat (length l) + i)
       else None.

(** [l[i] = x] for a Python list. *)
Definition py_assign {A : Type} (l : list A) (i : Z) (x : A)
  : option (list A) :=
  if decide (0 ≤ i)
  then if decide (i < Z.of_nat (length l))
       then Some (<[Z.to_nat i := x]> l) else None
  else if decide (- Z.of_nat (length l) ≤ i)
       then Some (<[Z.to_nat (Z.of_nat (length l) + i) := x]> l)
       else None.

(** [range(a, b)] *)
Definition range2 (a b : Z) : list Z := seqZ a (b - a).

(** The attributes of [self] that the helper methods read and write.  The
    holders of the orbitals on the grid come from
    isdf_linear_scaling_base.py; of a holder only [ao_involved] is read.
    An attribute [..._col_permutation] that does not exist yet is [None];
    its slots are [None] until they are filled.  [kmesh] and [nao_prim]
    are positive Python integers. *)
Module quad_k.
Record t (H : Type) : Type := mk {
  kmesh : triple;
  nao_prim : Z;
  natmPrim : Z;
  aoR : list H;
  aoRg : list H;
  aoR1 : list H;
  aoRg1 : list H;
  aoR_col_permutation : option (list (option (list (list Z))));
  aoRg_col_permutation : option (list (option (list (list Z))))
}.
Arguments mk {H}.
Arguments kmesh {H}.
Arguments nao_prim {H}.
Arguments natmPrim {H}.
Arguments aoR {H}.
Arguments aoRg {H}.
Arguments aoR1 {H}.
Arguments aoRg1 {H}.
Arguments aoR_col_permutation {H}.
Arguments aoRg_col_permutation {H}.

Definition set_aoR_col_permutation {H}
    (c : option (list (option (list (list Z))))) (self : t H) : t H :=
  mk (kmesh self) (nao_prim self) (natmPrim self) (aoR self) (aoRg self)
     (aoR1 self) (aoRg1 self) c (aoRg_col_permutation self).

Definition set_aoRg_col_permutation {H}
    (c : option (list (option (list (list Z))))) (self : t H) : t H :=
  mk (kmesh self) (nao_prim self) (natmPrim self) (aoR self) (aoRg self)
     (aoR1 self) (aoRg1 self) (aoR_col_permutation self) c.

Definition set_aoR {H} (a : list H) (self : t H) : t H :=
  mk (kmesh self) (nao_prim self) (natmPrim self) a (aoRg self)
     (aoR1 self) (aoRg1 self) (aoR_col_permutation self)
     (aoRg_col_permutation self).

Definition set_aoRg {H} (a : list H) (self : t H) : t H :=
  mk (kmesh self) (nao_prim self) (natmPrim self) (aoR self) a
     (aoR1 self) (aoRg1 self) (aoR_col_permutation self)
     (aoRg_col_permutation self).
End quad_k.

(** What [_get_permutation_column_aoR] returns: one array when
    [loc_internal] is given, the list of the arrays otherwise. *)
Inductive column_permutation : Type :=
  | Permutation_of (a : list Z)
  | Permutations (l : list (list Z)).

Section QuadK.
Context {H : Type} (ao_involved : H → list Z).

(** The loop over [ao_involved] of one holder, and
    [np.array(ao_permutated, dtype=np.int32)]. *)
Definition ao_permutated (kmesh : triple) (nao_prim : Z) (box : triple)
    (holder : H) : list Z :=
  let '(k0, k1, k2) := kmesh in
  let '(box_x, box_y, box_z) := box in
  int32 <$>
    ((λ ao_id,
        let box_id := ao_id / nao_prim in
        let nao_id := ao_id mod nao_prim in
        let box_x_ := box_id / (k1 * k2) in
        let box_y_ := (box_id mod (k1 * k2)) / k2 in
        let box_z_ := box_id mod k2 in
        let box_x_new := (box_x + box_x_) mod k0 in
        let box_y_new := (box_y + box_y_) mod k1 in
        let box_z_new := (box_z + box_z_) mod k2 in
        box_x_new * k1 * k2 * nao_prim + box_y_new * k2 * nao_prim
        + box_z_new * nao_prim + nao_id) <$> ao_involved holder).

(** The body that [_get_permutation_column_aoR] and
    [_get_permutation_column_aoRg] share, on the holders and on the
    attribute that caches the permutations; the result is the attribute
    afterwards and what the method returns or raises. *)
Definition get_permutation_column (kmesh : triple) (nao_prim : Z)
    (holders : list H) (cache : option (list (option (list (list Z)))))
    (box : triple) (loc_internal : option Z)
  : option (list (option (list (list Z)))) * (raised + column_permutation) :=
  let '(k0, k1, k2) := kmesh in
  let '(box_x, box_y, box_z) := box in
  if negb (bool_decide (box_x < k0)) then (cache, inl Raised_AssertionError)
  else if negb (bool_decide (box_y < k1))
  then (cache, inl Raised_AssertionError)
  else if negb (bool_decide (box_z < k2))
  then (cache, inl Raised_AssertionError)
  else
    let col_permutation :=
      match cache with
      | Some c => c
      | None => (λ _, None) <$> range (np_prod kmesh)
      end in
    let loc := box_x * k1 * k2 + box_y * k2 + box_z in
    match py_index col_permutation loc with
    | None => (Some col_permutation, inl Raised_IndexError)
    | Some slot =>
        let col_permutation :=
          match slot with
          | Some _ => Some col_permutation
          | None =>
              py_assign col_permutation loc
                (Some (ao_permutated kmesh nao_prim box <$> holders))
          end in
        match col_permutation with
        | None => (cache, inl Raised_IndexError)
        | Some col_permutation =>
            (Some col_permutation,
             match py_index col_permutation loc with
             | Some (Some permutation) =>
                 match loc_internal with
                 | Some loc_internal =>
                     match py_index permutation loc_internal with
                     | Some a => inr (Permutation_of a)
                     | None => inl Raised_IndexError
                     end
                 | None => inr (Permutations permutation)
                 end
             | _ => inl Raised_IndexError
             end)
        end
    end.

(** [self._get_permutation_column_aoR(box_x, box_y, box_z, loc_internal)] *)
Definition _get_permutation_column_aoR (self : quad_k.t H) (box : triple)
    (loc_internal : option Z) : quad_k.t H * (raised + column_permutation) :=
  let '(cache, r) :=
    get_permutation_column (quad_k.kmesh self) (quad_k.nao_prim self)
      (quad_k.aoR self) (quad_k.aoR_col_permutation self) box loc_internal in
  (quad_k.set_aoR_col_permutation cache self, r).

(** [self._get_permutation_column_aoRg(box_x, box_y, box_z, loc_internal)] *)
Definition _get_permutation_column_aoRg (self : quad_k.t H) (box : triple)
    (loc_internal : option Z) : quad_k.t H * (raised + column_permutation) :=
  let '(cache, r) :=
    get_permutation_column (quad_k.kmesh self) (quad_k.nao_prim self)
      (quad_k.aoRg self) (quad_k.aoRg_col_permutation self) box loc_internal in
  (quad_k.set_aoRg_col_permutation cache self, r).

(** The body that [_get_aoR_Row] and [_get_aoRg_Row] share, on the list
    [self.aoR1] or [self.aoRg1]. *)
Definition get_Row (kmesh : triple) (natmPrim : Z) (aoR1 : list H)
    (box : triple) : raised + list H :=
  let '(k0, k1, k2) := kmesh in
  let '(box_x, box_y, box_z) := box in
  if negb (bool_decide (box_x < k0)) then inl Raised_AssertionError
  else if negb (bool_decide (box_y < k1)) then inl Raised_AssertionError
  else if negb (bool_decide (box_z < k2)) then inl Raised_AssertionError
  else if bool_decide (box_x = 0) && bool_decide (box_y = 0)
          && bool_decide (box_z = 0)
  then inr aoR1
  else
    match
      for_cells kmesh (λ c Res,
        let '(ix, iy, iz) := c in
        let ix_ := (ix - box_x + k0) mod k0 in
        let iy_ := (iy - box_y + k1) mod k1 in
        let iz_ := (iz - box_z + k2) mod k2 in
        let loc_ := ix_ * k1 * k2 + iy_ * k2 + iz_ in
        for_ (range2 (loc_ * natmPrim) ((loc_ + 1) * natmPrim))
          (λ i Res, x ← py_index aoR1 i; Some (Res ++ [x])) Res) []
    with
    | Some Res => inr Res
    | None => inl Raised_IndexError
    end.

(** [self._get_aoR_Row(box_x, box_y, box_z)] *)
Definition _get_aoR_Row (self : quad_k.t H) (box : triple) : raised + list H :=
  get_Row (quad_k.kmesh self) (quad_k.natmPrim self) (quad_k.aoR1 self) box.

(** [self._get_aoRg_Row(box_x, box_y, box_z)] *)
Definition _get_aoRg_Row (self : quad_k.t H) (box : triple)
  : raised + list H :=
  get_Row (quad_k.kmesh self) (quad_k.natmPrim self) (quad_k.aoRg1 self) box.

(** The arrays [perm] send every orbital listed by the holders to the same
    orbital of the box translated by [box]. *)
Definition translates_orbitals (kmesh : triple) (nao_prim : Z) (box : triple)
    (holders : list H) (perm : list (list Z)) : Prop :=
  length perm = length holders ∧
  ∀ (h : nat) holder (t : nat) b a,
    holders !! h = Some holder → b ∈ cells kmesh → 0 ≤ a < nao_prim →
    ao_involved holder !! t = Some (ravel kmesh b * nao_prim + a) →
    ∃ arr, perm !! h = Some arr
           ∧ arr !! t
             = Some (ravel kmesh (cell_add kmesh box b) * nao_prim + a).

(** The list [Res] holds the entries of [aoR1] again, the atoms of the
    box [c] taken from the box [(c - box) mod kmesh]. *)
Definition row_translated (kmesh : triple) (natmPrim : Z) (box : triple)
    (aoR1 Res : list H) : Prop :=
  Res ≡ₚ aoR1 ∧
  ∀ c a, c ∈ cells kmesh → 0 ≤ a < natmPrim →
    Res !! Z.to_nat (ravel kmesh c * natmPrim + a)
    = aoR1 !! Z.to_nat (ravel kmesh (cell_diff kmesh c box) * natmPrim + a).

(** A cache attribute that does not exist, or that has [n] slots. *)
Definition cache_shape (cache : option (list (option (list (list Z)))))
    (n : Z) : Prop :=
  match cache with
  | None => True
  | Some c => Z.of_nat (length c) = n
  end.

(** A cache attribute in which the slot [loc] has not been filled. *)
Definition slot_free (cache : option (list (option (list (list Z)))))
    (loc : Z) : Prop :=
  match cache with
  | None => True
  | Some c => c !! Z.to_nat loc = Some None
  end.

End QuadK.

(** *** [_get_possible_IP] (isdf_k.py) *)

(** [np.where(v == x)[0]]: the positions of [x] in [v], in increasing
    order. *)
Definition np_where_eq (v : list Z) (x : Z) : list Z :=
  filter (λ i, v !! Z.to_nat i = Some x) (range (Z.of_nat (length v))).

(** [box_id[0] == 0 and box_id[1] == 0 and box_id[2] == 0] *)
Definition is_first_box (box_id : triple) : bool :=
  let '(b0, b1, b2) := box_id in
  bool_decide (b0 = 0) && bool_decide (b1 = 0) && bool_decide (b2 = 0).

(** The box [box_id] of a grid point of the supercell, as the loop
    computes it. *)
Definition pnt_box_id (mesh Ls : triple) (grid_id : Z) : triple :=
  let '(m0, m1, m2) := mesh in
  let '(l0, l1, l2) := Ls in
  let mesh_prim := (m0 / l0, m1 / l1, m2 / l2) in
  let '(mp0, mp1, mp2) := mesh_prim in
  let pnt_id := (grid_id / (m1 * m2), (grid_id / m2) mod m1, grid_id mod m2) in
  let '(p0, p1, p2) := pnt_id in
  (p0 / mp0, p1 / mp1, p2 / mp2).

Section PossibleIP.
Context {C : Type}.

(** [_get_possible_IP(pbc_isdf_info, Ls, coords)], from [cell.mesh] and
    the array [partition] of the object, which gives the atom of every grid
    point: the grid points of the first eight atoms, without those outside
    the first box whose image in the first box is there already.  The
    result is [(possible_grid_ID, coords[possible_grid_ID])]; a [partition]
    that [reshape(mesh)] refuses is a ValueError. *)
Definition _get_possible_IP (mesh Ls : triple) (partition : list Z)
    (coords : list C) : raised + (list Z * list C) :=
  let '(m0, m1, m2) := mesh in
  let '(l0, l1, l2) := Ls in
  let mesh_prim := (m0 / l0, m1 / l1, m2 / l2) in
  let '(mp0, mp1, mp2) := mesh_prim in
  let ngrid_prim := np_prod mesh_prim in
  if negb (bool_decide (Z.of_nat (length partition) = np_prod mesh))
  then inl Raised_ValueError
  else if negb (bool_decide (0 ≤ ngrid_prim)) then inl Raised_ValueError
  else
    let possible_primID_selected := replicate (Z.to_nat ngrid_prim) 0 in
    match
      for_ (range 8) (λ atmid,
        for_ (np_where_eq partition atmid) (λ grid_id st,
          let '(possible_primID_selected, tmp) := st in
          let pnt_id :=
            (grid_id / (m1 * m2), (grid_id / m2) mod m1, grid_id mod m2) in
          let '(p0, p1, p2) := pnt_id in
          let box_id := (p0 / mp0, p1 / mp1, p2 / mp2) in
          let pnt_prim_id := (p0 mod mp0, p1 mod mp1, p2 mod mp2) in
          let '(q0, q1, q2) := pnt_prim_id in
          let pnt_prim_ravel_id := q0 * mp1 * mp2 + q1 * mp2 + q2 in
          possible_primID_selected ←
            (if is_first_box box_id
             then py_assign possible_primID_selected pnt_prim_ravel_id 1
             else Some possible_primID_selected);
          Some (possible_primID_selected,
                tmp ++ [(grid_id, box_id, pnt_prim_ravel_id)])))
        (possible_primID_selected, [])
    with
    | None => inl Raised_IndexError
    | Some (possible_primID_selected, tmp) =>
        match
          for_ tmp (λ data possible_grid_ID,
            let '(grid_id, box_id, pnt_prim_ravel_id) := data in
            if is_first_box box_id
            then Some (possible_grid_ID ++ [grid_id])
            else
              selected ← py_index possible_primID_selected pnt_prim_ravel_id;
              if bool_decide (selected = 0)
              then Some (possible_grid_ID ++ [grid_id])
              else Some possible_grid_ID) []
        with
        | None => inl Raised_IndexError
        | Some possible_grid_ID =>
            let possible_grid_ID := merge_sort Z.le possible_grid_ID in
            match mapM (py_index coords) possible_grid_ID with
            | Some cs => inr (possible_grid_ID, cs)
            | None => inl Raised_IndexError
            end
        end
    end.

End PossibleIP.

(** A grid point that [partition] gives to one of the first eight atoms. *)
Definition candidate (partition : list Z) (g : Z) : Prop :=
  0 ≤ g < Z.of_nat (length partition)
  ∧ ∃ atmid, 0 ≤ atmid < 8 ∧ partition !! Z.to_nat g = Some atmid.

(** *** [_extract_grid_primitive_cell] (isdf_k.py) *)

(** Statements that may raise, one after the other. *)
Definition and_then {A B : Type} (m : raised + A) (k : A → raised + B)
  : raised + B :=
  match m with inl e => inl e | inr x => k x end.

Declare Scope raised_scope.
Delimit Scope raised_scope with raised.
Notation "x <- m ;; k" := (and_then m (λ x, k))
  (at level 100, m at next level, right associativity) : raised_scope.
Notation "m ;; k" := (and_then m (λ _, k))
  (at level 100, right associativity) : raised_scope.

(** [assert b] *)
Definition assert_that (b : bool) : raised + unit :=
  if b then inr tt else inl Raised_AssertionError.

(** [for i in l: s = body(i, s)], where the body may raise. *)
Definition for_raised {A S : Type} (l : list A) (body : A → S → raised + S)
    (s : S) : raised + S :=
  fold_left (λ acc i, and_then acc (body i)) l (inr s).

(** What the function takes from NumPy and Python besides the arithmetic
    of the dtype: [a == b], [np.isclose(a, b)] with the default tolerances,
    and [round(a)], which raises for an infinity (OverflowError) and for a
    NaN (ValueError). *)
Class Comparison (F : Type) := {
  feqb : F → F → bool;
  isclose : F → F → bool;
  py_round : F → raised + Z
}.

(** [abs(a - b) <= atol + rtol * abs(b)] for finite [b], or [a == b]. *)
Definition float_isclose (a b : float) : bool :=
  PrimFloat.leb (PrimFloat.abs (PrimFloat.sub a b))
    (PrimFloat.add 1e-8%float (PrimFloat.mul 1e-5%float (PrimFloat.abs b)))
  && negb (PrimFloat.is_nan b) && negb (PrimFloat.is_infinity b)
  || PrimFloat.eqb a b.

(** [round(a)]: to the nearest integer, a half to the even one. *)
Definition float_round (a : float) : raised + Z :=
  match Prim2SF a with
  | S754_zero _ => inr 0
  | S754_infinity _ => inl Raised_OverflowError
  | S754_nan => inl Raised_ValueError
  | S754_finite s m e =>
      let m := Z.pos m in
      let v :=
        if 0 <=? e then m * 2 ^ e
        else
          let d := 2 ^ (- e) in
          let q := m / d in
          let r := m mod d in
          if 2 * r <? d then q
          else if d <? 2 * r then q + 1
          else if Z.even q then q else q + 1 in
      inr (if s then - v else v)
  end.

#[export] Instance float64_comparison : Comparison float := {
  feqb := PrimFloat.eqb;
  isclose := float_isclose;
  py_round := float_round
}.

(** The indices that the slice [b:e] takes on an axis of length [n]. *)
Definition slice_indices (n b e : Z) : list Z :=
  let clip i := if i <? 0 then Z.max (i + n) 0 else Z.min i n in
  range2 (clip b) (clip e).

Section ExtractGrid.
Context {F : Type} `{Numeric F} `{Comparison F}.

Local Open Scope raised_scope.

(** [m[i, j]] of an array. *)
Definition entry (m : matrix F) (i j : Z) : raised + F :=
  from_option inr (inl Raised_IndexError) (mat_get m i j).

(** [v[i]] of a vector. *)
Definition component (v : list F) (i : nat) : raised + F :=
  from_option inr (inl Raised_IndexError) (v !! i).

(** [np.allclose(a, b)] for two vectors of one length. *)
Definition np_allclose (a b : list F) : bool :=
  forallb (λ ab : F * F, isclose ab.1 ab.2) (zip a b).

(** [coords[x_0:x_1, y_0:y_1, z_0:z_1].reshape(-1, 3)] of
    [coords.reshape(nx, ny, nz, 3)]. *)
Definition grid_block (mesh : triple) (coords : matrix F)
    (xs ys zs : Z * Z) : matrix F :=
  let '(nx, ny, nz) := mesh in
  x ← slice_indices nx xs.1 xs.2;
  y ← slice_indices ny ys.1 ys.2;
  z ← slice_indices nz zs.1 zs.2;
  [coords !!! Z.to_nat (ravel mesh (x, y, z))].

(** [shift_bench] of the box [(ix, iy, iz)]. *)
Definition shift_bench (a00 a11 a22 : F) (Ls box : triple) : list F :=
  let '(Lx, Ly, Lz) := Ls in
  let '(ix, iy, iz) := box in
  [fdiv (fmul (of_int ix) a00) (of_int Lx);
   fdiv (fmul (of_int iy) a11) (of_int Ly);
   fdiv (fmul (of_int iz) a22) (of_int Lz)].

(** The body of [for ID in range(shifts.shape[0])]: a shift that is not
    close to [shift_bench] has to differ from it by a whole number of
    lattice vectors of the supercell.  The names [nx], [ny], [nz] that the
    body assigns are not read again after it. *)
Definition check_shift (cell_a : matrix F) (shift bench : list F)
  : raised + unit :=
  if np_allclose shift bench then inr tt
  else
    let tmp := zip_with fsub shift bench in
    t0 <- component tmp 0;; a00 <- entry cell_a 0 0;;
    nx <- py_round (fdiv t0 a00);;
    t1 <- component tmp 1;; a11 <- entry cell_a 1 1;;
    ny <- py_round (fdiv t1 a11);;
    t2 <- component tmp 2;; a22 <- entry cell_a 2 2;;
    nz <- py_round (fdiv t2 a22);;
    assert_that (isclose t0 (fmul (of_int nx) a00));;
    assert_that (isclose t1 (fmul (of_int ny) a11));;
    assert_that (isclose t2 (fmul (of_int nz) a22)).

(** [_extract_grid_primitive_cell(cell_a, mesh, Ls, coords)]: the grid
    points box by box, as one array and as a dict from the box to its
    points.  [coords] is the list of its rows; [reshape(nx, ny, nz, 3)]
    refuses rows that are not of length 3 and a negative extent
    (ValueError).  What is printed is left out. *)
Definition _extract_grid_primitive_cell (cell_a : matrix F)
    (mesh Ls : triple) (coords : matrix F)
  : raised + (matrix F * gmap triple (matrix F)) :=
  a01 <- entry cell_a 0 1;; assert_that (feqb a01 f0);;
  a02 <- entry cell_a 0 2;; assert_that (feqb a02 f0);;
  a10 <- entry cell_a 1 0;; assert_that (feqb a10 f0);;
  a12 <- entry cell_a 1 2;; assert_that (feqb a12 f0);;
  a20 <- entry cell_a 2 0;; assert_that (feqb a20 f0);;
  a21 <- entry cell_a 2 1;; assert_that (feqb a21 f0);;
  let ngrids := np_prod mesh in
  assert_that (bool_decide (ngrids = Z.of_nat (length coords)));;
  let '(Lx, Ly, Lz) := Ls in
  a00 <- entry cell_a 0 0;;
  a11 <- entry cell_a 1 1;;
  a22 <- entry cell_a 2 2;;
  let '(nx, ny, nz) := mesh in
  if negb (bool_decide (0 ≤ nx ∧ 0 ≤ ny ∧ 0 ≤ nz
                        ∧ Forall (λ row, length row = 3%nat) coords))
  then inl Raised_ValueError
  else
    assert_that (bool_decide (np_mod nx Lx = 0));;
    assert_that (bool_decide (np_mod ny Ly = 0));;
    assert_that (bool_decide (np_mod nz Lz = 0));;
    let nx_prim := nx / Lx in
    let ny_prim := ny / Ly in
    let nz_prim := nz / Lz in
    let prim_grid :=
      grid_block mesh coords (0, nx_prim) (0, ny_prim) (0, nz_prim) in
    st <-
      for_raised (cells Ls) (λ box st,
        let '(res, res_dict) := st in
        let '(ix, iy, iz) := box in
        let x_0 := ix * nx_prim in
        let x_1 := (ix + 1) * nx_prim in
        let y_0 := iy * ny_prim in
        let y_1 := (iy + 1) * ny_prim in
        let z_0 := iz * nz_prim in
        let z_1 := (iz + 1) * nz_prim in
        let grid_tmp := grid_block mesh coords (x_0, x_1) (y_0, y_1) (z_0, z_1) in
        let bench := shift_bench a00 a11 a22 Ls box in
        let shifts := zip_with (zip_with fsub) grid_tmp prim_grid in
        for_raised shifts (λ shift _, check_shift cell_a shift bench) tt;;
        inr (res ++ [grid_tmp], <[(ix, iy, iz) := grid_tmp]> res_dict))
        ([], ∅);;
    let '(res, res_dict) := st in
    inr (mjoin res, res_dict).

(** The grid points of the box [b], in the order of the points of the
    primitive cell. *)
Definition box_points (mesh_prim Ls : triple) (coords : matrix F)
    (b : triple) : matrix F :=
  (λ p, coords !!! Z.to_nat (translation_image mesh_prim Ls p b))
    <$> cells mesh_prim.

(** The six entries of [cell_a] off its diagonal are [0.0]. *)
Definition diagonal (cell_a : matrix F) : Prop :=
  ∀ i j, 0 ≤ i < 3 → 0 ≤ j < 3 → i ≠ j →
    feqb (mat_at cell_a i j) f0 = true.

(** The point [p] of the box [b] is the point [p] of the first box moved
    by [shift_bench], or by that and lattice vectors of the supercell: the
    check of the inner loop passes. *)
Definition shift_checked (cell_a : matrix F) (mesh_prim Ls : triple)
    (coords : matrix F) (b p : triple) : Prop :=
  check_shift cell_a
    (zip_with fsub
       (coords !!! Z.to_nat (translation_image mesh_prim Ls p b))
       (coords !!! Z.to_nat (translation_image mesh_prim Ls p (0, 0, 0))))
    (shift_bench (mat_at cell_a 0 0) (mat_at cell_a 1 1) (mat_at cell_a 2 2)
       Ls b)
  = inr tt.

End ExtractGrid.

(** *** [build_supercell] (isdf_k.py) *)

Section BuildSupercell.
Context {F : Type} `{Numeric F} `{Comparison F} {Sym : Type}.

Local Open Scope raised_scope.

(** An atom [[symbol, (x, y, z)]]. *)
Definition atom : Type := Sym * (F * F * F).

(** [[atom[0], (atom[1][0] + shift[0], atom[1][1] + shift[1],
    atom[1][2] + shift[2])]] with the [shift] of the box [(ix, iy, iz)]. *)
Definition translated_atom (prim_a : matrix F) (box : triple) (a : atom)
  : atom :=
  let '(ix, iy, iz) := box in
  let shift := (fmul (of_int ix) (mat_at prim_a 0 0),
                fmul (of_int iy) (mat_at prim_a 1 1),
                fmul (of_int iz) (mat_at prim_a 2 2)) in
  let '(symbol, (x, y, z)) := a in
  let '(s0, s1, s2) := shift in
  (symbol, (fadd x s0, fadd y s1, fadd z s2)).

(** [build_supercell(prim_atm, prim_a, mesh, Ls, ...)] up to the call of
    [Cell.build]: the lattice vectors [Cell.a] and the atoms [Cell.atom]
    that it sets.  [prim_a * np.array(Ls)] multiplies the column [j] by
    [Ls[j]] and refuses rows that are not of length 3 (ValueError); after
    it the diagonal of [prim_a] can be read. *)
Definition build_supercell (prim_atm : list atom) (prim_a : matrix F)
    (Ls : triple) : raised + (matrix F * list atom) :=
  a01 <- entry prim_a 0 1;; assert_that (feqb a01 f0);;
  a02 <- entry prim_a 0 2;; assert_that (feqb a02 f0);;
  a10 <- entry prim_a 1 0;; assert_that (feqb a10 f0);;
  a12 <- entry prim_a 1 2;; assert_that (feqb a12 f0);;
  a20 <- entry prim_a 2 0;; assert_that (feqb a20 f0);;
  a21 <- entry prim_a 2 1;; assert_that (feqb a21 f0);;
  let '(Lx, Ly, Lz) := Ls in
  if negb (bool_decide (Forall (λ row, length row = 3%nat) prim_a))
  then inl Raised_ValueError
  else
    let Supercell_a :=
      (λ row, zip_with fmul row [of_int Lx; of_int Ly; of_int Lz])
        <$> prim_a in
    let atm :=
      loop_cells Ls (λ box atm,
        fold_left (λ atm atom, atm ++ [translated_atom prim_a box atom])
          prim_atm atm) [] in
    inr (Supercell_a, atm).

End BuildSupercell.

(** *** The loop of [_construct_aux_basis_kSym] over half of the lattice
    (isdf_k.py) *)

(** [Ls[0], Ls[1], Ls[2]//2+1], the extents of the three loops. *)
Definition half_lattice (Ls : triple) : triple :=
  let '(l0, l1, l2) := Ls in (l0, l1, l2 / 2 + 1).

Section AuxBasisLoop.
Context {B : Type}.

(** The steps of libpbc on a block of columns.  [solve i] is [B_tmp] after
    [Complex_Cholesky] of the block [i] of [A_complex],
    [Solve_LLTEqualB_Complex_Parallel] for the block [i] of [B_complex] and
    [_FinalFFT] with [FREQ[i]]; [permutation_conj perm_id B_tmp] is
    [B_tmp] after [_PermutationConj] with [permutation[perm_id]]. *)
Variables (solve : Z → B) (permutation_conj : Z → B → B).

(** [aux_basis[:, iloc*nGridPrim:(iloc+1)*nGridPrim] = B_tmp] for
    [0 <= iloc], with [aux_basis] as the list of its blocks of [nGridPrim]
    columns; NumPy refuses the value for a block that is not there
    ([None]: ValueError). *)
Definition assign_columns (aux_basis : list B) (iloc : Z) (B_tmp : B)
  : option (list B) :=
  if decide (iloc < Z.of_nat (length aux_basis))
  then Some (<[Z.to_nat iloc := B_tmp]> aux_basis) else None.

(** The loop that fills [mydf.aux_basis]: one block of half of the lattice
    after the other is solved and stored, and its conjugate is stored for
    the reflected cell, unless the cell is its own reflection.  The state
    is the counter [i] and [mydf.aux_basis]. *)
Definition _construct_aux_basis_kSym_loop (Ls : triple) (aux_basis : list B)
  : option (list B) :=
  let '(l0, l1, l2) := Ls in
  snd <$>
    for_cells (l0, l1, l2 / 2 + 1) (λ c st,
      let '(ix, iy, iz) := c in
      let '(i, aux_basis) := st in
      let B_tmp := solve i in
      let iloc := ix * l1 * l2 + iy * l2 + iz in
      aux_basis ← assign_columns aux_basis iloc B_tmp;
      let ix2 := (l0 - ix) mod l0 in
      let iy2 := (l1 - iy) mod l1 in
      let iz2 := (l2 - iz) mod l2 in
      let i := i + 1 in
      if bool_decide (ix2 = ix) && bool_decide (iy2 = iy)
         && bool_decide (iz2 = iz)
      then Some (i, aux_basis)
      else
        let perm_id := 0 in
        let perm_id := if bool_decide (ix ≠ 0) then perm_id + 4 else perm_id in
        let perm_id := if bool_decide (iy ≠ 0) then perm_id + 2 else perm_id in
        let perm_id := if bool_decide (iz ≠ 0) then perm_id + 1 else perm_id in
        let B_tmp := permutation_conj perm_id B_tmp in
        let iloc2 := ix2 * l1 * l2 + iy2 * l2 + iz2 in
        aux_basis ← assign_columns aux_basis iloc2 B_tmp;
        Some (i, aux_basis)) (0, aux_basis).

(** The block of the cell [c] comes from the cell itself and not from the
    conjugate of the reflected cell: [c] is in the half of the lattice that
    the loop visits, and the reflected cell is not visited, or not after
    [c]. *)
Definition stored_directly (Ls : triple) (c : triple) : Prop :=
  c ∈ cells (half_lattice Ls)
  ∧ (cell_reflect Ls (0, 0, 0) c ∈ cells (half_lattice Ls) →
     ravel (half_lattice Ls) (cell_reflect Ls (0, 0, 0) c)
     ≤ ravel (half_lattice Ls) c).

#[export] Instance stored_directly_dec Ls c : Decision (stored_directly Ls c).
Proof. unfold stored_directly. apply _. Defined.

(** The index of the permutation that the loop takes for the cell [c]:
    [permutation[4 * sx + 2 * sy + sz]] is the permutation of the shifts
    [(sx, sy, sz)]. *)
Definition perm_id_of (c : triple) : Z :=
  let '(ix, iy, iz) := c in
  4 * (if bool_decide (ix ≠ 0) then 1 else 0)
  + 2 * (if bool_decide (iy ≠ 0) then 1 else 0)
  + (if bool_decide (iz ≠ 0) then 1 else 0).

End AuxBasisLoop.

(** *** [PBC_ISDF_Info_Quad_K._permutate_K1_tmp1]
    (isdf_linear_scaling_k.py) *)

(** [for x in l: s = body(x, s)] where the body may raise: the state when
    the loop ends, and the exception that ended it. *)
Definition for_keep {A S : Type} (l : list A) (body : A → S → raised + S)
    (s : S) : S * option raised :=
  fold_left (λ acc x,
    match acc with
    | (s, Some e) => (s, Some e)
    | (s, None) =>
        match body x s with
        | inl e => (s, Some e)
        | inr s' => (s', None)
        end
    end) l (s, None).

Section PermutateK1.
Context {F : Type} `{Numeric F}.

(** The attribute [self.K_tmp1_permutation_buf]: its [shape[0]] and its
    memory in C order.  The array that the method returns is a view of the
    head of this memory. *)
Record k_buffer : Type := {
  buf_shape0 : Z;
  buf_data : list F
}.

(** [self._permutate_K1_tmp1(K_tmp1, box_id)] for a [float64] array
    [K_tmp1] of at least one row that is not itself a view of the buffer,
    and counts of [kmesh] that are not 0; [buf] is the attribute, [None]
    before it exists.  The result is the attribute afterwards and the
    array returned.  [np.ndarray(shape, buffer=...)] refuses a buffer that
    is too small (TypeError); an assignment of a block of another shape is
    a ValueError, and leaves the blocks written before it. *)
Definition _permutate_K1_tmp1 (kmesh : triple) (nao_prim : Z)
    (buf : option k_buffer) (K_tmp1 : matrix F) (box_id : Z)
  : option k_buffer * (raised + matrix F) :=
  let '(k0, k1, k2) := kmesh in
  let box_x := box_id / (k1 * k2) in
  let box_y := (box_id mod (k1 * k2)) / k2 in
  let box_z := box_id mod k2 in
  let rows := Z.of_nat (length K_tmp1) in
  let cols := Z.of_nat (length (hd [] K_tmp1)) in
  let zeros_like :=
    {| buf_shape0 := rows;
       buf_data := replicate (Z.to_nat (rows * cols)) f0 |} in
  let buf :=
    match buf with
    | None => zeros_like
    | Some b => if bool_decide (buf_shape0 b < rows) then zeros_like else b
    end in
  match np_view (buf_data buf) 0 rows cols with
  | None => (Some buf, inl Raised_TypeError)
  | Some K_tmp1_permutation =>
      let '((loc, K_tmp1_permutation), e) :=
        for_keep (cells kmesh) (λ c st,
          let '(i, j, k) := c in
          let '(loc, K_tmp1_permutation) := st in
          let ix_ := (i - box_x + k0) mod k0 in
          let iy_ := (j - box_y + k1) mod k1 in
          let iz_ := (k - box_z + k2) mod k2 in
          let loc_ := ix_ * k1 * k2 + iy_ * k2 + iz_ in
          match
            assign_block K_tmp1_permutation 0 rows
              (loc * nao_prim) ((loc + 1) * nao_prim)
              (block K_tmp1 0 rows (loc_ * nao_prim) ((loc_ + 1) * nao_prim))
          with
          | Some K_tmp1_permutation => inr (loc + 1, K_tmp1_permutation)
          | None => inl Raised_ValueError
          end) (0, K_tmp1_permutation) in
      let buf :=
        {| buf_shape0 := buf_shape0 buf;
           buf_data := mjoin K_tmp1_permutation
                       ++ drop (Z.to_nat (rows * cols)) (buf_data buf) |} in
      (Some buf,
       match e with Some e => inl e | None => inr K_tmp1_permutation end)
  end.

(** The buffer is there and is used as it is, though it is too small for
    an array of [rows * cols] entries. *)
Definition buffer_too_small (buf : option k_buffer) (rows cols : Z) : Prop :=
  ∃ b, buf = Some b ∧ rows ≤ buf_shape0 b
       ∧ Z.of_nat (length (buf_data b)) < rows * cols.

End PermutateK1.

Arguments k_buffer F : clear implicits.

(** *** The groups of atoms in [PBC_ISDF_Info_Quad_K.build_IP_local]
    (isdf_linear_scaling_k.py) *)

Section BuildIPLocalGroups.

Local Open Scope raised_scope.

(** The first statements of [build_IP_local], up to the call of
    [build_partition_aoR]: the default of [group], its check, and the
    attributes [group], [group_global], [atm_ordering] and
    [atm_id_2_group] that are set from it.  [first_natm] is what
    [self._get_first_natm()] returns, [natm] is [self.cell.natm]; an array
    index out of range is an IndexError, a negative one counts from the
    end. *)
Definition build_IP_local_groups (first_natm natmPrim natm : Z)
    (kmesh : triple) (group : option (list (list Z)))
  : raised + (list (list Z) * list (list Z) * list Z * list Z) :=
  let group :=
    match group with
    | Some group => group
    | None => fold_left (λ group i, group ++ [[i]]) (range first_natm) []
    end in
  natm_involved <-
    for_raised group (λ data natm_involved,
      for_raised data (λ atm_id _,
        assert_that (bool_decide (atm_id < first_natm))) tt;;
      inr (natm_involved + Z.of_nat (length data))) 0;;
  assert_that (bool_decide (natm_involved = first_natm));;
  let group := (λ data : list Z, int32 <$> data) <$> group in
  assert_that (bool_decide (Z.of_nat (length group) ≤ first_natm));;
  let '(group_global, atm_ordering, shift) :=
    loop_cells kmesh (λ _ st,
      let '(group_global, atm_ordering, shift) := st in
      let '(group_global, atm_ordering) :=
        fold_left (λ st data,
          let '(group_global, atm_ordering) := st in
          (group_global ++ [add_scalar shift data],
           atm_ordering ++ add_scalar shift data))
          group (group_global, atm_ordering) in
      (group_global, atm_ordering, shift + natmPrim)) ([], [], 0) in
  let atm_ordering := int32 <$> atm_ordering in
  if negb (bool_decide (0 ≤ natm)) then inl Raised_ValueError
  else
    let atm_id_2_group := replicate (Z.to_nat natm) 0 in
    match
      for_ (range (Z.of_nat (length group_global))) (λ i atm_id_2_group,
        for_ (default [] (group_global !! Z.to_nat i))
          (λ atm_id atm_id_2_group,
             py_assign atm_id_2_group atm_id (int32 i))
          atm_id_2_group) atm_id_2_group
    with
    | Some atm_id_2_group =>
        inr (group, group_global, atm_ordering, atm_id_2_group)
    | None => inl Raised_IndexError
    end.

End BuildIPLocalGroups.

(** *** Kernels to run examples with *)

(** The products of [pyscf.lib] written out on [float64]; the two steps
    built on libpbc are stand-ins (the buffer is left as it is; K is a
    matrix of zeros), which the examples below do not reach. *)
Definition float_matmul (a b : matrix float) : matrix float :=
  (λ row : list float,
     (λ j : nat,
        float_sum (zip_with PrimFloat.mul row
                     ((λ r : list float, default PrimFloat.zero (r !! j)) <$> b)))
       <$> seq 0 (length (hd [] b))) <$> a.

#[export] Instance example_kernels : Kernels float := {
  ddot := float_matmul;
  multiply_sum_isdf := λ a b,
    foldr (zip_with PrimFloat.add)
      (replicate (length (hd [] a)) PrimFloat.zero)
      (zip_with (zip_with PrimFloat.mul) a b);
  d_ij_j_ij := λ a v, (λ row : list float, zip_with PrimFloat.mul row v) <$> a;
  ddot_withbuffer := λ a b c,
    zip_with (zip_with PrimFloat.add) (float_matmul a b) c;
  jk_buffer_size := λ nIP_Prim nGridPrim nao Ls, 0;
  construct_W_kernels := λ df buf, buf;
  _get_k_kSym := λ df dm,
    inr (replicate (length dm) (replicate (length dm) PrimFloat.zero));
  gamma_point := λ kpt,
    PrimFloat.ltb (float_sum (PrimFloat.abs <$> kpt)) 1e-9%float;
  kpts_differ := λ kpt kpts_band,
    PrimFloat.ltb 1e-9%float
      (float_sum (PrimFloat.abs <$> zip_with PrimFloat.sub kpt kpts_band));
  global_ngrids := None
}.

(** An object for a lattice of two cells along z, with one orbital and one
    interpolation point per cell, before W is built. *)
Definition example_df : mydf.t float :=
  mydf.mk (1, 1, 2) false false (Some (float_of_int <$> seqZ 1 64))
    2 (1, 1, 2) 1%float 1 1 [[1%float]; [1%float]] None None.

Definition example_dm : matrix float :=
  [[1%float; 2%float]; [3%float; 4%float]].

(** A density matrix on the lattice (2, 2, 2) with one orbital per cell:
    a single non-zero entry. *)
Definition example_dm8 : matrix float :=
  (0.8%float :: replicate 7 0%float) :: replicate 7 (replicate 8 0%float).

(** A parent constructor that sets the mesh (2, 2, 4) and no coordinates,
    and steps that return. *)
Definition example_env : init_env := {|
  super_init := inr ((2, 2, 4), true);
  grids_coords := inr tt;
  extract_grid_primitive_cell := inr tt;
  eval_ao := inr tt
|}.

(** Three orthogonal columns, the last one the longest: the columns of
    [example_A] are (1,0,0), (0,1,0) and (0,0,2). *)
Definition example_A : matrix float :=
  [[1%float; 0%float; 0%float];
   [0%float; 1%float; 0%float];
   [0%float; 0%float; 2%float]].

(** Three columns that are not orthogonal, (3,0,0), (2,1,0) and (0,2,0):
    the second one is longer than the third, but its residual after the
    elimination against the first is shorter. *)
Definition example_B : matrix float :=
  [[3%float; 2%float; 0%float];
   [0%float; 1%float; 2%float];
   [0%float; 0%float; 0%float]].

(** The working arrays of [colpivot_qr] on [example_B] after the first
    pass, which selects the first column. *)
Definition example_stB : qr_state (F:=float) := {|
  AA := [[3%float; 0%float; 0%float];
         [0%float; 1%float; 0%float];
         [0%float; 2%float; 0%float]];
  Q := [[1%float; 0%float; 0%float];
        [0%float; 0%float; 0%float];
        [0%float; 0%float; 0%float]];
  R := [[3%float; 2%float; 0%float];
        [0%float; 0%float; 0%float];
        [0%float; 0%float; 0%float]];
  pivot := [0; 1; 2];
  npt_find := 1
|}.

(** The working arrays of [colpivot_qr] on [example_A] after the first
    pass, which selects the last column. *)
Definition example_st : qr_state (F:=float) := {|
  AA := [[0%float; 0%float; 2%float];
         [0%float; 1%float; 0%float];
         [1%float; 0%float; 0%float]];
  Q := [[0%float; 0%float; 1%float];
        [0%float; 0%float; 0%float];
        [0%float; 0%float; 0%float]];
  R := [[2%float; 0%float; 0%float];
        [0%float; 0%float; 0%float];
        [0%float; 0%float; 0%float]];
  pivot := [2; 1; 0];
  npt_find := 1
|}.

(** An object on the lattice (1, 1, 2) with two orbitals and one atom per
    cell, whose holders are their lists [ao_involved], before any
    permutation has been cached. *)
Definition example_quad_k : quad_k.t (list Z) := {|
  quad_k.kmesh := (1, 1, 2);
  quad_k.nao_prim := 2;
  quad_k.natmPrim := 1;
  quad_k.aoR := [[0; 3]; [2]];
  quad_k.aoRg := [[1; 2]];
  quad_k.aoR1 := [[0; 3]; [2]];
  quad_k.aoRg1 := [[1; 2]; [0]];
  quad_k.aoR_col_permutation := None;
  quad_k.aoRg_col_permutation := None
|}.

(** [example_df] once W and W0 are set. *)
(** [example_df] after [_construct_W_incore] has run on it. *)
Definition example_df_built : mydf.t float :=
  mydf.set_W0 [[15%float]] (mydf.set_W [[7%float; 8%float]] example_df).

Definition example_df_W : mydf.t float :=
  mydf.set_W0 [[1%float]] (mydf.set_W [[1%float; 0%float]] example_df).

(** A supercell of two boxes along x, of two grid points each: the
    lattice vectors and the coordinates of the grid points in C order. *)
Definition example_cell_a : matrix float :=
  [[2; 0; 0]; [0; 1; 0]; [0; 0; 1]]%float.

Definition example_grid_coords : matrix float :=
  [[0; 0; 0]; [0; 0.5; 0]; [1; 0; 0]; [1; 0.5; 0]]%float.

(** Two atoms of a primitive cell, by their nuclear charge. *)
Definition example_prim_atm : list (atom (F:=float) (Sym:=Z)) :=
  [(6, (0, 0, 0)%float); (6, (0.5, 0.5, 0.5)%float)].

(** Blocks that record where they come from: the counter of the block
    that was solved, and the index of the permutation of its conjugate. *)
Definition example_solve (i : Z) : list Z := [i].

Definition example_permutation_conj (perm_id : Z) (B_tmp : list Z) : list Z :=
  B_tmp ++ [perm_id].

(** An array of two rows and four blocks of one column. *)
Definition example_K_tmp1 : matrix float :=
  [[1; 2; 3; 4]; [5; 6; 7; 8]]%float.

(** The three atoms of a primitive cell in two groups. *)
Definition example_group : list (list Z) := [[2; 0]; [1]].

(** ** Part II: lemmas and theorems *)

(** *** Loops *)

Section Loops.
Context {A S : Type}.
Implicit Types (l : list A) (body : A → S → option S).

Lemma for_nil body s : for_ [] body s = Some s.
Proof. reflexivity. Qed.

Lemma for_None l body :
  fold_left (λ acc i, acc ≫= body i) l None = None.
Proof. induction l as [|x l IH]; simpl; auto. Qed.

Lemma for_cons x l body s :
  for_ (x :: l) body s = body x s ≫= for_ l body.
Proof.
  unfold for_; simpl. destruct (body x s) as [s'|]; simpl; auto using for_None.
Qed.

Lemma for_app l1 l2 body s :
  for_ (l1 ++ l2) body s = for_ l1 body s ≫= for_ l2 body.
Proof.
  revert s; induction l1 as [|x l1 IH]; intros s.
  - reflexivity.
  - cbn [app]. rewrite !for_cons. destruct (body x s) as [s'|]; simpl; auto.
Qed.

Lemma for_ext l body1 body2 s :
  (∀ x s1, body1 x s1 = body2 x s1) → for_ l body1 s = for_ l body2 s.
Proof.
  intros E; revert s; induction l as [|x l IH]; intros s; [reflexivity|].
  rewrite !for_cons, E. destruct (body2 x s); simpl; auto.
Qed.

(** A loop that keeps an invariant of the part of the list already done
    runs to its end. *)
Lemma for_invariant (P : list A → S → Prop) l body s :
  P [] s →
  (∀ l1 x l2 s1, l = l1 ++ x :: l2 → P l1 s1 →
     ∃ s2, body x s1 = Some s2 ∧ P (l1 ++ [x]) s2) →
  ∃ s', for_ l body s = Some s' ∧ P l s'.
Proof.
  revert P s; induction l as [|x l IH]; intros P s H0 Hstep.
  - exists s; auto.
  - destruct (Hstep [] x l s eq_refl H0) as (s2 & Hb & HP).
    rewrite for_cons, Hb; simpl.
    apply (IH (λ l1 s1, P (x :: l1) s1) s2); [exact HP|].
    intros l1 y l2 s1 -> HP1.
    apply (Hstep (x :: l1) y l2 s1); auto.
Qed.

End Loops.

Lemma for_bind {A B S : Type} (f : B → list A) (k : list B)
    (body : A → S → option S) s :
  for_ (k ≫= f) body s = for_ k (λ x, for_ (f x) body) s.
Proof.
  revert s; induction k as [|x k IH]; intros s.
  - reflexivity.
  - change ((x :: k) ≫= f) with (f x ++ (k ≫= f)).
    rewrite for_app, for_cons.
    destruct (for_ (f x) body s); simpl; auto.
Qed.

Lemma for_cells_flat {S : Type} Ls (body : triple → S → option S) s :
  for_cells Ls body s = for_ (cells Ls) body s.
Proof.
  destruct Ls as [[l0 l1] l2]; unfold for_cells, cells.
  rewrite for_bind. apply for_ext; intros ix s1.
  rewrite for_bind. apply for_ext; intros iy s2.
  rewrite for_bind. apply for_ext; intros iz s3.
  rewrite for_cons; simpl. destruct (body _ s3); reflexivity.
Qed.

(** *** Matrices *)

Section MatrixFacts.
Context {F : Type} `{Numeric F}.
Implicit Types (m blk : matrix F) (i j r c : Z).

Lemma has_shape_zeros r c : 0 ≤ r → 0 ≤ c → has_shape r c (zeros r c).
Proof.
  intros Hr Hc; split.
  - unfold zeros; rewrite length_replicate; lia.
  - apply Forall_replicate. rewrite length_replicate; lia.
Qed.

Lemma has_shape_row r c m (n : nat) row :
  has_shape r c m → m !! n = Some row → Z.of_nat (length row) = c.
Proof. intros [_ Hc] Hn. exact (Forall_lookup_1 _ _ _ _ Hc Hn). Qed.

Lemma mat_get_is_Some r c m i j :
  has_shape r c m → 0 ≤ i < r → 0 ≤ j < c → is_Some (mat_get m i j).
Proof.
  intros Hm Hi Hj. unfold mat_get. rewrite decide_True by lia.
  destruct (lookup_lt_is_Some_2 m (Z.to_nat i)) as [row Hrow].
  { destruct Hm as [Hl _]; lia. }
  rewrite Hrow; simpl. apply lookup_lt_is_Some_2.
  pose proof (has_shape_row _ _ _ _ _ Hm Hrow). lia.
Qed.

Lemma mat_get_None_row r c m i j :
  has_shape r c m → r ≤ i → mat_get m i j = None.
Proof.
  intros [Hl _] Hi. unfold mat_get. case_decide; [|reflexivity].
  rewrite (lookup_ge_None_2 m) by lia. reflexivity.
Qed.

Lemma mat_get_None_col r c m i j :
  has_shape r c m → c ≤ j → mat_get m i j = None.
Proof.
  intros Hm Hj. unfold mat_get. case_decide; [|reflexivity].
  destruct (m !! Z.to_nat i) as [row|] eqn:Hrow; [simpl|reflexivity].
  pose proof (has_shape_row _ _ _ _ _ Hm Hrow).
  apply lookup_ge_None_2. lia.
Qed.

(** Two matrices of one shape with the same entries are equal. *)
Lemma matrix_ext r c m1 m2 :
  has_shape r c m1 → has_shape r c m2 →
  (∀ i j, 0 ≤ i < r → 0 ≤ j < c → mat_get m1 i j = mat_get m2 i j) →
  m1 = m2.
Proof.
  intros H1 H2 E. apply list_eq; intros n.
  destruct (decide (Z.of_nat n < r)) as [Hn|Hn].
  - destruct (lookup_lt_is_Some_2 m1 n) as [r1 Hr1]; [destruct H1; lia|].
    destruct (lookup_lt_is_Some_2 m2 n) as [r2 Hr2]; [destruct H2; lia|].
    rewrite Hr1, Hr2; f_equal. apply list_eq; intros k.
    pose proof (has_shape_row _ _ _ _ _ H1 Hr1) as L1.
    pose proof (has_shape_row _ _ _ _ _ H2 Hr2) as L2.
    destruct (decide (Z.of_nat k < c)) as [Hk|Hk].
    + specialize (E (Z.of_nat n) (Z.of_nat k)).
      unfold mat_get in E. rewrite !decide_True, !Nat2Z.id, Hr1, Hr2 in E by lia.
      apply E; lia.
    + rewrite !lookup_ge_None_2 by lia. reflexivity.
  - rewrite !lookup_ge_None_2; [reflexivity|destruct H2; lia|destruct H1; lia].
Qed.

Lemma has_shape_set_block r c m b0 k0 blk :
  has_shape r c m → has_shape r c (set_block m b0 k0 blk).
Proof.
  intros [Hl Hc]; split.
  - unfold set_block. rewrite length_imap. exact Hl.
  - apply Forall_lookup_2; intros n row. unfold set_block.
    rewrite list_lookup_imap. destruct (m !! n) as [row0|] eqn:E; [|discriminate].
    simpl; intros [= <-].
    pose proof (Forall_lookup_1 _ _ _ _ Hc E) as L.
    destruct (blk !! _); [case_decide|]; rewrite ?length_inserts; exact L.
Qed.

(** Inside the written block the entry is that of [blk]. *)
Lemma mat_get_set_block_in r c nb nk m b0 k0 blk i j :
  has_shape r c m → has_shape nb nk blk →
  0 ≤ b0 → 0 ≤ k0 → b0 + nb ≤ r → k0 + nk ≤ c →
  b0 ≤ i < b0 + nb → k0 ≤ j < k0 + nk →
  mat_get (set_block m b0 k0 blk) i j = mat_get blk (i - b0) (j - k0).
Proof.
  intros Hm Hb Hb0 Hk0 Hr Hc Hi Hj. unfold mat_get, set_block.
  rewrite !decide_True by lia. rewrite list_lookup_imap.
  destruct (lookup_lt_is_Some_2 m (Z.to_nat i)) as [row Hrow].
  { destruct Hm; lia. }
  destruct (lookup_lt_is_Some_2 blk (Z.to_nat (i - b0))) as [brow Hbrow].
  { destruct Hb; lia. }
  rewrite Hrow; simpl.
  replace (Z.to_nat i - Z.to_nat b0)%nat with (Z.to_nat (i - b0)) by lia.
  rewrite Hbrow, decide_True by lia; simpl.
  pose proof (has_shape_row _ _ _ _ _ Hm Hrow).
  pose proof (has_shape_row _ _ _ _ _ Hb Hbrow).
  rewrite list_lookup_inserts by lia. f_equal; lia.
Qed.

(** Outside the written block the entry is unchanged. *)
Lemma mat_get_set_block_out r c nb nk m b0 k0 blk i j :
  has_shape r c m → has_shape nb nk blk →
  0 ≤ b0 → 0 ≤ k0 →
  ¬ (b0 ≤ i < b0 + nb ∧ k0 ≤ j < k0 + nk) →
  mat_get (set_block m b0 k0 blk) i j = mat_get m i j.
Proof.
  intros Hm Hb Hb0 Hk0 Hout. unfold mat_get, set_block.
  case_decide as Hij; [|reflexivity]. rewrite list_lookup_imap.
  destruct (m !! Z.to_nat i) as [row|] eqn:Hrow; [simpl|reflexivity].
  destruct (blk !! _) as [brow|] eqn:Hbrow; [|reflexivity].
  case_decide as Hge; [|reflexivity].
  pose proof (has_shape_row _ _ _ _ _ Hb Hbrow) as Lb.
  apply lookup_lt_Some in Hbrow. destruct Hb as [Hbl _].
  destruct (decide (j < k0)).
  - apply list_lookup_inserts_lt; lia.
  - apply list_lookup_inserts_ge; lia.
Qed.

Lemma lookup_slice {A : Type} (l : list A) b e (n : nat) :
  0 ≤ b →
  slice l b e !! n =
    if decide (Z.of_nat n < e - b) then l !! (Z.to_nat b + n)%nat else None.
Proof.
  intros Hb. unfold slice. case_decide.
  - rewrite lookup_take_lt by lia. apply lookup_drop.
  - apply lookup_take_ge; lia.
Qed.

Lemma length_slice {A : Type} (l : list A) b e :
  0 ≤ b ≤ e → e ≤ Z.of_nat (length l) → Z.of_nat (length (slice l b e)) = e - b.
Proof.
  intros Hb He. unfold slice. rewrite length_take, length_drop. lia.
Qed.

Lemma has_shape_block r c m b0 b1 k0 k1 :
  has_shape r c m → 0 ≤ b0 ≤ b1 → b1 ≤ r → 0 ≤ k0 ≤ k1 → k1 ≤ c →
  has_shape (b1 - b0) (k1 - k0) (block m b0 b1 k0 k1).
Proof.
  intros Hm Hb0 Hb1 Hk0 Hk1; split.
  - unfold block. rewrite length_fmap. apply length_slice; destruct Hm; lia.
  - apply Forall_lookup_2; intros n row. unfold block.
    rewrite list_lookup_fmap, lookup_slice by lia.
    case_decide; [|discriminate].
    destruct (m !! _) as [row0|] eqn:E; [|discriminate]. intros [= <-].
    pose proof (has_shape_row _ _ _ _ _ Hm E). apply length_slice; lia.
Qed.

Lemma has_shape_eq r c r' c' m :
  has_shape r c m → r = r' → c = c' → has_shape r' c' m.
Proof. intros Hm <- <-; exact Hm. Qed.

Lemma mat_get_block m b0 b1 k0 k1 i j :
  0 ≤ b0 → 0 ≤ k0 → 0 ≤ i < b1 - b0 → 0 ≤ j < k1 - k0 →
  mat_get (block m b0 b1 k0 k1) i j = mat_get m (b0 + i) (k0 + j).
Proof.
  intros Hb Hk Hi Hj. unfold mat_get, block.
  rewrite !decide_True by lia.
  rewrite list_lookup_fmap, lookup_slice by lia.
  rewrite decide_True by lia.
  replace (Z.to_nat b0 + Z.to_nat i)%nat with (Z.to_nat (b0 + i)) by lia.
  destruct (m !! _) as [row|]; [simpl|reflexivity].
  rewrite lookup_slice, decide_True by lia. f_equal; lia.
Qed.

Lemma same_shape_has_shape r c m1 m2 :
  has_shape r c m1 → has_shape r c m2 → same_shape m1 m2.
Proof.
  intros [L1 C1] [L2 C2]. apply Forall2_same_length_lookup_2; [lia|].
  intros n x y Hx Hy.
  pose proof (Forall_lookup_1 _ _ _ _ C1 Hx) as E1.
  pose proof (Forall_lookup_1 _ _ _ _ C2 Hy) as E2.
  cbv beta in E1, E2. lia.
Qed.

End MatrixFacts.

(** *** The lattice of cells *)

Lemma elem_of_cells Ls x y z :
  (x, y, z) ∈ cells Ls ↔
  0 ≤ x < Ls.1.1 ∧ 0 ≤ y < Ls.1.2 ∧ 0 ≤ z < Ls.2.
Proof.
  destruct Ls as [[l0 l1] l2]; unfold cells, range; simpl. split.
  - intros Hx. apply list_elem_of_bind in Hx as (x' & Hx & Hx').
    apply list_elem_of_bind in Hx as (y' & Hx & Hy').
    apply list_elem_of_bind in Hx as (z' & Hx & Hz').
    apply list_elem_of_singleton in Hx as [= -> -> ->].
    apply elem_of_seqZ in Hx', Hy', Hz'. lia.
  - intros (Hx & Hy & Hz).
    apply list_elem_of_bind; exists x; split; [|apply elem_of_seqZ; lia].
    apply list_elem_of_bind; exists y; split; [|apply elem_of_seqZ; lia].
    apply list_elem_of_bind; exists z; split; [|apply elem_of_seqZ; lia].
    apply list_elem_of_singleton; reflexivity.
Qed.

Lemma ravel_bounds Ls p :
  p ∈ cells Ls → 0 ≤ ravel Ls p < np_prod Ls.
Proof.
  destruct Ls as [[l0 l1] l2], p as [[x y] z]; intros Hp.
  apply elem_of_cells in Hp; simpl in *.
  assert (0 ≤ x * (l1 * l2)) by (apply Z.mul_nonneg_nonneg; nia).
  assert (0 ≤ y * l2) by nia.
  assert (y * l2 ≤ (l1 - 1) * l2) by (apply Z.mul_le_mono_nonneg_r; lia).
  assert ((x + 1) * (l1 * l2) ≤ l0 * (l1 * l2))
    by (apply Z.mul_le_mono_nonneg_r; nia).
  lia.
Qed.

Lemma mixed_radix_unique n q q' r r' :
  0 ≤ r < n → 0 ≤ r' < n → q * n + r = q' * n + r' → q = q' ∧ r = r'.
Proof.
  intros Hr Hr' E.
  assert (q = q') as ->; [|lia].
  destruct (Z.lt_trichotomy q q') as [Hlt|[Heq|Hgt]]; [|exact Heq|].
  - assert ((q + 1) * n ≤ q' * n) by (apply Z.mul_le_mono_nonneg_r; lia). lia.
  - assert ((q' + 1) * n ≤ q * n) by (apply Z.mul_le_mono_nonneg_r; lia). lia.
Qed.

Lemma ravel_inj Ls p q :
  p ∈ cells Ls → q ∈ cells Ls → ravel Ls p = ravel Ls q → p = q.
Proof.
  destruct Ls as [[l0 l1] l2], p as [[x y] z], q as [[x' y'] z'].
  intros Hp Hq E. apply elem_of_cells in Hp, Hq; simpl in *.
  destruct (mixed_radix_unique l2 (x * l1 + y) (x' * l1 + y') z z')
    as [E' ->]; [lia|lia|lia|].
  destruct (mixed_radix_unique l1 x x' y y') as [-> ->]; [lia|lia|lia|].
  reflexivity.
Qed.

Lemma cell_diff_in Ls a b :
  a ∈ cells Ls → cell_diff Ls a b ∈ cells Ls.
Proof.
  destruct Ls as [[l0 l1] l2], a as [[x y] z], b as [[x' y'] z'].
  intros Ha. unfold cell_diff. apply elem_of_cells.
  apply elem_of_cells in Ha; simpl in *.
  pose proof (Z.mod_pos_bound (x - x') l0).
  pose proof (Z.mod_pos_bound (y - y') l1).
  pose proof (Z.mod_pos_bound (z - z') l2). lia.
Qed.

Lemma cell_add_in Ls a b :
  a ∈ cells Ls → cell_add Ls a b ∈ cells Ls.
Proof.
  destruct Ls as [[l0 l1] l2], a as [[x y] z], b as [[x' y'] z'].
  intros Ha. unfold cell_add. apply elem_of_cells.
  apply elem_of_cells in Ha; simpl in *.
  pose proof (Z.mod_pos_bound (x + x') l0).
  pose proof (Z.mod_pos_bound (y + y') l1).
  pose proof (Z.mod_pos_bound (z + z') l2). lia.
Qed.

Lemma cell_zero_in Ls p : p ∈ cells Ls → (0, 0, 0) ∈ cells Ls.
Proof.
  destruct p as [[x y] z]; intros Hp. apply elem_of_cells in Hp.
  apply elem_of_cells. lia.
Qed.

Lemma cell_diff_zero Ls p : p ∈ cells Ls → cell_diff Ls p (0, 0, 0) = p.
Proof.
  destruct Ls as [[l0 l1] l2], p as [[x y] z]; intros Hp.
  apply elem_of_cells in Hp; simpl in *.
  unfold cell_diff. rewrite !Z.sub_0_r, !Z.mod_small by lia. reflexivity.
Qed.

(** Two nested loops over the cells are one loop over the pairs of cells. *)
Lemma for_cells_pairs {S : Type} Ls (body : triple → triple → S → option S) s :
  for_ (cells Ls) (λ row, for_ (cells Ls) (λ col, body row col)) s =
  for_ (row ← cells Ls; col ← cells Ls; [(row, col)])
       (λ rc, body rc.1 rc.2) s.
Proof.
  rewrite for_bind. apply for_ext; intros row s1.
  rewrite for_bind. apply for_ext; intros col s2.
  rewrite for_cons; simpl. destruct (body _ _ s2); reflexivity.
Qed.

Lemma elem_of_cell_pairs Ls row col :
  (row, col) ∈ (row ← cells Ls; col ← cells Ls; [(row, col)]) ↔
  row ∈ cells Ls ∧ col ∈ cells Ls.
Proof.
  split.
  - intros Hp. apply list_elem_of_bind in Hp as (r & Hp & Hr).
    apply list_elem_of_bind in Hp as (c & Hp & Hc).
    apply list_elem_of_singleton in Hp as [= -> ->]. auto.
  - intros [Hr Hc].
    apply list_elem_of_bind; exists row; split; [|exact Hr].
    apply list_elem_of_bind; exists col; split; [|exact Hc].
    apply list_elem_of_singleton; reflexivity.
Qed.

Lemma mod_add_sub l a b :
  0 ≤ a < l → 0 ≤ b < l → ((a - b) mod l + b) mod l = a.
Proof.
  intros Ha Hb. rewrite Zplus_mod_idemp_l.
  replace (a - b + b) with a by lia. apply Z.mod_small; lia.
Qed.

Lemma mod_sub_add l a b :
  0 ≤ a < l → 0 ≤ b < l → ((a + b) mod l - b) mod l = a.
Proof.
  intros Ha Hb. rewrite Zminus_mod_idemp_l.
  replace (a + b - b) with a by lia. apply Z.mod_small; lia.
Qed.

Lemma cell_add_diff Ls row col :
  row ∈ cells Ls → col ∈ cells Ls →
  cell_add Ls (cell_diff Ls col row) row = col.
Proof.
  destruct Ls as [[l0 l1] l2], row as [[x y] z], col as [[x' y'] z'].
  intros Hr Hc. apply elem_of_cells in Hr, Hc; simpl in Hr, Hc.
  unfold cell_add, cell_diff. rewrite !mod_add_sub by lia. reflexivity.
Qed.

Lemma cell_diff_add Ls s row :
  s ∈ cells Ls → row ∈ cells Ls →
  cell_diff Ls (cell_add Ls s row) row = s.
Proof.
  destruct Ls as [[l0 l1] l2], row as [[x y] z], s as [[x' y'] z'].
  intros Hs Hr. apply elem_of_cells in Hr, Hs; simpl in Hr, Hs.
  unfold cell_add, cell_diff. rewrite !mod_sub_add by lia. reflexivity.
Qed.

(** The cell that holds an index: blocks of [n] do not overlap. *)
Lemma block_index_unique n R R' a :
  0 ≤ a < n → R' * n ≤ R * n + a < (R' + 1) * n → R = R'.
Proof.
  intros Ha Hr.
  destruct (Z.lt_trichotomy R R') as [Hlt|[Heq|Hgt]]; [|exact Heq|].
  - assert ((R + 1) * n ≤ R' * n) by (apply Z.mul_le_mono_nonneg_r; lia). lia.
  - assert ((R' + 1) * n ≤ R * n) by (apply Z.mul_le_mono_nonneg_r; lia). lia.
Qed.

(** *** [_pack_JK] *)

Section PackJKFacts.
Context {F : Type} `{Numeric F}.
Implicit Types (input_mat output : matrix F) (Ls row col : triple).

Lemma _pack_JK_body_ravel input_mat Ls nao_prim row col output :
  _pack_JK_body input_mat Ls nao_prim row col output =
  assign_block output
    (ravel Ls row * nao_prim) ((ravel Ls row + 1) * nao_prim)
    (ravel Ls col * nao_prim) ((ravel Ls col + 1) * nao_prim)
    (block input_mat 0 (Z.of_nat (length input_mat))
       (ravel Ls (cell_diff Ls col row) * nao_prim)
       ((ravel Ls (cell_diff Ls col row) + 1) * nao_prim)).
Proof.
  destruct Ls as [[l0 l1] l2], row as [[xr yr] zr], col as [[xc yc] zc].
  reflexivity.
Qed.

(** The bounds of a primitive-cell block inside an array of [ncell] blocks. *)
Lemma prim_block_bounds Ls nao_prim p :
  0 ≤ nao_prim → p ∈ cells Ls →
  0 ≤ ravel Ls p * nao_prim ≤ (ravel Ls p + 1) * nao_prim ∧
  (ravel Ls p + 1) * nao_prim ≤ np_prod Ls * nao_prim.
Proof.
  intros Hn Hp. pose proof (ravel_bounds Ls p Hp) as Hb.
  assert ((ravel Ls p + 1) * nao_prim ≤ np_prod Ls * nao_prim)
    by (apply Z.mul_le_mono_nonneg_r; lia).
  nia.
Qed.

Lemma _pack_JK_step input_mat Ls nao_prim l1 row col l2 output :
  1 ≤ nao_prim →
  has_shape nao_prim (nao_prim * np_prod Ls) input_mat →
  (row ← cells Ls; col ← cells Ls; [(row, col)]) = l1 ++ (row, col) :: l2 →
  _pack_JK_inv input_mat Ls nao_prim l1 output →
  ∃ output', _pack_JK_body input_mat Ls nao_prim row col output = Some output'
    ∧ _pack_JK_inv input_mat Ls nao_prim (l1 ++ [(row, col)]) output'.
Proof.
  intros Hn Hin Hl [Hout Hinv].
  assert (∀ rc, rc ∈ l1 ++ [(row, col)] → rc.1 ∈ cells Ls ∧ rc.2 ∈ cells Ls)
    as Hcells.
  { intros [r c] Hrc. apply elem_of_cell_pairs. rewrite Hl.
    apply elem_of_app in Hrc as [Hrc|Hrc]; apply elem_of_app; [auto|].
    apply list_elem_of_singleton in Hrc as ->. right; apply elem_of_cons; auto. }
  destruct (Hcells (row, col)) as [Hrow Hcol].
  { apply elem_of_app; right; apply list_elem_of_singleton; reflexivity. }
  simpl in Hrow, Hcol.
  pose proof (cell_diff_in Ls col row Hcol) as Hd.
  pose proof (prim_block_bounds Ls nao_prim row ltac:(lia) Hrow) as Br.
  pose proof (prim_block_bounds Ls nao_prim col ltac:(lia) Hcol) as Bc.
  pose proof (prim_block_bounds Ls nao_prim _ ltac:(lia) Hd) as Bd.
  rewrite _pack_JK_body_ravel.
  set (blk := block input_mat 0 _ _ _).
  assert (has_shape nao_prim nao_prim blk) as Hblk.
  { subst blk. rewrite (proj1 Hin).
    eapply has_shape_eq; [eapply has_shape_block; [exact Hin|lia..]|lia..]. }
  unfold assign_block.
  rewrite decide_True.
  2:{ eapply same_shape_has_shape; [exact Hblk|].
      eapply has_shape_eq; [eapply has_shape_block; [exact Hout|lia..]|lia..]. }
  eexists; split; [reflexivity|]. split; [apply has_shape_set_block, Hout|].
  intros r c a b Hrc Ha Hb.
  destruct (Hcells (r, c) Hrc) as [Hr Hc]; simpl in *.
  destruct (decide (r = row ∧ c = col)) as [[-> ->]|Hne].
  - erewrite mat_get_set_block_in; [|exact Hout|exact Hblk|lia..].
    pose proof (proj1 Hin) as Hlen.
    subst blk. rewrite mat_get_block by lia. f_equal; lia.
  - erewrite mat_get_set_block_out; [|exact Hout|exact Hblk|lia|lia|].
    + apply Hinv; auto. apply elem_of_app in Hrc as [?|Hrc]; [done|].
      apply list_elem_of_singleton in Hrc as [= -> ->]. tauto.
    + intros [Hi Hj]. apply Hne; split.
      * apply (ravel_inj Ls); auto.
        apply (block_index_unique nao_prim _ _ a); lia.
      * apply (ravel_inj Ls); auto.
        apply (block_index_unique nao_prim _ _ b); lia.
Qed.

Lemma _pack_JK_run input_mat Ls nao_prim :
  dtype_float64 = true →
  1 ≤ nao_prim →
  has_shape nao_prim (nao_prim * np_prod Ls) input_mat →
  ∃ output, _pack_JK input_mat Ls nao_prim = Some output ∧
    _pack_JK_inv input_mat Ls nao_prim
      (row ← cells Ls; col ← cells Ls; [(row, col)]) output.
Proof.
  intros Hf64 Hn Hin. unfold _pack_JK.
  assert (0 ≤ np_prod Ls) as Hncell.
  { destruct Hin as [Hlen Hrows].
    destruct input_mat as [|row0 rest]; [simpl in Hlen; lia|].
    apply Forall_cons in Hrows as [Hrow0 _]. nia. }
  rewrite Hf64, bool_decide_eq_true_2 by exact Hin. simpl.
  rewrite decide_True by nia.
  rewrite for_cells_flat.
  rewrite (for_ext _ _ (λ row, for_ (cells Ls)
    (λ col, _pack_JK_body input_mat Ls nao_prim row col)))
    by (intros; apply for_cells_flat).
  rewrite for_cells_pairs.
  apply for_invariant.
  - split; [apply has_shape_zeros; nia|]. intros ? ? ? ? Hx. inversion Hx.
  - intros l1 [row col] l2 s1 Hl Hinv. simpl.
    eapply _pack_JK_step; eauto.
Qed.

Lemma has_shape_prim_block r c (m : matrix F) n R C :
  has_shape r c m → 0 ≤ n → 0 ≤ R → (R + 1) * n ≤ r →
  0 ≤ C → (C + 1) * n ≤ c →
  has_shape n n (prim_block m n R C).
Proof.
  intros Hm Hn HR HR' HC HC'. unfold prim_block.
  eapply has_shape_eq; [eapply has_shape_block; [exact Hm|nia..]|lia..].
Qed.

Lemma mat_get_prim_block (m : matrix F) n R C a b :
  0 ≤ R → 0 ≤ C → 0 ≤ a < n → 0 ≤ b < n →
  mat_get (prim_block m n R C) a b = mat_get m (R * n + a) (C * n + b).
Proof.
  intros HR HC Ha Hb. unfold prim_block. apply mat_get_block; nia.
Qed.

(** C2.  For every count vector [Ls], every [nao_prim >= 1] and every real
    ([float64]) input of shape [(nao_prim, nao_prim * prod(Ls))], [_pack_JK] returns a matrix
    of shape [(prod(Ls) * nao_prim, prod(Ls) * nao_prim)] whose block at the
    block indices (row, col) is the input block at the translation
    difference [(col - row) mod Ls]; hence the block (row, col) of the
    output is its block (0, (col - row) mod Ls). *)
Theorem pack_JK_block_circulant input_mat Ls nao_prim :
  dtype_float64 = true →
  1 ≤ nao_prim →
  has_shape nao_prim (nao_prim * np_prod Ls) input_mat →
  ∃ output,
    _pack_JK input_mat Ls nao_prim = Some output ∧
    has_shape (np_prod Ls * nao_prim) (np_prod Ls * nao_prim) output ∧
    (∀ row col, row ∈ cells Ls → col ∈ cells Ls →
       prim_block output nao_prim (ravel Ls row) (ravel Ls col) =
       prim_block input_mat nao_prim 0 (ravel Ls (cell_diff Ls col row))) ∧
    (∀ row col, row ∈ cells Ls → col ∈ cells Ls →
       prim_block output nao_prim (ravel Ls row) (ravel Ls col) =
       prim_block output nao_prim
         (ravel Ls (0, 0, 0)) (ravel Ls (cell_diff Ls col row))).
Proof.
  intros Hf64 Hn Hin.
  destruct (_pack_JK_run input_mat Ls nao_prim Hf64 Hn Hin)
    as (output & Hrun & Hout & Hinv).
  assert (∀ row col, row ∈ cells Ls → col ∈ cells Ls →
    prim_block output nao_prim (ravel Ls row) (ravel Ls col) =
    prim_block input_mat nao_prim 0 (ravel Ls (cell_diff Ls col row)))
    as Hblocks.
  { intros row col Hrow Hcol.
    pose proof (cell_diff_in Ls col row Hcol) as Hd.
    pose proof (prim_block_bounds Ls nao_prim row ltac:(lia) Hrow).
    pose proof (prim_block_bounds Ls nao_prim col ltac:(lia) Hcol).
    pose proof (prim_block_bounds Ls nao_prim _ ltac:(lia) Hd).
    pose proof (ravel_bounds Ls _ Hrow). pose proof (ravel_bounds Ls _ Hcol).
    pose proof (ravel_bounds Ls _ Hd).
    apply (matrix_ext nao_prim nao_prim).
    - eapply has_shape_prim_block; [exact Hout|lia..].
    - eapply has_shape_prim_block; [exact Hin|lia..].
    - intros a b Ha Hb. rewrite !mat_get_prim_block by lia.
      rewrite Hinv; [f_equal; lia| |lia|lia].
      apply elem_of_cell_pairs; auto. }
  exists output; repeat split; try assumption; try apply Hout.
  intros row col Hrow Hcol.
  pose proof (cell_zero_in Ls row Hrow) as H0.
  pose proof (cell_diff_in Ls col row Hcol) as Hd.
  rewrite (Hblocks row col Hrow Hcol), (Hblocks _ _ H0 Hd).
  rewrite cell_diff_zero by exact Hd. reflexivity.
Qed.

End PackJKFacts.

Lemma pack_JK_block_circulant_witness :
  ∃ output,
    _pack_JK [[1%float; 2%float]] (1, 1, 2) 1 = Some output ∧
    has_shape (np_prod (1, 1, 2) * 1) (np_prod (1, 1, 2) * 1) output ∧
    (∀ row col, row ∈ cells (1, 1, 2) → col ∈ cells (1, 1, 2) →
       prim_block output 1 (ravel (1, 1, 2) row) (ravel (1, 1, 2) col) =
       prim_block [[1%float; 2%float]] 1 0
         (ravel (1, 1, 2) (cell_diff (1, 1, 2) col row))) ∧
    (∀ row col, row ∈ cells (1, 1, 2) → col ∈ cells (1, 1, 2) →
       prim_block output 1 (ravel (1, 1, 2) row) (ravel (1, 1, 2) col) =
       prim_block output 1
         (ravel (1, 1, 2) (0, 0, 0))
         (ravel (1, 1, 2) (cell_diff (1, 1, 2) col row))).
Proof.
  apply (pack_JK_block_circulant [[1%float; 2%float]] (1, 1, 2) 1).
  - reflexivity.
  - lia.
  - split; [reflexivity|]. repeat constructor.
Defined.

(** *** Loops that write or add blocks *)

Section BlockLoops.
Context {F : Type} `{Numeric F}.

Lemma for_ext_in {A S : Type} (l : list A) (body1 body2 : A → S → option S) s :
  (∀ x s1, x ∈ l → body1 x s1 = body2 x s1) →
  for_ l body1 s = for_ l body2 s.
Proof.
  revert s; induction l as [|x l IH]; intros s E; [reflexivity|].
  rewrite !for_cons, E by (apply elem_of_cons; auto).
  destruct (body2 x s); simpl; [|reflexivity].
  apply IH. intros y s1 Hy. apply E, elem_of_cons; auto.
Qed.

(** A loop of block assignments in which two writes to one block store the
    same value leaves every written block holding the value written. *)
Lemma for_block_writes {W : Type} (ws : list W) (Rf Cf : W → Z)
    (val : W → matrix F) (n nblk : Z) (out0 : matrix F) :
  0 ≤ n →
  has_shape (nblk * n) (nblk * n) out0 →
  (∀ w, w ∈ ws →
     0 ≤ Rf w < nblk ∧ 0 ≤ Cf w < nblk ∧ has_shape n n (val w)) →
  (∀ w w', w ∈ ws → w' ∈ ws → Rf w = Rf w' → Cf w = Cf w' → val w = val w') →
  ∃ out,
    for_ ws (λ w out,
      assign_block out (Rf w * n) ((Rf w + 1) * n)
                       (Cf w * n) ((Cf w + 1) * n) (val w)) out0 = Some out ∧
    has_shape (nblk * n) (nblk * n) out ∧
    ∀ w, w ∈ ws → prim_block out n (Rf w) (Cf w) = val w.
Proof.
  intros Hn H0 Hws Hcons.
  assert (∀ R, 0 ≤ R < nblk → 0 ≤ R * n ≤ (R + 1) * n ∧ (R + 1) * n ≤ nblk * n)
    as Hbnd.
  { intros R HR.
    assert ((R + 1) * n ≤ nblk * n) by (apply Z.mul_le_mono_nonneg_r; lia).
    nia. }
  destruct (for_invariant
    (λ done out, has_shape (nblk * n) (nblk * n) out ∧
       ∀ w a b, w ∈ done → 0 ≤ a < n → 0 ≤ b < n →
         mat_get out (Rf w * n + a) (Cf w * n + b) = mat_get (val w) a b)
    ws
    (λ w out, assign_block out (Rf w * n) ((Rf w + 1) * n)
                (Cf w * n) ((Cf w + 1) * n) (val w))
    out0) as (out & Hrun & Hout & Hinv).
  - split; [exact H0|]. intros ? ? ? Hx. inversion Hx.
  - intros l1 w l2 out -> [Hout Hinv].
    destruct (Hws w) as (HR & HC & Hval).
    { apply elem_of_app; right; apply elem_of_cons; auto. }
    pose proof (Hbnd _ HR). pose proof (Hbnd _ HC).
    unfold assign_block. rewrite decide_True.
    2:{ eapply same_shape_has_shape; [exact Hval|].
        eapply has_shape_eq; [eapply has_shape_block; [exact Hout|lia..]|lia..]. }
    eexists; split; [reflexivity|]. split; [apply has_shape_set_block, Hout|].
    intros w' a b Hw' Ha Hb.
    assert (w' ∈ l1 ++ w :: l2) as Hw'in.
    { apply elem_of_app in Hw' as [?|Hw']; apply elem_of_app; [auto|].
      apply list_elem_of_singleton in Hw' as ->. right; apply elem_of_cons; auto. }
    destruct (decide (Rf w' = Rf w ∧ Cf w' = Cf w)) as [[ER EC]|Hne].
    + rewrite ER, EC.
      erewrite mat_get_set_block_in; [|exact Hout|exact Hval|lia..].
      rewrite (Hcons w' w); auto.
      * f_equal; lia.
      * apply elem_of_app; right; apply elem_of_cons; auto.
    + erewrite mat_get_set_block_out; [|exact Hout|exact Hval|lia|lia|].
      * apply Hinv; auto. apply elem_of_app in Hw' as [?|Hw']; [done|].
        apply list_elem_of_singleton in Hw' as ->. tauto.
      * intros [Hi Hj]. apply Hne; split.
        -- apply (block_index_unique n _ _ a); lia.
        -- apply (block_index_unique n _ _ b); lia.
  - exists out; repeat split; try apply Hout; [exact Hrun|].
    intros w Hw. destruct (Hws w Hw) as (HR & HC & Hval).
    pose proof (Hbnd _ HR). pose proof (Hbnd _ HC).
    apply (matrix_ext n n).
    + eapply has_shape_prim_block; [exact Hout|lia..].
    + exact Hval.
    + intros a b Ha Hb. rewrite mat_get_prim_block by lia. apply Hinv; auto.
Qed.

Lemma has_shape_mat_add n k (a b : matrix F) :
  has_shape n k a → has_shape n k b →
  has_shape n k (zip_with (zip_with fadd) a b).
Proof.
  intros [La Ca] [Lb Cb]; split.
  - rewrite length_zip_with. lia.
  - apply Forall_lookup_2; intros i row Hrow.
    apply lookup_zip_with_Some in Hrow as (ra & rb & -> & Hra & Hrb).
    pose proof (Forall_lookup_1 _ _ _ _ Ca Hra) as E1.
    pose proof (Forall_lookup_1 _ _ _ _ Cb Hrb) as E2. cbv beta in E1, E2.
    rewrite length_zip_with. lia.
Qed.

Lemma add_inplace_shape n k (a b : matrix F) :
  has_shape n k a → has_shape n k b →
  add_inplace a b = Some (zip_with (zip_with fadd) a b).
Proof.
  intros Ha Hb. unfold add_inplace.
  rewrite decide_True by (eapply same_shape_has_shape; eauto). reflexivity.
Qed.

(** A loop of [+=] of blocks of one shape computes their sum in loop order. *)
Lemma for_add_blocks {A : Type} (l : list A) (g : A → matrix F) n k
    (buf : matrix F) :
  has_shape n k buf → (∀ x, x ∈ l → has_shape n k (g x)) →
  for_ l (λ x buf, add_inplace buf (g x)) buf
  = Some (fold_left (zip_with (zip_with fadd)) (g <$> l) buf) ∧
  has_shape n k (fold_left (zip_with (zip_with fadd)) (g <$> l) buf).
Proof.
  revert buf; induction l as [|x l IH]; intros buf Hbuf Hg.
  - split; [reflexivity|exact Hbuf].
  - assert (has_shape n k (g x)) as Hx by (apply Hg, elem_of_cons; auto).
    destruct (IH (zip_with (zip_with fadd) buf (g x))) as [E Hs].
    { apply has_shape_mat_add; auto. }
    { intros y Hy. apply Hg, elem_of_cons; auto. }
    split; [|exact Hs].
    rewrite for_cons. cbv beta.
    rewrite (add_inplace_shape n k) by auto. exact E.
Qed.

Lemma has_shape_div_inplace n k (a : matrix F) d :
  has_shape n k a → has_shape n k (div_inplace a d).
Proof.
  intros [La Ca]; split.
  - unfold div_inplace. rewrite length_fmap. exact La.
  - unfold div_inplace. apply Forall_fmap. eapply Forall_impl; [exact Ca|].
    intros row Hrow; simpl. rewrite length_fmap. exact Hrow.
Qed.

End BlockLoops.

(** *** [_symmetrize_dm] *)

Section SymmetrizeFacts.
Context {F : Type} `{Numeric F}.
Implicit Types (dm dm_symm buf : matrix F) (Ls shift row col : triple).

Lemma _symmetrize_dm_sum_ravel dm Ls nao_prim shift row buf :
  _symmetrize_dm_sum dm Ls nao_prim shift row buf =
  add_inplace buf
    (prim_block dm nao_prim (ravel Ls row) (ravel Ls (cell_add Ls shift row))).
Proof.
  destruct Ls as [[l0 l1] l2], row as [[xr yr] zr], shift as [[xs ys] zs].
  reflexivity.
Qed.

Lemma _symmetrize_dm_store_ravel Ls nao_prim buf shift row dm_symm :
  _symmetrize_dm_store Ls nao_prim buf shift row dm_symm =
  assign_block dm_symm
    (ravel Ls row * nao_prim) ((ravel Ls row + 1) * nao_prim)
    (ravel Ls (cell_add Ls shift row) * nao_prim)
    ((ravel Ls (cell_add Ls shift row) + 1) * nao_prim) buf.
Proof.
  destruct Ls as [[l0 l1] l2], row as [[xr yr] zr], shift as [[xs ys] zs].
  reflexivity.
Qed.

Lemma has_shape_dm_block dm Ls n row col :
  0 ≤ n → has_shape (n * np_prod Ls) (n * np_prod Ls) dm →
  row ∈ cells Ls → col ∈ cells Ls →
  has_shape n n (prim_block dm n (ravel Ls row) (ravel Ls col)).
Proof.
  intros Hn Hdm Hrow Hcol.
  pose proof (prim_block_bounds Ls n row Hn Hrow).
  pose proof (prim_block_bounds Ls n col Hn Hcol).
  pose proof (ravel_bounds Ls _ Hrow). pose proof (ravel_bounds Ls _ Hcol).
  eapply has_shape_prim_block; [exact Hdm|lia..].
Qed.

Lemma has_shape_shift_average dm Ls n d :
  0 ≤ n → has_shape (n * np_prod Ls) (n * np_prod Ls) dm →
  has_shape n n (shift_average dm Ls n d).
Proof.
  intros Hn Hdm. unfold shift_average. apply has_shape_div_inplace.
  apply (for_add_blocks (cells Ls)
    (λ r, prim_block dm n (ravel Ls r) (ravel Ls (cell_add Ls d r)))).
  - apply has_shape_zeros; lia.
  - intros r Hr. apply has_shape_dm_block; auto using cell_add_in.
    destruct Ls as [[l0 l1] l2], d as [[dx dy] dz], r as [[rx ry] rz].
    unfold cell_add. apply elem_of_cells. apply elem_of_cells in Hr.
    simpl in *.
    pose proof (Z.mod_pos_bound (dx + rx) l0).
    pose proof (Z.mod_pos_bound (dy + ry) l1).
    pose proof (Z.mod_pos_bound (dz + rz) l2). lia.
Qed.

(** One pass of the outer loop stores the average of the shift in every
    block (row, shift + row). *)
Lemma _symmetrize_dm_shift dm Ls n shift dm_symm :
  0 ≤ n → has_shape (n * np_prod Ls) (n * np_prod Ls) dm →
  shift ∈ cells Ls →
  (dm_symmized_buf ←
     for_cells Ls
       (_symmetrize_dm_sum dm Ls (Z.of_nat (length dm) / np_prod Ls) shift)
       (zeros (Z.of_nat (length dm) / np_prod Ls)
              (Z.of_nat (length dm) / np_prod Ls));
   for_cells Ls
     (_symmetrize_dm_store Ls (Z.of_nat (length dm) / np_prod Ls)
        (div_inplace dm_symmized_buf (np_prod Ls)) shift) dm_symm)
  = for_ (cells Ls) (λ row out,
      assign_block out
        (ravel Ls row * n) ((ravel Ls row + 1) * n)
        (ravel Ls (cell_add Ls shift row) * n)
        ((ravel Ls (cell_add Ls shift row) + 1) * n)
        (shift_average dm Ls n shift)) dm_symm.
Proof.
  intros Hn Hdm Hs.
  pose proof (ravel_bounds Ls shift Hs) as Hncell.
  assert (Z.of_nat (length dm) / np_prod Ls = n) as ->.
  { rewrite (proj1 Hdm). apply Z.div_mul; lia. }
  rewrite for_cells_flat.
  rewrite (for_ext _ _ (λ row buf, add_inplace buf
    (prim_block dm n (ravel Ls row) (ravel Ls (cell_add Ls shift row)))))
    by (intros; apply _symmetrize_dm_sum_ravel).
  destruct (for_add_blocks (cells Ls)
    (λ r, prim_block dm n (ravel Ls r) (ravel Ls (cell_add Ls shift r)))
    n n (zeros n n)) as [-> _].
  { apply has_shape_zeros; lia. }
  { intros r Hr. apply has_shape_dm_block; auto using cell_add_in. }
  simpl. rewrite for_cells_flat. apply for_ext; intros row out.
  apply _symmetrize_dm_store_ravel.
Qed.

Lemma _symmetrize_dm_run dm Ls n :
  0 ≤ n → has_shape (n * np_prod Ls) (n * np_prod Ls) dm →
  ∃ dm_symm,
    _symmetrize_dm dm Ls = Some dm_symm ∧
    has_shape (n * np_prod Ls) (n * np_prod Ls) dm_symm ∧
    ∀ row col, row ∈ cells Ls → col ∈ cells Ls →
      prim_block dm_symm n (ravel Ls row) (ravel Ls col) =
      shift_average dm Ls n (cell_diff Ls col row).
Proof.
  intros Hn Hdm. unfold _symmetrize_dm.
  rewrite for_cells_flat.
  rewrite (for_ext_in _ _ (λ shift, for_ (cells Ls) (λ row out,
      assign_block out
        (ravel Ls row * n) ((ravel Ls row + 1) * n)
        (ravel Ls (cell_add Ls shift row) * n)
        ((ravel Ls (cell_add Ls shift row) + 1) * n)
        (shift_average dm Ls n shift))))
    by (intros shift out Hs; apply _symmetrize_dm_shift; auto).
  rewrite (for_cells_pairs Ls (λ shift row out,
      assign_block out
        (ravel Ls row * n) ((ravel Ls row + 1) * n)
        (ravel Ls (cell_add Ls shift row) * n)
        ((ravel Ls (cell_add Ls shift row) + 1) * n)
        (shift_average dm Ls n shift))).
  destruct (for_block_writes
    (shift ← cells Ls; row ← cells Ls; [(shift, row)])
    (λ p, ravel Ls p.2) (λ p, ravel Ls (cell_add Ls p.1 p.2))
    (λ p, shift_average dm Ls n p.1) n (np_prod Ls)
    (zeros (Z.of_nat (length dm)) (Z.of_nat (length dm))))
    as (out & Hrun & Hout & Hblocks).
  - exact Hn.
  - rewrite (proj1 Hdm). eapply has_shape_eq; [apply has_shape_zeros|lia..].
    all: pose proof (proj1 Hdm); lia.
  - intros [s r] Hp. apply elem_of_cell_pairs in Hp as [Hs Hr]. simpl.
    split; [apply ravel_bounds, Hr|].
    split; [apply ravel_bounds, cell_add_in, Hs|].
    apply has_shape_shift_average; auto.
  - intros [s r] [s' r'] Hp Hp' ER EC; simpl in *.
    apply elem_of_cell_pairs in Hp as [Hs Hr], Hp' as [Hs' Hr'].
    apply (ravel_inj Ls) in ER; auto. subst r'.
    apply (ravel_inj Ls) in EC; auto using cell_add_in.
    rewrite <- (cell_diff_add Ls s r), EC, cell_diff_add; auto.
  - exists out. split; [exact Hrun|].
    split; [eapply has_shape_eq; [exact Hout|lia..]|].
    intros row col Hrow Hcol.
    pose proof (cell_diff_in Ls col row Hcol) as Hd.
    specialize (Hblocks (cell_diff Ls col row, row)). simpl in Hblocks.
    rewrite cell_add_diff in Hblocks by auto.
    apply Hblocks, elem_of_cell_pairs; auto.
Qed.

End SymmetrizeFacts.

(** *** Runs *)

Section RunFacts.
Context {F : Type}.

Lemma calls_bind {A B : Type} (m : run F A) (k : A → run F B) :
  calls (bind m k) =
  calls m ++ match outcome m with inr x => calls (k x) | inl _ => [] end.
Proof.
  destruct m as [t [e|x]]; unfold calls, outcome, bind; simpl;
    [rewrite app_nil_r; reflexivity|].
  destruct (k x); reflexivity.
Qed.

Lemma outcome_bind {A B : Type} (m : run F A) (k : A → run F B) :
  outcome (bind m k) =
  match outcome m with inr x => outcome (k x) | inl e => inl e end.
Proof.
  destruct m as [t [e|x]]; unfold outcome, bind; simpl; [reflexivity|].
  destruct (k x); reflexivity.
Qed.

Lemma bind_ret {A B : Type} (x : A) (k : A → run F B) :
  bind (ret x) k = k x.
Proof. unfold bind, ret. destruct (k x); reflexivity. Qed.

Lemma outcome_bind_inr {A B : Type} (m : run F A) (k : A → run F B) r :
  outcome (bind m k) = inr r →
  ∃ x, outcome m = inr x ∧ outcome (k x) = inr r.
Proof.
  rewrite outcome_bind. destruct (outcome m) as [e|x]; [discriminate|].
  intros Hr. exists x. split; [reflexivity|exact Hr].
Qed.

Lemma outcome_or_raise {A : Type} e (o : option A) r :
  outcome (or_raise (F:=F) e o) = inr r → o = Some r.
Proof. destruct o; cbn; congruence. Qed.

Lemma bind_raise {A B : Type} e (k : A → run F B) :
  bind (raise e) k = raise e.
Proof. reflexivity. Qed.

Lemma bind_ext {A B : Type} (m : run F A) (k1 k2 : A → run F B) :
  (∀ x, k1 x = k2 x) → bind m k1 = bind m k2.
Proof.
  intros E. destruct m as [t [e|x]]; unfold bind; [reflexivity|].
  rewrite E. reflexivity.
Qed.

Lemma bind_assoc {A B C : Type} (m : run F A) (k : A → run F B)
    (k' : B → run F C) :
  bind (bind m k) k' = bind m (λ x, bind (k x) k').
Proof.
  destruct m as [t [e|x]]; [reflexivity|]. unfold bind.
  destruct (k x) as [t1 [e1|y]]; [reflexivity|].
  destruct (k' y) as [t2 r2]. rewrite app_assoc. reflexivity.
Qed.

(** Every call of a run satisfies [P]. *)
Lemma quiet_bind {A B : Type} (P : event F → Prop)
    (m : run F A) (k : A → run F B) :
  Forall P (calls m) → (∀ x, Forall P (calls (k x))) →
  Forall P (calls (bind m k)).
Proof.
  intros Hm Hk. rewrite calls_bind. apply Forall_app; split; [exact Hm|].
  destruct (outcome m); [constructor|apply Hk].
Qed.

Lemma quiet_ret {A : Type} (P : event F → Prop) (x : A) :
  Forall P (calls (ret x : run F A)).
Proof. constructor. Qed.

Lemma quiet_raise {A : Type} (P : event F → Prop) e :
  Forall P (calls (raise e : run F A)).
Proof. constructor. Qed.

Lemma quiet_or_raise {A : Type} (P : event F → Prop) e (o : option A) :
  Forall P (calls (or_raise e o : run F A)).
Proof. destruct o; constructor. Qed.

Lemma quiet_assert (P : event F → Prop) b :
  Forall P (calls (assert_ b : run F unit)).
Proof. destruct b; constructor. Qed.

End RunFacts.

(** Splits a run into its steps and closes the steps that make no call. *)
Ltac quiet :=
  repeat first
    [ apply quiet_ret | apply quiet_raise | apply quiet_or_raise
    | apply quiet_assert
    | apply quiet_bind; [|intros]
    | match goal with
      | |- Forall _ (calls (match ?x with _ => _ end)) => destruct x
      | |- Forall _ (calls (if ?b then _ else _)) => destruct b
      end ].

(** *** The J and K contraction *)

Section ContractionFacts.
Context {F : Type} `{Numeric F} `{Kernels F}.
Implicit Types (df : mydf.t F) (dm : matrix F).

Lemma _allocate_jk_buffer_quiet df :
  Forall (λ ev, is_contraction ev = false) (calls (_allocate_jk_buffer df)).
Proof.
  unfold _allocate_jk_buffer. destruct (mydf.jk_buffer df); [constructor|].
  destruct (mydf.outcore df); [constructor|].
  destruct global_ngrids; repeat constructor.
Qed.

(** [_get_j_kSym] itself starts no other contraction. *)
Lemma _get_j_kSym_quiet df (dm : dm_arg F) :
  Forall (λ ev, is_contraction ev = false) (calls (_get_j_kSym df dm)).
Proof.
  unfold _get_j_kSym, _get_j_kSym_expand, attribute.
  apply quiet_bind; [apply _allocate_jk_buffer_quiet|intros df'].
  destruct (mydf.Ls df') as [[l0 l1] l2]. quiet.
Qed.

End ContractionFacts.

Section GetJK.
Context {F : Type} `{Numeric F} `{Kernels F}.
Implicit Types (df : mydf.t F) (dm : matrix F).
Local Open Scope run_scope.

(** The run of [get_jk_dm_kSym], guard by guard. *)
Lemma get_jk_dm_kSym_guards df (dm_in : dm_arg F) kpt kpts_band with_j with_k :
  get_jk_dm_kSym df dm_in kpt kpts_band with_j with_k =
  match single_matrix dm_in with
  | None => ([], inl AssertionError)
  | Some dm =>
      if negb (with_j && with_k) then ([], inl AssertionError)
      else if mydf.jk_buffer df is None then ([], inl TypeError)
      else if (if kpts_band is Some kb then kpts_differ kpt kb else false)
      then ([], inl NotImplementedError)
      else if negb (gamma_point kpt) || dtype_complex
      then ([], inl AssertionError)
      else match _symmetrize_dm dm (mydf.Ls df) with
           | None => ([], inl ValueError)
           | Some dm_symm =>
               if mydf.with_robust_fitting df
               then ([], inl NotImplementedError)
               else
                 call (Call_get_j_kSym dm_symm);;
                 vj1 <- _get_j_kSym df (Dm2 dm_symm);;
                 call (Call_get_k_kSym dm_symm);;
                 vk2 <- (([], _get_k_kSym df dm_symm) : run F (matrix F));;
                 ret (vj1, vk2)
           end
  end.
Proof.
  unfold get_jk_dm_kSym.
  destruct dm_in as [dm|[|dm [|dm' dms]]]; cbn [single_matrix];
    try reflexivity.
  all: cbn [length head or_raise]; rewrite ?bool_decide_eq_true_2 by reflexivity;
    cbn [assert_]; rewrite ?bind_ret.
  all: destruct with_j, with_k; cbn [andb negb assert_];
    rewrite ?bind_ret; try reflexivity.
  all: destruct (mydf.jk_buffer df); rewrite ?bind_ret; try reflexivity.
  all: destruct kpts_band as [kb|];
    [destruct (kpts_differ kpt kb); rewrite ?bind_ret; try reflexivity|
     rewrite ?bind_ret].
  all: destruct (gamma_point kpt); cbn [andb negb orb assert_];
    rewrite ?bind_ret; try reflexivity.
  all: destruct dtype_complex; cbn [andb negb orb assert_];
    rewrite ?bind_ret; try reflexivity.
  all: destruct (_symmetrize_dm dm (mydf.Ls df)); cbn [or_raise];
    rewrite ?bind_ret; try reflexivity.
  all: destruct (mydf.outcore df), (mydf.with_robust_fitting df); reflexivity.
Qed.

(** Every contraction that [get_jk_dm_kSym] starts is given the symmetrized
    density matrix, and a call that returns has started both. *)
Lemma get_jk_dm_kSym_contractions df (dm_in : dm_arg F) kpt kpts_band
    with_j with_k :
  (∀ ev, ev ∈ calls (get_jk_dm_kSym df dm_in kpt kpts_band with_j with_k) →
     is_contraction ev = true →
     ∃ dm dm_symm, single_matrix dm_in = Some dm ∧
       _symmetrize_dm dm (mydf.Ls df) = Some dm_symm ∧
       (ev = Call_get_j_kSym dm_symm ∨ ev = Call_get_k_kSym dm_symm)) ∧
  (∀ r, outcome (get_jk_dm_kSym df dm_in kpt kpts_band with_j with_k) = inr r →
     ∃ dm dm_symm, single_matrix dm_in = Some dm ∧
       _symmetrize_dm dm (mydf.Ls df) = Some dm_symm ∧
       Call_get_j_kSym dm_symm
         ∈ calls (get_jk_dm_kSym df dm_in kpt kpts_band with_j with_k) ∧
       Call_get_k_kSym dm_symm
         ∈ calls (get_jk_dm_kSym df dm_in kpt kpts_band with_j with_k)).
Proof.
  rewrite get_jk_dm_kSym_guards.
  destruct (single_matrix dm_in) as [dm|] eqn:Edm;
    [|split; [intros ev Hev; inversion Hev|intros r [=]]].
  destruct (negb (with_j && with_k));
    [split; [intros ev Hev; inversion Hev|intros r [=]]|].
  destruct (mydf.jk_buffer df);
    [|split; [intros ev Hev; inversion Hev|intros r [=]]].
  destruct (if kpts_band is Some kb then kpts_differ kpt kb else false);
    [split; [intros ev Hev; inversion Hev|intros r [=]]|].
  destruct (negb (gamma_point kpt) || dtype_complex);
    [split; [intros ev Hev; inversion Hev|intros r [=]]|].
  destruct (_symmetrize_dm dm (mydf.Ls df)) as [dm_symm|] eqn:Esymm;
    [|split; [intros ev Hev; inversion Hev|intros r [=]]].
  destruct (mydf.with_robust_fitting df);
    [split; [intros ev Hev; inversion Hev|intros r [=]]|].
  pose proof (_get_j_kSym_quiet df (Dm2 dm_symm)) as Hq.
  rewrite !calls_bind, !outcome_bind. simpl.
  destruct (_get_j_kSym df (Dm2 dm_symm)) as [tj [ej|vj]]; simpl in *.
  - split; [|intros r [=]]. intros ev Hev Hc.
    exists dm, dm_symm; repeat split; auto.
    apply elem_of_cons in Hev as [->|Hev]; [auto|].
    rewrite app_nil_r in Hev.
    rewrite Forall_forall in Hq. rewrite (Hq ev Hev) in Hc. discriminate.
  - assert (∀ ev, ev ∈ Call_get_j_kSym dm_symm :: tj ++ [Call_get_k_kSym dm_symm] →
      is_contraction ev = true →
      ev = Call_get_j_kSym dm_symm ∨ ev = Call_get_k_kSym dm_symm) as Hev'.
    { intros ev Hev Hc. apply elem_of_cons in Hev as [->|Hev]; [auto|].
      apply elem_of_app in Hev as [Hev|Hev].
      - rewrite Forall_forall in Hq. rewrite (Hq ev Hev) in Hc. discriminate.
      - apply list_elem_of_singleton in Hev as ->; auto. }
    destruct (_get_k_kSym df dm_symm) as [ek|vk]; simpl.
    + split; [|intros r [=]]. intros ev Hev Hc.
      exists dm, dm_symm; repeat split; auto.
    + split.
      * intros ev Hev Hc. exists dm, dm_symm; repeat split; auto.
      * intros r Hr. exists dm, dm_symm; repeat split; auto.
        -- apply elem_of_cons; auto.
        -- apply elem_of_cons; right. apply elem_of_app; right.
           apply list_elem_of_singleton; reflexivity.
Qed.



End GetJK.




(** *** [_construct_W_incore] *)

Section ConstructW.
Context {F : Type} `{Numeric F} `{Kernels F}.
Implicit Types (df : mydf.t F) (W : matrix F).
Local Open Scope run_scope.

Lemma reshape_rows {A : Type} (r c : nat) (l : list A) :
  (r * c ≤ length l)%nat →
  Forall (λ row, length row = c) (reshape (replicate r c) l).
Proof.
  revert l; induction r as [|r IH]; intros l Hl; simpl; constructor.
  - rewrite length_take. lia.
  - apply IH. rewrite length_drop. lia.
Qed.

Lemma np_view_shape (buf : list F) offset r c m :
  np_view buf offset r c = Some m → has_shape r c m.
Proof.
  unfold np_view. case_decide as Hb; [|discriminate]. intros [= <-].
  destruct Hb as (Ho & Hr & Hc & Hlen). split.
  - rewrite length_reshape, length_replicate. lia.
  - eapply Forall_impl; [apply reshape_rows|].
    + rewrite length_drop. nia.
    + intros row Hrow; simpl in Hrow. lia.
Qed.

(** The loop that builds [W0] returns the sum of the column blocks of [W]
    in the order of the cell index. *)
Lemma _construct_W_incore_W0_sum W nIP_prim ncell :
  0 ≤ nIP_prim → has_shape nIP_prim (nIP_prim * ncell) W →
  _construct_W_incore_W0 W nIP_prim ncell =
  Some (fold_left (zip_with (zip_with fadd))
          ((λ i, block W 0 nIP_prim (i * nIP_prim) ((i + 1) * nIP_prim))
             <$> range ncell)
          (zeros nIP_prim nIP_prim)).
Proof.
  intros Hn HW. unfold _construct_W_incore_W0. rewrite (proj1 HW).
  apply (for_add_blocks (range ncell)
    (λ i, block W 0 nIP_prim (i * nIP_prim) ((i + 1) * nIP_prim))
    nIP_prim nIP_prim).
  - apply has_shape_zeros; lia.
  - intros i Hi. apply elem_of_seqZ in Hi.
    assert ((i + 1) * nIP_prim ≤ ncell * nIP_prim)
      by (apply Z.mul_le_mono_nonneg_r; lia).
    eapply has_shape_eq; [eapply has_shape_block; [exact HW|nia..]|lia..].
Qed.

Lemma _allocate_jk_buffer_frame df df' :
  outcome (_allocate_jk_buffer df) = inr df' →
  mydf.Ls df' = mydf.Ls df ∧ mydf.nIP_Prim df' = mydf.nIP_Prim df.
Proof.
  unfold _allocate_jk_buffer. destruct (mydf.jk_buffer df).
  - intros [= <-]; auto.
  - destruct (mydf.outcore df); [intros [=]|].
    destruct global_ngrids; [|intros [=]]. intros [= <-]; auto.
Qed.

(** What [_construct_W_incore] leaves in [mydf] when it returns. *)
Lemma _construct_W_incore_result df df' :
  outcome (_construct_W_incore df) = inr df' →
  ∃ W W0,
    mydf.W df' = Some W ∧ mydf.W0 df' = Some W0 ∧
    mydf.Ls df' = mydf.Ls df ∧ mydf.nIP_Prim df' = mydf.nIP_Prim df ∧
    is_Some (mydf.jk_buffer df') ∧
    has_shape (mydf.nIP_Prim df)
      (mydf.nIP_Prim df * np_prod (mydf.Ls df)) W ∧
    _construct_W_incore_W0 W (mydf.nIP_Prim df) (np_prod (mydf.Ls df))
    = Some W0.
Proof.
  unfold _construct_W_incore. rewrite outcome_bind.
  destruct (outcome (_allocate_jk_buffer df)) as [e|df1] eqn:Ealloc;
    [intros [=]|].
  destruct (_allocate_jk_buffer_frame df df1 Ealloc) as [ELs EnIP].
  rewrite ELs, EnIP. unfold attribute.
  destruct (mydf.jk_buffer df1) as [buf|]; [|intros [=]].
  cbn [or_raise]. rewrite bind_ret.
  destruct (np_view buf _ _ _); [|intros [=]].
  cbn [or_raise]. rewrite bind_ret.
  destruct (np_view buf _ _ _); [|intros [=]].
  cbn [or_raise]. rewrite bind_ret.
  destruct (np_view (construct_W_kernels df1 buf) _ _ _) as [W|] eqn:EW;
    [|intros [=]].
  cbn [or_raise]. rewrite bind_ret.
  destruct (_construct_W_incore_W0 W _ _) as [W0|] eqn:EW0; [|intros [=]].
  cbn [or_raise]. rewrite bind_ret. intros [= <-].
  exists W, W0. repeat split; try reflexivity; try assumption.
  - eexists; reflexivity.
  - apply (np_view_shape _ _ _ _ _ EW).
  - apply (np_view_shape _ _ _ _ _ EW).
Qed.

(** [_get_j_kSym] does not read [W] beyond its presence. *)
Lemma _get_j_kSym_W_frame df W W' (dm : dm_arg F) :
  mydf.W df = Some W →
  _get_j_kSym (mydf.set_W W' df) dm = _get_j_kSym df dm.
Proof.
  intros HW. destruct df as [Ls oc rf buf nao mesh vol nIP nGrid ao W1 W01].
  simpl in HW; subst W1. unfold _get_j_kSym, _allocate_jk_buffer, mydf.set_W.
  simpl. destruct buf as [b|]; simpl; [reflexivity|].
  destruct oc; [reflexivity|]. destruct global_ngrids; reflexivity.
Qed.

(** [_get_j_kSym] uses [W0] in one place, the product with the density
    at the interpolation points. *)
Lemma _get_j_kSym_W0_use df W0 W0' (dm : matrix F) :
  mydf.W0 df = Some W0 →
  ddot W0' ((λ x, [x]) <$>
              multiply_sum_isdf (mydf.aoRg_Prim df) (ddot dm (mydf.aoRg_Prim df)))
  = ddot W0 ((λ x, [x]) <$>
               multiply_sum_isdf (mydf.aoRg_Prim df) (ddot dm (mydf.aoRg_Prim df))) →
  _get_j_kSym (mydf.set_W0 W0' df) (Dm2 dm) = _get_j_kSym df (Dm2 dm).
Proof.
  intros HW0 Hddot.
  destruct df as [Ls oc rf buf nao mesh vol nIP nGrid ao W1 W01].
  simpl in HW0, Hddot; subst W01.
  unfold _get_j_kSym, _allocate_jk_buffer, mydf.set_W0, attribute. simpl.
  assert (∀ b,
    (let df := mydf.mk Ls oc rf (Some b) nao mesh vol nIP nGrid ao W1 (Some W0')
     in _get_j_kSym_expand df) =
    (let df := mydf.mk Ls oc rf (Some b) nao mesh vol nIP nGrid ao W1 (Some W0)
     in _get_j_kSym_expand df)) as Hexp by reflexivity.
  destruct buf as [b|];
    [|destruct oc; [reflexivity|destruct global_ngrids; [|reflexivity]]].
  - rewrite !bind_ret. simpl.
    repeat (apply bind_ext; intros). rewrite !bind_ret, Hddot.
    reflexivity.
  - rewrite !bind_assoc. apply bind_ext; intros _. rewrite !bind_ret. simpl.
    repeat (apply bind_ext; intros). rewrite !bind_ret, Hddot.
    reflexivity.
Qed.

(** The loops of [_get_j_kSym] that build J from [bufferW] read neither
    [W] nor [W0]. *)
Lemma _get_j_kSym_expand_frame df W' W0' :
  _get_j_kSym_expand (mydf.set_W W' (mydf.set_W0 W0' df))
  = _get_j_kSym_expand df.
Proof. destruct df. reflexivity. Qed.

(** The matrix J that [_get_j_kSym] returns on an object with a scratch
    buffer: the vector [bufferW] that the loops over the cells scale the
    orbitals with is the product [lib.ddot(W_0, density_Rg.reshape(-1,1))]
    of [mydf.W0] with the density at the interpolation points. *)
Lemma _get_j_kSym_contracts_W0 df (dm J : matrix F) :
  is_Some (mydf.jk_buffer df) →
  outcome (_get_j_kSym df (Dm2 dm)) = inr J →
  let nao := Z.of_nat (length dm) in
  let nao_prim := nao / np_prod (mydf.Ls df) in
  ∃ W0 buffer buffer3,
    mydf.W0 df = Some W0 ∧
    mydf.jk_buffer df = Some buffer ∧
    np_view buffer (nao * mydf.nIP_Prim df + mydf.nIP_Prim df) nao_prim nao
    = Some buffer3 ∧
    outcome (_get_j_kSym_expand df nao nao_prim
               (mjoin (ddot W0 ((λ x, [x]) <$> density_Rg df dm))) buffer3)
    = inr J.
Proof.
  intros [buf Hbuf] HJ. cbv zeta.
  unfold _get_j_kSym, _allocate_jk_buffer in HJ. rewrite Hbuf in HJ.
  rewrite !bind_ret in HJ.
  apply outcome_bind_inr in HJ as (_ & _ & HJ).
  apply outcome_bind_inr in HJ as (W & _ & HJ).
  apply outcome_bind_inr in HJ as (_ & _ & HJ).
  apply outcome_bind_inr in HJ as (buffer & Ebuffer & HJ).
  apply outcome_or_raise in Ebuffer.
  apply outcome_bind_inr in HJ as (buffer3 & Ebuffer3 & HJ).
  apply outcome_or_raise in Ebuffer3.
  apply outcome_bind_inr in HJ as (_ & _ & HJ).
  apply outcome_bind_inr in HJ as (W0 & EW0 & HJ).
  apply outcome_or_raise in EW0.
  exists W0, buffer, buffer3. auto.
Qed.

(** C6.  When [_construct_W_incore] returns, [mydf.W0] is the sum over the
    cell indices [i] in [range(prod(Ls))] of the column blocks
    [W[:, i*nIP_prim:(i+1)*nIP_prim]] of [mydf.W]; and the J build
    contracts this [W0] with the density at the interpolation points:
    whenever it returns a matrix J, J is what its loops over the cells
    make of the vector [lib.ddot(W0, density_Rg.reshape(-1,1))], and these
    loops read neither [W] nor [W0].  So the J build does not read the
    entries of [W], and it uses [W0] only in that product. *)
Theorem construct_W_incore_W0 df df' :
  outcome (_construct_W_incore df) = inr df' →
  ∃ W W0,
    mydf.W df' = Some W ∧ mydf.W0 df' = Some W0 ∧
    W0 = fold_left (zip_with (zip_with fadd))
           ((λ i, block W 0 (mydf.nIP_Prim df)
                    (i * mydf.nIP_Prim df) ((i + 1) * mydf.nIP_Prim df))
              <$> range (np_prod (mydf.Ls df)))
           (zeros (mydf.nIP_Prim df) (mydf.nIP_Prim df)) ∧
    (∀ (dm : dm_arg F) W',
       _get_j_kSym (mydf.set_W W' df') dm = _get_j_kSym df' dm) ∧
    (∀ (dm : matrix F) W0',
       ddot W0' ((λ x, [x]) <$>
         multiply_sum_isdf (mydf.aoRg_Prim df') (ddot dm (mydf.aoRg_Prim df')))
       = ddot W0 ((λ x, [x]) <$>
         multiply_sum_isdf (mydf.aoRg_Prim df') (ddot dm (mydf.aoRg_Prim df'))) →
       _get_j_kSym (mydf.set_W0 W0' df') (Dm2 dm) = _get_j_kSym df' (Dm2 dm)) ∧
    (∀ (dm J : matrix F),
       outcome (_get_j_kSym df' (Dm2 dm)) = inr J →
       ∃ buffer buffer3,
         mydf.jk_buffer df' = Some buffer ∧
         np_view buffer
           (Z.of_nat (length dm) * mydf.nIP_Prim df' + mydf.nIP_Prim df')
           (Z.of_nat (length dm) / np_prod (mydf.Ls df'))
           (Z.of_nat (length dm))
         = Some buffer3 ∧
         outcome (_get_j_kSym_expand df' (Z.of_nat (length dm))
                    (Z.of_nat (length dm) / np_prod (mydf.Ls df'))
                    (mjoin (ddot W0 ((λ x, [x]) <$> density_Rg df' dm)))
                    buffer3)
         = inr J) ∧
    (∀ W' W0',
       _get_j_kSym_expand (mydf.set_W W' (mydf.set_W0 W0' df'))
       = _get_j_kSym_expand df').
Proof.
  intros Hrun.
  destruct (_construct_W_incore_result df df' Hrun)
    as (W & W0 & HW & HW0 & ELs & EnIP & Hbuf & Hshape & Hsum).
  exists W, W0. split; [exact HW|]. split; [exact HW0|].
  split; [|split; [|split; [|split]]].
  - assert (0 ≤ mydf.nIP_Prim df) as Hn by (destruct Hshape; lia).
    rewrite (_construct_W_incore_W0_sum W _ _ Hn Hshape) in Hsum.
    injection Hsum as <-. reflexivity.
  - intros dm W'. apply _get_j_kSym_W_frame with W. exact HW.
  - intros dm W0'. apply _get_j_kSym_W0_use. exact HW0.
  - intros dm J HJ.
    destruct (_get_j_kSym_contracts_W0 df' dm J Hbuf HJ)
      as (W0_ & buffer & buffer3 & EW0 & Ebuf & Eview & Hexp).
    rewrite HW0 in EW0. injection EW0 as <-.
    exists buffer, buffer3. auto.
  - intros W' W0'. apply _get_j_kSym_expand_frame.
Qed.

End ConstructW.

Lemma construct_W_incore_W0_witness :
  outcome (_construct_W_incore example_df) = inr example_df_built ∧
  outcome (_get_j_kSym example_df_built (Dm2 example_dm))
  = inr [[600%float; 600%float]; [600%float; 600%float]] ∧
  ∃ W W0,
    mydf.W example_df_built = Some W ∧ mydf.W0 example_df_built = Some W0 ∧
    W0 = fold_left (zip_with (zip_with fadd))
           ((λ i, block W 0 1 (i * 1) ((i + 1) * 1)) <$> range 2)
           (zeros 1 1) ∧
    (∀ (dm : dm_arg float) W',
       _get_j_kSym (mydf.set_W W' example_df_built) dm
       = _get_j_kSym example_df_built dm) ∧
    (∀ (dm : matrix float) W0',
       ddot W0' ((λ x, [x]) <$>
         multiply_sum_isdf (mydf.aoRg_Prim example_df_built)
           (ddot dm (mydf.aoRg_Prim example_df_built)))
       = ddot W0 ((λ x, [x]) <$>
         multiply_sum_isdf (mydf.aoRg_Prim example_df_built)
           (ddot dm (mydf.aoRg_Prim example_df_built))) →
       _get_j_kSym (mydf.set_W0 W0' example_df_built) (Dm2 dm)
       = _get_j_kSym example_df_built (Dm2 dm)) ∧
    (∀ (dm J : matrix float),
       outcome (_get_j_kSym example_df_built (Dm2 dm)) = inr J →
       ∃ buffer buffer3,
         mydf.jk_buffer example_df_built = Some buffer ∧
         np_view buffer
           (Z.of_nat (length dm) * mydf.nIP_Prim example_df_built
            + mydf.nIP_Prim example_df_built)
           (Z.of_nat (length dm) / np_prod (mydf.Ls example_df_built))
           (Z.of_nat (length dm))
         = Some buffer3 ∧
         outcome (_get_j_kSym_expand example_df_built (Z.of_nat (length dm))
                    (Z.of_nat (length dm)
                     / np_prod (mydf.Ls example_df_built))
                    (mjoin (ddot W0
                              ((λ x, [x]) <$> density_Rg example_df_built dm)))
                    buffer3)
         = inr J) ∧
    (∀ W' W0',
       _get_j_kSym_expand (mydf.set_W W' (mydf.set_W0 W0' example_df_built))
       = _get_j_kSym_expand example_df_built).
Proof.
  split; [vm_compute; reflexivity|].
  split; [vm_compute; reflexivity|].
  apply (construct_W_incore_W0 example_df example_df_built).
  vm_compute. reflexivity.
Defined.

(** *** A second pass of [_symmetrize_dm] *)

Section SymmetrizeTwice.
Context {F : Type} `{Numeric F}.
Implicit Types (dm : matrix F) (Ls : triple).

Lemma mat_get_at r c (m : matrix F) i j :
  has_shape r c m → 0 ≤ i < r → 0 ≤ j < c → mat_get m i j = Some (mat_at m i j).
Proof.
  intros Hm Hi Hj. unfold mat_at.
  destruct (mat_get_is_Some r c m i j Hm Hi Hj) as [x ->]. reflexivity.
Qed.

Lemma mat_get_zeros r c i j :
  0 ≤ i < r → 0 ≤ j < c → mat_get (zeros r c : matrix F) i j = Some f0.
Proof.
  intros Hi Hj. unfold mat_get, zeros. rewrite decide_True by lia.
  rewrite lookup_replicate_2 by lia. simpl. apply lookup_replicate_2. lia.
Qed.

Lemma mat_get_mat_add r c (x y : matrix F) i j :
  has_shape r c x → has_shape r c y → 0 ≤ i < r → 0 ≤ j < c →
  mat_get (zip_with (zip_with fadd) x y) i j
  = Some (fadd (mat_at x i j) (mat_at y i j)).
Proof.
  intros Hx Hy Hi Hj.
  pose proof (mat_get_at r c x i j Hx Hi Hj) as Ex.
  pose proof (mat_get_at r c y i j Hy Hi Hj) as Ey.
  revert Ex Ey. generalize (mat_at x i j) (mat_at y i j). intros vx vy.
  unfold mat_get. rewrite !decide_True by lia.
  rewrite lookup_zip_with.
  destruct (x !! Z.to_nat i) as [rx|]; [simpl|discriminate].
  destruct (y !! Z.to_nat i) as [ry|]; [simpl|discriminate].
  rewrite lookup_zip_with. intros -> ->. reflexivity.
Qed.

Lemma mat_get_div_inplace (m : matrix F) d i j :
  mat_get (div_inplace m d) i j = (λ x, fdiv x (of_int d)) <$> mat_get m i j.
Proof.
  unfold mat_get, div_inplace. case_decide; [|reflexivity].
  rewrite list_lookup_fmap. destruct (m !! Z.to_nat i); [simpl|reflexivity].
  apply list_lookup_fmap.
Qed.

(** An entry of a sum of blocks is the sum of their entries, in order. *)
Lemma mat_get_fold_add r c (bs : list (matrix F)) (acc : matrix F) i j :
  has_shape r c acc → Forall (has_shape r c) bs → 0 ≤ i < r → 0 ≤ j < c →
  mat_get (fold_left (zip_with (zip_with fadd)) bs acc) i j
  = Some (fold_left fadd ((λ m, mat_at m i j) <$> bs) (mat_at acc i j)).
Proof.
  intros Hacc Hbs Hi Hj. revert acc Hacc.
  induction Hbs as [|b bs Hb Hbs IH]; intros acc Hacc; simpl.
  - apply (mat_get_at r c); auto.
  - rewrite IH by (apply has_shape_mat_add; auto). do 2 f_equal.
    unfold mat_at at 1. rewrite (mat_get_mat_add r c) by auto. reflexivity.
Qed.

Lemma fmap_const {A B : Type} (f : A → B) (l : list A) y :
  (∀ x, x ∈ l → f x = y) → f <$> l = replicate (length l) y.
Proof.
  induction l as [|x l IH]; intros Hf; [reflexivity|]. simpl.
  rewrite (Hf x) by (apply elem_of_cons; auto). f_equal.
  apply IH. intros z Hz. apply Hf, elem_of_cons; auto.
Qed.

Lemma length_bind_const {A B : Type} (f : A → list B) (l : list A) k :
  (∀ x, length (f x) = k) → length (l ≫= f) = (length l * k)%nat.
Proof.
  intros Hf. induction l as [|x l IH]; [reflexivity|].
  change ((x :: l) ≫= f) with (f x ++ (l ≫= f)).
  rewrite length_app, Hf, IH. simpl. lia.
Qed.

Lemma length_cells Ls :
  cells Ls ≠ [] → length (cells Ls) = Z.to_nat (np_prod Ls).
Proof.
  destruct Ls as [[l0 l1] l2]. intros Hne.
  assert (0 < l0 ∧ 0 < l1 ∧ 0 < l2) as (H0' & H1' & H2').
  { destruct (cells (l0, l1, l2)) as [|[[x y] z] rest] eqn:E; [done|].
    assert ((x, y, z) ∈ cells (l0, l1, l2)) as Hin
      by (rewrite E; apply elem_of_cons; auto).
    apply elem_of_cells in Hin; simpl in Hin. lia. }
  unfold cells, range.
  rewrite (length_bind_const _ _ (Z.to_nat l1 * Z.to_nat l2)).
  - rewrite length_seqZ. simpl. lia.
  - intros x. rewrite (length_bind_const _ _ (Z.to_nat l2)).
    + rewrite length_seqZ. lia.
    + intros y. rewrite (length_bind_const _ _ 1%nat).
      * rewrite length_seqZ. lia.
      * reflexivity.
Qed.

(** Every block index is the row-major index of a cell. *)
Lemma ravel_surj Ls R :
  0 ≤ R < np_prod Ls → cells Ls ≠ [] → ∃ p, p ∈ cells Ls ∧ ravel Ls p = R.
Proof.
  destruct Ls as [[l0 l1] l2]. intros HR Hne.
  assert (0 < l0 ∧ 0 < l1 ∧ 0 < l2) as (H0' & H1' & H2').
  { destruct (cells (l0, l1, l2)) as [|[[x y] z] rest] eqn:E; [done|].
    assert ((x, y, z) ∈ cells (l0, l1, l2)) as Hin
      by (rewrite E; apply elem_of_cons; auto).
    apply elem_of_cells in Hin; simpl in Hin. lia. }
  simpl in HR.
  exists (R / l2 / l1, (R / l2) mod l1, R mod l2). split.
  - apply elem_of_cells; simpl.
    pose proof (Z.mod_pos_bound R l2). pose proof (Z.mod_pos_bound (R / l2) l1).
    repeat split; try lia.
    + apply Z.div_pos; [apply Z.div_pos|]; lia.
    + apply Z.div_lt_upper_bound; [lia|].
      apply Z.div_lt_upper_bound; [lia|]. nia.
  - simpl.
    pose proof (Z.div_mod R l2 ltac:(lia)).
    pose proof (Z.div_mod (R / l2) l1 ltac:(lia)). nia.
Qed.

(** A matrix that is invariant under the lattice translations, and whose
    entries are left unchanged by the average of equal copies, is a fixed
    point of [_symmetrize_dm]. *)
Lemma _symmetrize_dm_fixed dm Ls n :
  0 ≤ n → cells Ls ≠ [] →
  has_shape (n * np_prod Ls) (n * np_prod Ls) dm →
  block_circulant dm Ls n →
  Forall (Forall (λ x, average_of_copies (np_prod Ls) x = x)) dm →
  _symmetrize_dm dm Ls = Some dm.
Proof.
  intros Hn Hne Hdm Hcirc Hexact.
  destruct (_symmetrize_dm_run dm Ls n Hn Hdm) as (out & -> & Hout & Hblocks).
  f_equal. apply (matrix_ext (n * np_prod Ls) (n * np_prod Ls)); auto.
  intros i j Hi Hj.
  assert (0 < n) as Hn'.
  { destruct (decide (n = 0)) as [->|]; [rewrite Z.mul_0_l in Hi|]; lia. }
  assert (0 < np_prod Ls) as Hncell.
  { destruct (Z.le_gt_cases (np_prod Ls) 0) as [Hle|]; [|lia].
    pose proof (Z.mul_nonneg_nonpos n (np_prod Ls) ltac:(lia) Hle). lia. }
  assert (∀ k, 0 ≤ k < n * np_prod Ls → 0 ≤ k / n < np_prod Ls) as Hdiv.
  { intros k Hk. split; [apply Z.div_pos; lia|].
    apply Z.div_lt_upper_bound; lia. }
  destruct (ravel_surj Ls (i / n) (Hdiv i Hi) Hne) as (row & Hrow & ER).
  destruct (ravel_surj Ls (j / n) (Hdiv j Hj) Hne) as (col & Hcol & EC).
  pose proof (Z.div_mod i n ltac:(lia)) as Ei.
  pose proof (Z.div_mod j n ltac:(lia)) as Ej.
  pose proof (Z.mod_pos_bound i n Hn') as Ba.
  pose proof (Z.mod_pos_bound j n Hn') as Bb.
  set (a := i mod n) in *. set (b := j mod n) in *. clearbody a b.
  assert (i = ravel Ls row * n + a) as Ei' by lia.
  assert (j = ravel Ls col * n + b) as Ej' by lia.
  clear Ei Ej ER EC. subst i j.
  pose proof (ravel_bounds Ls row Hrow). pose proof (ravel_bounds Ls col Hcol).
  rewrite <- (mat_get_prim_block out n) by lia.
  rewrite (Hblocks row col Hrow Hcol).
  pose proof (cell_diff_in Ls col row Hcol) as Hd.
  unfold shift_average. rewrite mat_get_div_inplace.
  rewrite (mat_get_fold_add n n) by
    (try (apply has_shape_zeros; lia); try lia;
     apply Forall_fmap, Forall_forall; intros r Hr; simpl;
     apply has_shape_dm_block; auto using cell_add_in).
  rewrite <- list_fmap_compose.
  rewrite (fmap_const _ _ (mat_at dm (ravel Ls row * n + a) (ravel Ls col * n + b))).
  - unfold mat_at at 2. rewrite mat_get_zeros by lia. simpl.
    rewrite length_cells by exact Hne.
    pose proof (mat_get_at _ _ dm _ _ Hdm Hi Hj) as Eat.
    rewrite Eat. f_equal.
    assert (∀ x, mat_get dm (ravel Ls row * n + a) (ravel Ls col * n + b)
                 = Some x → average_of_copies (np_prod Ls) x = x) as Hx.
    { intros x. unfold mat_get. case_decide; [|discriminate].
      destruct (dm !! _) as [rw|] eqn:Erw; [simpl|discriminate]. intros Ex.
      rewrite Forall_lookup in Hexact. specialize (Hexact _ _ Erw).
      rewrite Forall_lookup in Hexact. exact (Hexact _ _ Ex). }
    apply (Hx _ Eat).
  - intros r Hr. simpl. unfold mat_at.
    rewrite (Hcirc r (cell_add Ls (cell_diff Ls col row) r) row col);
      auto using cell_add_in.
    + rewrite mat_get_prim_block by lia. reflexivity.
    + rewrite cell_diff_add; auto.
Qed.

End SymmetrizeTwice.

Section SymmetrizeIdempotent.
Context {F : Type} `{Numeric F}.

(** C8, as amended.  For a square [dm] of dimension [n * prod(Ls)] on a
    lattice of positive counts: if [dm] is invariant under the lattice
    translations and every entry [x] of it is returned by the average of
    [prod(Ls)] copies of [x], then [_symmetrize_dm] leaves [dm] unchanged;
    the result of [_symmetrize_dm] is invariant under the translations, so
    under the same condition on its entries a second pass returns it
    unchanged. *)
Theorem symmetrize_dm_idempotent_exact (dm : matrix F) (Ls : triple) (n : Z) :
  0 ≤ n → cells Ls ≠ [] →
  has_shape (n * np_prod Ls) (n * np_prod Ls) dm →
  (block_circulant dm Ls n →
   Forall (Forall (λ x, average_of_copies (np_prod Ls) x = x)) dm →
   _symmetrize_dm dm Ls = Some dm) ∧
  ∃ dm_symm,
    _symmetrize_dm dm Ls = Some dm_symm ∧
    block_circulant dm_symm Ls n ∧
    (Forall (Forall (λ x, average_of_copies (np_prod Ls) x = x)) dm_symm →
     _symmetrize_dm dm_symm Ls = Some dm_symm).
Proof.
  intros Hn Hne Hdm. split; [apply (_symmetrize_dm_fixed dm Ls n); auto|].
  destruct (_symmetrize_dm_run dm Ls n Hn Hdm) as (out & Hrun & Hout & Hblocks).
  exists out. split; [exact Hrun|].
  assert (block_circulant out Ls n) as Hcirc.
  { intros row col row' col' Hr Hc Hr' Hc' E.
    rewrite (Hblocks row col), (Hblocks row' col'), E; auto. }
  split; [exact Hcirc|]. apply (_symmetrize_dm_fixed out Ls n); auto.
Qed.

End SymmetrizeIdempotent.

Lemma symmetrize_dm_idempotent_exact_witness :
  ∃ dm_symm,
    _symmetrize_dm example_dm (1, 1, 2) = Some dm_symm ∧
    _symmetrize_dm dm_symm (1, 1, 2) = Some dm_symm.
Proof.
  destruct (symmetrize_dm_idempotent_exact example_dm (1, 1, 2) 1)
    as [_ (dm_symm & Hrun & _ & Hidem)].
  - lia.
  - discriminate.
  - split; [reflexivity|]. repeat constructor.
  - exists dm_symm. split; [exact Hrun|]. apply Hidem.
    vm_compute in Hrun. injection Hrun as <-.
    repeat constructor.
Defined.

(** In [float64] on the lattice (2, 2, 2): the first pass turns the entry
    0.8 into the diagonal 0.1; the second pass sums eight copies of 0.1 to
    0.7999999999999999 and returns another matrix. *)
Lemma symmetrize_dm_float64_counterexample :
  ∃ d1 d2,
    _symmetrize_dm example_dm8 (2, 2, 2) = Some d1 ∧
    _symmetrize_dm d1 (2, 2, 2) = Some d2 ∧
    mat_get d1 0 0 = Some 0.1%float ∧
    mat_get d2 0 0 = Some 0.09999999999999999%float ∧
    d2 ≠ d1.
Proof.
  eexists; eexists.
  split; [vm_compute; reflexivity|]. split; [vm_compute; reflexivity|].
  split; [vm_compute; reflexivity|]. split; [vm_compute; reflexivity|].
  intros E.
  apply (f_equal (λ m, match mat_get m 0 0 with
                       | Some x => PrimFloat.eqb x 0.1%float
                       | None => false
                       end)) in E.
  vm_compute in E. discriminate.
Qed.

(** *** [_permutation] *)

Lemma for_preserves {A S : Type} (P : S → Prop) (l : list A)
    (body : A → S → option S) s s' :
  (∀ x s1 s2, body x s1 = Some s2 → P s1 → P s2) →
  P s → for_ l body s = Some s' → P s'.
Proof.
  intros Hstep. revert s; induction l as [|x l IH]; intros s Hs.
  - intros [= <-]; exact Hs.
  - rewrite for_cons. destruct (body x s) as [s1|] eqn:E; [simpl|discriminate].
    apply IH. exact (Hstep _ _ _ E Hs).
Qed.

Lemma int32_range z : - 2 ^ 31 ≤ int32 z < 2 ^ 31.
Proof. unfold int32. pose proof (Z.mod_pos_bound (z + 2 ^ 31) (2 ^ 32)). lia. Qed.

Lemma int32_small z : - 2 ^ 31 ≤ z < 2 ^ 31 → int32 z = z.
Proof. intros Hz. unfold int32. rewrite Z.mod_small; lia. Qed.

Lemma lookup_bind_const {A B : Type} (f : A → list B) (l : list A)
    (c i j : nat) :
  (∀ x, length (f x) = c) → (j < c)%nat →
  (l ≫= f) !! (i * c + j)%nat = l !! i ≫= λ x, f x !! j.
Proof.
  intros Hf Hj. revert i; induction l as [|x l IH]; intros i.
  - reflexivity.
  - change ((x :: l) ≫= f) with (f x ++ (l ≫= f)). destruct i as [|i].
    + simpl. apply lookup_app_l. rewrite Hf. exact Hj.
    + rewrite lookup_app_r by (rewrite Hf; lia). rewrite Hf.
      replace (S i * c + j - c)%nat with (i * c + j)%nat by lia.
      apply IH.
Qed.

(** The cells come in the order of their row-major index. *)
Lemma cells_lookup_ravel Ls p :
  p ∈ cells Ls → cells Ls !! Z.to_nat (ravel Ls p) = Some p.
Proof.
  destruct Ls as [[l0 l1] l2], p as [[x y] z]. intros Hp.
  apply elem_of_cells in Hp; simpl in Hp. unfold cells, ravel, range.
  replace (Z.to_nat (x * l1 * l2 + y * l2 + z))
    with (Z.to_nat x * (Z.to_nat l1 * Z.to_nat l2)
          + (Z.to_nat y * Z.to_nat l2 + Z.to_nat z))%nat by nia.
  rewrite (lookup_bind_const _ _ (Z.to_nat l1 * Z.to_nat l2)).
  - rewrite lookup_seqZ_lt by lia. simpl.
    rewrite (lookup_bind_const _ _ (Z.to_nat l2)).
    + rewrite lookup_seqZ_lt by lia. simpl.
      replace (Z.to_nat z) with (Z.to_nat z * 1 + 0)%nat by lia.
      rewrite (lookup_bind_const _ _ 1%nat) by (reflexivity || lia).
      rewrite lookup_seqZ_lt by lia. simpl. do 3 f_equal; lia.
    + intros y'. rewrite (length_bind_const _ _ 1%nat) by reflexivity.
      rewrite length_seqZ. lia.
    + nia.
  - intros x'. rewrite (length_bind_const _ _ (Z.to_nat l2)).
    + rewrite length_seqZ. lia.
    + intros y'. rewrite (length_bind_const _ _ 1%nat) by reflexivity.
      rewrite length_seqZ. lia.
  - nia.
Qed.

(** The loop counter of three nested loops is the row-major index. *)
Lemma cells_prefix_length Ls l1 p l2 :
  cells Ls = l1 ++ p :: l2 → Z.of_nat (length l1) = ravel Ls p.
Proof.
  intros E.
  assert (cells Ls ≠ []) as Hne by (rewrite E; destruct l1; discriminate).
  pose proof (length_cells Ls Hne) as HN.
  assert (0 ≤ Z.of_nat (length l1) < np_prod Ls) as Hk.
  { rewrite E, length_app in HN. simpl in HN. lia. }
  destruct (ravel_surj Ls _ Hk Hne) as (p' & Hp' & Ep').
  pose proof (cells_lookup_ravel Ls p' Hp') as Hl.
  rewrite Ep', Nat2Z.id, E, list_lookup_middle in Hl by reflexivity.
  injection Hl as <-. symmetry; exact Ep'.
Qed.

Lemma cell_reflect_in Ls s p :
  p ∈ cells Ls → cell_reflect Ls s p ∈ cells Ls.
Proof.
  destruct Ls as [[l0 l1] l2], s as [[sx sy] sz], p as [[x y] z].
  intros Hp. unfold cell_reflect. apply elem_of_cells.
  apply elem_of_cells in Hp; simpl in *.
  pose proof (Z.mod_pos_bound (l0 - x - sx) l0).
  pose proof (Z.mod_pos_bound (l1 - y - sy) l1).
  pose proof (Z.mod_pos_bound (l2 - z - sz) l2). lia.
Qed.

Lemma mod_reflect_invol n s x :
  0 ≤ x < n → (n - (n - x - s) mod n - s) mod n = x.
Proof.
  intros Hx. replace (n - (n - x - s) mod n - s)
    with ((n - s) - (n - x - s) mod n) by lia.
  rewrite Zminus_mod_idemp_r.
  replace (n - s - (n - x - s)) with x by lia. apply Z.mod_small; lia.
Qed.

Lemma cell_reflect_invol Ls s p :
  p ∈ cells Ls → cell_reflect Ls s (cell_reflect Ls s p) = p.
Proof.
  destruct Ls as [[l0 l1] l2], s as [[sx sy] sz], p as [[x y] z].
  intros Hp. apply elem_of_cells in Hp; simpl in Hp.
  unfold cell_reflect. rewrite !mod_reflect_invol by lia. reflexivity.
Qed.

Lemma _permutation_body_ravel nx ny nz sx sy sz p res loc_now :
  _permutation_body nx ny nz sx sy sz p (res, loc_now) =
  let loc := ravel (nx, ny, nz) (cell_reflect (nx, ny, nz) (sx, sy, sz) p) in
  if decide (0 ≤ loc < Z.of_nat (length res))
  then Some (<[Z.to_nat loc := int32 loc_now]> res, loc_now + 1)
  else None.
Proof. destruct p as [[x y] z]. reflexivity. Qed.

(** What [_permutation] returns: the entry at the reflected cell of [p] is
    the loop counter at [p], stored as int32. *)
Lemma _permutation_run nx ny nz sx sy sz :
  1 ≤ nx → 1 ≤ ny → 1 ≤ nz →
  ∃ res,
    _permutation nx ny nz sx sy sz = Some res ∧
    Z.of_nat (length res) = nx * ny * nz ∧
    ∀ p, p ∈ cells (nx, ny, nz) →
      res !! Z.to_nat (ravel (nx, ny, nz)
                         (cell_reflect (nx, ny, nz) (sx, sy, sz) p))
      = Some (int32 (ravel (nx, ny, nz) p)).
Proof.
  intros Hx Hy Hz. unfold _permutation.
  assert (0 ≤ nx * ny * nz) as HN by nia.
  rewrite decide_True by exact HN. rewrite for_cells_flat.
  set (Ls := (nx, ny, nz)). set (s := (sx, sy, sz)).
  destruct (for_invariant
    (λ done (st : list Z * Z),
       st.2 = Z.of_nat (length done) ∧
       Z.of_nat (length st.1) = nx * ny * nz ∧
       ∀ p, p ∈ done →
         st.1 !! Z.to_nat (ravel Ls (cell_reflect Ls s p))
         = Some (int32 (ravel Ls p)))
    (cells Ls) (_permutation_body nx ny nz sx sy sz)
    (replicate (Z.to_nat (nx * ny * nz)) 0, 0))
    as (st & Hrun & Hcnt & Hlen & Hres).
  - simpl. rewrite length_replicate. repeat split; [lia|].
    intros p Hp; inversion Hp.
  - intros l1 p l2 [res loc_now] Hl (Hcnt & Hlen & Hres);
      cbn [fst snd] in Hcnt, Hlen, Hres.
    assert (p ∈ cells Ls) as Hp
      by (rewrite Hl; apply elem_of_app; right; apply elem_of_cons; auto).
    pose proof (cell_reflect_in Ls s p Hp) as Hq.
    pose proof (ravel_bounds Ls _ Hq) as Hb. cbn [np_prod Ls] in Hb.
    rewrite _permutation_body_ravel. cbv zeta. fold Ls s.
    rewrite decide_True by lia. eexists; split; [reflexivity|]. cbn [fst snd].
    rewrite length_app, length_insert. cbn [length]. repeat split; [lia|lia|].
    intros p' Hp'.
    assert (p' ∈ cells Ls) as Hp'c.
    { rewrite Hl. apply elem_of_app in Hp' as [?|Hp']; apply elem_of_app; auto.
      apply list_elem_of_singleton in Hp' as ->. right; apply elem_of_cons; auto. }
    destruct (decide (p' = p)) as [->|Hne].
    + rewrite list_lookup_insert_eq by lia.
      rewrite Hcnt, (cells_prefix_length Ls l1 p l2 Hl). reflexivity.
    + rewrite list_lookup_insert_ne.
      * apply Hres. apply elem_of_app in Hp' as [?|Hp']; [done|].
        apply list_elem_of_singleton in Hp'. contradiction.
      * intros E. apply Hne.
        pose proof (cell_reflect_in Ls s p' Hp'c) as Hq'.
        pose proof (ravel_bounds Ls _ Hq').
        assert (ravel Ls (cell_reflect Ls s p) = ravel Ls (cell_reflect Ls s p'))
          as E' by lia.
        apply (ravel_inj Ls) in E'; auto.
        rewrite <- (cell_reflect_invol Ls s p'), <- E', cell_reflect_invol; auto.
  - rewrite Hrun. simpl. exists st.1. auto.
Qed.

(** C9.  For every [nx, ny, nz >= 1] and every integer shifts,
    [_permutation] returns an array that is a permutation of
    [0, ..., nx * ny * nz - 1]: every position is assigned exactly once.
    The number of grid points [nx * ny * nz] fits an int32, the type of the
    entries of the array and of the entries of [MeshPrim] that the helper
    is called with. *)
Theorem permutation_is_permutation nx ny nz shift_x shift_y shift_z :
  1 ≤ nx → 1 ≤ ny → 1 ≤ nz → nx * ny * nz < 2 ^ 31 →
  ∃ res,
    _permutation nx ny nz shift_x shift_y shift_z = Some res ∧
    res ≡ₚ range (nx * ny * nz).
Proof.
  intros Hx Hy Hz Hfit.
  destruct (_permutation_run nx ny nz shift_x shift_y shift_z Hx Hy Hz)
    as (res & Hrun & Hlen & Hres).
  exists res. split; [exact Hrun|].
  set (Ls := (nx, ny, nz)) in *. set (s := (shift_x, shift_y, shift_z)) in *.
  assert (cells Ls ≠ []) as Hne.
  { intros E. assert ((0, 0, 0) ∈ cells Ls) as Hin
      by (apply elem_of_cells; simpl; lia).
    rewrite E in Hin. inversion Hin. }
  assert (∀ p, p ∈ cells Ls →
    res !! Z.to_nat (ravel Ls (cell_reflect Ls s p)) = Some (ravel Ls p))
    as Hres'.
  { intros p Hp. rewrite (Hres p Hp). f_equal. apply int32_small.
    pose proof (ravel_bounds Ls p Hp) as Hb. cbn [np_prod Ls] in Hb. lia. }
  assert (∀ (j : nat) x, res !! j = Some x →
    ∃ p, p ∈ cells Ls ∧ x = ravel Ls p
         ∧ j = Z.to_nat (ravel Ls (cell_reflect Ls s p))) as Hinv.
  { intros j x Hj. pose proof (lookup_lt_Some _ _ _ Hj) as Hlt.
    destruct (ravel_surj Ls (Z.of_nat j)) as (c & Hc & Ec);
      [cbn [np_prod Ls]; lia|exact Hne|].
    exists (cell_reflect Ls s c).
    pose proof (cell_reflect_in Ls s c Hc) as Hq.
    split; [exact Hq|]. rewrite cell_reflect_invol by exact Hc.
    split; [|lia].
    specialize (Hres' _ Hq). rewrite cell_reflect_invol in Hres' by exact Hc.
    rewrite Ec, Nat2Z.id, Hj in Hres'. injection Hres' as ->. reflexivity. }
  apply NoDup_Permutation.
  - apply NoDup_alt. intros i j x Hi Hj.
    destruct (Hinv i x Hi) as (p1 & Hp1 & E1 & ->).
    destruct (Hinv j x Hj) as (p2 & Hp2 & E2 & ->).
    rewrite E1 in E2. apply (ravel_inj Ls) in E2; auto. subst p2. reflexivity.
  - apply NoDup_seqZ.
  - intros x. unfold range. rewrite elem_of_seqZ. split.
    + intros Hx'. apply list_elem_of_lookup in Hx' as (j & Hj).
      destruct (Hinv j x Hj) as (p & Hp & -> & _).
      pose proof (ravel_bounds Ls p Hp) as Hb. cbn [np_prod Ls] in Hb. lia.
    + intros Hx'. destruct (ravel_surj Ls x) as (p & Hp & <-);
        [cbn [np_prod Ls]; lia|exact Hne|].
      apply list_elem_of_lookup. eexists. apply (Hres' p Hp).
Qed.

Lemma permutation_is_permutation_witness :
  ∃ res, _permutation 2 1 3 0 1 1 = Some res ∧ res ≡ₚ range (2 * 1 * 3).
Proof.
  apply (permutation_is_permutation 2 1 3 0 1 1); lia.
Defined.

(** *** [select_IP] *)

Lemma StronglySorted_le_lt (l : list Z) :
  StronglySorted Z.le l → NoDup l → StronglySorted Z.lt l.
Proof.
  induction 1 as [|x l Hl IH Hx]; intros Hnd; constructor.
  - apply IH. apply NoDup_cons in Hnd as [_ Hnd]. exact Hnd.
  - apply NoDup_cons in Hnd as [Hxl _].
    rewrite Forall_forall in Hx |- *. intros y Hy.
    specialize (Hx y Hy). assert (x ≠ y) by (intros ->; contradiction). lia.
Qed.

Lemma fmap_int32_small (l : list Z) :
  Forall (λ v, - 2 ^ 31 ≤ v < 2 ^ 31) l → int32 <$> l = l.
Proof.
  induction 1 as [|x l Hx Hl IH]; [reflexivity|].
  simpl. rewrite int32_small by exact Hx. f_equal. exact IH.
Qed.

(** The primitive-cell index of a grid point is the index of a point of
    the primitive mesh. *)
Lemma pnt_prim_ravel_id_bounds mp0 mp1 mp2 l0 l1 l2 g :
  0 < mp0 → 0 < mp1 → 0 < mp2 → 0 < l0 → 0 < l1 → 0 < l2 →
  0 ≤ pnt_prim_ravel_id (mp0 * l0, mp1 * l1, mp2 * l2) (l0, l1, l2) g
    < mp0 * mp1 * mp2.
Proof.
  intros. unfold pnt_prim_ravel_id. rewrite !Z.div_mul by lia.
  apply (ravel_bounds (mp0, mp1, mp2) (_, _, _)).
  apply elem_of_cells; simpl.
  repeat split; apply Z.mod_pos_bound; lia.
Qed.

(** Every translation image of a point of the primitive cell has the
    ravel index of that point. *)
Lemma pnt_prim_ravel_id_image mp0 mp1 mp2 l0 l1 l2 p b :
  0 < mp0 → 0 < mp1 → 0 < mp2 →
  p ∈ cells (mp0, mp1, mp2) → b ∈ cells (l0, l1, l2) →
  pnt_prim_ravel_id (mp0 * l0, mp1 * l1, mp2 * l2) (l0, l1, l2)
    (translation_image (mp0, mp1, mp2) (l0, l1, l2) p b)
  = ravel (mp0, mp1, mp2) p.
Proof.
  intros H0 H1 H2 Hp Hb. destruct p as [[x y] z], b as [[bx by_] bz].
  apply elem_of_cells in Hp, Hb; simpl in Hp, Hb.
  unfold pnt_prim_ravel_id, translation_image, ravel.
  rewrite !Z.div_mul by lia.
  set (X := x + bx * mp0). set (Y := y + by_ * mp1). set (Z' := z + bz * mp2).
  assert (0 ≤ X < mp0 * l0) as HX by (subst X; nia).
  assert (0 ≤ Y < mp1 * l1) as HY by (subst Y; nia).
  assert (0 ≤ Z' < mp2 * l2) as HZ by (subst Z'; nia).
  set (M1 := mp1 * l1) in *. set (M2 := mp2 * l2) in *.
  assert ((X * M1 * M2 + Y * M2 + Z') mod M2 = Z') as ->.
  { replace (X * M1 * M2 + Y * M2 + Z') with (Z' + (X * M1 + Y) * M2) by lia.
    rewrite Z.mod_add by lia. apply Z.mod_small; lia. }
  assert ((X * M1 * M2 + Y * M2 + Z') / M2 = X * M1 + Y) as ->.
  { replace (X * M1 * M2 + Y * M2 + Z') with (Z' + (X * M1 + Y) * M2) by lia.
    rewrite Z.div_add by lia. rewrite Z.div_small by lia. lia. }
  assert ((X * M1 + Y) mod M1 = Y) as ->.
  { replace (X * M1 + Y) with (Y + X * M1) by lia.
    rewrite Z.mod_add by lia. apply Z.mod_small; lia. }
  assert ((X * M1 * M2 + Y * M2 + Z') / (M1 * M2) = X) as ->.
  { replace (X * M1 * M2 + Y * M2 + Z') with ((Y * M2 + Z') + X * (M1 * M2))
      by lia.
    rewrite Z.div_add by nia. rewrite Z.div_small; [lia|]. split; [nia|].
    assert (Y * M2 ≤ (M1 - 1) * M2) by (apply Z.mul_le_mono_nonneg_r; lia).
    lia. }
  subst X Y Z'.
  rewrite !Z.mod_add by lia. rewrite !Z.mod_small by lia. reflexivity.
Qed.

(** C5.  For a mesh that is [mesh_prim * Ls] with a primitive grid that an
    int32 array can index, the array that [select_IP] returns is strictly
    increasing (sorted, without duplicates); it holds exactly the
    primitive-cell ravel indices of the selected grid points, each at one
    position; and every translation image of a point of the primitive cell
    has the ravel index of that point, so that images of one point
    contribute one entry. *)
Theorem select_IP_sorted_dedup mp0 mp1 mp2 l0 l1 l2 (IP_GlobalID : list Z) :
  0 < mp0 → 0 < mp1 → 0 < mp2 → 0 < l0 → 0 < l1 → 0 < l2 →
  mp0 * mp1 * mp2 ≤ 2 ^ 31 →
  let mesh := (mp0 * l0, mp1 * l1, mp2 * l2) in
  let Ls := (l0, l1, l2) in
  StronglySorted Z.lt (select_IP mesh Ls IP_GlobalID) ∧
  (∀ x, x ∈ select_IP mesh Ls IP_GlobalID ↔
        ∃ g, g ∈ IP_GlobalID ∧ x = pnt_prim_ravel_id mesh Ls g) ∧
  (∀ g, g ∈ IP_GlobalID →
     ∃ k, ∀ k', select_IP mesh Ls IP_GlobalID !! k'
                = Some (pnt_prim_ravel_id mesh Ls g) ↔ k' = k) ∧
  (∀ p b, p ∈ cells (mp0, mp1, mp2) → b ∈ cells Ls →
     pnt_prim_ravel_id mesh Ls (translation_image (mp0, mp1, mp2) Ls p b)
     = ravel (mp0, mp1, mp2) p).
Proof.
  intros H0 H1 H2 H3 H4 H5 Hfit mesh Ls.
  set (ids := elements (list_to_set (pnt_prim_ravel_id mesh Ls <$> IP_GlobalID)
                        : gset Z)).
  assert (select_IP mesh Ls IP_GlobalID = merge_sort Z.le ids) as Esel.
  { unfold select_IP. fold ids. apply fmap_int32_small.
    apply Forall_forall. intros x Hx.
    rewrite merge_sort_Permutation in Hx. subst ids.
    apply elem_of_elements, elem_of_list_to_set, list_elem_of_fmap in Hx
      as (g & -> & Hg).
    pose proof (pnt_prim_ravel_id_bounds mp0 mp1 mp2 l0 l1 l2 g
                  H0 H1 H2 H3 H4 H5). fold mesh Ls in H. lia. }
  assert (∀ x, x ∈ merge_sort Z.le ids ↔
            ∃ g, g ∈ IP_GlobalID ∧ x = pnt_prim_ravel_id mesh Ls g) as Hmem.
  { intros x. rewrite merge_sort_Permutation. subst ids.
    rewrite elem_of_elements, elem_of_list_to_set, list_elem_of_fmap.
    split; intros (g & ? & ?); exists g; auto. }
  assert (NoDup (merge_sort Z.le ids)) as Hnd.
  { rewrite merge_sort_Permutation. apply NoDup_elements. }
  rewrite Esel. split; [|split; [exact Hmem|split]].
  - apply StronglySorted_le_lt; [|exact Hnd].
    apply StronglySorted_merge_sort; apply _.
  - intros g Hg.
    assert (pnt_prim_ravel_id mesh Ls g ∈ merge_sort Z.le ids) as Hin
      by (apply Hmem; eauto).
    apply list_elem_of_lookup in Hin as (k & Hk). exists k.
    intros k'; split; [|intros ->; exact Hk].
    intros Hk'. eapply NoDup_lookup; eauto.
  - intros p b Hp Hb. apply pnt_prim_ravel_id_image; auto.
Qed.

Lemma select_IP_sorted_dedup_witness :
  StronglySorted Z.lt (select_IP (2 * 1, 2 * 1, 2 * 2) (1, 1, 2) [13; 5; 1; 15; 7]).
Proof.
  apply (select_IP_sorted_dedup 2 2 2 1 1 2 [13; 5; 1; 15; 7]); lia.
Defined.

(** *** The constructors *)

Section Constructors.
Context {F : Type}.
Implicit Types (env : init_env) (mesh Ls : triple).

Lemma bind_step_inl {A B : Type} (ev : event F) e (k : A → run F B) :
  bind (step ev (inl e)) k = ([ev], inl e).
Proof. reflexivity. Qed.

Lemma bind_step_inr {A B : Type} (ev : event F) (x : A) (k : A → run F B) :
  bind (step ev (inr x)) k = ((ev :: (k x).1), (k x).2).
Proof. unfold bind, step. destruct (k x); reflexivity. Qed.

Lemma bind_assert_true {B : Type} (k : unit → run F B) :
  bind (assert_ true) k = k tt.
Proof. apply bind_ret. Qed.

Lemma bind_assert_false {B : Type} (k : unit → run F B) :
  bind (assert_ false) k = ([], inl AssertionError).
Proof. reflexivity. Qed.

(** The three assertions on the mesh, followed by [k]. *)
Lemma mesh_asserts {B : Type} m0 m1 m2 l0 l1 l2 (k : run F B) :
  (assert_ (bool_decide (np_mod m0 l0 = 0));;
   assert_ (bool_decide (np_mod m1 l1 = 0));;
   assert_ (bool_decide (np_mod m2 l2 = 0));;
   k)%run
  = if bool_decide (divisible (m0, m1, m2) (l0, l1, l2)) then k
    else ([], inl AssertionError).
Proof.
  unfold divisible.
  destruct (decide (np_mod m0 l0 = 0)) as [E0|E0].
  2:{ rewrite (bool_decide_eq_false_2 (np_mod m0 l0 = 0)) by exact E0.
      rewrite bind_assert_false, bool_decide_eq_false_2 by tauto. reflexivity. }
  rewrite (bool_decide_eq_true_2 (np_mod m0 l0 = 0)) by exact E0.
  rewrite bind_assert_true.
  destruct (decide (np_mod m1 l1 = 0)) as [E1|E1].
  2:{ rewrite (bool_decide_eq_false_2 (np_mod m1 l1 = 0)) by exact E1.
      rewrite bind_assert_false, bool_decide_eq_false_2 by tauto. reflexivity. }
  rewrite (bool_decide_eq_true_2 (np_mod m1 l1 = 0)) by exact E1.
  rewrite bind_assert_true.
  destruct (decide (np_mod m2 l2 = 0)) as [E2|E2].
  2:{ rewrite (bool_decide_eq_false_2 (np_mod m2 l2 = 0)) by exact E2.
      rewrite bind_assert_false, bool_decide_eq_false_2 by tauto. reflexivity. }
  rewrite (bool_decide_eq_true_2 (np_mod m2 l2 = 0)) by exact E2.
  rewrite bind_assert_true, bool_decide_eq_true_2 by tauto. reflexivity.
Qed.

(** For positive counts the test of the assertions is divisibility. *)
Lemma divisible_divide mesh Ls :
  0 < Ls.1.1 → 0 < Ls.1.2 → 0 < Ls.2 →
  divisible mesh Ls
  ↔ (Ls.1.1 | mesh.1.1) ∧ (Ls.1.2 | mesh.1.2) ∧ (Ls.2 | mesh.2).
Proof.
  destruct mesh as [[m0 m1] m2], Ls as [[l0 l1] l2]. cbn [fst snd].
  intros H0 H1 H2. unfold divisible, np_mod.
  rewrite !(proj2 (Z.eqb_neq _ _)) by lia.
  rewrite !Z.mod_divide by lia. reflexivity.
Qed.

(** The guards of [PBC_ISDF_Info_kSym.__init__]. *)
Lemma PBC_ISDF_Info_kSym_init_guards env mesh coords_is_None Ls outcore wrf :
  super_init env = inr (mesh, coords_is_None) →
  PBC_ISDF_Info_kSym_init (F:=F) env Ls outcore wrf =
  if negb wrf && bool_decide (divisible mesh Ls)
  then
    (Call_super_init :: calls (kSym_init_steps (F:=F) env mesh coords_is_None outcore),
     outcome (kSym_init_steps (F:=F) env mesh coords_is_None outcore))
  else ([Call_super_init], inl AssertionError).
Proof.
  intros Hsup. unfold PBC_ISDF_Info_kSym_init. rewrite Hsup, bind_step_inr.
  destruct mesh as [[m0 m1] m2], Ls as [[l0 l1] l2].
  destruct wrf; [reflexivity|]. cbn [negb andb]. rewrite bind_assert_true.
  rewrite mesh_asserts. fold (kSym_init_steps (F:=F) env (m0, m1, m2) coords_is_None outcore).
  destruct (bool_decide (divisible (m0, m1, m2) (l0, l1, l2))); reflexivity.
Qed.

(** The guards of [PBC_ISDF_Info_Quad_K.__init__], and the failed lookup
    that follows them. *)
Lemma PBC_ISDF_Info_Quad_K_init_guards env mesh coords_is_None Ls :
  super_init env = inr (mesh, coords_is_None) →
  PBC_ISDF_Info_Quad_K_init (F:=F) env (Some Ls) =
  ([Call_super_init],
   inl (if bool_decide (divisible mesh Ls) then AttributeError
        else AssertionError)).
Proof.
  intros Hsup. unfold PBC_ISDF_Info_Quad_K_init. rewrite Hsup, bind_step_inr.
  destruct mesh as [[m0 m1] m2], Ls as [[l0 l1] l2].
  cbn [or_raise]. rewrite bind_ret, mesh_asserts.
  destruct (bool_decide (divisible (m0, m1, m2) (l0, l1, l2))); reflexivity.
Qed.

(** The steps after the assertions: the first one is started, and when
    every step returns so does the constructor. *)
Lemma kSym_init_steps_run env mesh (coords_is_None outcore : bool) :
  (∃ rest,
     calls (kSym_init_steps (F:=F) env mesh coords_is_None outcore)
     = (if coords_is_None then Call_grids_coords
        else Call_extract_grid_primitive_cell) :: rest) ∧
  ((coords_is_None = true → grids_coords env = inr tt) →
   extract_grid_primitive_cell env = inr tt →
   (outcore = false → eval_ao env = inr tt) →
   outcome (kSym_init_steps (F:=F) env mesh coords_is_None outcore) = inr mesh).
Proof.
  unfold kSym_init_steps. split.
  - destruct coords_is_None.
    + rewrite calls_bind. eexists. reflexivity.
    + rewrite bind_ret, calls_bind. eexists. reflexivity.
  - intros Hg He Ha.
    destruct coords_is_None.
    + rewrite Hg by reflexivity. rewrite bind_step_inr. cbn [snd outcome].
      rewrite He, bind_step_inr. cbn [snd].
      destruct outcore; [reflexivity|]. rewrite Ha by reflexivity. reflexivity.
    + rewrite bind_ret, He, bind_step_inr. cbn [snd outcome].
      destruct outcore; [reflexivity|]. rewrite Ha by reflexivity. reflexivity.
Qed.


End Constructors.



(** *** [colpivot_qr] *)

Section ArgMax.
Context {F : Type} `{Numeric F}.
Implicit Types (v s : list F) (x y mp : F).

Lemma linear_on_spec v x y :
  linear_on v = true → x ∈ v → y ∈ v → fleb x y = true ∨ fleb y x = true.
Proof.
  unfold linear_on. rewrite forallb_forall. intros Hl Hx Hy.
  apply list_elem_of_In in Hx, Hy. specialize (Hl x Hx).
  rewrite forallb_forall in Hl. specialize (Hl y Hy).
  apply orb_true_iff in Hl. exact Hl.
Qed.

Lemma transitive_on_spec v x y z :
  transitive_on v = true → x ∈ v → y ∈ v → z ∈ v →
  fleb x y = true → fleb y z = true → fleb x z = true.
Proof.
  unfold transitive_on. rewrite forallb_forall. intros Ht Hx Hy Hz Hxy Hyz.
  apply list_elem_of_In in Hx, Hy, Hz. specialize (Ht x Hx).
  rewrite forallb_forall in Ht. specialize (Ht y Hy).
  rewrite forallb_forall in Ht. specialize (Ht z Hz).
  rewrite Hxy, Hyz in Ht. exact Ht.
Qed.

Lemma argmax_from_bound v mp (ip i : nat) :
  (ip < i)%nat → (argmax_from mp ip i v < i + length v)%nat.
Proof.
  revert mp ip i. induction v as [|x v IH]; intros mp ip i Hi; cbn.
  - lia.
  - destruct (fleb x mp); cbn.
    + specialize (IH mp ip (S i)). lia.
    + destruct (isnan x).
      * lia.
      * specialize (IH x i (S i)). lia.
Qed.

Lemma argmax_bound v a : argmax v = Some a → 0 ≤ a < Z.of_nat (length v).
Proof.
  destruct v as [|x v]; [discriminate|]. cbn. intros [= <-].
  destruct (isnan x); [cbn; lia|].
  pose proof (argmax_from_bound v x 0 1). lia.
Qed.

Lemma argmax_is_Some v : v ≠ [] → is_Some (argmax v).
Proof. destruct v; [done|]. intros _. cbn. eauto. Qed.

(** The invariant of the search: [mp] is the first largest entry of the
    part [s] already seen. *)
Lemma argmax_from_spec v s mp (ip : nat) :
  linear_on (s ++ v) = true → transitive_on (s ++ v) = true →
  s !! ip = Some mp →
  (∀ y, y ∈ s → fleb y mp = true) →
  (∀ (k : nat) y, (k < ip)%nat → s !! k = Some y → fleb mp y = false) →
  ∃ x, (s ++ v) !! argmax_from mp ip (length s) v = Some x
       ∧ (∀ y, y ∈ s ++ v → fleb y x = true)
       ∧ (∀ (k : nat) y, (k < argmax_from mp ip (length s) v)%nat →
            (s ++ v) !! k = Some y → fleb x y = false).
Proof.
  revert s mp ip. induction v as [|x v IH]; intros s mp ip Hl Ht Hip Hmax Hfst.
  - cbn. rewrite app_nil_r. eauto.
  - assert (Hxin : x ∈ s ++ x :: v).
    { apply elem_of_app; right. apply elem_of_cons; auto. }
    assert (Hmpin : mp ∈ s ++ x :: v).
    { apply elem_of_app; left. eapply list_elem_of_lookup_2; eauto. }
    assert (Hsin : ∀ y, y ∈ s → y ∈ s ++ x :: v).
    { intros y Hy. apply elem_of_app; auto. }
    assert (Hlen : (ip < length s)%nat) by (eapply lookup_lt_Some; eauto).
    assert (Happ : (s ++ [x]) ++ v = s ++ x :: v)
      by (rewrite <- app_assoc; reflexivity).
    assert (Hl' : length (s ++ [x]) = S (length s))
      by (rewrite length_app; cbn; lia).
    cbn [argmax_from]. destruct (fleb x mp) eqn:Exm; cbn [negb].
    + specialize (IH (s ++ [x]) mp ip). rewrite Happ, Hl' in IH.
      apply IH; auto.
      * rewrite lookup_app_l by lia. exact Hip.
      * intros y [Hy|Hy]%elem_of_app; auto.
        apply list_elem_of_singleton in Hy. subst y. exact Exm.
      * intros k y Hk Hy. rewrite lookup_app_l in Hy by lia. eauto.
    + assert (Hxx : fleb x x = true).
      { destruct (linear_on_spec _ x x Hl Hxin Hxin); assumption. }
      assert (Hmx : fleb mp x = true).
      { destruct (linear_on_spec _ x mp Hl Hxin Hmpin); congruence. }
      unfold isnan. rewrite Hxx. cbn [negb].
      specialize (IH (s ++ [x]) x (length s)). rewrite Happ, Hl' in IH.
      apply IH; auto.
      * rewrite lookup_app_r by lia. rewrite Nat.sub_diag. reflexivity.
      * intros y [Hy|Hy]%elem_of_app.
        -- eapply (transitive_on_spec _ y mp x Ht); auto.
        -- apply list_elem_of_singleton in Hy. subst y. exact Hxx.
      * intros k y Hk Hy. rewrite lookup_app_l in Hy by lia.
        destruct (fleb x y) eqn:Exy; [|reflexivity].
        assert (Hys : y ∈ s) by (eapply list_elem_of_lookup_2; eauto).
        rewrite <- Exm. symmetry.
        eapply (transitive_on_spec _ x y mp Ht); auto.
Qed.

(** [np.argmax] returns the first index of a largest entry. *)
Lemma argmax_spec v a :
  linear_on v = true → transitive_on v = true → argmax v = Some a →
  ∃ x, v !! Z.to_nat a = Some x
       ∧ (∀ y, y ∈ v → fleb y x = true)
       ∧ (∀ (k : nat) y, (k < Z.to_nat a)%nat → v !! k = Some y →
            fleb x y = false).
Proof.
  intros Hl Ht Ha. destruct v as [|x v]; [discriminate|].
  cbn in Ha. injection Ha as <-. rewrite Nat2Z.id.
  assert (Hxx : fleb x x = true).
  { assert (Hx : x ∈ x :: v) by (apply elem_of_cons; auto).
    destruct (linear_on_spec _ x x Hl Hx Hx); assumption. }
  unfold isnan. rewrite Hxx. cbn [negb].
  apply (argmax_from_spec v [x] x 0); auto.
  - intros y Hy. apply list_elem_of_singleton in Hy. subst y. exact Hxx.
  - intros k y Hk. lia.
Qed.

End ArgMax.

Section Swap.
Context {A : Type}.
Implicit Types (l : list A).

Lemma delete_insert_same l (i : nat) (x : A) :
  delete i (<[i:=x]> l) = delete i l.
Proof.
  revert i. induction l as [|a l IH]; intros [|i]; cbn; try reflexivity.
  f_equal. apply IH.
Qed.

Lemma swap_is_Some l j p :
  0 ≤ j < Z.of_nat (length l) → 0 ≤ p < Z.of_nat (length l) →
  is_Some (swap j p l).
Proof.
  intros Hj Hp. unfold swap.
  destruct (lookup_lt_is_Some_2 l (Z.to_nat j)) as [a ->]; [lia|].
  destruct (lookup_lt_is_Some_2 l (Z.to_nat p)) as [b ->]; [lia|].
  cbn. eauto.
Qed.

Lemma swap_Permutation l j p l' : swap j p l = Some l' → l' ≡ₚ l.
Proof.
  unfold swap. set (jn := Z.to_nat j). set (pn := Z.to_nat p).
  destruct (l !! jn) as [a|] eqn:Ea; [|discriminate].
  destruct (l !! pn) as [b|] eqn:Eb; [|discriminate].
  cbn. intros [= <-].
  assert (Hj : (jn < length l)%nat) by (eapply lookup_lt_Some; eauto).
  assert (Hp : (pn < length l)%nat) by (eapply lookup_lt_Some; eauto).
  destruct (decide (jn = pn)) as [E|E].
  - rewrite <- E in *. assert (a = b) as -> by congruence.
    rewrite (list_insert_id l jn b Ea). rewrite (list_insert_id l jn b Ea).
    reflexivity.
  - assert (H1 : <[jn:=b]> l !! pn = Some b).
    { rewrite list_lookup_insert_ne by exact E. exact Eb. }
    assert (H2 : <[jn:=b]> l !! jn = Some b).
    { apply list_lookup_insert_eq. exact Hj. }
    assert (H3 : <[pn:=a]> (<[jn:=b]> l) !! pn = Some a).
    { apply list_lookup_insert_eq. rewrite length_insert. exact Hp. }
    etrans; [apply (delete_Permutation _ _ _ H3)|].
    rewrite delete_insert_same.
    etrans; [|symmetry; apply (delete_Permutation _ _ _ Ea)].
    apply Permutation_skip. apply Permutation_cons_inv with b.
    etrans; [symmetry; apply (delete_Permutation _ _ _ H1)|].
    etrans; [apply (delete_Permutation _ _ _ H2)|].
    rewrite delete_insert_same. reflexivity.
Qed.

Lemma swap_length l j p l' : swap j p l = Some l' → length l' = length l.
Proof. intros Hs. apply Permutation_length, (swap_Permutation _ _ _ _ Hs). Qed.

End Swap.

Section ColPivotQRShapes.
Context {F : Type} `{Numeric F}.
Implicit Types (M : matrix F) (v : list F).

Lemma has_shape_lookup r c M i :
  has_shape r c M → 0 ≤ i < r →
  ∃ row, M !! Z.to_nat i = Some row ∧ Z.of_nat (length row) = c.
Proof.
  intros Hm Hi. destruct (lookup_lt_is_Some_2 M (Z.to_nat i)) as [row Hrow].
  { destruct Hm as [Hl _]. lia. }
  exists row. split; [exact Hrow|]. eapply has_shape_row; eauto.
Qed.

Lemma has_shape_insert r c M (i : nat) row :
  has_shape r c M → Z.of_nat (length row) = c → has_shape r c (<[i:=row]> M).
Proof.
  intros [Hl Hc] Hrow. split.
  - rewrite length_insert. exact Hl.
  - apply Forall_insert; assumption.
Qed.

Lemma swap_shape r c M j p :
  has_shape r c M → 0 ≤ j < r → 0 ≤ p < r →
  ∃ M', swap j p M = Some M' ∧ has_shape r c M'.
Proof.
  intros [Hl Hc] Hj Hp. destruct (swap_is_Some M j p) as [M' HM']; [lia..|].
  exists M'. split; [exact HM'|]. split.
  - rewrite (swap_length _ _ _ _ HM'). exact Hl.
  - rewrite (swap_Permutation _ _ _ _ HM'). exact Hc.
Qed.

Lemma mapM_swap_shape r c M j p :
  has_shape r c M → 0 ≤ j < c → 0 ≤ p < c →
  ∃ M', mapM (swap j p) M = Some M' ∧ has_shape r c M'.
Proof.
  intros [Hl Hc] Hj Hp. revert r Hl.
  induction Hc as [|row M Hrow Hc IH]; intros r Hl.
  - exists []. split; [reflexivity|]. split; [exact Hl|constructor].
  - destruct (swap_is_Some row j p) as [row' Hrow']; [lia..|].
    destruct (IH _ eq_refl) as (M' & HM' & Hl' & Hc').
    exists (row' :: M'). split.
    + cbn. rewrite Hrow'. cbn. rewrite HM'. reflexivity.
    + split.
      * cbn [length] in *. lia.
      * constructor; [|exact Hc'].
        rewrite (swap_length _ _ _ _ Hrow'). exact Hrow.
Qed.

Lemma set_entry_shape r c M i k x :
  has_shape r c M → 0 ≤ i < r → 0 ≤ k < c →
  ∃ M', set_entry M i k x = Some M' ∧ has_shape r c M'.
Proof.
  intros Hm Hi Hk. destruct (has_shape_lookup r c M i Hm Hi) as (row & Hrow & Hl).
  unfold set_entry. rewrite Hrow. cbn.
  destruct (lookup_lt_is_Some_2 row (Z.to_nat k)) as [y ->]; [lia|]. cbn.
  eexists. split; [reflexivity|].
  apply has_shape_insert; [exact Hm|]. rewrite length_insert. exact Hl.
Qed.

Lemma set_row_from_shape r c M i k0 v :
  has_shape r c M → 0 ≤ i < r → 0 ≤ k0 ≤ c →
  Z.of_nat (length v) = c - k0 →
  ∃ M', set_row_from M i k0 v = Some M' ∧ has_shape r c M'
        ∧ M' !! Z.to_nat i = Some (take (Z.to_nat k0) (M !!! Z.to_nat i) ++ v).
Proof.
  intros Hm Hi Hk Hv.
  destruct (has_shape_lookup r c M i Hm Hi) as (row & Hrow & Hl).
  unfold set_row_from. rewrite Hrow. cbn.
  rewrite decide_True by (rewrite length_drop; lia).
  eexists. split; [reflexivity|]. split.
  - apply has_shape_insert; [exact Hm|].
    rewrite length_app, length_take. lia.
  - rewrite (list_lookup_total_correct _ _ _ Hrow).
    apply list_lookup_insert_eq. eapply lookup_lt_Some; eauto.
Qed.

Lemma sub_outer_shape r c M j (rv q : list F) :
  has_shape r c M → 0 ≤ j < r →
  Z.of_nat (length rv) = r - (j + 1) → Z.of_nat (length q) = c →
  ∃ M', sub_outer M j rv q = Some M' ∧ has_shape r c M'.
Proof.
  intros [Hl Hc] Hj Hrv Hq. unfold sub_outer.
  assert (Hrest : Forall (λ row : list F, length row = length q)
                    (drop (Z.to_nat (j + 1)) M)).
  { apply Forall_drop. eapply Forall_impl; [exact Hc|].
    cbv beta. intros row Hrow. lia. }
  rewrite decide_True by (split; [rewrite length_drop; lia|exact Hrest]).
  eexists. split; [reflexivity|]. split.
  - rewrite length_app, length_take, length_zip_with, length_drop. lia.
  - apply Forall_app. split; [apply Forall_take; exact Hc|].
    apply Forall_forall. intros row Hrow.
    apply list_elem_of_lookup in Hrow as [k Hk].
    apply lookup_zip_with_Some in Hk as (x & row0 & -> & _ & Hrow0).
    rewrite length_zip_with.
    pose proof (Forall_lookup_1 _ _ _ _ Hrest Hrow0) as E. cbv beta in E.
    lia.
Qed.

End ColPivotQRShapes.

Section ColPivotQRFacts.
Context {F : Type} `{Numeric F}.
Implicit Types (M : matrix F) (st : qr_state (F:=F)).

Lemma foldr_zip_with_cons_shape (k b : nat) M (base : matrix F) :
  Forall (λ row, length row = k) M → length base = k →
  Forall (λ row, length row = b) base →
  length (foldr (zip_with cons) base M) = k
  ∧ Forall (λ row, length row = (length M + b)%nat)
      (foldr (zip_with cons) base M).
Proof.
  intros HM Hbase Hb. induction HM as [|row M Hrow HM [IH1 IH2]]; cbn.
  - split; assumption.
  - split; [rewrite length_zip_with; lia|].
    apply Forall_forall. intros r Hr.
    apply list_elem_of_lookup in Hr as [i Hi].
    apply lookup_zip_with_Some in Hi as (x & r0 & -> & _ & Hr0).
    pose proof (Forall_lookup_1 _ _ _ _ IH2 Hr0) as E. cbv beta in E.
    cbn. lia.
Qed.

Lemma has_shape_transpose r c M :
  has_shape r c M → 0 < r → has_shape c r (transpose M).
Proof.
  intros [Hl Hc] Hr. unfold transpose.
  destruct M as [|row0 M0] eqn:EM; [cbn in Hl; lia|]. rewrite <- EM in *.
  assert (Hrow0 : Z.of_nat (length row0) = c).
  { subst M. inversion Hc; assumption. }
  destruct (foldr_zip_with_cons_shape (length row0) 0 M
              (replicate (length (hd [] M)) [])) as [H1 H2].
  - eapply Forall_impl; [exact Hc|]. cbv beta. intros row Hrow. lia.
  - rewrite length_replicate. subst M. reflexivity.
  - apply Forall_replicate. reflexivity.
  - split; [lia|]. eapply Forall_impl; [exact H2|].
    cbv beta. intros row Hrow. lia.
Qed.

Lemma pivot_position_is_Some r c M j :
  has_shape r c M → 0 ≤ j < r →
  ∃ p, pivot_position M j = Some p ∧ j ≤ p < r.
Proof.
  intros [Hl _] Hj. unfold pivot_position.
  destruct (argmax_is_Some (norm <$> drop (Z.to_nat j) M)) as [a Ha].
  { intros E. apply (f_equal length) in E.
    rewrite length_fmap, length_drop in E. cbn in E. lia. }
  rewrite Ha. cbn. eexists; split; [reflexivity|].
  apply argmax_bound in Ha. rewrite length_fmap, length_drop in Ha. lia.
Qed.

Lemma length_pivot m n st :
  qr_inv m n st → length (pivot st) = Z.to_nat n.
Proof.
  intros (_ & _ & _ & HP). rewrite (Permutation_length HP).
  unfold range. apply length_seqZ.
Qed.

(** A pass of the loop raises nothing and keeps the shapes. *)
Lemma colpivot_qr_body_inv cutoff m n j st :
  qr_inv m n st → 0 ≤ j < m → j < n →
  ∃ r, colpivot_qr_body cutoff j st = Some r ∧
       match r with
       | inl st' => qr_inv m n st' ∧ npt_find st' = npt_find st
       | inr st' => qr_inv m n st' ∧ npt_find st' = npt_find st + 1
       end.
Proof.
  intros Hinv Hjm Hjn. pose proof (length_pivot m n st Hinv) as Hlp.
  destruct Hinv as (HA & HQ & HR & HP). unfold colpivot_qr_body.
  destruct (pivot_position_is_Some n m (AA st) j HA) as (p & -> & Hp); [lia|].
  cbn [mbind option_bind].
  destruct (swap_shape n m (AA st) j p HA) as (AA1 & -> & HA1); [lia..|].
  cbn [mbind option_bind].
  destruct (mapM_swap_shape m n (R st) j p HR) as (R1 & -> & HR1); [lia..|].
  cbn [mbind option_bind].
  destruct (swap_is_Some (pivot st) j p) as [pivot1 Hp1]; [lia..|].
  rewrite Hp1. cbn [mbind option_bind].
  assert (HP1 : pivot1 ≡ₚ range n).
  { etrans; [apply (swap_Permutation _ _ _ _ Hp1)|exact HP]. }
  destruct (has_shape_lookup n m AA1 j HA1) as (AAj & -> & HAj); [lia|].
  cbn [mbind option_bind].
  destruct (set_entry_shape m n R1 j j (norm AAj) HR1) as (R2 & -> & HR2);
    [lia..|].
  cbn [mbind option_bind].
  destruct (mat_get_is_Some m n R2 j j HR2) as [Rjj ->]; [lia..|].
  cbn [mbind option_bind].
  destruct (fltb Rjj cutoff).
  { eexists; split; [reflexivity|]. split; [|reflexivity].
    unfold qr_inv. cbn. split_and!; assumption. }
  destruct (set_row_from_shape m m (Q st) j 0 ((λ x, fdiv x Rjj) <$> AAj) HQ)
    as (Q1 & -> & HQ1 & HQj); [lia|lia|rewrite length_fmap; lia|].
  cbn [mbind option_bind]. rewrite HQj. cbn [mbind option_bind].
  pose proof (has_shape_row _ _ _ _ _ HQ1 HQj) as HlQj.
  set (Qj := take (Z.to_nat 0) (Q st !!! Z.to_nat j)
             ++ ((λ x, fdiv x Rjj) <$> AAj)) in *.
  destruct (set_row_from_shape m n R2 j (j + 1)
              ((λ row : list F, vdot row Qj) <$> drop (Z.to_nat (j + 1)) AA1)
              HR2) as (R3 & -> & HR3 & HRj); [lia|lia| |].
  { destruct HA1 as [HlA1 _]. rewrite length_fmap, length_drop. lia. }
  cbn [mbind option_bind]. rewrite HRj. cbn [mbind option_bind].
  pose proof (has_shape_row _ _ _ _ _ HR3 HRj) as HlRj.
  match goal with
  | |- context [sub_outer AA1 j ?rv Qj] =>
      destruct (sub_outer_shape n m AA1 j rv Qj HA1) as (AA2 & -> & HA2);
        [lia|rewrite length_drop; lia|exact HlQj|]
  end.
  cbn [mbind option_bind].
  eexists; split; [reflexivity|]. split; [|reflexivity].
  unfold qr_inv. cbn. split_and!; assumption.
Qed.

(** The loop raises nothing, keeps the shapes, and counts at most one pivot
    per pass. *)
Lemma colpivot_qr_loop_inv cutoff m n js st :
  qr_inv m n st → Forall (λ j, 0 ≤ j < m ∧ j < n) js →
  ∃ st', colpivot_qr_loop cutoff js st = Some st' ∧ qr_inv m n st'
         ∧ npt_find st ≤ npt_find st' ≤ npt_find st + Z.of_nat (length js).
Proof.
  intros Hinv Hjs. revert st Hinv.
  induction Hjs as [|j js Hj Hjs IH]; intros st Hinv.
  - exists st. cbn. split_and!; [reflexivity|assumption|lia..].
  - destruct (colpivot_qr_body_inv cutoff m n j st Hinv)
      as ([st'|st'] & E & Hinv' & Hn); [lia..| |].
    + exists st'. cbn [colpivot_qr_loop]. rewrite E.
      split_and!; [reflexivity|assumption|cbn [length]; lia..].
    + destruct (IH st' Hinv') as (st'' & E' & Hinv'' & Hn').
      exists st''. cbn [colpivot_qr_loop]. rewrite E.
      split_and!; [assumption..|cbn [length]; lia|cbn [length]; lia].
Qed.

End ColPivotQRFacts.

Section ColPivotQRTheorem.
Context {F : Type} `{Numeric F}.
Implicit Types (M : matrix F) (st : qr_state (F:=F)).

(** The array [pivot] after a pass is the one before it with the entries at
    [j] and at the selected position exchanged. *)
Lemma colpivot_qr_body_pivot cutoff j st r :
  colpivot_qr_body cutoff j st = Some r →
  ∃ p, pivot_position (AA st) j = Some p
       ∧ swap j p (pivot st)
         = Some (pivot match r with inl st' | inr st' => st' end).
Proof.
  unfold colpivot_qr_body. intros Hb.
  apply bind_Some in Hb as (p & Ep & Hb). exists p. split; [exact Ep|].
  apply bind_Some in Hb as (AA1 & _ & Hb).
  apply bind_Some in Hb as (R1 & _ & Hb).
  apply bind_Some in Hb as (pivot1 & -> & Hb).
  apply bind_Some in Hb as (AAj & _ & Hb).
  apply bind_Some in Hb as (R2 & _ & Hb).
  apply bind_Some in Hb as (Rjj & _ & Hb).
  destruct (fltb Rjj cutoff).
  { injection Hb as <-. reflexivity. }
  apply bind_Some in Hb as (Q1 & _ & Hb).
  apply bind_Some in Hb as (Qj & _ & Hb).
  apply bind_Some in Hb as (R3 & _ & Hb).
  apply bind_Some in Hb as (Rj & _ & Hb).
  apply bind_Some in Hb as (AA2 & _ & Hb).
  injection Hb as <-. reflexivity.
Qed.

(** The selected position holds the first largest norm among the rows from
    [j] on. *)
Lemma pivot_position_spec M j p :
  0 ≤ j →
  linear_on (norm <$> drop (Z.to_nat j) M) = true →
  transitive_on (norm <$> drop (Z.to_nat j) M) = true →
  pivot_position M j = Some p →
  ∃ row, j ≤ p ∧ M !! Z.to_nat p = Some row
    ∧ (∀ i row', j ≤ i → M !! Z.to_nat i = Some row' →
         fleb (norm row') (norm row) = true)
    ∧ (∀ i row', j ≤ i < p → M !! Z.to_nat i = Some row' →
         fleb (norm row) (norm row') = false).
Proof.
  intros Hj Hl Ht Hp. unfold pivot_position in Hp.
  apply fmap_Some in Hp as (a & Ha & ->).
  pose proof (argmax_bound _ _ Ha) as Hab.
  destruct (argmax_spec _ _ Hl Ht Ha) as (x & Hx & Hmax & Hfst).
  rewrite list_lookup_fmap in Hx. apply fmap_Some in Hx as (row & Hrow & ->).
  rewrite lookup_drop in Hrow. exists row. split; [lia|]. split.
  { rewrite <- Hrow. f_equal. lia. }
  assert (Hin : ∀ i row', j ≤ i → M !! Z.to_nat i = Some row' →
            (norm <$> drop (Z.to_nat j) M) !! (Z.to_nat i - Z.to_nat j)%nat
            = Some (norm row')).
  { intros i row' Hi Hrow'. rewrite list_lookup_fmap, lookup_drop.
    replace (Z.to_nat j + (Z.to_nat i - Z.to_nat j))%nat with (Z.to_nat i)
      by lia.
    rewrite Hrow'. reflexivity. }
  split.
  - intros i row' Hi Hrow'. apply Hmax.
    eapply list_elem_of_lookup_2. apply (Hin i row' Hi Hrow').
  - intros i row' Hi Hrow'.
    apply (Hfst (Z.to_nat i - Z.to_nat j)%nat); [lia|].
    apply Hin; [lia|exact Hrow'].
Qed.

Lemma swap_lookup {A : Type} (l l' : list A) j p (i : nat) :
  swap j p l = Some l' →
  l' !! i = if decide (i = Z.to_nat p) then l !! Z.to_nat j
            else if decide (i = Z.to_nat j) then l !! Z.to_nat p
                 else l !! i.
Proof.
  unfold swap. intros Hs.
  destruct (l !! Z.to_nat j) as [a|] eqn:Ea; [|discriminate].
  destruct (l !! Z.to_nat p) as [b|] eqn:Eb; [|discriminate].
  cbn in Hs. injection Hs as <-.
  pose proof (lookup_lt_Some _ _ _ Ea) as Hlj.
  pose proof (lookup_lt_Some _ _ _ Eb) as Hlp.
  destruct (decide (i = Z.to_nat p)) as [->|Hp].
  - apply list_lookup_insert_eq. rewrite length_insert. exact Hlp.
  - rewrite list_lookup_insert_ne by congruence.
    destruct (decide (i = Z.to_nat j)) as [->|Hj].
    + apply list_lookup_insert_eq. exact Hlj.
    + apply list_lookup_insert_ne. congruence.
Qed.

Lemma pivot_position_ge M j p : pivot_position M j = Some p → j ≤ p.
Proof.
  unfold pivot_position. intros Hp. apply fmap_Some in Hp as (a & Ha & ->).
  apply argmax_bound in Ha. lia.
Qed.

Lemma set_entry_get M i x M' :
  0 ≤ i → set_entry M i i x = Some M' → mat_get M' i i = Some x.
Proof.
  intros Hi. unfold set_entry. intros Hs.
  apply bind_Some in Hs as (row & Hrow & Hs).
  apply bind_Some in Hs as (y & Hy & Hs). injection Hs as <-.
  unfold mat_get. rewrite decide_True by lia.
  rewrite list_lookup_insert_eq by (eapply lookup_lt_Some; eauto). cbn.
  apply list_lookup_insert_eq. eapply lookup_lt_Some; eauto.
Qed.

Lemma drop_take_app_same {A : Type} (k : nat) (row w : list A) :
  length (drop k row) = length w → drop k (take k row ++ w) = w.
Proof.
  intros Hl. rewrite length_drop in Hl.
  destruct (decide (k ≤ length row)%nat) as [Hk|Hk].
  - apply drop_app_length'. rewrite length_take. lia.
  - assert (w = []) as -> by (apply nil_length_inv; lia).
    rewrite app_nil_r. apply drop_ge. rewrite length_take. lia.
Qed.

(** [AA[j + 1:, :] -= np.outer(R[j, j + 1:], Q[j, :])] with the row of [R]
    that the pass has just filled: every row below [j] loses its component
    along [q]. *)
Lemma sub_outer_eliminate M (k : nat) j q M' :
  Z.to_nat (j + 1) = k →
  sub_outer M j ((λ row : list F, vdot row q) <$> drop k M) q = Some M' →
  M' = take k M ++ (eliminate q <$> drop k M).
Proof.
  intros Hk. unfold sub_outer. rewrite Hk. case_decide; [|discriminate].
  intros [= <-]. f_equal.
  rewrite zip_with_fmap_l, zip_with_diag. reflexivity.
Qed.

(** What a pass that does not end the loop leaves in [pivot], [Q] and
    [AA]. *)
Lemma colpivot_qr_body_inr cutoff j st st' :
  0 ≤ j →
  colpivot_qr_body cutoff j st = Some (inr st') →
  ∃ p AA1 AAj,
    pivot_position (AA st) j = Some p ∧ j ≤ p
    ∧ swap j p (AA st) = Some AA1
    ∧ swap j p (pivot st) = Some (pivot st')
    ∧ AA1 !! Z.to_nat j = Some AAj
    ∧ (Z.to_nat j < length (Q st))%nat
    ∧ Q st' = <[Z.to_nat j := normalized AAj]> (Q st)
    ∧ AA st' = take (S (Z.to_nat j)) AA1
               ++ (eliminate (normalized AAj) <$> drop (S (Z.to_nat j)) AA1).
Proof.
  intros Hj Hb. unfold colpivot_qr_body in Hb.
  apply bind_Some in Hb as (p & Ep & Hb).
  apply bind_Some in Hb as (AA1 & EAA1 & Hb).
  apply bind_Some in Hb as (R1 & _ & Hb).
  apply bind_Some in Hb as (pivot1 & Epiv & Hb).
  apply bind_Some in Hb as (AAj & EAAj & Hb).
  apply bind_Some in Hb as (R2 & ER2 & Hb).
  apply bind_Some in Hb as (Rjj & ERjj & Hb).
  rewrite (set_entry_get _ _ _ _ Hj ER2) in ERjj. injection ERjj as <-.
  destruct (fltb (norm AAj) cutoff); [discriminate|].
  apply bind_Some in Hb as (Q1 & EQ1 & Hb).
  apply bind_Some in Hb as (Qj & EQj & Hb).
  apply bind_Some in Hb as (R3 & ER3 & Hb).
  apply bind_Some in Hb as (Rj & ERj & Hb).
  apply bind_Some in Hb as (AA2 & EAA2 & Hb).
  injection Hb as <-. cbn [AA Q pivot].
  change ((λ x, fdiv x (norm AAj)) <$> AAj) with (normalized AAj) in EQ1.
  unfold set_row_from in EQ1.
  apply bind_Some in EQ1 as (qrow & Eqrow & EQ1).
  case_decide; [|discriminate]. injection EQ1 as <-.
  change (Z.to_nat 0) with 0%nat in EQj. cbn [take app] in EQj.
  pose proof (lookup_lt_Some _ _ _ Eqrow) as Hjq.
  rewrite list_lookup_insert_eq in EQj by exact Hjq. injection EQj as <-.
  unfold set_row_from in ER3.
  apply bind_Some in ER3 as (rrow & Errow & ER3).
  case_decide as Hlen; [|discriminate]. injection ER3 as <-.
  rewrite list_lookup_insert_eq in ERj by (eapply lookup_lt_Some; eauto).
  injection ERj as <-.
  rewrite drop_take_app_same in EAA2 by exact Hlen.
  replace (Z.to_nat (j + 1)) with (S (Z.to_nat j)) in EAA2 by lia.
  apply (sub_outer_eliminate _ (S (Z.to_nat j))) in EAA2; [|lia].
  exists p, AA1, AAj. split_and!; auto.
  apply (pivot_position_ge _ _ _ Ep).
Qed.

(** A pass that does not end the loop turns the candidates of pass [j]
    into those of pass [j + 1]. *)
Lemma residuals_at_step cutoff (A : matrix F) j st st' :
  0 ≤ j →
  residuals_at A (Z.to_nat j) st →
  colpivot_qr_body cutoff j st = Some (inr st') →
  residuals_at A (S (Z.to_nat j)) st'.
Proof.
  intros Hj [Hres HQ] Hb.
  destruct (colpivot_qr_body_inr cutoff j st st' Hj Hb)
    as (p & AA1 & AAj & Ep & Hjp & EAA1 & Epiv & EAAj & Hjq & EQ & EAA).
  assert (Hjpn : (Z.to_nat j ≤ Z.to_nat p)%nat) by lia.
  set (jn := Z.to_nat j) in *. set (pn := Z.to_nat p) in *.
  assert (Hsw : ∀ (i : nat) c, pivot st' !! i = Some c →
            AA1 !! i = Some (residual (take (i `min` jn) (Q st)) (column A c))).
  { intros i c Hc. rewrite (swap_lookup _ _ _ _ i Epiv) in Hc.
    rewrite (swap_lookup _ _ _ _ i EAA1). fold jn pn in Hc |- *.
    destruct (decide (i = pn)) as [->|Hip].
    - rewrite (Hres jn c Hc).
      replace (pn `min` jn)%nat with (jn `min` jn)%nat by lia. reflexivity.
    - destruct (decide (i = jn)) as [->|Hij].
      + rewrite (Hres pn c Hc).
        replace (pn `min` jn)%nat with (jn `min` jn)%nat by lia. reflexivity.
      + apply Hres. exact Hc. }
  split.
  - intros i c Hc. specialize (Hsw i c Hc).
    pose proof (lookup_lt_Some _ _ _ Hsw) as Hi1.
    rewrite EAA, EQ.
    destruct (decide (i ≤ jn)%nat) as [Hi|Hi].
    + rewrite lookup_app_l by (rewrite length_take; lia).
      rewrite lookup_take_lt by lia. rewrite Hsw.
      replace (i `min` S jn)%nat with (i `min` jn)%nat by lia.
      rewrite take_insert_ge by lia. reflexivity.
    + rewrite lookup_app_r by (rewrite length_take; lia).
      rewrite length_take, list_lookup_fmap, lookup_drop.
      replace (S jn + (i - S jn `min` length AA1))%nat with i by lia.
      rewrite Hsw. cbn.
      replace (i `min` S jn)%nat with (S jn) by lia.
      replace (i `min` jn)%nat with jn by lia.
      rewrite (take_S_r _ jn (normalized AAj))
        by (apply list_lookup_insert_eq; exact Hjq).
      rewrite take_insert_ge by lia.
      unfold residual. rewrite fold_left_app. reflexivity.
  - intros k r Hk Hr. rewrite EAA in Hr. rewrite EQ.
    pose proof (lookup_lt_Some _ _ _ EAAj) as Hj1.
    rewrite lookup_app_l in Hr by (rewrite length_take; lia).
    rewrite lookup_take_lt in Hr by lia.
    destruct (decide (k = jn)) as [->|Hkj].
    + rewrite EAAj in Hr. injection Hr as <-.
      apply list_lookup_insert_eq. exact Hjq.
    + rewrite list_lookup_insert_ne by congruence.
      apply HQ; [lia|]. rewrite (swap_lookup _ _ _ _ k EAA1) in Hr.
      fold jn pn in Hr.
      rewrite decide_False in Hr by lia. rewrite decide_False in Hr by lia.
      exact Hr.
Qed.

(** The working arrays of every pass of the loop keep their shapes and
    hold the residuals of the candidates. *)
Lemma colpivot_qr_pass_residuals cutoff m n (A : matrix F) (k : nat) :
  ∀ j0 len st0 st,
    0 ≤ j0 → j0 + len ≤ m → j0 + len ≤ n →
    qr_inv m n st0 → residuals_at A (Z.to_nat j0) st0 →
    colpivot_qr_pass cutoff (seqZ j0 len) st0 k = Some st →
    qr_inv m n st ∧ residuals_at A (Z.to_nat j0 + k) st
    ∧ Z.of_nat k < len
    ∧ colpivot_qr_loop cutoff (seqZ j0 len) st0
      = colpivot_qr_loop cutoff
          (seqZ (j0 + Z.of_nat k) (len - Z.of_nat k)) st.
Proof.
  induction k as [|k IH]; intros j0 len st0 st Hj0 Hm Hn Hinv Hres Hp.
  - destruct (decide (0 < len)) as [Hlen|Hlen].
    + rewrite seqZ_cons in Hp by exact Hlen. cbn in Hp. injection Hp as <-.
      rewrite Nat.add_0_r, Z.add_0_r, Z.sub_0_r. split_and!; auto.
    + rewrite seqZ_nil in Hp by lia. discriminate.
  - destruct (decide (0 < len)) as [Hlen|Hlen].
    2:{ rewrite seqZ_nil in Hp by lia. discriminate. }
    rewrite seqZ_cons in Hp |- * by exact Hlen.
    cbn [colpivot_qr_pass colpivot_qr_loop] in Hp |- *.
    destruct (colpivot_qr_body cutoff j0 st0) as [[st1|st1]|] eqn:Eb;
      try discriminate.
    destruct (colpivot_qr_body_inv cutoff m n j0 st0 Hinv)
      as (r & Er & Hr); [lia..|].
    rewrite Eb in Er. injection Er as <-. destruct Hr as [Hinv1 _].
    pose proof (residuals_at_step cutoff A j0 st0 st1 Hj0 Hres Eb) as Hres1.
    replace (S (Z.to_nat j0)) with (Z.to_nat (Z.succ j0)) in Hres1 by lia.
    destruct (IH (Z.succ j0) (Z.pred len) st1 st) as (Hi & Hr & Hk & Hl);
      [lia..|assumption|assumption|assumption|].
    split_and!; [assumption| |lia|].
    + replace (Z.to_nat j0 + S k)%nat with (Z.to_nat (Z.succ j0) + k)%nat
        by lia.
      exact Hr.
    + rewrite Hl. f_equal. f_equal; lia.
Qed.

(** The passes from [j] on leave the entries of [pivot] above [j] where
    they are. *)
Lemma colpivot_qr_loop_pivot_fixed cutoff js :
  ∀ st st' (i : nat),
    Forall (λ j, Z.of_nat i < j) js →
    colpivot_qr_loop cutoff js st = Some st' →
    pivot st' !! i = pivot st !! i.
Proof.
  induction js as [|j js IH]; intros st st' i Hjs Hl.
  - cbn in Hl. injection Hl as <-. reflexivity.
  - inversion Hjs as [|? ? Hj Hjs']; subst. cbn [colpivot_qr_loop] in Hl.
    destruct (colpivot_qr_body cutoff j st) as [r|] eqn:Eb; [|discriminate].
    destruct (colpivot_qr_body_pivot cutoff j st r Eb) as (p & Ep & Hs).
    pose proof (pivot_position_ge _ _ _ Ep) as Hjp.
    assert (pivot match r with inl st1 | inr st1 => st1 end !! i
            = pivot st !! i) as Hfix.
    { rewrite (swap_lookup _ _ _ _ i Hs).
      rewrite decide_False by lia. rewrite decide_False by lia. reflexivity. }
    destruct r as [st1|st1].
    + injection Hl as <-. exact Hfix.
    + rewrite (IH st1 st' i Hjs' Hl). exact Hfix.
Qed.

(** C4, as amended.  For every matrix [A] of shape [(m, n)], every
    [max_rank] and every [cutoff], [colpivot_qr] returns; the array [pivot]
    it returns is a permutation of [0..n-1]; [npt_find] lies between 0 and
    [min(m, n, max_rank)], or is 0 when that minimum is negative.  When
    pass [j] of the loop begins, [pivot] is a permutation of [0..n-1] and
    the rows of the working array [AA] from [j] on are the residuals of the
    remaining candidate columns of [A], the columns [pivot[j:]], after the
    eliminations against the rows of [Q] found by the passes before; the
    pass selects a position [p] among them, and the entry [j] of the array
    [pivot] that is returned is the column [c] at [p]; when [<=] is a total
    and transitive order on the norms of these rows, no remaining candidate
    has a residual of larger norm than [c], and the candidates at the
    positions from [j] to [p - 1] have residuals of strictly smaller norm.
    A pass [j] exchanges the entries [j] and [p] of [pivot]; when [<=] is a
    total and transitive order on the norms of the rows [j:] of [AA], the
    row at [p] has the largest norm among them, and every row at a position
    from [j] to [p - 1] of the working array, whose order the earlier
    exchanges have changed, has a strictly smaller norm. *)
Theorem colpivot_qr_pivoting m n (A : matrix F) max_rank cutoff :
  has_shape m n A →
  (∃ Qt R' pivot' npt,
     colpivot_qr m n A max_rank cutoff = Some (Qt, R', pivot', npt)
     ∧ pivot' ≡ₚ range n
     ∧ 0 ≤ npt
       ≤ Z.max 0 (Z.min (Z.min m n) (default (Z.min m n) max_rank))
     ∧ ∀ (j : nat) st,
         colpivot_qr_pass cutoff
           (range (Z.min (Z.min m n) (default (Z.min m n) max_rank)))
           {| AA := transpose A; Q := zeros m m; R := zeros m n;
              pivot := range n; npt_find := 0 |} j = Some st →
         residuals_at A j st
         ∧ pivot st ≡ₚ range n
         ∧ ∃ p c,
             pivot_position (AA st) (Z.of_nat j) = Some p
             ∧ Z.of_nat j ≤ p
             ∧ pivot st !! Z.to_nat p = Some c
             ∧ pivot' !! j = Some c
             ∧ (linear_on (norm <$> drop j (AA st)) = true →
                transitive_on (norm <$> drop j (AA st)) = true →
                (∀ (i : nat) c', (j ≤ i)%nat → pivot st !! i = Some c' →
                   fleb (norm (residual (take j (Q st)) (column A c')))
                        (norm (residual (take j (Q st)) (column A c)))
                   = true)
                ∧ (∀ (i : nat) c', (j ≤ i)%nat → Z.of_nat i < p →
                     pivot st !! i = Some c' →
                     fleb (norm (residual (take j (Q st)) (column A c)))
                          (norm (residual (take j (Q st)) (column A c')))
                     = false)))
  ∧ (∀ st j r,
       0 ≤ j →
       linear_on (norm <$> drop (Z.to_nat j) (AA st)) = true →
       transitive_on (norm <$> drop (Z.to_nat j) (AA st)) = true →
       colpivot_qr_body cutoff j st = Some r →
       ∃ p row,
         pivot_position (AA st) j = Some p
         ∧ swap j p (pivot st)
           = Some (pivot match r with inl st' | inr st' => st' end)
         ∧ j ≤ p ∧ AA st !! Z.to_nat p = Some row
         ∧ (∀ i row', j ≤ i → AA st !! Z.to_nat i = Some row' →
              fleb (norm row') (norm row) = true)
         ∧ (∀ i row', j ≤ i < p → AA st !! Z.to_nat i = Some row' →
              fleb (norm row) (norm row') = false)).
Proof.
  intros HA. split.
  - unfold colpivot_qr. set (k := Z.min (Z.min m n) _).
    set (st0 := {| AA := transpose A; Q := zeros m m; R := zeros m n;
                   pivot := range n; npt_find := 0 |}).
    destruct (decide (k ≤ 0)) as [Hk|Hk].
    + unfold range at 1 3, seqZ. replace (Z.to_nat k) with 0%nat by lia.
      cbn. do 4 eexists. split; [reflexivity|]. split; [reflexivity|].
      split; [lia|]. intros j st Hp. discriminate.
    + assert (Hm : 0 < m) by lia. assert (Hn : 0 < n) by lia.
      assert (Hinv0 : qr_inv m n st0).
      { unfold qr_inv. cbn. split_and!.
        - apply has_shape_transpose; assumption.
        - apply has_shape_zeros; lia.
        - apply has_shape_zeros; lia.
        - reflexivity. }
      assert (Hres0 : residuals_at A (Z.to_nat 0) st0).
      { split; [|intros k' r Hk'; cbn in Hk'; lia].
        intros i c Hc. cbn [pivot AA Q st0] in Hc |- *.
        unfold range in Hc. apply lookup_seqZ in Hc as [-> Hi].
        rewrite Nat.min_0_r. cbn [take residual fold_left].
        unfold column. rewrite Z.add_0_l, Nat2Z.id.
        destruct (lookup_lt_is_Some_2 (transpose A) i) as [a Ea].
        { destruct (has_shape_transpose m n A HA Hm) as [Hl _]. lia. }
        rewrite Ea. reflexivity. }
      destruct (colpivot_qr_loop_inv cutoff m n (range k) st0)
        as (st' & Hloop & (_ & _ & _ & HP) & Hnpt); [exact Hinv0| |].
      { apply Forall_forall. intros j Hj. unfold range in Hj.
        apply elem_of_seqZ in Hj. lia. }
      rewrite Hloop. cbn [mbind option_bind]. do 4 eexists.
      split; [reflexivity|]. split; [exact HP|]. split.
      { unfold range in Hnpt. rewrite length_seqZ in Hnpt. cbn in Hnpt. lia. }
      intros j st Hp. unfold range in Hp, Hloop.
      destruct (colpivot_qr_pass_residuals cutoff m n A j 0 k st0 st)
        as (Hinv & Hres & Hjk & Hl); [lia..|assumption|assumption|assumption|].
      change (Z.to_nat 0 + j)%nat with j in Hres.
      split; [exact Hres|]. split; [apply Hinv|].
      rewrite Hl, Z.add_0_l in Hloop.
      rewrite seqZ_cons in Hloop by lia. cbn [colpivot_qr_loop] in Hloop.
      destruct (colpivot_qr_body_inv cutoff m n (Z.of_nat j) st Hinv)
        as (r & Er & _); [lia..|].
      rewrite Er in Hloop.
      destruct (colpivot_qr_body_pivot cutoff (Z.of_nat j) st r Er)
        as (p & Ep & Hs).
      pose proof (pivot_position_ge _ _ _ Ep) as Hjp.
      assert (pivot match r with inl st1 | inr st1 => st1 end !! j
              = pivot st !! Z.to_nat p) as Hsel.
      { rewrite (swap_lookup _ _ _ _ j Hs), Nat2Z.id.
        destruct (decide (j = Z.to_nat p)) as [->|Hne]; [reflexivity|].
        rewrite decide_True by reflexivity. reflexivity. }
      assert (is_Some (pivot st !! Z.to_nat p)) as [c Ec].
      { unfold swap in Hs. destruct (pivot st !! Z.to_nat (Z.of_nat j));
          [|discriminate].
        destruct (pivot st !! Z.to_nat p); [eauto|discriminate]. }
      exists p, c. split_and!; [exact Ep|exact Hjp|exact Ec| |].
      { rewrite <- Ec, <- Hsel. destruct r as [st1|st1].
        * injection Hloop as <-. reflexivity.
        * eapply colpivot_qr_loop_pivot_fixed; [|exact Hloop].
          apply Forall_forall. intros j' Hj'. apply elem_of_seqZ in Hj'. lia. }
      intros Hlin Htr. destruct Hres as [Hrows _].
      assert (Hcand : ∀ (i : nat) c', (j ≤ i)%nat → pivot st !! i = Some c' →
                AA st !! Z.to_nat (Z.of_nat i)
                = Some (residual (take j (Q st)) (column A c'))).
      { intros i c' Hi Hc'. rewrite Nat2Z.id, (Hrows i c' Hc').
        replace (i `min` j)%nat with j by lia. reflexivity. }
      rewrite <- (Nat2Z.id j) in Hlin, Htr.
      destruct (pivot_position_spec (AA st) (Z.of_nat j) p
                  ltac:(lia) Hlin Htr Ep)
        as (row & _ & Hrow & Hmax & Hfst).
      assert (row = residual (take j (Q st)) (column A c)) as ->.
      { pose proof (Hcand (Z.to_nat p) c ltac:(lia) Ec) as E.
        rewrite Z2Nat.id in E by lia. congruence. }
      split.
      * intros i c' Hi Hc'.
        apply (Hmax (Z.of_nat i)); [lia|]. apply Hcand; assumption.
      * intros i c' Hi Hip Hc'.
        apply (Hfst (Z.of_nat i)); [lia|]. apply Hcand; assumption.
  - intros st j r Hj Hl Ht Hb.
    destruct (colpivot_qr_body_pivot cutoff j st r Hb) as (p & Hp & Hs).
    destruct (pivot_position_spec (AA st) j p Hj Hl Ht Hp)
      as (row & Hjp & Hrow & Hmax & Hfst).
    exists p, row. split_and!; assumption.
Qed.

End ColPivotQRTheorem.

Lemma colpivot_qr_pivoting_witness :
  has_shape 3 3 example_B
  ∧ colpivot_qr 3 3 example_B None 1e-14%float
    = Some ([[1%float; 0%float; 0%float];
             [0%float; 1%float; 0%float];
             [0%float; 0%float; 0%float]],
            [[3%float; 0%float; 2%float];
             [0%float; 2%float; 1%float];
             [0%float; 0%float; 0%float]],
            [0; 2; 1], 2)
  ∧ colpivot_qr_pass 1e-14%float (range 3)
      {| AA := transpose example_B; Q := zeros 3 3; R := zeros 3 3;
         pivot := range 3; npt_find := 0 |} 1 = Some example_stB
  ∧ residuals_at example_B 1 example_stB
  ∧ pivot example_stB ≡ₚ range 3
  ∧ (∃ p c,
       pivot_position (AA example_stB) 1 = Some p ∧ 1 ≤ p
       ∧ pivot example_stB !! Z.to_nat p = Some c
       ∧ [0; 2; 1] !! 1%nat = Some c
       ∧ (∀ (i : nat) c', (1 ≤ i)%nat → pivot example_stB !! i = Some c' →
            fleb (norm (residual (take 1 (Q example_stB))
                          (column example_B c')))
                 (norm (residual (take 1 (Q example_stB))
                          (column example_B c)))
            = true)
       ∧ (∀ (i : nat) c', (1 ≤ i)%nat → Z.of_nat i < p →
            pivot example_stB !! i = Some c' →
            fleb (norm (residual (take 1 (Q example_stB))
                          (column example_B c)))
                 (norm (residual (take 1 (Q example_stB))
                          (column example_B c')))
            = false))
  ∧ (∃ p row,
       pivot_position (AA example_stB) 1 = Some p
       ∧ swap 1 p (pivot example_stB) = Some [0; 2; 1]
       ∧ 1 ≤ p ∧ AA example_stB !! Z.to_nat p = Some row
       ∧ (∀ i row', 1 ≤ i → AA example_stB !! Z.to_nat i = Some row' →
            fleb (norm row') (norm row) = true)
       ∧ (∀ i row', 1 ≤ i < p → AA example_stB !! Z.to_nat i = Some row' →
            fleb (norm row) (norm row') = false)).
Proof.
  assert (Hs : has_shape 3 3 example_B).
  { split; [reflexivity|repeat constructor]. }
  split; [exact Hs|]. split; [vm_compute; reflexivity|].
  assert (Hp1 : colpivot_qr_pass 1e-14%float (range 3)
                  {| AA := transpose example_B; Q := zeros 3 3;
                     R := zeros 3 3; pivot := range 3; npt_find := 0 |} 1
                = Some example_stB) by (vm_compute; reflexivity).
  split; [exact Hp1|].
  destruct (colpivot_qr_pivoting 3 3 example_B None 1e-14%float Hs)
    as [(Qt & R' & pivot' & npt & Hrun & _ & _ & Hpass) H2].
  assert (pivot' = [0; 2; 1]) as ->.
  { vm_compute in Hrun. injection Hrun as _ _ <- _. reflexivity. }
  destruct (Hpass 1%nat example_stB Hp1)
    as (Hres & Hperm & p & c & Ep & Hjp & Ec & Hc & Hmax).
  split; [exact Hres|]. split; [exact Hperm|]. split.
  { exists p, c. split_and!; [exact Ep|exact Hjp|exact Ec|exact Hc|..];
      apply Hmax; reflexivity. }
  destruct (H2 example_stB 1
              (inr {| AA := [[3%float; 0%float; 0%float];
                             [0%float; 2%float; 0%float];
                             [0%float; 0%float; 0%float]];
                      Q := [[1%float; 0%float; 0%float];
                            [0%float; 1%float; 0%float];
                            [0%float; 0%float; 0%float]];
                      R := [[3%float; 0%float; 2%float];
                            [0%float; 2%float; 1%float];
                            [0%float; 0%float; 0%float]];
                      pivot := [0; 2; 1];
                      npt_find := 2 |}))
    as (p' & row & H3); [lia|reflexivity..|].
  exists p', row. exact H3.
Defined.

(** On three orthogonal columns of norms 1, 1 and 2 the first pass moves
    the first column behind the second one, and the second pass, on a tie
    between the two, selects the second column of the input: the tie is
    broken by the order of the working array, not by the input order.
    With a negative [max_rank] no pass runs and [npt_find] is 0, which is
    more than [min(m, n, max_rank)]. *)
Lemma colpivot_qr_tie_counterexample :
  colpivot_qr_body 1e-14%float 0
    {| AA := transpose example_A; Q := zeros 3 3; R := zeros 3 3;
       pivot := range 3; npt_find := 0 |} = Some (inr example_st)
  ∧ pivot_position (AA example_st) 1 = Some 1
  ∧ ¬ input_order_tie_break example_st 1 1
  ∧ colpivot_qr 3 3 example_A None 1e-14%float
    = Some ([[0%float; 0%float; 1%float];
             [0%float; 1%float; 0%float];
             [1%float; 0%float; 0%float]],
            [[2%float; 0%float; 0%float];
             [0%float; 1%float; 0%float];
             [0%float; 0%float; 1%float]],
            [2; 1; 0], 3)
  ∧ colpivot_qr 3 3 example_A (Some (-1)) 1e-14%float
    = Some (zeros 3 3, zeros 3 3, [0; 1; 2], 0)
  ∧ ¬ 0 ≤ Z.min (Z.min 3 3) (-1).
Proof.
  split; [reflexivity|]. split; [reflexivity|].
  split; [|split; [reflexivity|split; [reflexivity|lia]]].
  intros Hb.
  specialize (Hb 2 [0%float; 1%float; 0%float] [1%float; 0%float; 0%float]
                1 0).
  assert (1 ≤ 0); [|lia].
  apply Hb; [lia|reflexivity..].
Qed.

(** ** Part III: further properties of the code *)

(** *** [_permutation] is its own inverse *)

(** For a grid that an int32 array can index, the array that [_permutation]
    returns sends every position to a position that it sends back: it maps
    the grid point [(ix, iy, iz)] to [(-ix - shift) mod n], and applying it
    twice restores the order. *)
Theorem permutation_involution nx ny nz shift_x shift_y shift_z :
  1 ≤ nx → 1 ≤ ny → 1 ≤ nz → nx * ny * nz ≤ 2 ^ 31 →
  ∃ res,
    _permutation nx ny nz shift_x shift_y shift_z = Some res ∧
    (∀ p, p ∈ cells (nx, ny, nz) →
       res !! Z.to_nat (ravel (nx, ny, nz) p)
       = Some (ravel (nx, ny, nz)
                 (cell_reflect (nx, ny, nz) (shift_x, shift_y, shift_z) p))) ∧
    (∀ i, 0 ≤ i < nx * ny * nz →
       ∃ k, res !! Z.to_nat i = Some k ∧ 0 ≤ k < nx * ny * nz
            ∧ res !! Z.to_nat k = Some i).
Proof.
  intros Hx Hy Hz Hfit.
  destruct (_permutation_run nx ny nz shift_x shift_y shift_z Hx Hy Hz)
    as (res & Hrun & Hlen & Hres).
  exists res. split; [exact Hrun|].
  set (Ls := (nx, ny, nz)) in *. set (s := (shift_x, shift_y, shift_z)) in *.
  assert (cells Ls ≠ []) as Hne.
  { intros E. assert ((0, 0, 0) ∈ cells Ls) as Hin
      by (apply elem_of_cells; simpl; lia).
    rewrite E in Hin. inversion Hin. }
  assert (∀ p, p ∈ cells Ls →
    res !! Z.to_nat (ravel Ls p) = Some (ravel Ls (cell_reflect Ls s p)))
    as Hfwd.
  { intros p Hp. pose proof (cell_reflect_in Ls s p Hp) as Hq.
    specialize (Hres _ Hq). rewrite cell_reflect_invol in Hres by exact Hp.
    rewrite Hres. f_equal. apply int32_small.
    pose proof (ravel_bounds Ls _ Hq) as Hb. cbn [np_prod Ls] in Hb. lia. }
  split; [exact Hfwd|].
  intros i Hi.
  destruct (ravel_surj Ls i) as (c & Hc & Ec);
    [cbn [np_prod Ls]; lia|exact Hne|].
  pose proof (cell_reflect_in Ls s c Hc) as Hq.
  exists (ravel Ls (cell_reflect Ls s c)). split; [|split].
  - rewrite <- Ec. apply Hfwd. exact Hc.
  - pose proof (ravel_bounds Ls _ Hq) as Hb. cbn [np_prod Ls] in Hb. lia.
  - rewrite (Hfwd _ Hq), cell_reflect_invol by exact Hc. rewrite Ec.
    reflexivity.
Qed.

Lemma permutation_involution_witness :
  ∃ res,
    _permutation 2 1 3 0 1 1 = Some res ∧
    (∀ p, p ∈ cells (2, 1, 3) →
       res !! Z.to_nat (ravel (2, 1, 3) p)
       = Some (ravel (2, 1, 3) (cell_reflect (2, 1, 3) (0, 1, 1) p))) ∧
    (∀ i, 0 ≤ i < 2 * 1 * 3 →
       ∃ k, res !! Z.to_nat i = Some k ∧ 0 ≤ k < 2 * 1 * 3
            ∧ res !! Z.to_nat k = Some i).
Proof. apply (permutation_involution 2 1 3 0 1 1); lia. Defined.

(** *** Translation of grid points *)

Lemma fold_left_bind {A B S : Type} (f : S → B → S) (g : A → list B)
    (l : list A) (s : S) :
  fold_left f (l ≫= g) s = fold_left (λ s x, fold_left f (g x) s) l s.
Proof.
  revert s. induction l as [|x l IH]; intros s; [reflexivity|].
  change ((x :: l) ≫= g) with (g x ++ (l ≫= g)).
  rewrite fold_left_app. cbn [fold_left]. apply IH.
Qed.

Lemma fold_left_ext {A S : Type} (f g : S → A → S) (l : list A) (s : S) :
  (∀ s x, f s x = g s x) → fold_left f l s = fold_left g l s.
Proof.
  intros Hfg. revert s. induction l as [|x l IH]; intros s; [reflexivity|].
  cbn [fold_left]. rewrite Hfg. apply IH.
Qed.

Lemma loop_cells_flat {S : Type} Ls (body : triple → S → S) (s : S) :
  loop_cells Ls body s = fold_left (λ s c, body c s) (cells Ls) s.
Proof.
  destruct Ls as [[l0 l1] l2]. unfold loop_cells, cells.
  rewrite fold_left_bind. apply fold_left_ext. intros s1 i.
  rewrite fold_left_bind. apply fold_left_ext. intros s2 j.
  rewrite fold_left_bind. apply fold_left_ext. intros s3 k. reflexivity.
Qed.

Lemma fold_left_app_bind {A B : Type} (f : A → list B) (l : list A)
    (init : list B) :
  fold_left (λ acc x, acc ++ f x) l init = init ++ (l ≫= f).
Proof.
  revert init. induction l as [|x l IH]; intros init.
  - cbn. rewrite app_nil_r. reflexivity.
  - cbn [fold_left]. rewrite IH.
    change ((x :: l) ≫= f) with (f x ++ (l ≫= f)).
    rewrite app_assoc. reflexivity.
Qed.

Lemma fmap_bind_ext {A B C : Type} (f : B → C) (g : A → list B)
    (h : A → list C) (l : list A) :
  (∀ x, x ∈ l → f <$> g x = h x) → f <$> (l ≫= g) = l ≫= h.
Proof.
  induction l as [|x l IH]; intros Hx; [reflexivity|].
  change ((x :: l) ≫= g) with (g x ++ (l ≫= g)).
  change ((x :: l) ≫= h) with (h x ++ (l ≫= h)).
  rewrite fmap_app, Hx by (apply elem_of_cons; auto). f_equal.
  apply IH. intros y Hy. apply Hx, elem_of_cons; auto.
Qed.

Lemma bind_ext_in {A B : Type} (g h : A → list B) (l : list A) :
  (∀ x, x ∈ l → g x = h x) → l ≫= g = l ≫= h.
Proof.
  intros Hx. rewrite <- (list_fmap_id (l ≫= g)).
  apply fmap_bind_ext. intros x Hin. rewrite list_fmap_id. auto.
Qed.

Lemma bind_Permutation_ext {A B : Type} (g h : A → list B) (l : list A) :
  (∀ x, g x ≡ₚ h x) → l ≫= g ≡ₚ l ≫= h.
Proof.
  intros Hx. induction l as [|x l IH]; [reflexivity|].
  change ((x :: l) ≫= g) with (g x ++ (l ≫= g)).
  change ((x :: l) ≫= h) with (h x ++ (l ≫= h)).
  rewrite (Hx x), IH. reflexivity.
Qed.

Lemma NoDup_cells Ls : NoDup (cells Ls).
Proof.
  apply NoDup_alt. intros i j x Hi Hj.
  pose proof (take_drop_middle _ _ _ Hi) as Ei.
  pose proof (take_drop_middle _ _ _ Hj) as Ej.
  symmetry in Ei, Ej.
  apply cells_prefix_length in Ei, Ej.
  rewrite length_take in Ei, Ej.
  apply lookup_lt_Some in Hi, Hj. lia.
Qed.

Section BoxShift.
Variables (mp0 mp1 mp2 k0 k1 k2 : Z).
Hypothesis (Hmp0 : 0 < mp0) (Hmp1 : 0 < mp1) (Hmp2 : 0 < mp2).
Hypothesis (Hk0 : 0 < k0) (Hk1 : 0 < k1) (Hk2 : 0 < k2).

Let meshPrim : triple := (mp0, mp1, mp2).
Let kmesh : triple := (k0, k1, k2).
Let mesh : triple := (mp0 * k0, mp1 * k1, mp2 * k2).

Lemma translated_cell_in x y z bx by_ bz :
  (x, y, z) ∈ cells meshPrim → (bx, by_, bz) ∈ cells kmesh →
  (x + bx * mp0, y + by_ * mp1, z + bz * mp2) ∈ cells mesh.
Proof.
  intros Hp Hb. apply elem_of_cells in Hp, Hb. apply elem_of_cells.
  cbn [meshPrim kmesh mesh fst snd] in *.
  assert (bx * mp0 ≤ (k0 - 1) * mp0)
    by (apply Z.mul_le_mono_nonneg_r; lia).
  assert (by_ * mp1 ≤ (k1 - 1) * mp1)
    by (apply Z.mul_le_mono_nonneg_r; lia).
  assert (bz * mp2 ≤ (k2 - 1) * mp2)
    by (apply Z.mul_le_mono_nonneg_r; lia).
  assert (0 ≤ bx * mp0) by (apply Z.mul_nonneg_nonneg; lia).
  assert (0 ≤ by_ * mp1) by (apply Z.mul_nonneg_nonneg; lia).
  assert (0 ≤ bz * mp2) by (apply Z.mul_nonneg_nonneg; lia).
  lia.
Qed.

Lemma translation_image_bounds p b :
  p ∈ cells meshPrim → b ∈ cells kmesh →
  0 ≤ translation_image meshPrim kmesh p b < np_prod mesh.
Proof.
  destruct p as [[x y] z], b as [[bx by_] bz]. intros Hp Hb.
  apply (ravel_bounds mesh (_, _, _)). apply translated_cell_in; assumption.
Qed.

Lemma ravel_box_shift p b :
  ravel mesh p + box_shift kmesh mesh b = translation_image meshPrim kmesh p b.
Proof.
  destruct p as [[x y] z], b as [[bx by_] bz].
  unfold box_shift, translation_image, ravel.
  cbn [meshPrim kmesh mesh]. rewrite !Z.div_mul by lia. ring.
Qed.

Lemma box_shift_bounds b :
  b ∈ cells kmesh → 0 ≤ box_shift kmesh mesh b < np_prod mesh.
Proof.
  intros Hb.
  assert (Hp : (0, 0, 0) ∈ cells meshPrim).
  { apply elem_of_cells. cbn. lia. }
  pose proof (translation_image_bounds _ _ Hp Hb) as Hi.
  rewrite <- ravel_box_shift in Hi. cbn [ravel mesh] in Hi. lia.
Qed.

Lemma translation_image_inj p b p' b' :
  p ∈ cells meshPrim → b ∈ cells kmesh →
  p' ∈ cells meshPrim → b' ∈ cells kmesh →
  translation_image meshPrim kmesh p b = translation_image meshPrim kmesh p' b' →
  p = p' ∧ b = b'.
Proof.
  destruct p as [[x y] z], b as [[bx by_] bz].
  destruct p' as [[x' y'] z'], b' as [[bx' by_'] bz'].
  intros Hp Hb Hp' Hb' E. unfold translation_image in E.
  apply (ravel_inj mesh) in E; [|apply translated_cell_in; assumption..].
  injection E as E0 E1 E2.
  apply elem_of_cells in Hp, Hp'. cbn [meshPrim fst snd] in Hp, Hp'.
  destruct (mixed_radix_unique mp0 bx bx' x x') as [-> ->]; [lia..|].
  destruct (mixed_radix_unique mp1 by_ by_' y y') as [-> ->]; [lia..|].
  destruct (mixed_radix_unique mp2 bz bz' z z') as [-> ->]; [lia..|].
  split; reflexivity.
Qed.

Lemma translation_image_surj g :
  0 ≤ g < np_prod mesh →
  ∃ p b, p ∈ cells meshPrim ∧ b ∈ cells kmesh
         ∧ translation_image meshPrim kmesh p b = g.
Proof.
  intros Hg.
  assert (Hne : cells mesh ≠ []).
  { intros E. assert (Hin : (0, 0, 0) ∈ cells mesh).
    { apply elem_of_cells. cbn. nia. }
    rewrite E in Hin. inversion Hin. }
  destruct (ravel_surj mesh g Hg Hne) as ([[X Y] Z'] & Hc & <-).
  apply elem_of_cells in Hc. cbn [mesh fst snd] in Hc.
  exists (X mod mp0, Y mod mp1, Z' mod mp2), (X / mp0, Y / mp1, Z' / mp2).
  split; [|split].
  - apply elem_of_cells. cbn.
    repeat split; apply Z.mod_pos_bound; lia.
  - apply elem_of_cells. cbn.
    repeat split;
      try (apply Z.div_pos; lia);
      apply Z.div_lt_upper_bound; lia.
  - unfold translation_image. cbn [meshPrim kmesh]. f_equal.
    rewrite (Z.div_mod X mp0) at 3 by lia.
    rewrite (Z.div_mod Y mp1) at 3 by lia.
    rewrite (Z.div_mod Z' mp2) at 3 by lia.
    f_equal; [f_equal|]; lia.
Qed.

End BoxShift.

Section ExpandFacts.
Variables (mp0 mp1 mp2 k0 k1 k2 : Z).
Hypothesis (Hmp0 : 0 < mp0) (Hmp1 : 0 < mp1) (Hmp2 : 0 < mp2).
Hypothesis (Hk0 : 0 < k0) (Hk1 : 0 < k1) (Hk2 : 0 < k2).
Hypothesis (Hfit : (mp0 * k0) * (mp1 * k1) * (mp2 * k2) ≤ 2 ^ 31).

Let meshPrim : triple := (mp0, mp1, mp2).
Let kmesh : triple := (k0, k1, k2).
Let mesh : triple := (mp0 * k0, mp1 * k1, mp2 * k2).

Lemma int32_translation_image p b :
  p ∈ cells meshPrim → b ∈ cells kmesh →
  int32 (ravel mesh p + box_shift kmesh mesh b)
  = translation_image meshPrim kmesh p b.
Proof.
  intros Hp Hb. subst meshPrim kmesh mesh.
  rewrite ravel_box_shift by assumption. apply int32_small.
  assert (Hi : 0 ≤ translation_image (mp0, mp1, mp2) (k0, k1, k2) p b
               < np_prod (mp0 * k0, mp1 * k1, mp2 * k2))
    by (apply translation_image_bounds; assumption).
  cbn [np_prod] in Hi. lia.
Qed.

Lemma superlist_translation (ps : list triple) :
  Forall (λ p, p ∈ cells meshPrim) ps →
  _expand_primlist_2_superlist (ravel mesh <$> ps) kmesh mesh
  = b ← cells kmesh; (λ p, translation_image meshPrim kmesh p b) <$> ps.
Proof.
  intros Hps. unfold _expand_primlist_2_superlist.
  rewrite loop_cells_flat, fold_left_app_bind. cbn [app].
  apply fmap_bind_ext. intros b Hb. rewrite <- !list_fmap_compose.
  apply Forall_fmap_ext_1. eapply Forall_impl; [exact Hps|].
  intros p Hp. cbn. apply int32_translation_image; assumption.
Qed.

Lemma translation_images_Permutation :
  (b ← cells kmesh;
   (λ p, translation_image meshPrim kmesh p b) <$> cells meshPrim)
  ≡ₚ range (np_prod mesh).
Proof.
  apply NoDup_Permutation.
  - apply NoDup_bind; [| |apply NoDup_cells].
    + intros b b' g Hb Hb' Hg Hg'.
      apply list_elem_of_fmap in Hg as (p & -> & Hp).
      apply list_elem_of_fmap in Hg' as (p' & E & Hp').
      subst meshPrim kmesh.
      assert (p = p' ∧ b = b') as [_ Eb]; [|exact Eb].
      eapply (translation_image_inj mp0 mp1 mp2 k0 k1 k2); eassumption.
    + intros b Hb. apply NoDup_fmap_2_strong; [|apply NoDup_cells].
      intros p p' Hp Hp' E. subst meshPrim kmesh.
      assert (p = p' ∧ b = b) as [Ep _]; [|exact Ep].
      eapply (translation_image_inj mp0 mp1 mp2 k0 k1 k2); eassumption.
  - apply NoDup_seqZ.
  - intros g. unfold range. rewrite elem_of_seqZ. split.
    + intros Hg. apply list_elem_of_bind in Hg as (b & Hg & Hb).
      apply list_elem_of_fmap in Hg as (p & -> & Hp).
      assert (0 ≤ translation_image (mp0, mp1, mp2) (k0, k1, k2) p b
              < np_prod (mp0 * k0, mp1 * k1, mp2 * k2))
        by (apply translation_image_bounds; assumption).
      subst meshPrim kmesh mesh. cbn [np_prod] in *. lia.
    + intros Hg.
      assert (∃ p b, p ∈ cells (mp0, mp1, mp2) ∧ b ∈ cells (k0, k1, k2)
                ∧ translation_image (mp0, mp1, mp2) (k0, k1, k2) p b = g)
        as (p & b & Hp & Hb & <-)
        by (apply translation_image_surj;
            assumption
            || (subst meshPrim kmesh mesh; cbn [np_prod] in *; lia)).
      apply list_elem_of_bind. exists b. split; [|exact Hb].
      apply list_elem_of_fmap. exists p. split; [reflexivity|exact Hp].
Qed.

End ExpandFacts.

Lemma bind_singleton_fmap {A B : Type} (f : A → B) (l : list A) :
  (l ≫= λ x, [f x]) = f <$> l.
Proof.
  induction l as [|x l IH]; [reflexivity|].
  change ((x :: l) ≫= λ x, [f x]) with ([f x] ++ (l ≫= λ x, [f x])).
  rewrite IH. reflexivity.
Qed.

Lemma fold_left_app_mjoin {A : Type} (l : list (list A)) :
  fold_left (λ acc data, acc ++ data) l [] = mjoin l.
Proof.
  rewrite (fold_left_app_bind (λ data, data)). cbn [app].
  induction l as [|x l IH]; [reflexivity|].
  change ((x :: l) ≫= λ data, data) with (x ++ (l ≫= λ data, data)).
  rewrite IH. reflexivity.
Qed.

(** [_expand_primlist_2_superlist] on grid points of the primitive cell (on
    a mesh that is [meshPrim * kmesh] and that int32 can index): the result
    lists, box by box in the order of the loops, the translation images of
    the points in the order of [primlist]. *)
Theorem expand_primlist_2_superlist_images mp0 mp1 mp2 k0 k1 k2
    (ps : list triple) :
  0 < mp0 → 0 < mp1 → 0 < mp2 → 0 < k0 → 0 < k1 → 0 < k2 →
  (mp0 * k0) * (mp1 * k1) * (mp2 * k2) ≤ 2 ^ 31 →
  Forall (λ p, p ∈ cells (mp0, mp1, mp2)) ps →
  _expand_primlist_2_superlist
    (ravel (mp0 * k0, mp1 * k1, mp2 * k2) <$> ps)
    (k0, k1, k2) (mp0 * k0, mp1 * k1, mp2 * k2)
  = b ← cells (k0, k1, k2);
    (λ p, translation_image (mp0, mp1, mp2) (k0, k1, k2) p b) <$> ps.
Proof.
  intros H0 H1 H2 H3 H4 H5 Hfit Hps. unfold _expand_primlist_2_superlist.
  rewrite loop_cells_flat, fold_left_app_bind. cbn [app].
  apply fmap_bind_ext. intros b Hb. rewrite <- !list_fmap_compose.
  apply Forall_fmap_ext_1. eapply Forall_impl; [exact Hps|].
  intros p Hp. unfold compose. cbv beta.
  apply int32_translation_image; assumption.
Qed.

Lemma expand_primlist_2_superlist_images_witness :
  _expand_primlist_2_superlist
    (ravel (1 * 1, 1 * 1, 2 * 2) <$> [(0, 0, 1); (0, 0, 0)])
    (1, 1, 2) (1 * 1, 1 * 1, 2 * 2)
  = b ← cells (1, 1, 2);
    (λ p, translation_image (1, 1, 2) (1, 1, 2) p b)
      <$> [(0, 0, 1); (0, 0, 0)].
Proof.
  apply (expand_primlist_2_superlist_images 1 1 2 1 1 2); try lia.
  repeat constructor; apply elem_of_cells; simpl; lia.
Defined.

(** [_get_grid_ordering_k]: when the arrays of [input] together hold every
    grid point of the primitive cell once, the ordering returned holds
    every grid point of the supercell once; an [input] that is not a list
    raises NotImplementedError. *)
Theorem get_grid_ordering_k_permutation mp0 mp1 mp2 k0 k1 k2
    (input : list (list Z)) :
  0 < mp0 → 0 < mp1 → 0 < mp2 → 0 < k0 → 0 < k1 → 0 < k2 →
  (mp0 * k0) * (mp1 * k1) * (mp2 * k2) ≤ 2 ^ 31 →
  mjoin input
    ≡ₚ ravel (mp0 * k0, mp1 * k1, mp2 * k2) <$> cells (mp0, mp1, mp2) →
  (∃ res,
     _get_grid_ordering_k (Ordering_list input) (k0, k1, k2)
       (mp0 * k0, mp1 * k1, mp2 * k2) = inr res
     ∧ res ≡ₚ range ((mp0 * k0) * (mp1 * k1) * (mp2 * k2)))
  ∧ _get_grid_ordering_k Ordering_other (k0, k1, k2)
      (mp0 * k0, mp1 * k1, mp2 * k2) = inl NotImplementedError.
Proof.
  intros H0 H1 H2 H3 H4 H5 Hfit Hin. split; [|reflexivity].
  eexists. split; [reflexivity|].
  rewrite fold_left_app_mjoin.
  etrans; [|apply (translation_images_Permutation mp0 mp1 mp2 k0 k1 k2);
            assumption].
  rewrite <- (superlist_translation mp0 mp1 mp2 k0 k1 k2) by
    (assumption || (apply Forall_forall; auto)).
  unfold _expand_primlist_2_superlist. apply fmap_Permutation.
  rewrite !loop_cells_flat, !fold_left_app_bind. cbn [app].
  apply bind_Permutation_ext. intros b. apply fmap_Permutation. exact Hin.
Qed.

Lemma get_grid_ordering_k_permutation_witness :
  (∃ res,
     _get_grid_ordering_k (Ordering_list [[1]; [0]]) (1, 1, 2)
       (1 * 1, 1 * 1, 2 * 2) = inr res
     ∧ res ≡ₚ range ((1 * 1) * (1 * 1) * (2 * 2)))
  ∧ _get_grid_ordering_k Ordering_other (1, 1, 2)
      (1 * 1, 1 * 1, 2 * 2) = inl NotImplementedError.
Proof.
  apply (get_grid_ordering_k_permutation 1 1 2 1 1 2); try lia.
  vm_compute. apply perm_swap.
Defined.

(** [_expand_partition_prim] on a partition of the primitive cell (same
    conditions on the mesh): the partition of the supercell lists, box by
    box in the order of the loops, for each atom of the primitive cell the
    translation images of its grid points. *)
Theorem expand_partition_prim_images mp0 mp1 mp2 k0 k1 k2
    (pss : list (list triple)) :
  0 < mp0 → 0 < mp1 → 0 < mp2 → 0 < k0 → 0 < k1 → 0 < k2 →
  (mp0 * k0) * (mp1 * k1) * (mp2 * k2) ≤ 2 ^ 31 →
  Forall (Forall (λ p, p ∈ cells (mp0, mp1, mp2))) pss →
  _expand_partition_prim
    ((λ ps : list triple, ravel (mp0 * k0, mp1 * k1, mp2 * k2) <$> ps)
       <$> pss)
    (k0, k1, k2) (mp0 * k0, mp1 * k1, mp2 * k2)
  = b ← cells (k0, k1, k2);
    (λ ps : list triple,
       (λ p, translation_image (mp0, mp1, mp2) (k0, k1, k2) p b) <$> ps)
      <$> pss.
Proof.
  intros H0 H1 H2 H3 H4 H5 Hfit Hpss. unfold _expand_partition_prim.
  rewrite loop_cells_flat.
  rewrite (fold_left_ext _
             (λ acc b, acc ++ (add_scalar
                                 (box_shift (k0, k1, k2)
                                    (mp0 * k0, mp1 * k1, mp2 * k2) b)
                               <$> ((λ ps : list triple,
                                       ravel (mp0 * k0, mp1 * k1, mp2 * k2)
                                         <$> ps) <$> pss)))).
  2:{ intros acc b.
      rewrite (fold_left_app_bind (λ data, [add_scalar _ data])).
      rewrite bind_singleton_fmap. reflexivity. }
  rewrite fold_left_app_bind. cbn [app].
  apply bind_ext_in. intros b Hb. rewrite <- list_fmap_compose.
  apply Forall_fmap_ext_1. eapply Forall_impl; [exact Hpss|].
  intros ps Hps. unfold compose. cbv beta. unfold add_scalar.
  assert (Hs : 0 ≤ box_shift (k0, k1, k2) (mp0 * k0, mp1 * k1, mp2 * k2) b
               < np_prod (mp0 * k0, mp1 * k1, mp2 * k2))
    by (apply box_shift_bounds; assumption).
  cbn [np_prod] in Hs. rewrite decide_True by lia.
  rewrite <- list_fmap_compose.
  apply Forall_fmap_ext_1. eapply Forall_impl; [exact Hps|].
  intros p Hp. unfold compose. cbv beta.
  apply int32_translation_image; assumption.
Qed.

Lemma expand_partition_prim_images_witness :
  _expand_partition_prim
    ((λ ps : list triple, ravel (1 * 1, 1 * 1, 2 * 2) <$> ps)
       <$> [[(0, 0, 1)]; [(0, 0, 0)]])
    (1, 1, 2) (1 * 1, 1 * 1, 2 * 2)
  = b ← cells (1, 1, 2);
    (λ ps : list triple,
       (λ p, translation_image (1, 1, 2) (1, 1, 2) p b) <$> ps)
      <$> [[(0, 0, 1)]; [(0, 0, 0)]].
Proof.
  apply (expand_partition_prim_images 1 1 2 1 1 2); try lia.
  repeat constructor; apply elem_of_cells; simpl; lia.
Defined.

(** *** Translation of orbitals and atoms *)

Lemma py_index_nonneg {A : Type} (l : list A) i :
  0 ≤ i → py_index l i = l !! Z.to_nat i.
Proof. intros Hi. unfold py_index. rewrite decide_True by exact Hi. done. Qed.

Lemma py_assign_nonneg {A : Type} (l : list A) i x :
  0 ≤ i < Z.of_nat (length l) →
  py_assign l i x = Some (<[Z.to_nat i := x]> l).
Proof. intros Hi. unfold py_assign. rewrite !decide_True by lia. done. Qed.

(** The box and the position in the box of an index
    [box_id * n + id] are recovered by [//] and [%]. *)
Lemma div_mod_unravel n q r :
  0 ≤ r < n → (q * n + r) / n = q ∧ (q * n + r) mod n = r.
Proof.
  intros Hr. split.
  - symmetry. apply (Z.div_unique_pos _ _ _ r); lia.
  - symmetry. apply (Z.mod_unique_pos _ _ q r); lia.
Qed.

Lemma unravel_ravel k0 k1 k2 bx by_ bz :
  (bx, by_, bz) ∈ cells (k0, k1, k2) →
  let box_id := ravel (k0, k1, k2) (bx, by_, bz) in
  box_id / (k1 * k2) = bx ∧ (box_id mod (k1 * k2)) / k2 = by_
  ∧ box_id mod k2 = bz.
Proof.
  intros Hb. apply elem_of_cells in Hb. cbn [fst snd] in Hb. cbn [ravel].
  assert (0 ≤ by_ * k2 + bz < k1 * k2) as Hyz.
  { assert (by_ * k2 ≤ (k1 - 1) * k2)
      by (apply Z.mul_le_mono_nonneg_r; lia).
    assert (0 ≤ by_ * k2) by (apply Z.mul_nonneg_nonneg; lia). lia. }
  replace (bx * k1 * k2 + by_ * k2 + bz)
    with (bx * (k1 * k2) + (by_ * k2 + bz)) by ring.
  destruct (div_mod_unravel (k1 * k2) bx (by_ * k2 + bz) Hyz) as [E1 E2].
  rewrite E1, E2. split; [reflexivity|].
  destruct (div_mod_unravel k2 by_ bz) as [E3 E4]; [lia|].
  rewrite E3. split; [reflexivity|].
  replace (bx * (k1 * k2) + (by_ * k2 + bz))
    with ((bx * k1 + by_) * k2 + bz) by ring.
  apply (div_mod_unravel k2 (bx * k1 + by_) bz). lia.
Qed.

Section QuadKFacts.
Context {H : Type} (ao_involved : H → list Z).
Implicit Types (self : quad_k.t H) (holder : H).

(** An orbital of the box [b] goes to the same orbital of the box
    [(box + b) mod kmesh]. *)
Lemma ao_permutated_lookup k0 k1 k2 nao_prim box holder (t : nat) b a :
  0 < k0 → 0 < k1 → 0 < k2 → 0 < nao_prim →
  k0 * k1 * k2 * nao_prim ≤ 2 ^ 31 →
  b ∈ cells (k0, k1, k2) → 0 ≤ a < nao_prim →
  ao_involved holder !! t = Some (ravel (k0, k1, k2) b * nao_prim + a) →
  ao_permutated ao_involved (k0, k1, k2) nao_prim box holder !! t
  = Some (ravel (k0, k1, k2) (cell_add (k0, k1, k2) box b) * nao_prim + a).
Proof.
  intros Hk0 Hk1 Hk2 Hn Hfit Hb Ha Ht.
  destruct box as [[box_x box_y] box_z], b as [[bx by_] bz].
  unfold ao_permutated. rewrite !list_lookup_fmap, Ht. cbn [fmap option_fmap option_map].
  f_equal.
  destruct (div_mod_unravel nao_prim (ravel (k0, k1, k2) (bx, by_, bz)) a Ha)
    as [E1 E2].
  rewrite E1, E2.
  destruct (unravel_ravel k0 k1 k2 bx by_ bz Hb) as (E3 & E4 & E5).
  cbv zeta in E3, E4, E5. rewrite E3, E4, E5.
  assert (Hc : cell_add (k0, k1, k2) (bx, by_, bz) (box_x, box_y, box_z)
               ∈ cells (k0, k1, k2)) by (apply cell_add_in; exact Hb).
  pose proof (ravel_bounds _ _ Hc) as Hr. cbn [np_prod] in Hr.
  unfold cell_add in Hr |- *. cbn [ravel] in Hr |- *.
  rewrite (Z.add_comm bx box_x), (Z.add_comm by_ box_y),
    (Z.add_comm bz box_z) in Hr.
  set (X := (box_x + bx) mod k0) in *. set (Y := (box_y + by_) mod k1) in *.
  set (Z' := (box_z + bz) mod k2) in *.
  replace (X * k1 * k2 * nao_prim + Y * k2 * nao_prim + Z' * nao_prim + a)
    with ((X * k1 * k2 + Y * k2 + Z') * nao_prim + a) by ring.
  apply int32_small.
  assert ((X * k1 * k2 + Y * k2 + Z' + 1) * nao_prim
          ≤ k0 * k1 * k2 * nao_prim)
    by (apply Z.mul_le_mono_nonneg_r; lia).
  assert (0 ≤ (X * k1 * k2 + Y * k2 + Z') * nao_prim)
    by (apply Z.mul_nonneg_nonneg; lia).
  lia.
Qed.

End QuadKFacts.

Section ColumnPermutation.
Context {H : Type} (ao_involved : H → list Z).
Implicit Types (self : quad_k.t H) (holders : list H).

(** A call with a slot that is filled returns the slot, whatever the
    holders are, and leaves the attribute as it is. *)
Lemma get_permutation_column_cached k0 k1 k2 nao_prim holders c box perm :
  box ∈ cells (k0, k1, k2) →
  c !! Z.to_nat (ravel (k0, k1, k2) box) = Some (Some perm) →
  get_permutation_column ao_involved (k0, k1, k2) nao_prim holders (Some c)
    box None
  = (Some c, inr (Permutations perm)).
Proof.
  intros Hb Hc. pose proof (ravel_bounds _ _ Hb) as Hr.
  destruct box as [[box_x box_y] box_z].
  apply elem_of_cells in Hb. cbn [fst snd] in Hb.
  unfold get_permutation_column. cbv zeta.
  rewrite !bool_decide_eq_true_2 by lia. cbn [negb].
  cbn [ravel] in Hc, Hr.
  rewrite !py_index_nonneg by lia. rewrite Hc.
  rewrite !py_index_nonneg by lia. rewrite Hc. reflexivity.
Qed.

Lemma get_permutation_column_run k0 k1 k2 nao_prim holders cache box :
  0 < k0 → 0 < k1 → 0 < k2 → box ∈ cells (k0, k1, k2) →
  match cache with
  | None => True
  | Some c => Z.of_nat (length c) = k0 * k1 * k2
  end →
  ∃ c' perm,
    get_permutation_column ao_involved (k0, k1, k2) nao_prim holders cache
      box None
    = (Some c', inr (Permutations perm))
    ∧ c' !! Z.to_nat (ravel (k0, k1, k2) box) = Some (Some perm)
    ∧ (match cache with
       | None => True
       | Some c => c !! Z.to_nat (ravel (k0, k1, k2) box) = Some None
       end →
       perm = ao_permutated ao_involved (k0, k1, k2) nao_prim box <$> holders).
Proof.
  intros Hk0 Hk1 Hk2 Hb Hwf. pose proof (ravel_bounds _ _ Hb) as Hr.
  set (col := match cache with
              | Some c => c
              | None => (λ _, None) <$> range (np_prod (k0, k1, k2))
              end : list (option (list (list Z)))).
  assert (Hlen : Z.of_nat (length col) = k0 * k1 * k2).
  { subst col. destruct cache as [c|]; [exact Hwf|].
    rewrite length_fmap. unfold range. rewrite length_seqZ.
    cbn [np_prod] in *. lia. }
  cbn [np_prod] in Hr.
  destruct (lookup_lt_is_Some_2 col (Z.to_nat (ravel (k0, k1, k2) box)))
    as [slot Hslot]; [lia|].
  destruct box as [[box_x box_y] box_z].
  pose proof Hb as Hb'. apply elem_of_cells in Hb'. cbn [fst snd] in Hb'.
  unfold get_permutation_column. cbv zeta.
  rewrite !bool_decide_eq_true_2 by lia. cbn [negb]. fold col.
  cbn [ravel] in Hslot, Hr |- *.
  rewrite !py_index_nonneg by lia. rewrite Hslot.
  destruct slot as [perm|].
  - rewrite !py_index_nonneg by lia. rewrite Hslot. exists col, perm. split; [reflexivity|].
    split; [exact Hslot|]. intros Hempty. exfalso.
    subst col. destruct cache as [c|].
    + rewrite Hempty in Hslot. discriminate.
    + rewrite list_lookup_fmap in Hslot.
      destruct (range _ !! _); discriminate.
  - rewrite py_assign_nonneg by lia. rewrite py_index_nonneg by lia.
    rewrite list_lookup_insert_eq by lia.
    eexists _, _. split; [reflexivity|]. split; [|reflexivity].
    apply list_lookup_insert_eq. lia.
Qed.

End ColumnPermutation.

Section ColumnPermutationTheorems.
Context {H : Type} (ao_involved : H → list Z).
Implicit Types (self : quad_k.t H) (holders : list H).

Lemma ao_permutated_translates k0 k1 k2 nao_prim box holders :
  0 < k0 → 0 < k1 → 0 < k2 → 0 < nao_prim →
  k0 * k1 * k2 * nao_prim ≤ 2 ^ 31 →
  translates_orbitals ao_involved (k0, k1, k2) nao_prim box holders
    (ao_permutated ao_involved (k0, k1, k2) nao_prim box <$> holders).
Proof.
  intros Hk0 Hk1 Hk2 Hn Hfit. split; [apply length_fmap|].
  intros h holder t b a Hh Hb Ha Ht. eexists. split.
  - rewrite list_lookup_fmap, Hh. reflexivity.
  - apply ao_permutated_lookup; assumption.
Qed.

(** [_get_permutation_column_aoR] and [_get_permutation_column_aoRg], for
    a box of the lattice whose slot has not been filled (the attribute does
    not exist yet, or holds [None] there), on a lattice with positive
    counts and a number of orbitals that int32 can hold: the arrays
    returned send every orbital listed in [ao_involved] of a holder to the
    same orbital of the box translated by [box]. *)
Theorem get_permutation_column_translation self k0 k1 k2 box :
  quad_k.kmesh self = (k0, k1, k2) →
  0 < k0 → 0 < k1 → 0 < k2 → 0 < quad_k.nao_prim self →
  k0 * k1 * k2 * quad_k.nao_prim self ≤ 2 ^ 31 →
  box ∈ cells (k0, k1, k2) →
  cache_shape (quad_k.aoR_col_permutation self) (k0 * k1 * k2) →
  cache_shape (quad_k.aoRg_col_permutation self) (k0 * k1 * k2) →
  slot_free (quad_k.aoR_col_permutation self) (ravel (k0, k1, k2) box) →
  slot_free (quad_k.aoRg_col_permutation self) (ravel (k0, k1, k2) box) →
  (∃ self' perm,
     _get_permutation_column_aoR ao_involved self box None
       = (self', inr (Permutations perm))
     ∧ translates_orbitals ao_involved (k0, k1, k2) (quad_k.nao_prim self)
         box (quad_k.aoR self) perm)
  ∧ (∃ self' perm,
       _get_permutation_column_aoRg ao_involved self box None
         = (self', inr (Permutations perm))
       ∧ translates_orbitals ao_involved (k0, k1, k2) (quad_k.nao_prim self)
           box (quad_k.aoRg self) perm).
Proof.
  intros Hk Hk0 Hk1 Hk2 Hn Hfit Hb Hs Hsg Hf Hfg. split.
  - unfold _get_permutation_column_aoR. rewrite Hk.
    destruct (get_permutation_column_run ao_involved k0 k1 k2
                (quad_k.nao_prim self) (quad_k.aoR self)
                (quad_k.aoR_col_permutation self) box)
      as (c' & perm & -> & _ & Hperm); [assumption..|].
    eexists _, perm. split; [reflexivity|]. rewrite Hperm by exact Hf.
    apply ao_permutated_translates; assumption.
  - unfold _get_permutation_column_aoRg. rewrite Hk.
    destruct (get_permutation_column_run ao_involved k0 k1 k2
                (quad_k.nao_prim self) (quad_k.aoRg self)
                (quad_k.aoRg_col_permutation self) box)
      as (c' & perm & -> & _ & Hperm); [assumption..|].
    eexists _, perm. split; [reflexivity|]. rewrite Hperm by exact Hfg.
    apply ao_permutated_translates; assumption.
Qed.

(** The permutations are cached by box: once a call for a box of the
    lattice has returned, every later call for that box returns the same
    arrays and leaves the object as it is, also when the holders have been
    replaced in between. *)
Theorem get_permutation_column_cache self k0 k1 k2 box :
  quad_k.kmesh self = (k0, k1, k2) →
  0 < k0 → 0 < k1 → 0 < k2 →
  box ∈ cells (k0, k1, k2) →
  cache_shape (quad_k.aoR_col_permutation self) (k0 * k1 * k2) →
  cache_shape (quad_k.aoRg_col_permutation self) (k0 * k1 * k2) →
  (∃ self' r,
     _get_permutation_column_aoR ao_involved self box None = (self', inr r)
     ∧ ∀ aoR',
         _get_permutation_column_aoR ao_involved
           (quad_k.set_aoR aoR' self') box None
         = (quad_k.set_aoR aoR' self', inr r))
  ∧ (∃ self' r,
       _get_permutation_column_aoRg ao_involved self box None = (self', inr r)
       ∧ ∀ aoRg',
           _get_permutation_column_aoRg ao_involved
             (quad_k.set_aoRg aoRg' self') box None
           = (quad_k.set_aoRg aoRg' self', inr r)).
Proof.
  intros Hk Hk0 Hk1 Hk2 Hb Hs Hsg. split.
  - unfold _get_permutation_column_aoR at 1. rewrite Hk.
    destruct (get_permutation_column_run ao_involved k0 k1 k2
                (quad_k.nao_prim self) (quad_k.aoR self)
                (quad_k.aoR_col_permutation self) box)
      as (c' & perm & -> & Hc' & _); [assumption..|].
    eexists _, _. split; [reflexivity|]. intros aoR'.
    unfold _get_permutation_column_aoR. cbn. rewrite Hk.
    rewrite (get_permutation_column_cached ao_involved k0 k1 k2 _ _ c' box perm)
      by assumption.
    reflexivity.
  - unfold _get_permutation_column_aoRg at 1. rewrite Hk.
    destruct (get_permutation_column_run ao_involved k0 k1 k2
                (quad_k.nao_prim self) (quad_k.aoRg self)
                (quad_k.aoRg_col_permutation self) box)
      as (c' & perm & -> & Hc' & _); [assumption..|].
    eexists _, _. split; [reflexivity|]. intros aoRg'.
    unfold _get_permutation_column_aoRg. cbn. rewrite Hk.
    rewrite (get_permutation_column_cached ao_involved k0 k1 k2 _ _ c' box perm)
      by assumption.
    reflexivity.
Qed.

End ColumnPermutationTheorems.

Lemma get_permutation_column_translation_witness :
  (∃ self' perm,
     _get_permutation_column_aoR id example_quad_k (0, 0, 1) None
       = (self', inr (Permutations perm))
     ∧ translates_orbitals id (1, 1, 2) (quad_k.nao_prim example_quad_k)
         (0, 0, 1) (quad_k.aoR example_quad_k) perm)
  ∧ (∃ self' perm,
       _get_permutation_column_aoRg id example_quad_k (0, 0, 1) None
         = (self', inr (Permutations perm))
       ∧ translates_orbitals id (1, 1, 2) (quad_k.nao_prim example_quad_k)
           (0, 0, 1) (quad_k.aoRg example_quad_k) perm).
Proof.
  apply (get_permutation_column_translation id example_quad_k 1 1 2 (0, 0, 1));
    try reflexivity; try (simpl; lia); try exact I.
  apply elem_of_cells; simpl; lia.
Defined.

Lemma get_permutation_column_cache_witness :
  (∃ self' r,
     _get_permutation_column_aoR id example_quad_k (0, 0, 1) None
       = (self', inr r)
     ∧ ∀ aoR',
         _get_permutation_column_aoR id (quad_k.set_aoR aoR' self')
           (0, 0, 1) None
         = (quad_k.set_aoR aoR' self', inr r))
  ∧ (∃ self' r,
       _get_permutation_column_aoRg id example_quad_k (0, 0, 1) None
         = (self', inr r)
       ∧ ∀ aoRg',
           _get_permutation_column_aoRg id (quad_k.set_aoRg aoRg' self')
             (0, 0, 1) None
           = (quad_k.set_aoRg aoRg' self', inr r)).
Proof.
  apply (get_permutation_column_cache id example_quad_k 1 1 2 (0, 0, 1));
    try reflexivity; try lia; try exact I.
  apply elem_of_cells; simpl; lia.
Defined.

(** *** Rows of translated atoms *)

Section Rows.
Context {A : Type}.
Implicit Types (l Res : list A).

Lemma for_append_range l (n : nat) a Res :
  0 ≤ a → a + Z.of_nat n ≤ Z.of_nat (length l) →
  for_ (seqZ a (Z.of_nat n)) (λ i Res, x ← py_index l i; Some (Res ++ [x])) Res
  = Some (Res ++ take n (drop (Z.to_nat a) l)).
Proof.
  revert a Res. induction n as [|n IH]; intros a Res Ha Hn.
  - cbn. rewrite app_nil_r. reflexivity.
  - rewrite seqZ_cons by lia. rewrite for_cons.
    rewrite py_index_nonneg by lia.
    destruct (lookup_lt_is_Some_2 l (Z.to_nat a)) as [x Hx]; [lia|].
    rewrite Hx. cbn [mbind option_bind].
    replace (Z.pred (Z.of_nat (S n))) with (Z.of_nat n) by lia.
    rewrite IH by lia. f_equal. rewrite <- app_assoc. f_equal.
    rewrite (drop_S _ _ _ Hx). cbn [app take]. f_equal. f_equal. f_equal.
    lia.
Qed.

(** The rows that the loops of [get_Row] collect. *)
Lemma rows_lookup (Ls : triple) (n : nat) (f : triple → nat) l c (a : nat) :
  (∀ c, (f c * n + n ≤ length l)%nat) →
  c ∈ cells Ls → (a < n)%nat →
  (cells Ls ≫= λ c, take n (drop (f c * n) l))
    !! (Z.to_nat (ravel Ls c) * n + a)%nat
  = l !! (f c * n + a)%nat.
Proof.
  intros Hf Hc Ha.
  rewrite (lookup_bind_const _ _ n).
  - rewrite (cells_lookup_ravel _ _ Hc). cbn [mbind option_bind].
    rewrite lookup_take_lt by exact Ha. rewrite lookup_drop. reflexivity.
  - intros x. rewrite length_take, length_drop. specialize (Hf x). lia.
  - exact Ha.
Qed.

End Rows.

Lemma cell_diff_in_pos Ls a b :
  0 < Ls.1.1 → 0 < Ls.1.2 → 0 < Ls.2 → cell_diff Ls a b ∈ cells Ls.
Proof.
  destruct Ls as [[l0 l1] l2], a as [[x y] z], b as [[x' y'] z'].
  cbn [fst snd]. intros H0 H1 H2. unfold cell_diff. apply elem_of_cells.
  cbn [fst snd].
  pose proof (Z.mod_pos_bound (x - x') l0).
  pose proof (Z.mod_pos_bound (y - y') l1).
  pose proof (Z.mod_pos_bound (z - z') l2). lia.
Qed.

Lemma cell_diff_Permutation Ls box :
  box ∈ cells Ls → (λ c, cell_diff Ls c box) <$> cells Ls ≡ₚ cells Ls.
Proof.
  intros Hb. apply NoDup_Permutation.
  - apply NoDup_fmap_2_strong; [|apply NoDup_cells].
    intros c c' Hc Hc' E.
    rewrite <- (cell_add_diff Ls box c Hb Hc).
    rewrite <- (cell_add_diff Ls box c' Hb Hc'). rewrite E. reflexivity.
  - apply NoDup_cells.
  - intros d. split.
    + intros Hd. apply list_elem_of_fmap in Hd as (c & -> & Hc).
      apply cell_diff_in. exact Hc.
    + intros Hd. apply list_elem_of_fmap.
      exists (cell_add Ls d box). split.
      * symmetry. apply cell_diff_add; assumption.
      * apply cell_add_in. exact Hd.
Qed.

Section RowsOfCells.
Context {A : Type}.
Variables (k0 k1 k2 : Z) (n : nat) (l : list A).
Hypothesis (Hk0 : 0 < k0) (Hk1 : 0 < k1) (Hk2 : 0 < k2).
Hypothesis (Hlen : length l = (Z.to_nat (k0 * k1 * k2) * n)%nat).

Let Ls : triple := (k0, k1, k2).

(** The position in [l] of the first atom of the box [c - box]. *)
Let start (box c : triple) : nat := Z.to_nat (ravel Ls (cell_diff Ls c box)).

Lemma start_bound box c : (start box c * n + n ≤ length l)%nat.
Proof.
  assert (Hd : cell_diff Ls c box ∈ cells Ls)
    by (apply cell_diff_in_pos; cbn; lia).
  pose proof (ravel_bounds _ _ Hd) as Hr. cbn [np_prod Ls] in Hr.
  rewrite Hlen. subst start; cbv beta.
  assert (Z.to_nat (ravel Ls (cell_diff Ls c box)) + 1
          ≤ Z.to_nat (k0 * k1 * k2))%nat by lia.
  nia.
Qed.

Lemma cells_nonempty : cells Ls ≠ [].
Proof.
  intros E. assert (Hin : (0, 0, 0) ∈ cells Ls)
    by (apply elem_of_cells; cbn; lia).
  rewrite E in Hin. inversion Hin.
Qed.

Lemma rows_zero :
  (cells Ls ≫= λ c, take n (drop (start (0, 0, 0) c * n) l)) = l.
Proof.
  apply list_eq. intros i.
  destruct (decide (i < length l)%nat) as [Hi|Hi].
  - assert (Hn : (0 < n)%nat) by (destruct n; lia).
    assert (Hq : 0 ≤ Z.of_nat (i / n) < np_prod Ls).
    { cbn [np_prod Ls]. split; [lia|].
      assert (i / n < Z.to_nat (k0 * k1 * k2))%nat; [|lia].
      apply Nat.Div0.div_lt_upper_bound. lia. }
    destruct (ravel_surj Ls _ Hq cells_nonempty) as (c & Hc & Ec).
    assert (∃ r, (r < n)%nat ∧ i = (Z.to_nat (ravel Ls c) * n + r)%nat)
      as (r & Hr & ->).
    { exists (i mod n)%nat. split; [apply Nat.mod_upper_bound; lia|].
      pose proof (Nat.div_mod_eq i n). nia. }
    rewrite (rows_lookup Ls n (start (0, 0, 0)) l c r).
    + f_equal. subst start; cbv beta.
      rewrite (cell_diff_zero Ls c Hc). reflexivity.
    + apply start_bound.
    + exact Hc.
    + exact Hr.
  - rewrite !lookup_ge_None_2; [reflexivity|lia|].
    rewrite (length_bind_const _ _ n).
    + rewrite (length_cells Ls cells_nonempty). cbn [np_prod Ls]. lia.
    + intros c. rewrite length_take, length_drop.
      pose proof (start_bound (0, 0, 0) c). lia.
Qed.

Lemma rows_Permutation box :
  box ∈ cells Ls →
  (cells Ls ≫= λ c, take n (drop (start box c * n) l)) ≡ₚ l.
Proof.
  intros Hb.
  transitivity (cells Ls ≫= λ c, take n (drop (start (0, 0, 0) c * n) l));
    [|rewrite rows_zero; reflexivity].
  transitivity (((λ c, cell_diff Ls c box) <$> cells Ls)
                  ≫= λ c, take n (drop (start (0, 0, 0) c * n) l)).
  - rewrite list_fmap_bind. apply bind_Permutation_ext. intros c.
    unfold compose. subst start; cbv beta.
    rewrite (cell_diff_zero Ls (cell_diff Ls c box))
      by (apply cell_diff_in_pos; cbn; lia).
    reflexivity.
  - rewrite (cell_diff_Permutation Ls box Hb). reflexivity.
Qed.

End RowsOfCells.

Section GetRow.
Context {H : Type}.
Implicit Types (self : quad_k.t H) (Res : list H).

Lemma mod_add_modulus a k : (a + k) mod k = a mod k.
Proof.
  replace (a + k) with (a + 1 * k) by lia. apply Z_mod_plus_full.
Qed.

Lemma get_Row_run k0 k1 k2 natmPrim (aoR1 : list H) box :
  0 < k0 → 0 < k1 → 0 < k2 → 0 ≤ natmPrim →
  box ∈ cells (k0, k1, k2) →
  Z.of_nat (length aoR1) = k0 * k1 * k2 * natmPrim →
  ∃ Res, get_Row (k0, k1, k2) natmPrim aoR1 box = inr Res
         ∧ row_translated (k0, k1, k2) natmPrim box aoR1 Res.
Proof.
  intros Hk0 Hk1 Hk2 Hn Hb Hlen.
  set (Ls := (k0, k1, k2)). set (n := Z.to_nat natmPrim).
  assert (Hlen' : length aoR1 = (Z.to_nat (k0 * k1 * k2) * n)%nat)
    by (subst n; nia).
  set (g := λ c : triple,
         take n (drop (Z.to_nat (ravel Ls (cell_diff Ls c box)) * n) aoR1)).
  assert (Hstart : ∀ c,
    (Z.to_nat (ravel Ls (cell_diff Ls c box)) * n + n ≤ length aoR1)%nat).
  { intros c. apply (start_bound k0 k1 k2 n aoR1); assumption. }
  assert (Hrows : row_translated Ls natmPrim box aoR1 (cells Ls ≫= g)).
  { split.
    - apply (rows_Permutation k0 k1 k2 n aoR1); assumption.
    - intros c a Hc Ha.
      pose proof (ravel_bounds _ _ Hc) as Hr.
      assert (Hd : cell_diff Ls c box ∈ cells Ls)
        by (apply cell_diff_in_pos; cbn; lia).
      pose proof (ravel_bounds _ _ Hd) as Hr'.
      replace (Z.to_nat (ravel Ls c * natmPrim + a))
        with (Z.to_nat (ravel Ls c) * n + Z.to_nat a)%nat by (subst n; nia).
      replace (Z.to_nat (ravel Ls (cell_diff Ls c box) * natmPrim + a))
        with (Z.to_nat (ravel Ls (cell_diff Ls c box)) * n + Z.to_nat a)%nat
        by (subst n; nia).
      apply (rows_lookup Ls n
               (λ c, Z.to_nat (ravel Ls (cell_diff Ls c box)))).
      + exact Hstart.
      + exact Hc.
      + subst n; lia. }
  destruct box as [[box_x box_y] box_z].
  pose proof Hb as Hb'. apply elem_of_cells in Hb'. cbn [fst snd] in Hb'.
  unfold get_Row. subst Ls. cbv iota beta. set (Ls := (k0, k1, k2)) in *.
  rewrite !bool_decide_eq_true_2 by lia. cbn [negb].
  destruct (bool_decide (box_x = 0) && bool_decide (box_y = 0)
            && bool_decide (box_z = 0)) eqn:Ezero.
  - apply andb_true_iff in Ezero as [Ezero Ez].
    apply andb_true_iff in Ezero as [Ex Ey].
    apply bool_decide_eq_true in Ex, Ey, Ez. subst box_x box_y box_z.
    exists aoR1. split; [reflexivity|]. split; [reflexivity|].
    intros c a Hc Ha. rewrite (cell_diff_zero Ls c Hc). reflexivity.
  - rewrite for_cells_flat.
    match goal with
    | |- context [for_ ?cs ?body ?s] =>
        destruct (for_invariant (λ done Res, Res = done ≫= g) cs body s)
          as (Res & E & ->); [| |rewrite E]
    end.
    + reflexivity.
    + intros l1 [[ix iy] iz] l2 Res1 Ecells ->. cbv beta iota zeta.
      rewrite !mod_add_modulus.
      change (((ix - box_x) mod k0) * k1 * k2 + ((iy - box_y) mod k1) * k2
              + (iz - box_z) mod k2)
        with (ravel Ls (cell_diff Ls (ix, iy, iz) (box_x, box_y, box_z))).
      set (loc_ := ravel Ls (cell_diff Ls (ix, iy, iz) (box_x, box_y, box_z))).
      assert (Hd : cell_diff Ls (ix, iy, iz) (box_x, box_y, box_z) ∈ cells Ls)
        by (apply cell_diff_in_pos; cbn; lia).
      pose proof (ravel_bounds _ _ Hd) as Hr. fold loc_ in Hr.
      cbn [np_prod Ls] in Hr.
      pose proof (Hstart (ix, iy, iz)) as Hs. fold loc_ in Hs.
      unfold range2.
      replace ((loc_ + 1) * natmPrim - loc_ * natmPrim) with (Z.of_nat n)
        by (subst n; lia).
      rewrite for_append_range by (subst n; nia).
      eexists. split; [reflexivity|].
      rewrite bind_app. f_equal.
      change ([(ix, iy, iz)] ≫= g) with (g (ix, iy, iz) ++ []).
      rewrite app_nil_r. subst g; cbv beta. fold loc_. f_equal. f_equal.
      subst n; nia.
    + exists (cells Ls ≫= g). split; [reflexivity|exact Hrows].
Qed.

(** [_get_aoR_Row] and [_get_aoRg_Row] for a box of a lattice with
    positive counts, on lists of [prod(kmesh) * natmPrim] holders: the list
    returned holds the same holders again, the atoms of every box [c] taken
    from the box [(c - box) mod kmesh]. *)
Theorem get_Row_translation self k0 k1 k2 box :
  quad_k.kmesh self = (k0, k1, k2) →
  0 < k0 → 0 < k1 → 0 < k2 → 0 ≤ quad_k.natmPrim self →
  box ∈ cells (k0, k1, k2) →
  Z.of_nat (length (quad_k.aoR1 self))
    = k0 * k1 * k2 * quad_k.natmPrim self →
  Z.of_nat (length (quad_k.aoRg1 self))
    = k0 * k1 * k2 * quad_k.natmPrim self →
  (∃ Res, _get_aoR_Row self box = inr Res
          ∧ row_translated (k0, k1, k2) (quad_k.natmPrim self) box
              (quad_k.aoR1 self) Res)
  ∧ (∃ Res, _get_aoRg_Row self box = inr Res
            ∧ row_translated (k0, k1, k2) (quad_k.natmPrim self) box
                (quad_k.aoRg1 self) Res).
Proof.
  intros Hk Hk0 Hk1 Hk2 Hn Hb Hl Hlg.
  unfold _get_aoR_Row, _get_aoRg_Row. rewrite Hk.
  split; apply get_Row_run; assumption.
Qed.

End GetRow.

Lemma get_Row_translation_witness :
  (∃ Res, _get_aoR_Row example_quad_k (0, 0, 1) = inr Res
          ∧ row_translated (1, 1, 2) (quad_k.natmPrim example_quad_k)
              (0, 0, 1) (quad_k.aoR1 example_quad_k) Res)
  ∧ (∃ Res, _get_aoRg_Row example_quad_k (0, 0, 1) = inr Res
            ∧ row_translated (1, 1, 2) (quad_k.natmPrim example_quad_k)
                (0, 0, 1) (quad_k.aoRg1 example_quad_k) Res).
Proof.
  apply (get_Row_translation example_quad_k 1 1 2 (0, 0, 1));
    try reflexivity; try (simpl; lia).
  apply elem_of_cells; simpl; lia.
Defined.

(** *** The guards of [get_jk_dm_kSym] *)

Section GetJKGuards.
Context {F : Type} `{Numeric F} `{Kernels F}.
Implicit Types (df : mydf.t F).
Local Open Scope run_scope.

(** [get_jk_dm_kSym] starts a J or K contraction only for a call that asks
    for both J and K with a single density matrix, on an object whose
    scratch buffer is allocated and that does not use robust fitting, at
    the gamma point, with a real dtype and no differing [kpts_band].  On
    an object whose scratch buffer is not allocated, a call that passes the
    assertions on its arguments raises TypeError: the buffer is requested
    with a keyword that [_allocate_jk_buffer] does not have. *)
Theorem get_jk_dm_kSym_contracts_only_when df (dm_in : dm_arg F) kpt
    kpts_band with_j with_k :
  (∀ ev, ev ∈ calls (get_jk_dm_kSym df dm_in kpt kpts_band with_j with_k) →
     is_contraction ev = true →
     with_j = true ∧ with_k = true ∧ is_Some (single_matrix dm_in)
     ∧ is_Some (mydf.jk_buffer df)
     ∧ (∀ kb, kpts_band = Some kb → kpts_differ kpt kb = false)
     ∧ gamma_point kpt = true ∧ dtype_complex = false
     ∧ mydf.with_robust_fitting df = false) ∧
  (with_j = true → with_k = true → is_Some (single_matrix dm_in) →
     mydf.jk_buffer df = None →
     get_jk_dm_kSym df dm_in kpt kpts_band with_j with_k
     = ([], inl TypeError)).
Proof.
  rewrite get_jk_dm_kSym_guards. split.
  - intros ev Hev Hc.
    destruct (single_matrix dm_in) as [dm|]; [|inversion Hev].
    destruct with_j, with_k; cbn [andb negb] in Hev; try (inversion Hev; fail).
    destruct (mydf.jk_buffer df) as [buf|]; [|inversion Hev].
    destruct kpts_band as [kb|].
    + destruct (kpts_differ kpt kb) eqn:Ekb; [inversion Hev|].
      destruct (gamma_point kpt); cbn [negb orb] in Hev; [|inversion Hev].
      destruct dtype_complex; [inversion Hev|].
      destruct (_symmetrize_dm dm (mydf.Ls df)); [|inversion Hev].
      destruct (mydf.with_robust_fitting df); [inversion Hev|].
      repeat split; eauto. intros kb' [= <-]. exact Ekb.
    + destruct (gamma_point kpt); cbn [negb orb] in Hev; [|inversion Hev].
      destruct dtype_complex; [inversion Hev|].
      destruct (_symmetrize_dm dm (mydf.Ls df)); [|inversion Hev].
      destruct (mydf.with_robust_fitting df); [inversion Hev|].
      repeat split; eauto. intros kb' [=].
  - intros -> -> [dm ->] ->. reflexivity.
Qed.

End GetJKGuards.

Lemma get_jk_dm_kSym_contracts_only_when_witness :
  get_jk_dm_kSym
    (mydf.mk (1, 1, 2) false false None 2 (1, 1, 2) 1%float 1 1
       [[1%float]; [1%float]] None None)
    (Dm2 example_dm) [0%float; 0%float; 0%float] None true true
  = ([], inl TypeError).
Proof.
  apply (proj2 (get_jk_dm_kSym_contracts_only_when
                  (mydf.mk (1, 1, 2) false false None 2 (1, 1, 2) 1%float 1 1
                     [[1%float]; [1%float]] None None)
                  (Dm2 example_dm) [0%float; 0%float; 0%float] None true true));
    try reflexivity.
  eexists; reflexivity.
Defined.

(** *** The translation symmetry of J *)

Section JSymmetry.
Context {F : Type} `{Numeric F} `{Kernels F}.
Implicit Types (df : mydf.t F) (dm J : matrix F).
Local Open Scope run_scope.

(** Whatever [_pack_JK] returns has blocks that depend on the translation
    difference of their indices only. *)
Lemma _pack_JK_Some_blocks input_mat Ls nao_prim output :
  1 ≤ nao_prim →
  _pack_JK input_mat Ls nao_prim = Some output →
  has_shape (np_prod Ls * nao_prim) (np_prod Ls * nao_prim) output ∧
  ∀ row col, row ∈ cells Ls → col ∈ cells Ls →
    prim_block output nao_prim (ravel Ls row) (ravel Ls col) =
    prim_block output nao_prim
      (ravel Ls (0, 0, 0)) (ravel Ls (cell_diff Ls col row)).
Proof.
  intros Hn Hrun.
  assert (dtype_float64 = true
          ∧ has_shape nao_prim (nao_prim * np_prod Ls) input_mat)
    as [Hf64 Hin].
  { unfold _pack_JK in Hrun. destruct dtype_float64; [|discriminate].
    cbn [andb] in Hrun. case_bool_decide; [auto|discriminate]. }
  destruct (_pack_JK_run input_mat Ls nao_prim Hf64 Hn Hin)
    as (output' & Hrun' & Hout & Hinv).
  rewrite Hrun in Hrun'. injection Hrun' as <-.
  split; [exact Hout|].
  assert (∀ row col, row ∈ cells Ls → col ∈ cells Ls →
    prim_block output nao_prim (ravel Ls row) (ravel Ls col) =
    prim_block input_mat nao_prim 0 (ravel Ls (cell_diff Ls col row)))
    as Hblocks.
  { intros row col Hrow Hcol.
    pose proof (cell_diff_in Ls col row Hcol) as Hd.
    pose proof (prim_block_bounds Ls nao_prim row ltac:(lia) Hrow).
    pose proof (prim_block_bounds Ls nao_prim col ltac:(lia) Hcol).
    pose proof (prim_block_bounds Ls nao_prim _ ltac:(lia) Hd).
    pose proof (ravel_bounds Ls _ Hrow). pose proof (ravel_bounds Ls _ Hcol).
    pose proof (ravel_bounds Ls _ Hd).
    apply (matrix_ext nao_prim nao_prim).
    - eapply has_shape_prim_block; [exact Hout|lia..].
    - eapply has_shape_prim_block; [exact Hin|lia..].
    - intros a b Ha Hb. rewrite !mat_get_prim_block by lia.
      rewrite Hinv; [f_equal; lia| |lia|lia].
      apply elem_of_cell_pairs; auto. }
  intros row col Hrow Hcol.
  pose proof (cell_zero_in Ls row Hrow) as H0'.
  pose proof (cell_diff_in Ls col row Hcol) as Hd.
  rewrite (Hblocks row col Hrow Hcol), (Hblocks _ _ H0' Hd).
  rewrite cell_diff_zero by exact Hd. reflexivity.
Qed.

(** The matrix J that [_get_j_kSym] returns, on an object whose scratch
    buffer is allocated, for a density matrix with at least one orbital per
    cell: it has the shape of the density matrix of the supercell, and its
    block at the block indices (row, col) is its block at
    (0, (col - row) mod Ls). *)
Theorem get_j_kSym_block_circulant df dm J :
  is_Some (mydf.jk_buffer df) →
  1 ≤ Z.of_nat (length dm) / np_prod (mydf.Ls df) →
  outcome (_get_j_kSym df (Dm2 dm)) = inr J →
  let Ls := mydf.Ls df in
  let nao_prim := Z.of_nat (length dm) / np_prod Ls in
  has_shape (np_prod Ls * nao_prim) (np_prod Ls * nao_prim) J ∧
  ∀ row col, row ∈ cells Ls → col ∈ cells Ls →
    prim_block J nao_prim (ravel Ls row) (ravel Ls col) =
    prim_block J nao_prim (ravel Ls (0, 0, 0)) (ravel Ls (cell_diff Ls col row)).
Proof.
  intros [buf Hbuf] Hn HJ. cbv zeta.
  unfold _get_j_kSym, _allocate_jk_buffer in HJ. rewrite Hbuf in HJ.
  rewrite !bind_ret in HJ.
  repeat (apply outcome_bind_inr in HJ as (? & _ & HJ)).
  unfold _get_j_kSym_expand in HJ.
  destruct (mydf.Ls df) as [[l0 l1] l2] eqn:ELs.
  apply outcome_bind_inr in HJ as (buffer_J & _ & HJ).
  apply outcome_or_raise in HJ.
  apply (_pack_JK_Some_blocks _ _ _ _ Hn HJ).
Qed.

End JSymmetry.

Lemma get_j_kSym_block_circulant_witness :
  outcome (_get_j_kSym example_df_W (Dm2 example_dm))
    = inr [[40%float; 40%float]; [40%float; 40%float]]
  ∧ has_shape (np_prod (1, 1, 2) * 1) (np_prod (1, 1, 2) * 1)
      [[40%float; 40%float]; [40%float; 40%float]]
  ∧ ∀ row col, row ∈ cells (1, 1, 2) → col ∈ cells (1, 1, 2) →
      prim_block [[40%float; 40%float]; [40%float; 40%float]] 1
        (ravel (1, 1, 2) row) (ravel (1, 1, 2) col) =
      prim_block [[40%float; 40%float]; [40%float; 40%float]] 1
        (ravel (1, 1, 2) (0, 0, 0))
        (ravel (1, 1, 2) (cell_diff (1, 1, 2) col row)).
Proof.
  split; [reflexivity|].
  apply (get_j_kSym_block_circulant example_df_W example_dm
           [[40%float; 40%float]; [40%float; 40%float]]).
  - eexists; reflexivity.
  - vm_compute. discriminate.
  - reflexivity.
Defined.

(** *** [_get_possible_IP] *)

Lemma elem_of_np_where_eq v x g :
  g ∈ np_where_eq v x
  ↔ 0 ≤ g < Z.of_nat (length v) ∧ v !! Z.to_nat g = Some x.
Proof.
  unfold np_where_eq, range. rewrite list_elem_of_filter, elem_of_seqZ.
  split; intros [? ?]; split; auto; lia.
Qed.

Lemma NoDup_np_where_eq v x : NoDup (np_where_eq v x).
Proof. apply NoDup_filter, NoDup_seqZ. Qed.

Lemma elem_of_candidates partition g :
  g ∈ (range 8 ≫= np_where_eq partition) ↔ candidate partition g.
Proof.
  rewrite list_elem_of_bind. unfold candidate, range. split.
  - intros (a & Hg & Ha). apply elem_of_np_where_eq in Hg as [Hg Hp].
    apply elem_of_seqZ in Ha. split; [exact Hg|]. exists a. split; [lia|auto].
  - intros (Hg & a & Ha & Hp). exists a. split.
    + apply elem_of_np_where_eq. auto.
    + apply elem_of_seqZ. lia.
Qed.

Lemma NoDup_candidates partition :
  NoDup (range 8 ≫= np_where_eq partition).
Proof.
  apply NoDup_bind.
  - intros a a' g _ _ Hg Hg'.
    apply elem_of_np_where_eq in Hg as [_ Hg], Hg' as [_ Hg']. congruence.
  - intros a _. apply NoDup_np_where_eq.
  - apply NoDup_seqZ.
Qed.

(** A loop that appends the entries it keeps. *)
Lemma for_filter {A B : Type} (f : A → B) (keep : A → bool)
    (body : B → list A → option (list A)) (l : list A) acc :
  (∀ x acc, x ∈ l →
     body (f x) acc = Some (if keep x then acc ++ [x] else acc)) →
  for_ (f <$> l) body acc = Some (acc ++ filter (λ x, keep x = true) l).
Proof.
  revert acc. induction l as [|x l IH]; intros acc Hbody.
  - cbn. rewrite app_nil_r. reflexivity.
  - rewrite fmap_cons, for_cons, Hbody by (apply elem_of_cons; auto).
    cbn [mbind option_bind]. rewrite IH.
    + f_equal. rewrite filter_cons. destruct (keep x) eqn:E.
      * rewrite decide_True by reflexivity. rewrite <- app_assoc. reflexivity.
      * rewrite decide_False by discriminate. reflexivity.
    + intros y acc' Hy. apply Hbody, elem_of_cons; auto.
Qed.

Section PossibleIPFacts.
Variables (mp0 mp1 mp2 l0 l1 l2 : Z).
Hypothesis (Hmp0 : 0 < mp0) (Hmp1 : 0 < mp1) (Hmp2 : 0 < mp2).
Hypothesis (Hl0 : 0 < l0) (Hl1 : 0 < l1) (Hl2 : 0 < l2).

Let mesh : triple := (mp0 * l0, mp1 * l1, mp2 * l2).
Let Ls : triple := (l0, l1, l2).
Let box (g : Z) : triple := pnt_box_id mesh Ls g.
Let rid (g : Z) : Z := pnt_prim_ravel_id mesh Ls g.
Let info (g : Z) : Z * triple * Z := (g, box g, rid g).

Lemma rid_bounds g : 0 ≤ rid g < mp0 * mp1 * mp2.
Proof. apply pnt_prim_ravel_id_bounds; assumption. Qed.

(** The first loop of [_get_possible_IP] on the grid points [G]: it marks
    the primitive-cell index of every point of [G] in the first box. *)
Lemma _get_possible_IP_mark (G : list Z) :
  ∃ sel,
    for_ G (λ grid_id (st : list Z * list (Z * triple * Z)),
      let '(possible_primID_selected, tmp) := st in
      possible_primID_selected ←
        (if is_first_box (box grid_id)
         then py_assign possible_primID_selected (rid grid_id) 1
         else Some possible_primID_selected);
      Some (possible_primID_selected, tmp ++ [info grid_id]))
      (replicate (Z.to_nat (mp0 * mp1 * mp2)) 0, [])
    = Some (sel, info <$> G)
    ∧ Z.of_nat (length sel) = mp0 * mp1 * mp2
    ∧ (∀ (r : nat) v, sel !! r = Some v → v = 0 ∨ v = 1)
    ∧ (∀ (r : nat), sel !! r = Some 1
         ↔ ∃ g, g ∈ G ∧ is_first_box (box g) = true ∧ Z.to_nat (rid g) = r).
Proof.
  assert (Hn : 0 ≤ mp0 * mp1 * mp2) by nia.
  match goal with
  | |- ∃ sel, for_ ?l ?body ?s = _ ∧ _ =>
      destruct (for_invariant
        (λ done (st : list Z * list (Z * triple * Z)),
           st.2 = info <$> done
           ∧ Z.of_nat (length st.1) = mp0 * mp1 * mp2
           ∧ (∀ (r : nat) v, st.1 !! r = Some v → v = 0 ∨ v = 1)
           ∧ (∀ (r : nat), st.1 !! r = Some 1
                ↔ ∃ g, g ∈ done ∧ is_first_box (box g) = true
                       ∧ Z.to_nat (rid g) = r))
        l body s) as ([sel tmp] & Hrun & Htmp & Hlen & H01 & Hsel)
  end.
  - cbn [fst snd]. split; [reflexivity|]. split.
    { rewrite length_replicate. lia. }
    split.
    + intros r v Hr. apply lookup_replicate in Hr as [-> _]. auto.
    + intros r. split.
      * intros Hr. apply lookup_replicate in Hr as [Hr _]. discriminate.
      * intros (g & Hg & _). inversion Hg.
  - intros done g todo [sel tmp] _ (Htmp & Hlen & H01 & Hsel).
    cbn [fst snd] in Htmp, Hlen, H01, Hsel. subst tmp.
    pose proof (rid_bounds g) as Hr.
    destruct (is_first_box (box g)) eqn:Ebox.
    + rewrite py_assign_nonneg by lia. cbn [mbind option_bind].
      eexists. split; [reflexivity|]. cbn [fst snd].
      split; [rewrite fmap_app; reflexivity|].
      split; [rewrite length_insert; exact Hlen|]. split.
      * intros r v Hv.
        destruct (decide (r = Z.to_nat (rid g))) as [->|Hne].
        -- rewrite list_lookup_insert_eq in Hv by lia.
           injection Hv as <-. auto.
        -- rewrite list_lookup_insert_ne in Hv by auto. eauto.
      * intros r. destruct (decide (r = Z.to_nat (rid g))) as [->|Hne].
        -- rewrite list_lookup_insert_eq by lia. split; [|reflexivity].
           intros _. exists g. split; [|auto].
           apply elem_of_app; right. apply list_elem_of_singleton; reflexivity.
        -- rewrite list_lookup_insert_ne by auto. rewrite Hsel. split.
           ++ intros (g' & Hg' & ?). exists g'. split; [|auto].
              apply elem_of_app; auto.
           ++ intros (g' & Hg' & Hb' & Hr').
              apply elem_of_app in Hg' as [Hg'|Hg']; [eauto|].
              apply list_elem_of_singleton in Hg'. subst g'. lia.
    + cbn [mbind option_bind]. eexists. split; [reflexivity|]. cbn [fst snd].
      split; [rewrite fmap_app; reflexivity|]. split; [exact Hlen|].
      split; [exact H01|]. intros r. rewrite Hsel. split.
      * intros (g' & Hg' & ?). exists g'. split; [|auto].
        apply elem_of_app; auto.
      * intros (g' & Hg' & Hb' & Hr').
        apply elem_of_app in Hg' as [Hg'|Hg']; [eauto|].
        apply list_elem_of_singleton in Hg'. subst g'. congruence.
  - cbn [fst snd] in Htmp, Hlen, H01, Hsel. subst tmp.
    exists sel. auto.
Qed.

(** The second loop keeps the points of the first box and the points whose
    primitive-cell index is not marked. *)
Lemma _get_possible_IP_keep (sel : list Z) (G : list Z) :
  Z.of_nat (length sel) = mp0 * mp1 * mp2 →
  for_ (info <$> G) (λ data possible_grid_ID,
    let '(grid_id, box_id, pnt_prim_ravel_id) := data in
    if is_first_box box_id
    then Some (possible_grid_ID ++ [grid_id])
    else
      selected ← py_index sel pnt_prim_ravel_id;
      if bool_decide (selected = 0)
      then Some (possible_grid_ID ++ [grid_id])
      else Some possible_grid_ID) []
  = Some (filter (λ g, is_first_box (box g)
                       || bool_decide (sel !! Z.to_nat (rid g) = Some 0)
                       = true) G).
Proof.
  intros Hlen.
  rewrite (for_filter info
             (λ g, is_first_box (box g)
                   || bool_decide (sel !! Z.to_nat (rid g) = Some 0))).
  - reflexivity.
  - intros g acc _. unfold info. cbv beta iota.
    destruct (is_first_box (box g)); [reflexivity|]. cbn [orb].
    pose proof (rid_bounds g) as Hr.
    rewrite py_index_nonneg by lia.
    destruct (lookup_lt_is_Some_2 sel (Z.to_nat (rid g))) as [v Hv]; [lia|].
    rewrite Hv. cbn [mbind option_bind].
    destruct (decide (v = 0)) as [->|Hv0].
    + rewrite !bool_decide_eq_true_2 by reflexivity. reflexivity.
    + rewrite !bool_decide_eq_false_2 by congruence. reflexivity.
Qed.

End PossibleIPFacts.

(** [_get_possible_IP] on a mesh that is [mesh_prim * Ls] (positive
    counts), with one atom per grid point in [partition] and one coordinate
    per grid point in [coords]: it raises nothing; the grid points returned
    are strictly increasing; they are the grid points of the first eight
    atoms that lie in the first box, or whose primitive-cell index is the
    index of no such point of the first box; and the coordinates returned
    are those of these points. *)
Theorem get_possible_IP_spec {C : Type} mp0 mp1 mp2 l0 l1 l2
    (partition : list Z) (coords : list C) :
  0 < mp0 → 0 < mp1 → 0 < mp2 → 0 < l0 → 0 < l1 → 0 < l2 →
  let mesh := (mp0 * l0, mp1 * l1, mp2 * l2) in
  let Ls := (l0, l1, l2) in
  Z.of_nat (length partition) = np_prod mesh →
  Z.of_nat (length coords) = np_prod mesh →
  ∃ ids cs,
    _get_possible_IP mesh Ls partition coords = inr (ids, cs)
    ∧ StronglySorted Z.lt ids
    ∧ Forall2 (λ g c, coords !! Z.to_nat g = Some c) ids cs
    ∧ ∀ g, g ∈ ids ↔
        candidate partition g
        ∧ (is_first_box (pnt_box_id mesh Ls g) = true
           ∨ ¬ ∃ g', candidate partition g'
                     ∧ is_first_box (pnt_box_id mesh Ls g') = true
                     ∧ pnt_prim_ravel_id mesh Ls g'
                       = pnt_prim_ravel_id mesh Ls g).
Proof.
  intros Hmp0 Hmp1 Hmp2 Hl0 Hl1 Hl2 mesh Ls Hpart Hcoords.
  set (G := range 8 ≫= np_where_eq partition).
  destruct (_get_possible_IP_mark mp0 mp1 mp2 l0 l1 l2
              Hmp0 Hmp1 Hmp2 Hl0 Hl1 Hl2 G)
    as (sel & Hrun & Hlen & H01 & Hsel).
  pose proof (_get_possible_IP_keep mp0 mp1 mp2 l0 l1 l2
                Hmp0 Hmp1 Hmp2 Hl0 Hl1 Hl2 sel G Hlen) as Hkeep.
  fold mesh Ls in Hrun, Hsel, Hkeep.
  set (keep := λ g, is_first_box (pnt_box_id mesh Ls g)
                    || bool_decide
                         (sel !! Z.to_nat (pnt_prim_ravel_id mesh Ls g)
                          = Some 0)) in *.
  set (ids := merge_sort Z.le (filter (λ g, keep g = true) G)).
  assert (Hmem : ∀ g, g ∈ ids ↔ keep g = true ∧ candidate partition g).
  { intros g. subst ids. rewrite merge_sort_Permutation.
    rewrite list_elem_of_filter. subst G. rewrite elem_of_candidates.
    reflexivity. }
  assert (Hcs : is_Some (mapM (py_index coords) ids)).
  { apply mapM_is_Some_2, Forall_forall. intros g Hg.
    apply Hmem in Hg as (_ & Hg & _). unfold compose.
    rewrite py_index_nonneg by lia. apply lookup_lt_is_Some_2. lia. }
  destruct Hcs as [cs Hcs].
  exists ids, cs. split; [|split; [|split]].
  - unfold _get_possible_IP. subst mesh Ls. cbv beta iota zeta.
    assert (En : np_prod ((mp0 * l0) / l0, (mp1 * l1) / l1, (mp2 * l2) / l2)
                 = mp0 * mp1 * mp2)
      by (cbn [np_prod]; rewrite !Z.div_mul by lia; reflexivity).
    rewrite En. rewrite !bool_decide_eq_true_2 by (exact Hpart || nia).
    cbn [negb]. rewrite <- for_bind. fold G.
    lazymatch goal with
    | |- context [for_ G ?b ?s] =>
        let E := fresh "E" in
        assert (E : for_ G b s
                    = Some (sel, (λ g, (g, pnt_box_id
                                          (mp0 * l0, mp1 * l1, mp2 * l2)
                                          (l0, l1, l2) g,
                                        pnt_prim_ravel_id
                                          (mp0 * l0, mp1 * l1, mp2 * l2)
                                          (l0, l1, l2) g)) <$> G))
          by exact Hrun;
        rewrite E
    end.
    lazymatch goal with
    | |- context [for_ (?f <$> G) ?b ?s] =>
        let E := fresh "E" in
        assert (E : for_ (f <$> G) b s
                    = Some (filter (λ g, keep g = true) G))
          by exact Hkeep;
        rewrite E
    end.
    fold ids. rewrite Hcs. reflexivity.
  - apply StronglySorted_le_lt.
    + apply StronglySorted_merge_sort; apply _.
    + subst ids. rewrite merge_sort_Permutation.
      apply NoDup_filter, NoDup_candidates.
  - apply mapM_Some in Hcs. apply Forall2_same_length_lookup.
    split; [eapply Forall2_length; eauto|].
    intros i g c Hg Hc.
    pose proof (Forall2_lookup_lr _ _ _ _ _ _ Hcs Hg Hc) as Hgc.
    cbv beta in Hgc.
    assert (Hin : g ∈ ids) by (eapply list_elem_of_lookup_2; eauto).
    apply Hmem in Hin as (_ & Hin & _).
    rewrite py_index_nonneg in Hgc by lia. exact Hgc.
  - intros g. rewrite Hmem.
    pose proof (pnt_prim_ravel_id_bounds mp0 mp1 mp2 l0 l1 l2 g
                  Hmp0 Hmp1 Hmp2 Hl0 Hl1 Hl2) as Hr.
    fold mesh Ls in Hr.
    split.
    + intros [Hk Hc]. split; [exact Hc|]. subst keep; cbv beta in Hk.
      apply orb_true_iff in Hk as [Hk|Hk]; [left; exact Hk|right].
      apply bool_decide_eq_true in Hk. intros (g' & Hc' & Hb' & Er).
      assert (sel !! Z.to_nat (pnt_prim_ravel_id mesh Ls g) = Some 1);
        [|congruence].
      apply Hsel. exists g'. split; [|split; [exact Hb'|congruence]].
      subst G. apply elem_of_candidates. exact Hc'.
    + intros [Hc Hk]. split; [|exact Hc]. subst keep; cbv beta.
      apply orb_true_iff. destruct Hk as [Hk|Hk]; [left; exact Hk|right].
      apply bool_decide_eq_true.
      destruct (lookup_lt_is_Some_2 sel
                  (Z.to_nat (pnt_prim_ravel_id mesh Ls g))) as [v Hv]; [lia|].
      destruct (H01 _ _ Hv) as [->| ->]; [exact Hv|]. exfalso. apply Hk.
      apply Hsel in Hv as (g' & Hg' & Hb' & Er).
      exists g'. split; [|split; [exact Hb'|]].
      * subst G. apply elem_of_candidates in Hg'. exact Hg'.
      * pose proof (pnt_prim_ravel_id_bounds mp0 mp1 mp2 l0 l1 l2 g'
                      Hmp0 Hmp1 Hmp2 Hl0 Hl1 Hl2) as Hr'.
        fold mesh Ls in Hr'. lia.
Qed.

Lemma get_possible_IP_spec_witness :
  ∃ ids cs,
    _get_possible_IP (1 * 1, 1 * 1, 2 * 2) (1, 1, 2) [0; 9; 1; 0]
      [10; 11; 12; 13] = inr (ids, cs)
    ∧ StronglySorted Z.lt ids
    ∧ Forall2 (λ g c, [10; 11; 12; 13] !! Z.to_nat g = Some c) ids cs
    ∧ ∀ g, g ∈ ids ↔
        candidate [0; 9; 1; 0] g
        ∧ (is_first_box (pnt_box_id (1 * 1, 1 * 1, 2 * 2) (1, 1, 2) g) = true
           ∨ ¬ ∃ g', candidate [0; 9; 1; 0] g'
                     ∧ is_first_box
                         (pnt_box_id (1 * 1, 1 * 1, 2 * 2) (1, 1, 2) g') = true
                     ∧ pnt_prim_ravel_id (1 * 1, 1 * 1, 2 * 2) (1, 1, 2) g'
                       = pnt_prim_ravel_id (1 * 1, 1 * 1, 2 * 2) (1, 1, 2) g).
Proof.
  apply (get_possible_IP_spec 1 1 2 1 1 2 [0; 9; 1; 0] [10; 11; 12; 13]);
    (lia || reflexivity).
Defined.

(** *** The structure of the matrix R of [colpivot_qr] *)

Lemma swap_lookup_ne {A : Type} (l l' : list A) j p (k : nat) :
  swap j p l = Some l' → k ≠ Z.to_nat j → k ≠ Z.to_nat p →
  l' !! k = l !! k.
Proof.
  unfold swap. intros Hs Hj Hp.
  destruct (l !! Z.to_nat j) as [a|]; [|discriminate].
  destruct (l !! Z.to_nat p) as [b|]; [|discriminate].
  cbn in Hs. injection Hs as <-.
  rewrite !list_lookup_insert_ne by auto. reflexivity.
Qed.

Lemma swap_Forall {A : Type} (P : A → Prop) (l l' : list A) j p :
  swap j p l = Some l' → Forall P l → Forall P l'.
Proof.
  intros Hs Hl. rewrite (swap_Permutation _ _ _ _ Hs). exact Hl.
Qed.

Section ColPivotQRStructure.
Context {F : Type} `{Numeric F}.
Implicit Types (M : matrix F) (st : qr_state (F:=F)).

Lemma mapM_swap_lookup M M' j p (i : nat) row' :
  mapM (swap j p) M = Some M' → M' !! i = Some row' →
  ∃ row, M !! i = Some row ∧ swap j p row = Some row'.
Proof.
  intros HM Hi. apply mapM_Some in HM.
  destruct (Forall2_lookup_r _ _ _ _ _ HM Hi) as (row & Hrow & Hs).
  exists row. auto.
Qed.

Lemma set_entry_Some M i k x M' :
  set_entry M i k x = Some M' →
  ∃ row, M !! Z.to_nat i = Some row
         ∧ M' = <[Z.to_nat i := <[Z.to_nat k := x]> row]> M.
Proof.
  unfold set_entry. intros Hs.
  destruct (M !! Z.to_nat i) as [row|]; [|discriminate].
  cbn in Hs. destruct (row !! Z.to_nat k); [|discriminate].
  cbn in Hs. injection Hs as <-. eauto.
Qed.

Lemma set_row_from_Some M i k0 v M' :
  set_row_from M i k0 v = Some M' →
  ∃ row, M !! Z.to_nat i = Some row
         ∧ M' = <[Z.to_nat i := take (Z.to_nat k0) row ++ v]> M.
Proof.
  unfold set_row_from. intros Hs.
  destruct (M !! Z.to_nat i) as [row|]; [|discriminate].
  cbn in Hs. case_decide; [|discriminate]. injection Hs as <-. eauto.
Qed.

(** The exchange of two columns from [j] on keeps the rows as they are
    described when pass [j] begins. *)
Lemma R_before_pass_swap cutoff j p M M' :
  0 ≤ j ≤ p → mapM (swap j p) M = Some M' →
  R_before_pass cutoff j M → R_before_pass cutoff j M'.
Proof.
  intros Hjp HM HR i row' Hi.
  destruct (mapM_swap_lookup _ _ _ _ _ _ HM Hi) as (row & Hrow & Hs).
  destruct (HR i row Hrow) as [Hlow Hzero]. split.
  - intros Hij. destruct (Hlow Hij) as [Hl (x & Hx & Hc)]. split.
    + intros k Hk. rewrite (swap_lookup_ne _ _ _ _ _ Hs) by lia. auto.
    + exists x. rewrite (swap_lookup_ne _ _ _ _ _ Hs) by lia. auto.
  - intros Hij. eapply swap_Forall; eauto.
Qed.

Lemma Forall_zero_lookup (row : list F) (k : nat) :
  Forall (λ x, x = f0) row → (k < length row)%nat → row !! k = Some f0.
Proof.
  intros Hrow Hk. destruct (lookup_lt_is_Some_2 row k Hk) as [x Hx].
  rewrite Hx. f_equal. exact (Forall_lookup_1 _ _ _ _ Hrow Hx).
Qed.

End ColPivotQRStructure.

Section ColPivotQRPasses.
Context {F : Type} `{Numeric F}.
Implicit Types (M : matrix F) (st : qr_state (F:=F)).

(** A pass of the loop, with what it does to the rows of [R]. *)
Lemma colpivot_qr_body_R cutoff m n j st :
  qr_inv m n st → 0 ≤ j < m → j < n →
  R_before_pass cutoff j (R st) →
  ∃ r, colpivot_qr_body cutoff j st = Some r ∧
       match r with
       | inl st' => qr_inv m n st' ∧ npt_find st' = npt_find st
                    ∧ ∀ K, R_returned cutoff j K (R st')
       | inr st' => qr_inv m n st' ∧ npt_find st' = npt_find st + 1
                    ∧ R_before_pass cutoff (j + 1) (R st')
       end.
Proof.
  intros Hinv Hjm Hjn HRb. pose proof (length_pivot m n st Hinv) as Hlp.
  destruct Hinv as (HA & HQ & HR & HP). unfold colpivot_qr_body.
  destruct (pivot_position_is_Some n m (AA st) j HA) as (p & -> & Hp); [lia|].
  cbn [mbind option_bind].
  destruct (swap_shape n m (AA st) j p HA) as (AA1 & -> & HA1); [lia..|].
  cbn [mbind option_bind].
  destruct (mapM_swap_shape m n (R st) j p HR) as (R1 & ER1 & HR1); [lia..|].
  rewrite ER1. cbn [mbind option_bind].
  pose proof (R_before_pass_swap cutoff j p _ _ ltac:(lia) ER1 HRb) as HRb1.
  destruct (swap_is_Some (pivot st) j p) as [pivot1 Hp1]; [lia..|].
  rewrite Hp1. cbn [mbind option_bind].
  assert (HP1 : pivot1 ≡ₚ range n).
  { etrans; [apply (swap_Permutation _ _ _ _ Hp1)|exact HP]. }
  destruct (has_shape_lookup n m AA1 j HA1) as (AAj & -> & HAj); [lia|].
  cbn [mbind option_bind].
  destruct (set_entry_shape m n R1 j j (norm AAj) HR1) as (R2 & ER2 & HR2);
    [lia..|].
  rewrite ER2. cbn [mbind option_bind].
  destruct (set_entry_Some _ _ _ _ _ ER2) as (rowj & Hrowj & ER2').
  pose proof (has_shape_row _ _ _ _ _ HR1 Hrowj) as Hlrowj.
  assert (Hzero : Forall (λ x, x = f0) rowj).
  { destruct (HRb1 _ _ Hrowj) as [_ Hz]. apply Hz. lia. }
  assert (HR2j : R2 !! Z.to_nat j = Some (<[Z.to_nat j := norm AAj]> rowj)).
  { rewrite ER2'. apply list_lookup_insert_eq.
    eapply lookup_lt_Some; eauto. }
  assert (HR2ne : ∀ i : nat, i ≠ Z.to_nat j → R2 !! i = R1 !! i).
  { intros i Hi. rewrite ER2'. apply list_lookup_insert_ne. auto. }
  assert (Hget : mat_get R2 j j = Some (norm AAj)).
  { unfold mat_get. rewrite decide_True by lia. rewrite HR2j.
    cbn [mbind option_bind]. apply list_lookup_insert_eq. lia. }
  rewrite Hget. cbn [mbind option_bind].
  destruct (fltb (norm AAj) cutoff) eqn:Ecut.
  { eexists; split; [reflexivity|]. split; [|split; [reflexivity|]].
    { unfold qr_inv. cbn. split_and!; assumption. }
    cbn [R]. intros K i row Hi.
    destruct (decide (i = Z.to_nat j)) as [->|Hne].
    - rewrite HR2j in Hi. injection Hi as <-.
      split; [|split; [|split]].
      + intros k Hk Hkl. rewrite length_insert in Hkl.
        rewrite list_lookup_insert_ne by lia.
        apply Forall_zero_lookup; assumption.
      + lia.
      + intros _ k Hk Hkl. rewrite length_insert in Hkl.
        rewrite list_lookup_insert_ne by lia.
        apply Forall_zero_lookup; assumption.
      + intros _ _. exists (norm AAj). split; [|exact Ecut].
        apply list_lookup_insert_eq. lia.
    - rewrite HR2ne in Hi by exact Hne.
      destruct (HRb1 _ _ Hi) as [Hlow Hz].
      split; [|split; [|split]].
      + intros k Hk Hkl. destruct (decide (Z.of_nat i < j)) as [Hij|Hij].
        * apply (proj1 (Hlow Hij)). exact Hk.
        * apply Forall_zero_lookup; [apply Hz; lia|exact Hkl].
      + intros Hij. apply (proj2 (Hlow Hij)).
      + intros Hij k Hk Hkl.
        apply Forall_zero_lookup; [apply Hz; lia|exact Hkl].
      + lia. }
  destruct (set_row_from_shape m m (Q st) j 0 ((λ x, fdiv x (norm AAj)) <$> AAj)
              HQ) as (Q1 & -> & HQ1 & HQj); [lia|lia|rewrite length_fmap; lia|].
  cbn [mbind option_bind]. rewrite HQj. cbn [mbind option_bind].
  pose proof (has_shape_row _ _ _ _ _ HQ1 HQj) as HlQj.
  set (Qj := take (Z.to_nat 0) (Q st !!! Z.to_nat j)
             ++ ((λ x, fdiv x (norm AAj)) <$> AAj)) in *.
  destruct (set_row_from_shape m n R2 j (j + 1)
              ((λ row : list F, vdot row Qj) <$> drop (Z.to_nat (j + 1)) AA1)
              HR2) as (R3 & ER3 & HR3 & HRj); [lia|lia| |].
  { destruct HA1 as [HlA1 _]. rewrite length_fmap, length_drop. lia. }
  rewrite ER3. cbn [mbind option_bind]. rewrite HRj.
  cbn [mbind option_bind].
  pose proof (has_shape_row _ _ _ _ _ HR3 HRj) as HlRj.
  destruct (set_row_from_Some _ _ _ _ _ ER3) as (rowj2 & Hrowj2 & ER3').
  rewrite HR2j in Hrowj2. injection Hrowj2 as <-.
  match goal with
  | |- context [sub_outer AA1 j ?rv Qj] =>
      destruct (sub_outer_shape n m AA1 j rv Qj HA1) as (AA2 & -> & HA2);
        [lia|rewrite length_drop; lia|exact HlQj|]
  end.
  cbn [mbind option_bind].
  eexists; split; [reflexivity|]. split; [|split; [reflexivity|]].
  { unfold qr_inv. cbn. split_and!; assumption. }
  cbn [R]. intros i row Hi.
  destruct (decide (i = Z.to_nat j)) as [->|Hne].
  - rewrite ER3' in Hi.
    rewrite list_lookup_insert_eq in Hi by (eapply lookup_lt_Some; eauto).
    injection Hi as <-. split; [|lia]. intros _.
    assert (Htl : length (take (Z.to_nat (j + 1))
                            (<[Z.to_nat j := norm AAj]> rowj))
                  = Z.to_nat (j + 1)).
    { rewrite length_take, length_insert. lia. }
    split.
    + intros k Hk. rewrite lookup_app_l by lia.
      rewrite lookup_take_lt by lia.
      rewrite list_lookup_insert_ne by lia.
      apply Forall_zero_lookup; [exact Hzero|lia].
    + exists (norm AAj). split; [|exact Ecut].
      rewrite lookup_app_l by lia. rewrite lookup_take_lt by lia.
      apply list_lookup_insert_eq. lia.
  - rewrite ER3' in Hi. rewrite list_lookup_insert_ne in Hi by auto.
    rewrite HR2ne in Hi by exact Hne.
    destruct (HRb1 _ _ Hi) as [Hlow Hz]. split.
    + intros Hij. apply Hlow. lia.
    + intros Hij. apply Hz. lia.
Qed.

End ColPivotQRPasses.

Section ColPivotQRStructureTheorem.
Context {F : Type} `{Numeric F}.
Implicit Types (M : matrix F) (st : qr_state (F:=F)).

Lemma R_before_pass_returned cutoff K M :
  R_before_pass cutoff K M → R_returned cutoff K K M.
Proof.
  intros HR i row Hi. destruct (HR i row Hi) as [Hlow Hz].
  split; [|split; [|split]].
  - intros k Hk Hkl. destruct (decide (Z.of_nat i < K)) as [Hij|Hij].
    + apply (proj1 (Hlow Hij)). exact Hk.
    + apply Forall_zero_lookup; [apply Hz; lia|exact Hkl].
  - intros Hij. apply (proj2 (Hlow Hij)).
  - intros Hij k Hk Hkl. apply Forall_zero_lookup; [apply Hz; lia|exact Hkl].
  - lia.
Qed.

Lemma colpivot_qr_loop_R cutoff m n K (d : nat) j st :
  qr_inv m n st → npt_find st = j → 0 ≤ j → j + Z.of_nat d = K →
  K ≤ m → K ≤ n → R_before_pass cutoff j (R st) →
  ∃ st', colpivot_qr_loop cutoff (seqZ j (Z.of_nat d)) st = Some st'
         ∧ qr_inv m n st' ∧ j ≤ npt_find st' ≤ K
         ∧ R_returned cutoff (npt_find st') K (R st').
Proof.
  revert j st. induction d as [|d IH]; intros j st Hinv Hnpt Hj HK Hm Hn HR.
  - exists st. cbn. split; [reflexivity|]. split; [exact Hinv|].
    split; [lia|]. rewrite Hnpt. replace j with K in * by lia.
    apply R_before_pass_returned. exact HR.
  - rewrite seqZ_cons by lia. cbn [colpivot_qr_loop].
    destruct (colpivot_qr_body_R cutoff m n j st Hinv) as ([st'|st'] & E & Hr);
      [lia|lia|exact HR| |]; rewrite E.
    + destruct Hr as (Hinv' & Hnpt' & HR'). exists st'.
      split; [reflexivity|]. split; [exact Hinv'|]. split; [lia|].
      rewrite Hnpt', Hnpt. apply HR'.
    + destruct Hr as (Hinv' & Hnpt' & HR').
      replace (Z.pred (Z.of_nat (S d))) with (Z.of_nat d) by lia.
      assert (HR1 : R_before_pass cutoff (Z.succ j) (R st'))
        by (replace (Z.succ j) with (j + 1) by lia; exact HR').
      destruct (IH (Z.succ j) st' Hinv' ltac:(lia) ltac:(lia) ltac:(lia)
                  Hm Hn HR1) as (st'' & E' & Hinv'' & Hnpt'' & HR'').
      exists st''. split; [exact E'|]. split; [exact Hinv''|].
      split; [lia|exact HR''].
Qed.

(** The matrix R that [colpivot_qr] returns, for every [A] of shape
    [(m, n)], every [max_rank] and every [cutoff]: it has the shape
    [(m, n)] and is upper triangular; its first [npt_find] diagonal entries
    are not below [cutoff]; its rows from [npt_find] on are zero outside
    the diagonal; and when [npt_find] is less than [min(m, n, max_rank)],
    the loop was left at the pass [npt_find], whose diagonal entry is below
    [cutoff]. *)
Theorem colpivot_qr_R_structure m n (A : matrix F) max_rank cutoff :
  has_shape m n A →
  ∃ Qt R' pivot' npt,
    colpivot_qr m n A max_rank cutoff = Some (Qt, R', pivot', npt)
    ∧ has_shape m n R'
    ∧ R_returned cutoff npt
        (Z.min (Z.min m n) (default (Z.min m n) max_rank)) R'.
Proof.
  intros HA. unfold colpivot_qr. set (K := Z.min (Z.min m n) _).
  assert (Hm : 0 ≤ m) by (destruct HA as [<- _]; lia).
  assert (Hzeros : R_before_pass cutoff 0 (zeros m n)).
  { intros i row Hi. split; [lia|]. intros _.
    unfold zeros in Hi. apply lookup_replicate in Hi as [-> _].
    apply Forall_replicate. reflexivity. }
  destruct (decide (K ≤ 0)) as [HK|HK].
  - unfold range at 1, seqZ. replace (Z.to_nat K) with 0%nat by lia.
    cbn. do 4 eexists. split; [reflexivity|].
    destruct (decide (0 ≤ n)) as [Hn|Hn].
    + split; [apply has_shape_zeros; lia|].
      intros i row Hi. destruct (Hzeros i row Hi) as [_ Hz].
      split; [|split; [|split]].
      * intros k Hk Hkl. apply Forall_zero_lookup; [apply Hz; lia|exact Hkl].
      * lia.
      * intros _ k Hk Hkl.
        apply Forall_zero_lookup; [apply Hz; lia|exact Hkl].
      * lia.
    + assert (m = 0).
      { destruct HA as [Hl Hc]. destruct A as [|row0 A']; [cbn in Hl; lia|].
        apply Forall_cons in Hc as [Hrow0 _]. lia. }
      subst m. split.
      * split; [reflexivity|constructor].
      * intros i row Hi. inversion Hi.
  - assert (Hm' : 0 < m) by lia. assert (Hn : 0 < n) by lia.
    destruct (colpivot_qr_loop_R cutoff m n K (Z.to_nat K) 0
                {| AA := transpose A; Q := zeros m m; R := zeros m n;
                   pivot := range n; npt_find := 0 |})
      as (st' & E & (_ & _ & HR & _) & _ & HRet); try lia.
    + unfold qr_inv. cbn. split_and!.
      * apply has_shape_transpose; assumption.
      * apply has_shape_zeros; lia.
      * apply has_shape_zeros; lia.
      * reflexivity.
    + reflexivity.
    + exact Hzeros.
    + rewrite Z2Nat.id in E by lia. unfold range at 1.
      rewrite E. cbn [mbind option_bind]. do 4 eexists.
      split; [reflexivity|]. split; [exact HR|exact HRet].
Qed.

End ColPivotQRStructureTheorem.

Lemma colpivot_qr_R_structure_witness :
  ∃ Qt R' pivot' npt,
    colpivot_qr 2 3 [[1%float; 1%float; 1%float]; [0%float; 0%float; 0%float]]
      None 1e-14%float = Some (Qt, R', pivot', npt)
    ∧ has_shape 2 3 R'
    ∧ R_returned 1e-14%float npt
        (Z.min (Z.min 2 3) (default (Z.min 2 3) None)) R'.
Proof.
  apply (colpivot_qr_R_structure 2 3
           [[1%float; 1%float; 1%float]; [0%float; 0%float; 0%float]]
           None 1e-14%float).
  split; [reflexivity|repeat constructor].
Defined.

(** *** The grid points box by box ([_extract_grid_primitive_cell]) *)

Lemma for_raised_inl {A S : Type} (l : list A) (body : A → S → raised + S) e :
  fold_left (λ acc i, and_then acc (body i)) l (inl e) = inl e.
Proof. induction l as [|a l IH]; [reflexivity|exact IH]. Qed.

Lemma for_raised_cons {A S : Type} a (l : list A)
    (body : A → S → raised + S) s :
  for_raised (a :: l) body s
  = and_then (body a s) (λ s', for_raised l body s').
Proof.
  unfold for_raised. cbn [fold_left and_then].
  destruct (body a s) as [e|s']; [apply for_raised_inl|reflexivity].
Qed.

Lemma for_raised_ext_in {A S : Type} (l : list A)
    (f g : A → S → raised + S) s :
  (∀ a s, a ∈ l → f a s = g a s) → for_raised l f s = for_raised l g s.
Proof.
  revert s. induction l as [|a l IH]; intros s Hfg; [reflexivity|].
  rewrite !for_raised_cons, Hfg by left.
  destruct (g a s) as [e|s']; [reflexivity|].
  cbn [and_then]. apply IH. intros; apply Hfg. by right.
Qed.

Lemma for_raised_checks {A : Type} (l : list A) (check : A → raised + unit) :
  for_raised l (λ a _, check a) tt = inr tt
  ↔ Forall (λ a, check a = inr tt) l.
Proof.
  induction l as [|a l IH]; [split; [constructor|reflexivity]|].
  rewrite for_raised_cons, Forall_cons.
  destruct (check a) as [e|[]]; cbn [and_then].
  - split; [intros [=]|intros [[=] _]].
  - rewrite IH. tauto.
Qed.

Lemma for_raised_guarded {A S : Type} (l : list A)
    (check : A → raised + unit) (g : A → S → S) s s' :
  for_raised l (λ a s, and_then (check a) (λ _, inr (g a s))) s = inr s'
  ↔ Forall (λ a, check a = inr tt) l ∧ s' = fold_left (λ s a, g a s) l s.
Proof.
  revert s. induction l as [|a l IH]; intros s.
  - cbn. split; [intros [= <-]; by split|intros [_ ->]; reflexivity].
  - rewrite for_raised_cons, Forall_cons.
    destruct (check a) as [e|[]]; cbn [and_then fold_left].
    + split; [intros [=]|intros [[[=] _] _]].
    + rewrite IH. tauto.
Qed.

Lemma slice_indices_in_range n b e :
  0 ≤ b → b ≤ e → e ≤ n → slice_indices n b e = range2 b e.
Proof.
  intros Hb Hbe Hen. unfold slice_indices.
  rewrite !(proj2 (Z.ltb_ge _ _)) by lia.
  rewrite !Z.min_l by lia. reflexivity.
Qed.

Lemma range2_shift a n : range2 a (a + n) = Z.add a <$> range n.
Proof.
  unfold range2, range. rewrite fmap_add_seqZ.
  f_equal; lia.
Qed.

Lemma bind_fmap_l {A B C : Type} (f : A → B) (g : B → list C) (l : list A) :
  (f <$> l) ≫= g = l ≫= (λ x, g (f x)).
Proof.
  induction l as [|a l IH]; [reflexivity|].
  change ((f <$> a :: l) ≫= g) with (g (f a) ++ ((f <$> l) ≫= g)).
  rewrite IH. reflexivity.
Qed.

Lemma zip_with_fmap_same {A B C D : Type} (f : B → C → D) (g : A → B)
    (h : A → C) (l : list A) :
  zip_with f (g <$> l) (h <$> l) = (λ x, f (g x) (h x)) <$> l.
Proof. induction l as [|a l IH]; [reflexivity|cbn; by rewrite IH]. Qed.

Lemma mjoin_fmap_bind {A B : Type} (f : A → list B) (l : list A) :
  mjoin (f <$> l) = l ≫= f.
Proof.
  induction l as [|a l IH]; [reflexivity|].
  change (f a ++ mjoin (f <$> l) = f a ++ (l ≫= f)). by rewrite IH.
Qed.

Lemma lookups_range {A : Type} `{Inhabited A} (l : list A) :
  (λ g, l !!! Z.to_nat g) <$> range (Z.of_nat (length l)) = l.
Proof.
  apply list_eq. intros i. rewrite list_lookup_fmap. unfold range.
  destruct (decide (i < length l)%nat) as [Hi|Hi].
  - rewrite lookup_seqZ_lt by lia. cbn.
    rewrite Z.add_0_l, Nat2Z.id. symmetry.
    by apply list_lookup_lookup_total_lt.
  - rewrite lookup_seqZ_ge by lia. cbn. symmetry.
    apply lookup_ge_None_2. lia.
Qed.

Lemma fold_left_blocks {A : Type} (g : triple → A) (l : list triple)
    (res : list A) (res_dict : gmap triple A) :
  let st := fold_left (λ st b, (st.1 ++ [g b], <[b := g b]> st.2)) l
              (res, res_dict) in
  st.1 = res ++ (g <$> l)
  ∧ ∀ b, st.2 !! b = if decide (b ∈ l) then Some (g b) else res_dict !! b.
Proof.
  revert res res_dict. induction l as [|a l IH]; intros res res_dict; cbv zeta.
  - cbn. split; [by rewrite app_nil_r|].
    intros b. rewrite decide_False by apply not_elem_of_nil. reflexivity.
  - cbn [fold_left fst snd].
    destruct (IH (res ++ [g a]) (<[a := g a]> res_dict)) as [E1 E2].
    split.
    + rewrite E1, <- app_assoc. reflexivity.
    + intros b. rewrite E2.
      destruct (decide (b ∈ l)) as [Hb|Hb].
      * rewrite decide_True by (by right). reflexivity.
      * destruct (decide (b = a)) as [->|Hba].
        -- rewrite lookup_insert_eq, decide_True by left. reflexivity.
        -- rewrite lookup_insert_ne by congruence.
           rewrite decide_False; [reflexivity|].
           intros [?|?]%elem_of_cons; congruence.
Qed.

Section ExtractGridFacts.
Context {F : Type} `{Numeric F} `{Comparison F}.
Variables (mp0 mp1 mp2 l0 l1 l2 : Z).
Hypothesis (Hmp0 : 0 < mp0) (Hmp1 : 0 < mp1) (Hmp2 : 0 < mp2).
Hypothesis (Hl0 : 0 < l0) (Hl1 : 0 < l1) (Hl2 : 0 < l2).
Variables (cell_a coords : matrix F).
Hypothesis (Hcell : has_shape 3 3 cell_a).
Hypothesis
  (Hcoords : has_shape (np_prod (mp0 * l0, mp1 * l1, mp2 * l2)) 3 coords).

Let mesh_prim : triple := (mp0, mp1, mp2).
Let Ls : triple := (l0, l1, l2).
Let mesh : triple := (mp0 * l0, mp1 * l1, mp2 * l2).

Lemma entry_at i j :
  0 ≤ i < 3 → 0 ≤ j < 3 → entry cell_a i j = inr (mat_at cell_a i j).
Proof.
  intros Hi Hj. unfold entry, mat_at.
  destruct (mat_get_is_Some 3 3 cell_a i j Hcell Hi Hj) as [x ->].
  reflexivity.
Qed.

Lemma grid_block_box bx by_ bz :
  (bx, by_, bz) ∈ cells Ls →
  grid_block mesh coords (bx * mp0, (bx + 1) * mp0)
    (by_ * mp1, (by_ + 1) * mp1) (bz * mp2, (bz + 1) * mp2)
  = box_points mesh_prim Ls coords (bx, by_, bz).
Proof.
  intros Hb. apply elem_of_cells in Hb. cbn [Ls fst snd] in Hb.
  unfold grid_block, box_points. subst mesh mesh_prim Ls. cbn [fst snd].
  rewrite !slice_indices_in_range by nia.
  replace ((bx + 1) * mp0) with (bx * mp0 + mp0) by lia.
  replace ((by_ + 1) * mp1) with (by_ * mp1 + mp1) by lia.
  replace ((bz + 1) * mp2) with (bz * mp2 + mp2) by lia.
  rewrite !range2_shift. unfold cells.
  rewrite bind_fmap_l. symmetry.
  apply fmap_bind_ext; intros x _.
  rewrite bind_fmap_l. apply fmap_bind_ext; intros y _.
  rewrite bind_fmap_l. apply fmap_bind_ext; intros z _.
  cbn. do 4 f_equal; lia.
Qed.

Lemma prim_grid_box :
  grid_block mesh coords (0, mp0) (0, mp1) (0, mp2)
  = box_points mesh_prim Ls coords (0, 0, 0).
Proof.
  rewrite <- grid_block_box
    by (apply elem_of_cells; cbn [Ls fst snd]; lia).
  do 3 f_equal; f_equal; lia.
Qed.

Lemma extract_guards :
  diagonal cell_a
  ∨ ¬ diagonal cell_a
    ∧ ∀ m L c,
        _extract_grid_primitive_cell cell_a m L c = inl Raised_AssertionError.
Proof.
  destruct (feqb (mat_at cell_a 0 1) f0) eqn:E01,
    (feqb (mat_at cell_a 0 2) f0) eqn:E02,
    (feqb (mat_at cell_a 1 0) f0) eqn:E10,
    (feqb (mat_at cell_a 1 2) f0) eqn:E12,
    (feqb (mat_at cell_a 2 0) f0) eqn:E20,
    (feqb (mat_at cell_a 2 1) f0) eqn:E21.
  1:{ left. intros i j Hi Hj Hij.
      assert (Ci : i = 0 ∨ i = 1 ∨ i = 2) by lia.
      assert (Cj : j = 0 ∨ j = 1 ∨ j = 2) by lia.
      destruct Ci as [-> | [-> | ->]], Cj as [-> | [-> | ->]];
        (assumption || lia). }
  all: right; split;
    [ intros Hd;
      repeat match goal with
             | E : feqb (mat_at cell_a ?i ?j) f0 = false |- _ =>
                 rewrite Hd in E by lia; discriminate
             end
    | intros m L c; unfold _extract_grid_primitive_cell;
      rewrite !entry_at by lia; cbn [and_then];
      rewrite ?E01, ?E02, ?E10, ?E12, ?E20, ?E21; reflexivity ].
Qed.

Lemma extract_returns r :
  diagonal cell_a →
  _extract_grid_primitive_cell cell_a mesh Ls coords = inr r
  ↔ (∀ b p, b ∈ cells Ls → p ∈ cells mesh_prim →
       shift_checked cell_a mesh_prim Ls coords b p)
    ∧ r = (let st :=
             fold_left
               (λ st b,
                  (st.1 ++ [box_points mesh_prim Ls coords b],
                   <[b := box_points mesh_prim Ls coords b]> st.2))
               (cells Ls) ([], ∅) in
           (mjoin st.1, st.2)).
Proof.
  intros Hd. unfold _extract_grid_primitive_cell.
  rewrite !entry_at by lia.
  repeat (cbn [and_then assert_that]; rewrite Hd by lia).
  cbn [and_then assert_that].
  destruct Hcoords as [Hlen Hrows].
  rewrite bool_decide_eq_true_2 by (unfold mesh; lia).
  unfold mesh, Ls. cbv iota beta.
  rewrite bool_decide_eq_true_2.
  2:{ repeat split; try lia.
      eapply Forall_impl; [exact Hrows|]. cbn. intros; lia. }
  cbn [negb].
  unfold np_mod. rewrite !(proj2 (Z.eqb_neq _ _)) by lia.
  rewrite !Z_mod_mult, !Z.div_mul by lia.
  rewrite bool_decide_eq_true_2 by reflexivity. cbn [and_then assert_that].
  set (pt := λ p b : triple,
         coords !!! Z.to_nat (translation_image mesh_prim (l0, l1, l2) p b)).
  set (checks := λ b : triple,
         for_raised
           ((λ p, zip_with fsub (pt p b) (pt p (0, 0, 0))) <$> cells mesh_prim)
           (λ shift _,
              check_shift cell_a shift
                (shift_bench (mat_at cell_a 0 0) (mat_at cell_a 1 1)
                   (mat_at cell_a 2 2) (l0, l1, l2) b)) tt).
  set (g := λ (b : triple) (st : list (matrix F) * gmap triple (matrix F)),
         (st.1 ++ [box_points mesh_prim (l0, l1, l2) coords b],
          <[b := box_points mesh_prim (l0, l1, l2) coords b]> st.2)).
  lazymatch goal with
  | |- context [for_raised (cells ?L) ?body ?s] =>
      rewrite (for_raised_ext_in (cells L) body
                 (λ b st, and_then (checks b) (λ _, inr (g b st))) s)
  end.
  2:{ intros [[ix iy] iz] [res res_dict] Hb.
      fold mesh.
      rewrite grid_block_box, prim_grid_box by exact Hb.
      unfold checks, g, box_points. rewrite zip_with_fmap_same.
      reflexivity. }
  destruct (for_raised (cells (l0, l1, l2))
              (λ b st, and_then (checks b) (λ _, inr (g b st))) ([], ∅))
    as [e|st] eqn:E; cbn [and_then].
  - split; [intros [=]|]. intros [Hc _].
    assert (E' : for_raised (cells (l0, l1, l2))
              (λ b st, and_then (checks b) (λ _, inr (g b st))) ([], ∅)
              = inr (fold_left (λ s a, g a s) (cells (l0, l1, l2)) ([], ∅))).
    { apply for_raised_guarded. split; [|reflexivity].
      apply Forall_forall. intros b Hb. apply for_raised_checks.
      apply Forall_fmap, Forall_forall. intros p Hp. exact (Hc b p Hb Hp). }
    congruence.
  - apply for_raised_guarded in E as [Hc ->].
    assert (Hc' : ∀ b p, b ∈ cells (l0, l1, l2) → p ∈ cells mesh_prim →
              shift_checked cell_a mesh_prim (l0, l1, l2) coords b p).
    { intros b p Hb Hp. rewrite Forall_forall in Hc.
      specialize (Hc b Hb). apply for_raised_checks in Hc.
      rewrite Forall_fmap, Forall_forall in Hc. exact (Hc p Hp). }
    clear Hc. subst g. cbv beta zeta.
    destruct (fold_left _ (cells (l0, l1, l2)) _) as [res res_dict].
    cbn [fst snd].
    split; [intros [= <-]; by split|intros [_ ->]; reflexivity].
Qed.

End ExtractGridFacts.

(** [_extract_grid_primitive_cell] on a supercell of [Ls] boxes of
    [mesh_prim] grid points each, with a 3 x 3 array of lattice vectors
    and the coordinates of the [prod(mesh)] grid points: it returns exactly
    when the lattice vectors are diagonal and every point of every box
    passes the check of its shift against the point of the first box.
    What it returns is then fixed by the grid alone: the dict has the
    boxes of [Ls] as its keys, the box [b] holding the points
    [coords[translation_image p b]] in the order of the points [p] of the
    primitive cell; the array is these blocks one after the other in the
    order of the boxes, and it is a rearrangement of [coords]. *)
Theorem extract_grid_primitive_cell_spec {F : Type} `{Numeric F}
    `{Comparison F} (cell_a coords : matrix F) mp0 mp1 mp2 l0 l1 l2 :
  0 < mp0 → 0 < mp1 → 0 < mp2 → 0 < l0 → 0 < l1 → 0 < l2 →
  has_shape 3 3 cell_a →
  has_shape (np_prod (mp0 * l0, mp1 * l1, mp2 * l2)) 3 coords →
  let mesh_prim := (mp0, mp1, mp2) in
  let Ls := (l0, l1, l2) in
  let mesh := (mp0 * l0, mp1 * l1, mp2 * l2) in
  ((∃ r, _extract_grid_primitive_cell cell_a mesh Ls coords = inr r)
   ↔ diagonal cell_a
     ∧ ∀ b p, b ∈ cells Ls → p ∈ cells mesh_prim →
         shift_checked cell_a mesh_prim Ls coords b p)
  ∧ ∀ res res_dict,
      _extract_grid_primitive_cell cell_a mesh Ls coords
      = inr (res, res_dict) →
      (∀ b, res_dict !! b
            = if decide (b ∈ cells Ls)
              then Some (box_points mesh_prim Ls coords b) else None)
      ∧ res = cells Ls ≫= box_points mesh_prim Ls coords
      ∧ res ≡ₚ coords.
Proof.
  intros Hmp0 Hmp1 Hmp2 Hl0 Hl1 Hl2 Hcell Hcoords mesh_prim Ls mesh.
  pose proof (λ r, extract_returns mp0 mp1 mp2 l0 l1 l2 Hmp0 Hmp1 Hmp2
                     Hl0 Hl1 Hl2 cell_a coords Hcell Hcoords r) as Hrun.
  subst mesh_prim Ls mesh. cbv zeta in Hrun.
  destruct (extract_guards cell_a Hcell) as [Hd|[Hnd Hf]].
  2:{ split.
      - split; [intros [r Hr]; rewrite Hf in Hr; discriminate|].
        intros [Hd _]. contradiction.
      - intros res res_dict Hr. rewrite Hf in Hr. discriminate. }
  split.
  - split.
    + intros [r Hr]. apply Hrun in Hr as [Hc _]; [|exact Hd]. by split.
    + intros [_ Hc]. eexists. apply Hrun; [exact Hd|].
      split; [exact Hc|reflexivity].
  - intros res res_dict Hr. apply Hrun in Hr as [_ Hr]; [|exact Hd].
    destruct (fold_left_blocks
                (box_points (mp0, mp1, mp2) (l0, l1, l2) coords)
                (cells (l0, l1, l2)) [] ∅) as [E1 E2].
    apply pair_equal_spec in Hr as [-> ->]. rewrite E1. cbn [app].
    rewrite mjoin_fmap_bind.
    split; [intros b; rewrite E2; destruct (decide (b ∈ cells (l0, l1, l2)));
            [reflexivity|apply lookup_empty]|].
    split; [reflexivity|].
    transitivity
      ((λ g, coords !!! Z.to_nat g)
         <$> (b ← cells (l0, l1, l2);
              (λ p, translation_image (mp0, mp1, mp2) (l0, l1, l2) p b)
                <$> cells (mp0, mp1, mp2))).
    { apply Permutation_refl'. symmetry. apply fmap_bind_ext.
      intros b _. unfold box_points. rewrite <- list_fmap_compose.
      reflexivity. }
    rewrite translation_images_Permutation by assumption.
    destruct Hcoords as [<- _]. rewrite lookups_range. reflexivity.
Qed.

Lemma extract_grid_primitive_cell_spec_witness :
  ((∃ r, _extract_grid_primitive_cell example_cell_a (2, 2, 1) (2, 1, 1)
           example_grid_coords = inr r)
   ↔ diagonal example_cell_a
     ∧ ∀ b p, b ∈ cells (2, 1, 1) → p ∈ cells (1, 2, 1) →
         shift_checked example_cell_a (1, 2, 1) (2, 1, 1)
           example_grid_coords b p)
  ∧ ∀ res res_dict,
      _extract_grid_primitive_cell example_cell_a (2, 2, 1) (2, 1, 1)
        example_grid_coords = inr (res, res_dict) →
      (∀ b, res_dict !! b
            = if decide (b ∈ cells (2, 1, 1))
              then Some (box_points (1, 2, 1) (2, 1, 1)
                           example_grid_coords b)
              else None)
      ∧ res = cells (2, 1, 1)
                ≫= box_points (1, 2, 1) (2, 1, 1) example_grid_coords
      ∧ res ≡ₚ example_grid_coords.
Proof.
  apply (extract_grid_primitive_cell_spec (F:=float) example_cell_a
           example_grid_coords 1 2 1 2 1 1); try lia;
    (split; [reflexivity|repeat constructor]).
Defined.

(** *** The atoms of the supercell ([build_supercell]) *)

Section BuildSupercellFacts.
Context {F : Type} `{Numeric F} `{Comparison F} {Sym : Type}.
Variables (prim_a : matrix F) (prim_atm : list (atom (F:=F) (Sym:=Sym))).
Hypothesis (Hcell : has_shape 3 3 prim_a).

Lemma build_supercell_atoms Ls :
  loop_cells Ls (λ box atm,
    fold_left (λ atm atom, atm ++ [translated_atom prim_a box atom])
      prim_atm atm) []
  = b ← cells Ls; translated_atom prim_a b <$> prim_atm.
Proof.
  rewrite loop_cells_flat.
  rewrite (fold_left_ext _
             (λ atm b, atm ++ (translated_atom prim_a b <$> prim_atm))).
  - apply (fold_left_app_bind _ (cells Ls) []).
  - intros atm b.
    rewrite (fold_left_app_bind (λ a, [translated_atom prim_a b a])).
    by rewrite bind_singleton_fmap.
Qed.

Lemma build_supercell_guards Ls :
  diagonal prim_a
  ∧ build_supercell prim_atm prim_a Ls
    = inr ((λ row, zip_with fmul row
                     [of_int Ls.1.1; of_int Ls.1.2; of_int Ls.2]) <$> prim_a,
           b ← cells Ls; translated_atom prim_a b <$> prim_atm)
  ∨ ¬ diagonal prim_a
    ∧ build_supercell prim_atm prim_a Ls = inl Raised_AssertionError.
Proof.
  destruct (feqb (mat_at prim_a 0 1) f0) eqn:E01,
    (feqb (mat_at prim_a 0 2) f0) eqn:E02,
    (feqb (mat_at prim_a 1 0) f0) eqn:E10,
    (feqb (mat_at prim_a 1 2) f0) eqn:E12,
    (feqb (mat_at prim_a 2 0) f0) eqn:E20,
    (feqb (mat_at prim_a 2 1) f0) eqn:E21.
  1:{ left. split.
      - intros i j Hi Hj Hij.
        assert (Ci : i = 0 ∨ i = 1 ∨ i = 2) by lia.
        assert (Cj : j = 0 ∨ j = 1 ∨ j = 2) by lia.
        destruct Ci as [-> | [-> | ->]], Cj as [-> | [-> | ->]];
          (assumption || lia).
      - unfold build_supercell.
        rewrite !(entry_at prim_a Hcell) by lia. cbn [and_then].
        rewrite E01, E02, E10, E12, E20, E21. cbn [and_then assert_that].
        destruct Ls as [[l0 l1] l2].
        rewrite bool_decide_eq_true_2.
        2:{ destruct Hcell as [_ Hrows].
            eapply Forall_impl; [exact Hrows|]. cbn. intros; lia. }
        cbn [negb fst snd]. rewrite build_supercell_atoms. reflexivity. }
  all: right; split;
    [ intros Hd;
      repeat match goal with
             | E : feqb (mat_at prim_a ?i ?j) f0 = false |- _ =>
                 rewrite Hd in E by lia; discriminate
             end
    | unfold build_supercell;
      rewrite !(entry_at prim_a Hcell) by lia; cbn [and_then];
      rewrite ?E01, ?E02, ?E10, ?E12, ?E20, ?E21; reflexivity ].
Qed.

End BuildSupercellFacts.

(** [build_supercell] on a 3 x 3 array [prim_a] and positive counts [Ls]:
    it gets as far as [Cell.build] exactly when [prim_a] is diagonal, and
    raises AssertionError when it is not.  The
    lattice vectors it then sets have the diagonal of [prim_a] scaled by
    [Ls]; the atoms it sets are [prod(Ls)] copies of the atoms of the
    primitive cell, box after box in the order of the boxes: the atom [k]
    of the box [b] is at the index [ravel(Ls, b) * len(prim_atm) + k], with
    the symbol of the atom [k] and its position moved by [b] lattice
    vectors of the primitive cell. *)
Theorem build_supercell_spec {F Sym : Type} `{Numeric F} `{Comparison F}
    (prim_atm : list (atom (F:=F) (Sym:=Sym))) (prim_a : matrix F)
    l0 l1 l2 :
  has_shape 3 3 prim_a → 0 < l0 → 0 < l1 → 0 < l2 →
  let Ls := (l0, l1, l2) in
  ((∃ r, build_supercell prim_atm prim_a Ls = inr r) ↔ diagonal prim_a)
  ∧ (¬ diagonal prim_a →
     build_supercell prim_atm prim_a Ls = inl Raised_AssertionError)
  ∧ ∀ a atm,
      build_supercell prim_atm prim_a Ls = inr (a, atm) →
      has_shape 3 3 a
      ∧ mat_at a 0 0 = fmul (mat_at prim_a 0 0) (of_int l0)
      ∧ mat_at a 1 1 = fmul (mat_at prim_a 1 1) (of_int l1)
      ∧ mat_at a 2 2 = fmul (mat_at prim_a 2 2) (of_int l2)
      ∧ Z.of_nat (length atm) = np_prod Ls * Z.of_nat (length prim_atm)
      ∧ ∀ b k at_k,
          b ∈ cells Ls → prim_atm !! k = Some at_k →
          atm !! (Z.to_nat (ravel Ls b) * length prim_atm + k)%nat
          = Some (translated_atom prim_a b at_k).
Proof.
  intros Hcell Hl0 Hl1 Hl2 Ls.
  destruct (build_supercell_guards prim_a prim_atm Hcell Ls)
    as [[Hd Hr]|[Hnd Hr]]; rewrite Hr.
  2:{ split; [split; [intros [r [=]]|intros; contradiction]|].
      split; [reflexivity|]. intros a atm [=]. }
  split; [split; [intros _; exact Hd|intros _; by eexists]|].
  split; [intros Hnd; contradiction|].
  intros a atm E. apply (inj inr), pair_equal_spec in E as [<- <-].
  subst Ls. cbn [fst snd].
  assert (Hrow : ∀ i, 0 ≤ i < 3 →
            ∃ x y z, prim_a !! Z.to_nat i = Some [x; y; z]).
  { intros i Hi. destruct (has_shape_lookup _ _ _ _ Hcell Hi)
      as ([|x [|y [|z [|? ?]]]] & Hrow & Hlen); cbn in Hlen; try lia.
    by exists x, y, z. }
  split; [|split; [|split; [|split; [|split]]]].
  - destruct Hcell as [Hlen Hrows]. split; [by rewrite length_fmap|].
    apply Forall_fmap. eapply Forall_impl; [exact Hrows|].
    intros [|x [|y [|z [|? ?]]]]; cbn; intros; lia.
  - destruct (Hrow 0) as (x & y & z & E); [lia|].
    unfold mat_at, mat_get. rewrite decide_True by lia.
    rewrite list_lookup_fmap, E. reflexivity.
  - destruct (Hrow 1) as (x & y & z & E); [lia|].
    unfold mat_at, mat_get. rewrite decide_True by lia.
    rewrite list_lookup_fmap, E. reflexivity.
  - destruct (Hrow 2) as (x & y & z & E); [lia|].
    unfold mat_at, mat_get. rewrite decide_True by lia.
    rewrite list_lookup_fmap, E. reflexivity.
  - rewrite (length_bind_const _ _ (length prim_atm))
      by (intros; apply length_fmap).
    rewrite length_cells.
    2:{ intros E. assert (Hin : (0, 0, 0) ∈ cells (l0, l1, l2))
          by (apply elem_of_cells; cbn; lia).
        rewrite E in Hin. inversion Hin. }
    assert (0 ≤ np_prod (l0, l1, l2)) by (cbn; nia). nia.
  - intros b k at_k Hb Hk.
    rewrite (lookup_bind_const _ _ (length prim_atm))
      by ((intros; apply length_fmap) || (by eapply lookup_lt_Some)).
    rewrite cells_lookup_ravel by exact Hb. cbn.
    rewrite list_lookup_fmap, Hk. reflexivity.
Qed.

Lemma build_supercell_spec_witness :
  ((∃ r, build_supercell example_prim_atm example_cell_a (2, 1, 2) = inr r)
   ↔ diagonal example_cell_a)
  ∧ (¬ diagonal example_cell_a →
     build_supercell example_prim_atm example_cell_a (2, 1, 2)
     = inl Raised_AssertionError)
  ∧ ∀ a atm,
      build_supercell example_prim_atm example_cell_a (2, 1, 2)
      = inr (a, atm) →
      has_shape 3 3 a
      ∧ mat_at a 0 0 = fmul (mat_at example_cell_a 0 0) (of_int 2)
      ∧ mat_at a 1 1 = fmul (mat_at example_cell_a 1 1) (of_int 1)
      ∧ mat_at a 2 2 = fmul (mat_at example_cell_a 2 2) (of_int 2)
      ∧ Z.of_nat (length atm)
        = np_prod (2, 1, 2) * Z.of_nat (length example_prim_atm)
      ∧ ∀ b k at_k,
          b ∈ cells (2, 1, 2) → example_prim_atm !! k = Some at_k →
          atm !! (Z.to_nat (ravel (2, 1, 2)%Z b) * length example_prim_atm
                  + k)%nat
          = Some (translated_atom example_cell_a b at_k).
Proof.
  apply (build_supercell_spec example_prim_atm example_cell_a 2 1 2);
    try lia.
  split; [reflexivity|repeat constructor].
Defined.

(** *** Which block of [aux_basis] holds what ([_construct_aux_basis_kSym]) *)

Section AuxBasisFacts.
Context {B : Type}.
Variables (solve : Z → B) (permutation_conj : Z → B → B).
Variables (l0 l1 l2 : Z).
Hypothesis (Hl0 : 0 < l0) (Hl1 : 0 < l1) (Hl2 : 0 < l2).

Let Ls : triple := (l0, l1, l2).
Let h : triple := half_lattice Ls.
Let refl (c : triple) : triple := cell_reflect Ls (0, 0, 0) c.
Let r (c : triple) : Z := ravel h c.
Let R (c : triple) : nat := Z.to_nat (ravel Ls c).

Lemma half_lattice_in c : c ∈ cells h → c ∈ cells Ls.
Proof.
  destruct c as [[x y] z]. subst h Ls. cbn [half_lattice].
  rewrite !elem_of_cells. cbn [fst snd].
  pose proof (Z.div_mod l2 2). pose proof (Z.mod_pos_bound l2 2). lia.
Qed.

Lemma R_inj c d : c ∈ cells Ls → d ∈ cells Ls → R c = R d → c = d.
Proof.
  intros Hc Hd E. apply (ravel_inj Ls); [assumption..|].
  pose proof (ravel_bounds _ _ Hc). pose proof (ravel_bounds _ _ Hd).
  subst R. cbv beta in E. lia.
Qed.

Lemma R_bound c : c ∈ cells Ls → (R c < Z.to_nat (np_prod Ls))%nat.
Proof.
  intros Hc. pose proof (ravel_bounds _ _ Hc). subst R. cbv beta. lia.
Qed.

Lemma refl_in c : c ∈ cells Ls → refl c ∈ cells Ls.
Proof. apply cell_reflect_in. Qed.

Lemma refl_invol c : c ∈ cells Ls → refl (refl c) = c.
Proof. apply cell_reflect_invol. Qed.

Lemma refl_visited c :
  c ∈ cells Ls → ¬ stored_directly Ls c → refl c ∈ cells h ∧ refl c ≠ c.
Proof.
  intros Hc Hn. unfold stored_directly in Hn. fold h refl in Hn.
  destruct (decide (c ∈ cells h)) as [Hh|Hh].
  - destruct (decide (refl c ∈ cells h)) as [Hr|Hr]; [|tauto].
    split; [exact Hr|]. intros E. apply Hn.
    split; [exact Hh|]. intros _. change (r (refl c) ≤ r c).
    rewrite E. lia.
  - assert (Hr : refl c ∈ cells h).
    { destruct c as [[x y] z].
      pose proof (refl_in _ Hc) as Hrc. revert Hc Hh Hrc.
      subst refl h Ls. cbn [half_lattice cell_reflect].
      rewrite !elem_of_cells. cbn [fst snd]. intros Hc Hh Hrc.
      pose proof (Z.div_mod l2 2). pose proof (Z.mod_pos_bound l2 2).
      assert (Hz : l2 / 2 + 1 ≤ z) by lia.
      assert (E : (l2 - z - 0) mod l2 = l2 - z)
        by (rewrite Z.mod_small; lia).
      rewrite E. lia. }
    split; [exact Hr|]. intros E. rewrite E in Hr. contradiction.
Qed.


Let in_done (k : Z) (c : triple) : Prop := c ∈ cells h ∧ r c < k.

Let Inv (k : Z) (aux : list B) : Prop :=
  length aux = Z.to_nat (np_prod Ls)
  ∧ ∀ c, c ∈ cells Ls →
      (in_done k c ∧ (in_done k (refl c) → r (refl c) ≤ r c) →
       aux !! R c = Some (solve (r c)))
      ∧ (in_done k (refl c) ∧ refl c ≠ c ∧ (in_done k c → r c < r (refl c)) →
         aux !! R c
         = Some (permutation_conj (perm_id_of (refl c)) (solve (r (refl c))))).

Lemma in_done_succ k x d :
  x ∈ cells h → r x = k → in_done (k + 1) d ↔ in_done k d ∨ d = x.
Proof.
  intros Hx Hk. unfold in_done. split.
  - intros [Hd Hlt]. destruct (decide (r d = k)) as [E|E].
    + right. apply (ravel_inj h); [assumption..|]. unfold r in *. lia.
    + left. split; [exact Hd|lia].
  - intros [[Hd Hlt]| ->]; (split; [assumption|lia]).
Qed.

Lemma step_update k aux x :
  x ∈ cells h → r x = k → Inv k aux →
  Inv (k + 1)
    (if decide (refl x = x) then <[R x := solve k]> aux
     else <[R (refl x) := permutation_conj (perm_id_of x) (solve k)]>
            (<[R x := solve k]> aux)).
Proof.
  intros Hx Hk [Hlen HI].
  pose proof (half_lattice_in _ Hx) as HxL.
  pose proof (refl_in _ HxL) as Hx'L.
  pose proof (R_bound _ HxL) as HRx. pose proof (R_bound _ Hx'L) as HRx'.
  split.
  { destruct (decide (refl x = x)); rewrite ?length_insert; exact Hlen. }
  intros c Hc. destruct (HI c Hc) as [HD HC].
  pose proof (refl_invol _ Hc) as Hcc.
  split.
  - intros [Hin Hle]. destruct (decide (c = x)) as [->|Hcx].
    + rewrite Hk. destruct (decide (refl x = x)) as [E|E].
      * apply list_lookup_insert_eq. lia.
      * rewrite list_lookup_insert_ne
          by (intros E'; apply E, R_inj; assumption).
        apply list_lookup_insert_eq. lia.
    + apply (proj1 (in_done_succ k x c Hx Hk)) in Hin as [Hin| ->];
        [|contradiction].
      assert (Hrx : refl c ≠ x).
      { intros E. assert (Hd : in_done (k + 1) (refl c))
          by (apply (in_done_succ k x); auto).
        specialize (Hle Hd). rewrite E in Hle. destruct Hin. lia. }
      assert (Hcx' : c ≠ refl x) by (intros ->; apply Hrx, refl_invol, HxL).
      assert (Hold : aux !! R c = Some (solve (r c))).
      { apply HD. split; [exact Hin|]. intros Hd. apply Hle.
        apply (in_done_succ k x); auto. }
      destruct (decide (refl x = x)).
      * rewrite list_lookup_insert_ne; [exact Hold|].
        intros E'. apply Hcx. symmetry. by apply R_inj.
      * rewrite !list_lookup_insert_ne; [exact Hold|..];
          intros E'; [apply Hcx|apply Hcx']; symmetry; by apply R_inj.
  - intros (Hin & Hne & Hlt). destruct (decide (refl c = x)) as [E|E].
    + assert (Ec : c = refl x) by (rewrite <- E; symmetry; exact Hcc).
      rewrite E, Hk.
      destruct (decide (refl x = x)) as [E'|E'];
        [exfalso; apply Hne; congruence|].
      rewrite Ec. apply list_lookup_insert_eq. rewrite length_insert. lia.
    + apply (proj1 (in_done_succ k x (refl c) Hx Hk)) in Hin as [Hin|?];
        [|contradiction].
      assert (Hcx : c ≠ x).
      { intros ->. assert (Hd : in_done (k + 1) x)
          by (apply (in_done_succ k x); auto).
        specialize (Hlt Hd). destruct Hin. lia. }
      assert (Hcx' : c ≠ refl x) by (intros ->; apply E, refl_invol, HxL).
      assert (Hold : aux !! R c
                = Some (permutation_conj (perm_id_of (refl c))
                          (solve (r (refl c))))).
      { apply HC. split; [exact Hin|]. split; [exact Hne|].
        intros Hd. apply Hlt. apply (in_done_succ k x); auto. }
      destruct (decide (refl x = x)).
      * rewrite list_lookup_insert_ne; [exact Hold|].
        intros E'. apply Hcx. symmetry. by apply R_inj.
      * rewrite !list_lookup_insert_ne; [exact Hold|..];
          intros E'; [apply Hcx|apply Hcx']; symmetry; by apply R_inj.
Qed.


Lemma refl_components ix iy iz :
  refl (ix, iy, iz) = ((l0 - ix) mod l0, (l1 - iy) mod l1, (l2 - iz) mod l2).
Proof.
  unfold refl, Ls. cbn [cell_reflect]. by rewrite !Z.sub_0_r.
Qed.

Lemma self_reflection_test ix iy iz :
  bool_decide ((l0 - ix) mod l0 = ix) && bool_decide ((l1 - iy) mod l1 = iy)
  && bool_decide ((l2 - iz) mod l2 = iz)
  = bool_decide (refl (ix, iy, iz) = (ix, iy, iz)).
Proof.
  rewrite refl_components. apply Bool.eq_iff_eq_true.
  rewrite !andb_true_iff, !bool_decide_eq_true.
  split; [intros [[E1 E2] E3]; congruence|intros [= E1 E2 E3]; auto].
Qed.

Lemma perm_id_chain ix iy iz :
  (let perm_id := 0 in
   let perm_id := if bool_decide (ix ≠ 0) then perm_id + 4 else perm_id in
   let perm_id := if bool_decide (iy ≠ 0) then perm_id + 2 else perm_id in
   if bool_decide (iz ≠ 0) then perm_id + 1 else perm_id)
  = perm_id_of (ix, iy, iz).
Proof.
  unfold perm_id_of. cbv zeta.
  destruct (bool_decide (ix ≠ 0)), (bool_decide (iy ≠ 0)),
    (bool_decide (iz ≠ 0)); reflexivity.
Qed.

Lemma construct_aux_basis_kSym_loop_run aux0 :
  length aux0 = Z.to_nat (np_prod Ls) →
  ∃ filled,
    _construct_aux_basis_kSym_loop solve permutation_conj Ls aux0
    = Some filled
    ∧ Inv (np_prod h) filled.
Proof.
  intros Hlen. unfold _construct_aux_basis_kSym_loop, Ls.
  rewrite for_cells_flat. fold Ls. change (l0, l1, l2 / 2 + 1) with h.
  match goal with
  | |- context [for_ ?l ?b ?s] =>
      destruct (for_invariant
                  (λ done st, st.1 = Z.of_nat (length done) ∧ Inv st.1 st.2)
                  l b s) as ([i filled] & Hrun & Hi & HInv)
  end.
  - cbn [fst snd length]. split; [reflexivity|]. split; [exact Hlen|].
    intros c Hc. split.
    + intros [[Hd Hlt] _]. pose proof (ravel_bounds _ _ Hd). unfold r in Hlt.
      lia.
    + intros ([Hd Hlt] & _). pose proof (ravel_bounds _ _ Hd).
      unfold r in Hlt. lia.
  - intros done [[ix iy] iz] todo [i aux] Hsplit [Hi HInv].
    cbn [fst snd] in Hi, HInv.
    assert (Hx : (ix, iy, iz) ∈ cells h).
    { rewrite Hsplit. apply elem_of_app. right. left. }
    assert (Hk : r (ix, iy, iz) = i).
    { rewrite Hi. symmetry. exact (cells_prefix_length _ _ _ _ Hsplit). }
    pose proof (half_lattice_in _ Hx) as HxL.
    pose proof (R_bound _ HxL) as HRx.
    pose proof (R_bound _ (refl_in _ HxL)) as HRx'.
    pose proof (step_update i aux _ Hx Hk HInv) as HS.
    destruct HInv as [Hlen' _].
    pose proof (ravel_bounds _ _ HxL) as Hb.
    pose proof (ravel_bounds _ _ (refl_in _ HxL)) as Hb'.
    unfold refl in Hb'. fold (refl (ix, iy, iz)) in Hb'.
    rewrite refl_components in Hb', HRx'.
    unfold R, Ls in HRx, HRx', Hb, Hb', Hlen'.
    cbn [ravel np_prod] in HRx, HRx', Hb, Hb', Hlen'.
    destruct (decide (refl (ix, iy, iz) = (ix, iy, iz))) as [E|E].
    + eexists. split.
      { unfold assign_columns. rewrite decide_True by lia.
        cbn [mbind option_bind].
        rewrite self_reflection_test, bool_decide_eq_true_2 by exact E.
        reflexivity. }
      cbn [fst snd].
      split; [rewrite length_app; cbn [length]; lia|exact HS].
    + eexists. split.
      { unfold assign_columns. rewrite decide_True by lia.
        cbn [mbind option_bind].
        rewrite self_reflection_test, bool_decide_eq_false_2 by exact E.
        rewrite decide_True
          by (rewrite length_insert; lia).
        cbn [mbind option_bind]. reflexivity. }
      cbn [fst snd].
      split; [rewrite length_app; cbn [length]; lia|].
      rewrite refl_components in HS.
      match goal with
      | |- context [permutation_conj ?p (solve i)] =>
          replace p with (perm_id_of (ix, iy, iz))
            by (unfold perm_id_of;
                destruct (bool_decide (ix ≠ 0)), (bool_decide (iy ≠ 0)),
                  (bool_decide (iz ≠ 0)); reflexivity)
      end.
      exact HS.
  - cbn [fst snd] in Hi, HInv. rewrite Hrun. cbn [fmap option_fmap option_map snd].
    exists filled. split; [reflexivity|].
    replace (np_prod h) with i; [exact HInv|].
    rewrite Hi.
    assert (H0 : (0, 0, 0) ∈ cells h).
    { unfold h, Ls. cbn [half_lattice]. apply elem_of_cells. cbn [fst snd].
      pose proof (Z.div_pos l2 2). lia. }
    rewrite length_cells by (intros E; rewrite E in H0; inversion H0).
    pose proof (ravel_bounds _ _ H0). lia.
Qed.

End AuxBasisFacts.

(** The loop of [_construct_aux_basis_kSym] on positive counts [Ls] and an
    [aux_basis] of [prod(Ls)] blocks runs through and fills every block.
    The block of a cell [c] ends up with the solution of [c] itself,
    taken at the counter [i] that is the index of [c] in half of the
    lattice, when [c] is visited and its reflected cell [(Ls - c) % Ls] is
    not visited or not after [c]; every other block ends up with the
    conjugate of the solution of the reflected cell, which is then visited
    and differs from [c], permuted by [permutation[perm_id]] with
    [perm_id] counting the non-zero components of the reflected cell. *)
Theorem construct_aux_basis_kSym_blocks {B : Type} (solve : Z → B)
    (permutation_conj : Z → B → B) l0 l1 l2 (aux_basis : list B) :
  0 < l0 → 0 < l1 → 0 < l2 →
  Z.of_nat (length aux_basis) = np_prod (l0, l1, l2) →
  let Ls := (l0, l1, l2) in
  ∃ filled,
    _construct_aux_basis_kSym_loop solve permutation_conj Ls aux_basis
    = Some filled
    ∧ length filled = length aux_basis
    ∧ ∀ c, c ∈ cells Ls →
        let c' := cell_reflect Ls (0, 0, 0) c in
        if decide (stored_directly Ls c)
        then filled !! Z.to_nat (ravel Ls c)
             = Some (solve (ravel (half_lattice Ls) c))
        else c' ∈ cells (half_lattice Ls) ∧ c' ≠ c
             ∧ filled !! Z.to_nat (ravel Ls c)
               = Some (permutation_conj (perm_id_of c')
                         (solve (ravel (half_lattice Ls) c'))).
Proof.
  intros Hl0 Hl1 Hl2 Hlen Ls. subst Ls.
  destruct (construct_aux_basis_kSym_loop_run solve permutation_conj
              l0 l1 l2 Hl0 Hl1 Hl2 aux_basis)
    as (filled & Hrun & Hfl & HI); [lia|].
  exists filled. split; [exact Hrun|]. split; [lia|].
  intros c Hc c'. destruct (HI c Hc) as [HD HC].
  assert (Hdone : ∀ d, d ∈ cells (half_lattice (l0, l1, l2)) →
            ravel (half_lattice (l0, l1, l2)) d < np_prod (half_lattice (l0, l1, l2))).
  { intros d Hd. apply ravel_bounds, Hd. }
  destruct (decide (stored_directly (l0, l1, l2) c)) as [[Hh Hle]|Hn].
  - apply HD. split; [split; [exact Hh|by apply Hdone]|].
    intros [Hh' _]. exact (Hle Hh').
  - destruct (refl_visited solve permutation_conj l0 l1 l2 c Hc Hn)
      as [Hh' Hne].
    split; [exact Hh'|]. split; [exact Hne|].
    apply HC. split; [split; [exact Hh'|by apply Hdone]|].
    split; [exact Hne|]. intros [Hh _].
    destruct (Z.lt_ge_cases (ravel (half_lattice (l0, l1, l2)) c)
                (ravel (half_lattice (l0, l1, l2)) c')) as [?|Hge]; [assumption|].
    exfalso. apply Hn. split; [exact Hh|]. intros _. exact Hge.
Qed.

Lemma construct_aux_basis_kSym_blocks_witness :
  ∃ filled,
    _construct_aux_basis_kSym_loop example_solve example_permutation_conj
      (1, 3, 4) (replicate 12 []) = Some filled
    ∧ length filled = length (replicate 12 ([] : list Z))
    ∧ ∀ c, c ∈ cells (1, 3, 4) →
        let c' := cell_reflect (1, 3, 4) (0, 0, 0) c in
        if decide (stored_directly (1, 3, 4) c)
        then filled !! Z.to_nat (ravel (1, 3, 4) c)
             = Some (example_solve (ravel (half_lattice (1, 3, 4)) c))
        else c' ∈ cells (half_lattice (1, 3, 4)) ∧ c' ≠ c
             ∧ filled !! Z.to_nat (ravel (1, 3, 4) c)
               = Some (example_permutation_conj (perm_id_of c')
                         (example_solve (ravel (half_lattice (1, 3, 4)) c'))).
Proof.
  apply (construct_aux_basis_kSym_blocks example_solve
           example_permutation_conj 1 3 4 (replicate 12 []));
    [lia|lia|lia|reflexivity].
Defined.

(** *** The blocks that [_permutate_K1_tmp1] moves *)

Lemma for_keep_invariant {A S : Type} (P : list A → S → Prop) (l : list A)
    (body : A → S → raised + S) (s : S) :
  P [] s →
  (∀ done x todo s1, l = done ++ x :: todo → P done s1 →
     ∃ s2, body x s1 = inr s2 ∧ P (done ++ [x]) s2) →
  ∃ s', for_keep l body s = (s', None) ∧ P l s'.
Proof.
  revert P s; induction l as [|x l IH]; intros P s H0 Hstep.
  - exists s; auto.
  - destruct (Hstep [] x l s eq_refl H0) as (s2 & Hb & HP).
    unfold for_keep. cbn [fold_left]. rewrite Hb.
    apply (IH (λ done s1, P (x :: done) s1) s2); [exact HP|].
    intros done y todo s1 -> HP1.
    apply (Hstep (x :: done) y todo s1); auto.
Qed.

Lemma length_mjoin_has_shape {F : Type} (r c : Z) (m : matrix F) :
  0 ≤ c → has_shape r c m → length (mjoin m) = Z.to_nat (r * c).
Proof.
  intros Hc [Hlen Hrows]. subst r.
  induction m as [|row m IH]; [reflexivity|].
  apply Forall_cons in Hrows as [Hrow Hrows].
  change (mjoin (row :: m)) with (row ++ mjoin m).
  rewrite length_app, (IH Hrows). cbn [length]. nia.
Qed.

Section PermutateK1Facts.
Context {F : Type} `{Numeric F}.
Variables (k0 k1 k2 n r : Z) (K : matrix F) (bx by_ bz : Z).
Hypothesis (Hk0 : 0 < k0) (Hk1 : 0 < k1) (Hk2 : 0 < k2).
Hypothesis (Hn : 0 ≤ n) (Hr : 0 < r).

Let kmesh : triple := (k0, k1, k2).
Let cols : Z := np_prod kmesh * n.

Hypothesis (HK : has_shape r cols K).
Hypothesis (Hbox : (bx, by_, bz) ∈ cells kmesh).

Lemma K_shape :
  Z.of_nat (length K) = r ∧ Z.of_nat (length (hd [] K)) = cols.
Proof.
  destruct HK as [Hlen Hrows]. split; [exact Hlen|].
  destruct K as [|row K']; [cbn in Hlen; lia|].
  apply Forall_cons in Hrows as [Hrow _]. exact Hrow.
Qed.

Lemma permutate_loop view0 :
  has_shape r cols view0 →
  ∃ loc P,
    for_keep (cells kmesh) (λ c st,
      let '(i, j, k) := c in
      let '(loc, view) := st in
      let ix_ := (i - bx + k0) mod k0 in
      let iy_ := (j - by_ + k1) mod k1 in
      let iz_ := (k - bz + k2) mod k2 in
      let loc_ := ix_ * k1 * k2 + iy_ * k2 + iz_ in
      match
        assign_block view 0 r (loc * n) ((loc + 1) * n)
          (block K 0 r (loc_ * n) ((loc_ + 1) * n))
      with
      | Some view => inr (loc + 1, view)
      | None => inl Raised_ValueError
      end) (0, view0) = ((loc, P), None)
    ∧ has_shape r cols P
    ∧ ∀ c i j, c ∈ cells kmesh → 0 ≤ i < r → 0 ≤ j < n →
        mat_get P i (ravel kmesh c * n + j)
        = mat_get K i (ravel kmesh (cell_diff kmesh c (bx, by_, bz)) * n + j).
Proof.
  intros Hv.
  match goal with
  | |- context [for_keep ?l ?b ?s] =>
      destruct (for_keep_invariant
                  (λ done st,
                     st.1 = Z.of_nat (length done)
                     ∧ has_shape r cols st.2
                     ∧ ∀ c i j, c ∈ done → c ∈ cells kmesh →
                         0 ≤ i < r → 0 ≤ j < n →
                         mat_get st.2 i (ravel kmesh c * n + j)
                         = mat_get K i
                             (ravel kmesh (cell_diff kmesh c (bx, by_, bz)) * n
                              + j))
                  l b s) as ([loc P] & Hrun & _ & HP & Hget)
  end.
  - cbn [fst snd length]. split; [reflexivity|]. split; [exact Hv|].
    intros c i j Hc. inversion Hc.
  - intros done [[x y] z] todo [loc view] Hsplit (Hloc & Hview & Hget).
    cbn [fst snd] in Hloc, Hview, Hget.
    assert (Hx : (x, y, z) ∈ cells kmesh).
    { rewrite Hsplit. apply elem_of_app. right. left. }
    assert (Hlx : loc = ravel kmesh (x, y, z)).
    { rewrite Hloc. exact (cells_prefix_length _ _ _ _ Hsplit). }
    cbv beta iota zeta. rewrite !mod_add_modulus.
    set (src := cell_diff kmesh (x, y, z) (bx, by_, bz)).
    assert (Hsrc : src ∈ cells kmesh) by (apply cell_diff_in; exact Hx).
    change ((x - bx) mod k0 * k1 * k2 + (y - by_) mod k1 * k2
            + (z - bz) mod k2) with (ravel kmesh src).
    destruct (prim_block_bounds kmesh n _ Hn Hx) as [Hb1 Hb2].
    destruct (prim_block_bounds kmesh n _ Hn Hsrc) as [Hs1 Hs2].
    rewrite <- Hlx in Hb1, Hb2. fold cols in Hb2, Hs2.
    assert (Hblk : has_shape r n
              (block K 0 r (ravel kmesh src * n) ((ravel kmesh src + 1) * n))).
    { eapply has_shape_eq;
        [apply (has_shape_block r cols); [exact HK|lia..]|lia|lia]. }
    assert (Hold : has_shape r n (block view 0 r (loc * n) ((loc + 1) * n))).
    { eapply has_shape_eq;
        [apply (has_shape_block r cols); [exact Hview|lia..]|lia|lia]. }
    unfold assign_block.
    rewrite decide_True by (eapply same_shape_has_shape; eassumption).
    eexists. split; [reflexivity|]. cbn [fst snd].
    split; [rewrite length_app; cbn [length]; lia|].
    split; [by apply has_shape_set_block|].
    intros c i j Hc HcL Hi Hj.
    destruct (decide (loc * n ≤ ravel kmesh c * n + j < (loc + 1) * n))
      as [Hin|Hout].
    + assert (Ec : c = (x, y, z)).
      { apply (ravel_inj kmesh); [assumption..|]. rewrite <- Hlx.
        exact (block_index_unique n _ _ j Hj Hin). }
      subst c. rewrite <- Hlx.
      rewrite (mat_get_set_block_in r cols r n) by (assumption || lia).
      rewrite mat_get_block by lia.
      fold src. do 2 f_equal; lia.
    + rewrite (mat_get_set_block_out r cols r n) by (assumption || lia).
      apply elem_of_app in Hc as [Hc|Hc]; [by apply Hget|].
      apply list_elem_of_singleton in Hc. subst c.
      exfalso. apply Hout. rewrite <- Hlx. lia.
  - exists loc, P. split; [exact Hrun|]. split; [exact HP|].
    intros c i j Hc Hi Hj. by apply Hget.
Qed.

End PermutateK1Facts.

(** [_permutate_K1_tmp1] on a lattice [kmesh] of positive counts, for an
    array [K_tmp1] of [r >= 1] rows and [prod(kmesh)] blocks of [n]
    columns, and the box of index [box_id]:
    when the buffer of the object exists with at least [r] rows but fewer
    entries than [K_tmp1] has, the call is a TypeError and leaves the
    buffer as it is; in every other case it returns an array of the shape
    of [K_tmp1] whose block of the cell [c] is the block of [K_tmp1] of the
    cell [(c - box) % kmesh], and this array is the head of the memory of
    the buffer afterwards. *)
Theorem permutate_K1_tmp1_spec {F : Type} `{Numeric F} k0 k1 k2 n r
    (K_tmp1 : matrix F) (buf : option (k_buffer F)) bx by_ bz :
  0 < k0 → 0 < k1 → 0 < k2 → 0 ≤ n → 0 < r →
  let kmesh := (k0, k1, k2) in
  let cols := np_prod kmesh * n in
  has_shape r cols K_tmp1 →
  (bx, by_, bz) ∈ cells kmesh →
  let out :=
    _permutate_K1_tmp1 kmesh n buf K_tmp1 (ravel kmesh (bx, by_, bz)) in
  (buffer_too_small buf r cols → out = (buf, inl Raised_TypeError))
  ∧ (¬ buffer_too_small buf r cols →
     ∃ buf' P,
       out = (Some buf', inr P)
       ∧ has_shape r cols P
       ∧ (∀ c i j, c ∈ cells kmesh → 0 ≤ i < r → 0 ≤ j < n →
            mat_get P i (ravel kmesh c * n + j)
            = mat_get K_tmp1 i
                (ravel kmesh (cell_diff kmesh c (bx, by_, bz)) * n + j))
       ∧ take (Z.to_nat (r * cols)) (buf_data buf') = mjoin P).
Proof.
  intros Hk0 Hk1 Hk2 Hn Hr kmesh cols HK Hbox out.
  destruct (K_shape k0 k1 k2 n r K_tmp1 Hr HK) as [Hrows Hcols].
  destruct (unravel_ravel k0 k1 k2 bx by_ bz Hbox) as (E1 & E2 & E3).
  cbv zeta in E1, E2, E3.
  assert (Hcols0 : 0 ≤ cols).
  { subst cols kmesh. cbn [np_prod]. apply Z.mul_nonneg_nonneg; [|lia].
    apply Z.mul_nonneg_nonneg; [|lia]. apply Z.mul_nonneg_nonneg; lia. }
  subst out. unfold _permutate_K1_tmp1. subst kmesh. cbv beta iota zeta.
  rewrite E1, E2, E3, Hrows, Hcols. fold cols.
  split.
  - intros (b & -> & Hge & Hlt).
    rewrite bool_decide_eq_false_2 by lia.
    unfold np_view. rewrite decide_False by lia. reflexivity.
  - intros Hfits.
    set (bf := match buf with
               | Some b => if bool_decide (buf_shape0 b < r)
                           then _ else b
               | None => _
               end).
    assert (Hfit : r * cols ≤ Z.of_nat (length (buf_data bf))).
    { subst bf. destruct buf as [b|]; [|cbn; rewrite length_replicate; lia].
      destruct (decide (buf_shape0 b < r)) as [Hlt|Hge].
      - rewrite bool_decide_eq_true_2 by exact Hlt.
        cbn. rewrite length_replicate. lia.
      - rewrite bool_decide_eq_false_2 by exact Hge.
        destruct (Z.le_gt_cases (r * cols) (Z.of_nat (length (buf_data b))))
          as [?|Hsmall]; [assumption|].
        exfalso. apply Hfits. exists b. split; [reflexivity|]. lia. }
    clearbody bf.
    destruct (np_view (buf_data bf) 0 r cols) as [view|] eqn:Ev.
    2:{ unfold np_view in Ev. rewrite decide_True in Ev by lia.
        discriminate. }
    pose proof (np_view_shape _ _ _ _ _ Ev) as Hview.
    destruct (permutate_loop k0 k1 k2 n r K_tmp1 bx by_ bz Hn Hr HK
                view Hview) as (loc & P & Hrun & HP & Hget).
    lazymatch goal with
    | |- context [for_keep ?l ?b ?s] =>
        assert (E : for_keep l b s = ((loc, P), None)) by exact Hrun;
        rewrite E
    end.
    eexists _, P. split; [reflexivity|].
    split; [exact HP|]. split; [exact Hget|].
    cbn [buf_data]. apply take_app_length'. symmetry.
    by apply length_mjoin_has_shape.
Qed.

Lemma permutate_K1_tmp1_spec_witness :
  (buffer_too_small (F:=float) None 2 (np_prod (1, 2, 2) * 1) →
   _permutate_K1_tmp1 (1, 2, 2) 1 None example_K_tmp1
     (ravel (1, 2, 2) (0, 0, 1)) = (None, inl Raised_TypeError))
  ∧ (¬ buffer_too_small (F:=float) None 2 (np_prod (1, 2, 2) * 1) →
     ∃ buf' P,
       _permutate_K1_tmp1 (1, 2, 2) 1 None example_K_tmp1
         (ravel (1, 2, 2) (0, 0, 1)) = (Some buf', inr P)
       ∧ has_shape 2 (np_prod (1, 2, 2) * 1) P
       ∧ (∀ c i j, c ∈ cells (1, 2, 2) → 0 ≤ i < 2 → 0 ≤ j < 1 →
            mat_get P i (ravel (1, 2, 2) c * 1 + j)
            = mat_get example_K_tmp1 i
                (ravel (1, 2, 2) (cell_diff (1, 2, 2) c (0, 0, 1)) * 1 + j))
       ∧ take (Z.to_nat (2 * (np_prod (1, 2, 2) * 1))) (buf_data buf')
         = mjoin P).
Proof.
  apply (permutate_K1_tmp1_spec (F:=float) 1 2 2 1 2 example_K_tmp1 None
           0 0 1); try lia.
  - split; [reflexivity|repeat constructor].
  - apply elem_of_cells; simpl; lia.
Defined.

(** *** The groups of atoms of the supercell ([build_IP_local]) *)

Lemma mjoin_bind {A B : Type} (f : A → list (list B)) (l : list A) :
  mjoin (l ≫= f) = l ≫= (λ x, mjoin (f x)).
Proof.
  induction l as [|a l IH]; [reflexivity|].
  change ((a :: l) ≫= f) with (f a ++ (l ≫= f)).
  change ((a :: l) ≫= λ x, mjoin (f x))
    with (mjoin (f a) ++ (l ≫= λ x, mjoin (f x))).
  rewrite join_app, IH. reflexivity.
Qed.

Lemma mjoin_fmap_fmap {A B : Type} (h : A → B) (g : list (list A)) :
  mjoin ((λ data : list A, h <$> data) <$> g) = h <$> mjoin g.
Proof.
  induction g as [|d g IH]; [reflexivity|].
  change (mjoin ((λ data : list A, h <$> data) <$> d :: g))
    with ((h <$> d) ++ mjoin ((λ data : list A, h <$> data) <$> g)).
  change (mjoin (d :: g)) with (d ++ mjoin g).
  rewrite IH, fmap_app. reflexivity.
Qed.

Lemma blocks_range (N : nat) (n : Z) :
  0 ≤ n →
  (i ← seq 0 N; (λ a, a + Z.of_nat i * n) <$> range n)
  = range (Z.of_nat N * n).
Proof.
  intros Hn. induction N as [|N IH]; [reflexivity|].
  rewrite seq_S, bind_app, IH. cbn [plus].
  change ([N] ≫= λ i, (λ a, a + Z.of_nat i * n) <$> range n)
    with (((λ a, a + Z.of_nat N * n) <$> range n) ++ []).
  rewrite app_nil_r. unfold range.
  replace (Z.of_nat (S N) * n) with (Z.of_nat N * n + n) by lia.
  rewrite seqZ_app by nia. f_equal.
  transitivity (Z.add (Z.of_nat N * n) <$> seqZ 0 n);
    [apply list_fmap_ext; intros; lia|].
  rewrite fmap_add_seqZ. f_equal; lia.
Qed.

Lemma groups_disjoint {A : Type} (gg : list (list A)) i j d d' a :
  NoDup (mjoin gg) → gg !! i = Some d → gg !! j = Some d' →
  a ∈ d → a ∈ d' → i = j.
Proof.
  revert i j. induction gg as [|d0 gg IH]; intros i j Hnd Hi Hj Ha Ha';
    [discriminate|].
  change (mjoin (d0 :: gg)) with (d0 ++ mjoin gg) in Hnd.
  apply NoDup_app in Hnd as (_ & Hdis & Hnd).
  assert (Hin : ∀ k dk, gg !! k = Some dk → a ∈ dk → a ∈ mjoin gg).
  { intros k dk Hk Hak. apply list_elem_of_join. exists dk.
    split; [exact Hak|]. by eapply list_elem_of_lookup_2. }
  destruct i as [|i], j as [|j]; cbn in Hi, Hj.
  - reflexivity.
  - injection Hi as ->. exfalso. eapply Hdis; [exact Ha|]. by eapply Hin.
  - injection Hj as ->. exfalso. eapply Hdis; [exact Ha'|]. by eapply Hin.
  - f_equal. by eapply IH.
Qed.

Lemma group_check (g : list (list Z)) (n acc : Z) :
  (∀ data a, data ∈ g → a ∈ data → a < n) →
  for_raised g (λ data natm_involved,
    and_then
      (for_raised data (λ atm_id _, assert_that (bool_decide (atm_id < n)))
         tt)
      (λ _, inr (natm_involved + Z.of_nat (length data)))) acc
  = inr (acc + Z.of_nat (length (mjoin g))).
Proof.
  revert acc. induction g as [|d g IH]; intros acc Hg.
  - cbn. f_equal. lia.
  - rewrite for_raised_cons.
    assert (Hd : for_raised d
              (λ atm_id _, assert_that (bool_decide (atm_id < n))) tt
              = inr tt).
    { apply for_raised_checks, Forall_forall. intros a Ha.
      rewrite bool_decide_eq_true_2; [reflexivity|].
      eapply Hg; [left|exact Ha]. }
    rewrite Hd. cbn [and_then].
    rewrite IH by (intros data a Hdata; apply Hg; by right).
    change (mjoin (d :: g)) with (d ++ mjoin g). rewrite length_app.
    f_equal. lia.
Qed.

Lemma shift_loop {A : Type} (l : list A) (g : list (list Z)) (n : Z)
    gg0 ord0 s0 :
  fold_left (λ (st : list (list Z) * list Z * Z) (_ : A),
    let '(group_global, atm_ordering, shift) := st in
    let '(group_global, atm_ordering) :=
      fold_left (λ st data,
        let '(group_global, atm_ordering) := st in
        (group_global ++ [add_scalar shift data],
         atm_ordering ++ add_scalar shift data))
        g (group_global, atm_ordering) in
    (group_global, atm_ordering, shift + n)) l (gg0, ord0, s0)
  = (gg0 ++ (i ← seq 0 (length l);
             add_scalar (s0 + Z.of_nat i * n) <$> g),
     ord0 ++ mjoin (i ← seq 0 (length l);
                    add_scalar (s0 + Z.of_nat i * n) <$> g),
     s0 + Z.of_nat (length l) * n).
Proof.
  revert gg0 ord0 s0. induction l as [|x l IH]; intros gg0 ord0 s0.
  - cbn. rewrite !app_nil_r. f_equal. lia.
  - cbn [fold_left length].
    assert (Hin : ∀ (h : list Z → list Z) gs gg ord,
              fold_left (λ (st : list (list Z) * list Z) data,
                let '(group_global, atm_ordering) := st in
                (group_global ++ [h data], atm_ordering ++ h data))
                gs (gg, ord)
              = (gg ++ (h <$> gs), ord ++ mjoin (h <$> gs))).
    { intros h gs. induction gs as [|d gs IHg]; intros gg ord.
      - cbn. by rewrite !app_nil_r.
      - cbn [fold_left]. rewrite IHg.
        change (mjoin (h <$> d :: gs)) with (h d ++ mjoin (h <$> gs)).
        rewrite fmap_cons, <- !app_assoc. reflexivity. }
    rewrite (Hin (add_scalar s0)). rewrite IH.
    change (seq 0 (S (length l))) with (0%nat :: seq 1 (length l)).
    rewrite <- fmap_S_seq.
    change ((0%nat :: (S <$> seq 0 (length l))) ≫= ?f)
      with (f 0%nat ++ ((S <$> seq 0 (length l)) ≫= f)).
    rewrite bind_fmap_l, join_app, <- !app_assoc.
    replace (s0 + Z.of_nat 0 * n) with s0 by lia.
    assert (E : (seq 0 (length l) ≫= λ i : nat,
                   add_scalar (s0 + n + Z.of_nat i * n) <$> g)
                = (seq 0 (length l) ≫= λ i : nat,
                     add_scalar (s0 + Z.of_nat (S i) * n) <$> g)).
    { apply bind_ext_in. intros i _. do 2 f_equal. lia. }
    rewrite E. f_equal. lia.
Qed.

Lemma range_prefix n done x todo :
  range n = done ++ x :: todo → x = Z.of_nat (length done) ∧ x < n.
Proof.
  intros E. assert (Hx : range n !! length done = Some x).
  { rewrite E. rewrite lookup_app_r by lia.
    by rewrite Nat.sub_diag. }
  unfold range in Hx. apply lookup_seqZ in Hx. lia.
Qed.

Lemma assign_groups (gg : list (list Z)) (natm : Z) (m0 : list Z) :
  NoDup (mjoin gg) → (∀ a, a ∈ mjoin gg → 0 ≤ a < natm) →
  Z.of_nat (length m0) = natm → Z.of_nat (length gg) ≤ 2 ^ 31 →
  ∃ m,
    for_ (range (Z.of_nat (length gg))) (λ i m,
      for_ (default [] (gg !! Z.to_nat i))
        (λ atm_id m, py_assign m atm_id (int32 i)) m) m0 = Some m
    ∧ Z.of_nat (length m) = natm
    ∧ ∀ i data a, gg !! i = Some data → a ∈ data →
        m !! Z.to_nat a = Some (Z.of_nat i).
Proof.
  intros Hnd Hrange Hlen Hfit.
  assert (Hin : ∀ i data a, gg !! i = Some data → a ∈ data → a ∈ mjoin gg).
  { intros i data a Hi Ha. apply list_elem_of_join. exists data.
    split; [exact Ha|]. by eapply list_elem_of_lookup_2. }
  destruct (for_invariant
              (λ done m,
                 Z.of_nat (length m) = natm
                 ∧ ∀ i data a, (i < length done)%nat → gg !! i = Some data →
                     a ∈ data → m !! Z.to_nat a = Some (Z.of_nat i))
              (range (Z.of_nat (length gg)))
              (λ i m, for_ (default [] (gg !! Z.to_nat i))
                        (λ atm_id m, py_assign m atm_id (int32 i)) m) m0)
    as (m & Hrun & Hm & Hget).
  - split; [exact Hlen|]. intros i data a Hi. cbn in Hi. lia.
  - intros done x todo m1 Hsplit [Hm1 Hget1].
    destruct (range_prefix _ _ _ _ Hsplit) as [Hx HxL].
    destruct (lookup_lt_is_Some_2 gg (length done)) as [dx Hdx]; [lia|].
    replace (Z.to_nat x) with (length done) by lia. rewrite Hdx.
    cbn [default].
    destruct (for_invariant
                (λ pre m,
                   Z.of_nat (length m) = natm
                   ∧ (∀ i data a, (i < length done)%nat →
                        gg !! i = Some data → a ∈ data →
                        m !! Z.to_nat a = Some (Z.of_nat i))
                   ∧ ∀ a, a ∈ pre → m !! Z.to_nat a = Some x)
                dx (λ atm_id m, py_assign m atm_id (int32 x)) m1)
      as (m2 & Hrun2 & Hm2 & Hold & Hnew).
    + split; [exact Hm1|]. split; [exact Hget1|].
      intros a Ha. inversion Ha.
    + intros pre a' post m Hdxs (Hmlen & Hold & Hnew).
      assert (Ha' : a' ∈ dx)
        by (rewrite Hdxs; apply elem_of_app; right; left).
      pose proof (Hrange a' (Hin _ _ _ Hdx Ha')) as Hb.
      rewrite py_assign_nonneg by lia.
      rewrite int32_small by lia.
      eexists. split; [reflexivity|].
      split; [rewrite length_insert; exact Hmlen|]. split.
      * intros i data a Hi Hdata Ha.
        rewrite list_lookup_insert_ne; [by eapply Hold|].
        intros E. pose proof (Hrange a (Hin _ _ _ Hdata Ha)) as Hb2.
        assert (a' = a) by lia. subst a'.
        pose proof (groups_disjoint gg _ _ _ _ _ Hnd Hdata Hdx Ha Ha').
        lia.
      * intros a Ha. apply elem_of_app in Ha as [Ha|Ha].
        -- destruct (decide (a = a')) as [->|Hne].
           ++ apply list_lookup_insert_eq. lia.
           ++ rewrite list_lookup_insert_ne; [by apply Hnew|].
              intros E. apply Hne.
              assert (a ∈ dx)
                by (rewrite Hdxs; apply elem_of_app; by left).
              pose proof (Hrange a (Hin _ _ _ Hdx H)). lia.
        -- apply list_elem_of_singleton in Ha. subst a.
           apply list_lookup_insert_eq. lia.
    + exists m2. split; [exact Hrun2|]. split; [exact Hm2|].
      intros i data a Hi Hdata Ha. rewrite length_app in Hi. cbn in Hi.
      destruct (decide (i = length done)) as [->|Hne].
      * rewrite Hdx in Hdata. injection Hdata as <-.
        rewrite (Hnew a Ha). f_equal. lia.
      * apply (Hold i data a); [lia|assumption..].
  - exists m. split; [exact Hrun|]. split; [exact Hm|].
    intros i data a Hdata Ha. apply (Hget i data a); [|assumption..].
    unfold range. rewrite length_seqZ.
    pose proof (lookup_lt_Some _ _ _ Hdata). lia.
Qed.

Lemma default_group n :
  fold_left (λ (group : list (list Z)) i, group ++ [[i]]) (range n) []
  = (λ i, [i]) <$> range n.
Proof.
  rewrite (fold_left_app_bind (λ i, [[i]]) (range n) []).
  cbn [app]. apply bind_singleton_fmap.
Qed.

Lemma mjoin_singletons (l : list Z) : mjoin ((λ i, [i]) <$> l) = l.
Proof.
  induction l as [|a l IH]; [reflexivity|].
  change (mjoin ((λ i, [i]) <$> a :: l))
    with ([a] ++ mjoin ((λ i, [i]) <$> l)).
  by rewrite IH.
Qed.

(** The first statements of [build_IP_local] on a lattice [kmesh] of
    positive counts and a supercell of [natm = prod(kmesh) * natmPrim]
    atoms (at most 2^31), with [first_natm = natmPrim], for the default
    [group] or a [group] that lists every atom of the primitive cell once
    in at most [natmPrim] groups: no assertion fails and no index is out of
    range.  [group_global] holds the groups box after box, the group [i]
    of the box [k] being [group[i] + k * natmPrim];  [atm_ordering] is
    [group_global] flattened and lists every atom of the supercell once
    (for the default [group] it is [0, 1, ..., natm - 1]);
    [atm_id_2_group[a]] is the index in [group_global] of the group that
    holds the atom [a]. *)
Theorem build_IP_local_groups_spec natmPrim k0 k1 k2
    (group : option (list (list Z))) :
  0 < k0 → 0 < k1 → 0 < k2 → 0 ≤ natmPrim →
  np_prod (k0, k1, k2) * natmPrim ≤ 2 ^ 31 →
  (∀ g, group = Some g →
     mjoin g ≡ₚ range natmPrim ∧ Z.of_nat (length g) ≤ natmPrim) →
  let kmesh := (k0, k1, k2) in
  let natm := np_prod kmesh * natmPrim in
  ∃ g group_global atm_ordering atm_id_2_group,
    build_IP_local_groups natmPrim natmPrim natm kmesh group
    = inr (g, group_global, atm_ordering, atm_id_2_group)
    ∧ g = default ((λ i, [i]) <$> range natmPrim) group
    ∧ (∀ k i data, 0 ≤ k < np_prod kmesh → g !! i = Some data →
         group_global !! (Z.to_nat k * length g + i)%nat
         = Some ((λ a, a + k * natmPrim) <$> data))
    ∧ atm_ordering = mjoin group_global
    ∧ atm_ordering ≡ₚ range natm
    ∧ (group = None → atm_ordering = range natm)
    ∧ Z.of_nat (length atm_id_2_group) = natm
    ∧ ∀ i data a, group_global !! i = Some data → a ∈ data →
        atm_id_2_group !! Z.to_nat a = Some (Z.of_nat i).
Proof.
  intros Hk0 Hk1 Hk2 Hn Hfit Hgroup kmesh natm.
  set (g := default ((λ i, [i]) <$> range natmPrim) group).
  assert (Hg : mjoin g ≡ₚ range natmPrim ∧ Z.of_nat (length g) ≤ natmPrim).
  { subst g. destruct group as [g|]; [by apply Hgroup|]. cbn [default].
    rewrite mjoin_singletons, length_fmap. unfold range.
    rewrite length_seqZ. split; [reflexivity|lia]. }
  destruct Hg as [Hperm Hlen].
  assert (Hmem : ∀ data a, data ∈ g → a ∈ data → 0 ≤ a < natmPrim).
  { intros data a Hd Ha.
    assert (Hin : a ∈ mjoin g)
      by (apply list_elem_of_join; exists data; by split).
    rewrite Hperm in Hin. unfold range in Hin.
    apply elem_of_seqZ in Hin. lia. }
  assert (HN : Z.of_nat (length (cells kmesh)) = np_prod kmesh).
  { assert (H0 : (0, 0, 0) ∈ cells kmesh)
      by (apply elem_of_cells; cbn; lia).
    rewrite length_cells by (intros E; rewrite E in H0; inversion H0).
    pose proof (ravel_bounds _ _ H0). lia. }
  assert (HNpos : 0 < np_prod kmesh).
  { subst kmesh. cbn [np_prod]. apply Z.mul_pos_pos; [|lia].
    apply Z.mul_pos_pos; lia. }
  assert (Hfit' : natm ≤ 2 ^ 31) by exact Hfit.
  assert (Hsmall : natmPrim ≤ natm) by (subst natm; nia).
  set (gg := seq 0 (length (cells kmesh)) ≫= λ i : nat,
               (λ data : list Z, (λ a, a + (0 + Z.of_nat i * natmPrim)) <$> data)
                 <$> g).
  assert (Hadd : (seq 0 (length (cells kmesh)) ≫= λ i : nat,
                    add_scalar (0 + Z.of_nat i * natmPrim) <$> g) = gg).
  { subst gg. apply bind_ext_in. intros i Hi. apply elem_of_seq in Hi.
    apply list_fmap_ext. intros j data Hd. unfold add_scalar.
    assert (Hs : 0 ≤ Z.of_nat i * natmPrim
                 ∧ Z.of_nat i * natmPrim + natmPrim ≤ natm)
      by (subst natm; nia).
    assert (Hs' : Z.of_nat i * natmPrim < 2 ^ 31).
    { destruct (decide (natmPrim = 0)) as [->|]; lia. }
    rewrite decide_True by lia. apply list_fmap_ext. intros k a Ha.
    apply int32_small.
    pose proof (Hmem data a (list_elem_of_lookup_2 _ _ _ Hd)
                  (list_elem_of_lookup_2 _ _ _ Ha)).
    lia. }
  assert (Hjoin : mjoin gg
            = (i ← seq 0 (length (cells kmesh));
               (λ a, a + Z.of_nat i * natmPrim) <$> mjoin g)).
  { subst gg. rewrite mjoin_bind. apply bind_ext_in. intros i _.
    rewrite mjoin_fmap_fmap. apply list_fmap_ext. intros; lia. }
  assert (Hord : mjoin gg ≡ₚ range natm).
  { rewrite Hjoin. subst natm. rewrite <- HN.
    rewrite <- blocks_range by exact Hn.
    apply bind_Permutation_ext. intros i. by rewrite Hperm. }
  assert (Hbound : ∀ a, a ∈ mjoin gg → 0 ≤ a < natm).
  { intros a Ha. rewrite Hord in Ha. unfold range in Ha.
    apply elem_of_seqZ in Ha. lia. }
  assert (Hgg : Z.of_nat (length gg) = np_prod kmesh * Z.of_nat (length g)).
  { subst gg. rewrite (length_bind_const _ _ (length g))
      by (intros; apply length_fmap).
    rewrite length_seq. lia. }
  destruct (assign_groups gg natm (replicate (Z.to_nat natm) 0))
    as (a2g & Hrun & Ha2g & Hget).
  { rewrite Hord. apply NoDup_seqZ. }
  { exact Hbound. }
  { rewrite length_replicate. lia. }
  { rewrite Hgg. transitivity (np_prod kmesh * natmPrim);
      [apply Z.mul_le_mono_nonneg_l; lia|exact Hfit]. }
  exists g, gg, (mjoin gg), a2g.
  split.
  { unfold build_IP_local_groups.
    replace (match group with
             | Some group0 => group0
             | None => fold_left (λ group0 i, group0 ++ [[i]])
                         (range natmPrim) []
             end) with g
      by (subst g; destruct group; [reflexivity|by rewrite default_group]).
    rewrite group_check by (intros data a Hd Ha; by apply (Hmem data)).
    cbn [and_then].
    assert (Hl : Z.of_nat (length (mjoin g)) = natmPrim).
    { rewrite Hperm. unfold range. rewrite length_seqZ. lia. }
    rewrite bool_decide_eq_true_2 by lia. cbn [and_then assert_that].
    replace ((λ data : list Z, int32 <$> data) <$> g) with g.
    2:{ rewrite <- (list_fmap_id g) at 1. apply list_fmap_ext.
        intros i data Hd. cbn. symmetry. apply fmap_int32_small.
        apply Forall_forall. intros a Ha.
        pose proof (Hmem data a (list_elem_of_lookup_2 _ _ _ Hd) Ha).
        lia. }
    rewrite bool_decide_eq_true_2 by exact Hlen.
    cbn [and_then assert_that].
    rewrite loop_cells_flat.
    rewrite (shift_loop (cells kmesh) g natmPrim [] [] 0).
    cbn [app]. rewrite Hadd.
    rewrite bool_decide_eq_true_2 by lia. cbn [negb].
    rewrite Hrun.
    rewrite fmap_int32_small; [reflexivity|].
    apply Forall_forall. intros a Ha. apply Hbound in Ha. lia. }
  split; [reflexivity|].
  split.
  { intros k i data Hk Hi. subst gg.
    rewrite (lookup_bind_const _ _ (length g))
      by ((intros; apply length_fmap) || (by eapply lookup_lt_Some)).
    rewrite lookup_seq_lt by lia. cbn.
    rewrite list_lookup_fmap, Hi. cbn. f_equal.
    apply list_fmap_ext. intros; lia. }
  split; [reflexivity|].
  split; [exact Hord|].
  split.
  { intros ->. rewrite Hjoin. subst g. cbn [default].
    rewrite mjoin_singletons. subst natm. rewrite <- HN.
    by apply blocks_range. }
  split; [exact Ha2g|exact Hget].
Qed.

Lemma build_IP_local_groups_spec_witness :
  ∃ g group_global atm_ordering atm_id_2_group,
    build_IP_local_groups 3 3 (np_prod (1, 1, 2) * 3) (1, 1, 2)
      (Some example_group)
    = inr (g, group_global, atm_ordering, atm_id_2_group)
    ∧ g = default ((λ i, [i]) <$> range 3) (Some example_group)
    ∧ (∀ k i data, 0 ≤ k < np_prod (1, 1, 2) → g !! i = Some data →
         group_global !! (Z.to_nat k * length g + i)%nat
         = Some ((λ a, a + k * 3) <$> data))
    ∧ atm_ordering = mjoin group_global
    ∧ atm_ordering ≡ₚ range (np_prod (1, 1, 2) * 3)
    ∧ (Some example_group = None →
       atm_ordering = range (np_prod (1, 1, 2) * 3))
    ∧ Z.of_nat (length atm_id_2_group) = np_prod (1, 1, 2) * 3
    ∧ ∀ i data a, group_global !! i = Some data → a ∈ data →
        atm_id_2_group !! Z.to_nat a = Some (Z.of_nat i).
Proof.
  apply (build_IP_local_groups_spec 3 1 1 2 (Some example_group));
    try lia; [vm_compute; discriminate|].
  intros g [= <-]. split; [|vm_compute; discriminate].
  apply (bool_decide_unpack (mjoin example_group ≡ₚ range 3)).
  vm_compute. exact I.
Defined.
